(** * Tera: split keys, SST garbage collection and the client routing cache

    A shallow embedding of the parts of the Tera sources that decide which
    files the master may delete ([master/gc_strategy.cc]), how the client
    resolves a row key to a tablet server and batches its requests
    ([sdk/table_impl.cc]), and of the split-key computation exercised by
    [io/test/tablet_io_test.cc].

    Conventions.
    - A [std::string] is a [string]; bytes compare as unsigned characters,
      so [operator<] is [String.ltb] and [operator<=] is [String.leb].
    - A [std::map<std::string, V>] is a [gmap string V]; its iterators are
      [option string] ([None] is [end()]), moved with [upper_bound],
      [lower_bound] and [prev_it] along the byte order of the keys.
    - A [std::set<uint64_t>] is a [gset Z].
    - Calls into the thread pool and the RPC layer are recorded in an event
      log carried by the state. *)

From Stdlib Require Import ZArith String Ascii List Lia Bool.
From Stdlib Require Import Orders OrdersTac.
From stdpp Require Import gmap strings list fin_maps sorting.

Open Scope string_scope.
Open Scope Z_scope.

(** ** Byte strings *)

Definition byte_val (c : ascii) : Z := Z.of_N (N_of_ascii c).

Definition byte_of (v : Z) : ascii := ascii_of_N (Z.to_N (v mod 256)).

(** [std::string::resize(n, c)]: cut to [n] bytes or pad with [c]. *)
Fixpoint resize (n : nat) (c : ascii) (s : string) : string :=
  match n with
  | O => ""
  | S n' =>
      match s with
      | "" => String c (resize n' c "")
      | String a s' => String a (resize n' c s')
      end
  end.

(** The order of [std::string]'s comparison operators. *)
Definition slt (a b : string) : Prop := String.ltb a b = true.
Definition sle (a b : string) : Prop := String.leb a b = true.

(** [s.empty()] *)
Definition empty (s : string) : bool := String.eqb s "".

(** [k] bytes 0x00. *)
Definition zeros (k : nat) : string := resize k zero "".

(** [row + '\0'] *)
Definition append0 (s : string) : string := s +:+ String zero "".

Module TabletIO.

(** A key read as a number in base 256, most significant byte first. *)
Fixpoint key_value (s : string) : Z :=
  match s with
  | "" => 0
  | String c s' => byte_val c * 256 ^ Z.of_nat (String.length s') + key_value s'
  end.

(** The [n]-byte key of a number below [256 ^ n]. *)
Fixpoint key_of_value (n : nat) (v : Z) : string :=
  match n with
  | O => ""
  | S n' =>
      String (byte_of (v / 256 ^ Z.of_nat n'))
             (key_of_value n' (v mod 256 ^ Z.of_nat n'))
  end.

(** Index of the first byte at which two keys differ. *)
Fixpoint diff_pos (s e : string) : nat :=
  match s, e with
  | String a s', String b e' => if Ascii.eqb a b then S (diff_pos s' e') else O
  | _, _ => O
  end.

(** The shortest prefix of [ave] of at least [k] bytes that is above
    [start]; [n] is the number of bytes of [ave] after the first [k]. *)
Fixpoint shortest_above (start ave : string) (k n : nat) : string :=
  match n with
  | O => substring 0 k ave
  | S n' =>
      if String.ltb start (substring 0 k ave) then substring 0 k ave
      else shortest_above start ave (S k) n'
  end.

(** Modelled from the spec: [TabletIO::FindAverageKey] (io/tablet_io.cc is
    not among the sources; only its test is).  The keys are read as base-256
    fractions: [start] is padded with 0x00, an empty [end] (plus infinity)
    becomes 0xFF bytes one longer than [start], and both are padded with
    0x00 to one byte more than the longer of the two.  When the padded
    [start] is not below the padded [end] there is no differing byte to
    average and the call fails ([None] is the [false] return).  Otherwise
    the two numbers are averaged, the remainder of the first differing byte
    carrying down into the following bytes, and the result is cut after the
    averaged byte, or after as many further bytes as it takes to be above
    [start].  This gives every value the test requires; for ["", "b"] it
    gives the one byte ["1"], which the test reads together with the
    terminating NUL of the C++ string. *)
Definition FindAverageKey (start end_ : string) : option string :=
  let e0 := if empty end_
            then resize (S (String.length start)) "255"%char ""
            else end_ in
  let max_len := S (Nat.max (String.length start) (String.length e0)) in
  let s := resize max_len zero start in
  let e := resize max_len zero e0 in
  if String.ltb s e then
    let ave := key_of_value max_len ((key_value s + key_value e) / 2) in
    let d := diff_pos s e in
    Some (shortest_above start ave (S d) (max_len - S d))
  else None.

End TabletIO.

(** ** Protocol messages (the fields the modelled code reads) *)

Module LgInheritedLiveFiles.
Record t := { lg_no : Z; file_number : list Z }.
End LgInheritedLiveFiles.

Module InheritedLiveFiles.
Record t := { table_name : string;
              lg_live_files : list LgInheritedLiveFiles.t }.
End InheritedLiveFiles.

Module KeyRange.
Record t := { key_start : string; key_end : string }.
End KeyRange.

Module TabletMeta.
Record t := { table_name : string;
              path : string;
              key_range : KeyRange.t;
              server_addr : string }.
Definition set_key_start (m : t) (k : string) : t :=
  {| table_name := table_name m; path := path m;
     key_range := {| KeyRange.key_start := k;
                     KeyRange.key_end := KeyRange.key_end (key_range m) |};
     server_addr := server_addr m |}.
Definition set_key_end (m : t) (k : string) : t :=
  {| table_name := table_name m; path := path m;
     key_range := {| KeyRange.key_start := KeyRange.key_start (key_range m);
                     KeyRange.key_end := k |};
     server_addr := server_addr m |}.
(** A default-constructed message. *)
Definition empty_meta : t :=
  {| table_name := ""; path := "";
     key_range := {| KeyRange.key_start := ""; KeyRange.key_end := "" |};
     server_addr := "" |}.
End TabletMeta.

Module QueryResponse.
Record t := { inh_live_files : list InheritedLiveFiles.t;
              tabletmeta_list : list TabletMeta.t }.
End QueryResponse.

(** A file on the distributed file system, as [BuildTableFilePath] names
    it: table, locality group, full file number. *)
Abbreviation SstFile := (string * Z * Z)%type.

(** ** master/gc_strategy.cc: the batch strategy *)

Module BatchGcStrategy.

(** [GcFileSet]: one set of file numbers per locality group. *)
Abbreviation GcFileSet := (list (gset Z)).

(** [GcTabletSet]: the live tablets not heard from yet, the dead tablets. *)
Abbreviation GcTabletSet := (gset Z * gset Z)%type.

Record t := {
  gc_tablets_ : gmap string GcTabletSet;
  gc_live_files_ : gmap string GcFileSet
}.

Section WithPaths.
(** [leveldb::GetTabletNumFromPath] *)
Variable GetTabletNumFromPath : string -> Z.

(** First loop of [ProcessQueryCallbackForGc]: the tables that report
    inherited files. *)
Definition gc_table_set (response : QueryResponse.t) : gset string :=
  list_to_set (InheritedLiveFiles.table_name <$> QueryResponse.inh_live_files response).

(** Second loop: a live tablet seen in the response is erased from the
    tablets still awaited. *)
Definition erase_live_tablet (tables : gset string)
    (tablets : gmap string GcTabletSet) (meta : TabletMeta.t)
    : gmap string GcTabletSet :=
  let name := TabletMeta.table_name meta in
  if bool_decide (is_Some (tablets !! name)) && bool_decide (name ∈ tables) then
    let tabletnum := GetTabletNumFromPath (TabletMeta.path meta) in
    alter (fun p => (fst p ∖ {[ tabletnum ]}, snd p)) name tablets
  else tablets.

(** [file_set[lg].erase(n)] for every number [n] of locality group [lg]. *)
Definition erase_files (lg : nat) (numbers : list Z) (file_set : GcFileSet)
    : GcFileSet :=
  foldl (fun fs n => alter (fun s => s ∖ {[ n ]}) lg fs) file_set numbers.

(** The loop over [lg = 0 .. lg_num - 1]. *)
Fixpoint erase_from (lg : nat) (lgs : list LgInheritedLiveFiles.t)
    (file_set : GcFileSet) : GcFileSet :=
  match lgs with
  | [] => file_set
  | l :: rest =>
      erase_from (S lg) rest
        (erase_files lg (LgInheritedLiveFiles.file_number l) file_set)
  end.

(** Third loop, one [InheritedLiveFiles]; [None] is the failed [CHECK] on
    the number of locality groups, which stops the master. *)
Definition erase_inherited (files : gmap string GcFileSet)
    (live : InheritedLiveFiles.t) : option (gmap string GcFileSet) :=
  let name := InheritedLiveFiles.table_name live in
  match files !! name with
  | None => Some files
  | Some file_set =>
      let lgs := InheritedLiveFiles.lg_live_files live in
      if bool_decide (length lgs = length file_set)
      then Some (<[ name := erase_from 0 lgs file_set ]> files)
      else None
  end.

Fixpoint erase_all_inherited (files : gmap string GcFileSet)
    (lives : list InheritedLiveFiles.t) : option (gmap string GcFileSet) :=
  match lives with
  | [] => Some files
  | live :: rest =>
      match erase_inherited files live with
      | None => None
      | Some files' => erase_all_inherited files' rest
      end
  end.

Definition ProcessQueryCallbackForGc (response : QueryResponse.t) (st : t)
    : option t :=
  let tables := gc_table_set response in
  let tablets := foldl (erase_live_tablet tables) (gc_tablets_ st)
                       (QueryResponse.tabletmeta_list response) in
  match erase_all_inherited (gc_live_files_ st)
          (QueryResponse.inh_live_files response) with
  | None => None
  | Some files => Some {| gc_tablets_ := tablets; gc_live_files_ := files |}
  end.

(** The files [DeleteObsoleteFiles] hands to [env->DeleteFile]: every
    number left in [gc_live_files_].  The list holds them once each; the
    order of the calls within the round is not represented. *)
Definition DeleteObsoleteFiles (st : t) : list SstFile :=
  '(name, file_set) ← map_to_list (gc_live_files_ st);
  '(lg, numbers) ← imap (fun lg s => (lg, s)) file_set;
  n ← elements (numbers : gset Z);
  [ (name, Z.of_nat lg, n) ].

(** [PostQuery]: nothing is deleted while a live tablet has not answered. *)
Definition PostQuery (st : t) : list SstFile :=
  if bool_decide (map_Forall (fun _ (p : GcTabletSet) => fst p = ∅) (gc_tablets_ st))
  then DeleteObsoleteFiles st
  else [].

(** The query callbacks of one round, in the order they arrive. *)
Fixpoint ProcessQueryCallbacks (responses : list QueryResponse.t) (st : t)
    : option t :=
  match responses with
  | [] => Some st
  | r :: rest =>
      match ProcessQueryCallbackForGc r st with
      | None => None
      | Some st' => ProcessQueryCallbacks rest st'
      end
  end.

End WithPaths.

(** The files a response claims as inherited, named as the callback names
    them: the table, the position of the locality group in the message,
    the file number. *)
Definition reported (response : QueryResponse.t) (f : SstFile) : Prop :=
  exists (live : InheritedLiveFiles.t) (lg : nat) (l : LgInheritedLiveFiles.t),
    live ∈ QueryResponse.inh_live_files response /\
    InheritedLiveFiles.lg_live_files live !! lg = Some l /\
    snd f ∈ LgInheritedLiveFiles.file_number l /\
    f = (InheritedLiveFiles.table_name live, Z.of_nat lg, snd f).

End BatchGcStrategy.

(** ** master/gc_strategy.cc: the incremental strategy *)

(** What the strategies ask of the file system. *)
Inductive EnvOp :=
  | DeleteFile (f : SstFile)
  | DeleteLgDir (table : string) (tablet lg : Z)
  | DeleteTabletDir (table : string) (tablet : Z).

(** A loop that can be cut short by [assert(0)]: the state so far, the file
    system calls made so far, and whether the assertion has fired. *)
Record Run (A : Type) := MkRun {
  run_state : A;
  run_ops : list EnvOp;
  run_aborted : bool
}.
Arguments MkRun {A} _ _ _.
Arguments run_state {A} _.
Arguments run_ops {A} _.
Arguments run_aborted {A} _.

Definition run_ret {A} (a : A) : Run A := MkRun a [] false.

(** Sequencing: nothing runs after the assertion has fired. *)
Definition run_bind {A B} (r : Run A) (f : A -> Run B) (dflt : A -> B) : Run B :=
  if run_aborted r then MkRun (dflt (run_state r)) (run_ops r) true
  else let r' := f (run_state r) in
       MkRun (run_state r') (run_ops r ++ run_ops r') (run_aborted r').

Definition run_foldl {A K} (step : A -> K -> Run A) (ks : list K) (a : A) : Run A :=
  foldl (fun r k => run_bind r (fun a => step a k) id) (run_ret a) ks.

(** Iteration order of [std::set<uint64_t>] and of a map keyed by numbers. *)
Definition ascending (ks : list Z) : list Z := merge_sort Z.le ks.

Module IncrementalGcStrategy.

Record LgFileSet := {
  storage_files_ : gset Z;
  live_files_ : gset Z
}.

Record TabletFileSet := {
  ready_time_ : Z;
  dead_time_ : Z;
  files_ : gmap Z LgFileSet
}.

Record t := {
  dead_tablet_files_ : gmap string (gmap Z TabletFileSet);
  live_tablet_files_ : gmap string (gmap Z TabletFileSet);
  max_ts_ : Z
}.

Section WithBuild.
(** Whether [assert] is compiled in (no [NDEBUG]). *)
Variable assert_enabled : bool.

(** The first loop of [DeleteTableFiles]. *)
Definition earliest_ready_time (max_ts : Z) (live_tablets : gmap Z TabletFileSet) : Z :=
  foldl (fun e k =>
           match live_tablets !! k with
           | Some tf => if ready_time_ tf <? e then ready_time_ tf else e
           | None => e
           end)
        max_ts (ascending (elements (dom live_tablets))).

(** The second loop: the dead tablets that died before every live tablet
    was last seen ready. *)
Definition gc_tablets (earliest : Z) (dead_tablets : gmap Z TabletFileSet) : list Z :=
  ascending (elements (dom (filter (fun kv => dead_time_ (snd kv) < earliest) dead_tablets))).

(** The loop over [storage_files_] of one locality group: a file that is
    not in [live_files_] is deleted and erased from [storage_files_]. *)
Definition obsolete (lg : LgFileSet) : list Z :=
  filter (fun f => f ∉ live_files_ lg) (ascending (elements (storage_files_ lg))).

Definition sweep_lg (lg : LgFileSet) : LgFileSet :=
  {| storage_files_ := storage_files_ lg ∖ list_to_set (obsolete lg);
     live_files_ := live_files_ lg |}.

(** One round of the loop over the locality groups of a tablet. *)
Definition gc_lg (table : string) (tablet : Z)
    (lg_files : gmap Z LgFileSet) (lg_no : Z) : Run (gmap Z LgFileSet) :=
  match lg_files !! lg_no with
  | None => run_ret lg_files
  | Some lg =>
      let deletes := (fun f => DeleteFile (table, lg_no, f)) <$> obsolete lg in
      let lg' := sweep_lg lg in
      let lg_files' := <[ lg_no := lg' ]> lg_files in
      if bool_decide (storage_files_ lg' = ∅) then
        if negb (bool_decide (live_files_ lg' = ∅)) && assert_enabled
        then MkRun lg_files' deletes true
        else MkRun (delete lg_no lg_files')
                   (deletes ++ [DeleteLgDir table tablet lg_no]) false
      else MkRun lg_files' deletes false
  end.

Definition clear_live (lg : LgFileSet) : LgFileSet :=
  {| storage_files_ := storage_files_ lg; live_files_ := ∅ |}.

(** One round of the loop over [gc_tablets]; [now] is
    [get_micros() / 1000000]. *)
Definition gc_tablet (table : string) (now : Z)
    (dead_tablets : gmap Z TabletFileSet) (tablet : Z)
    : Run (gmap Z TabletFileSet) :=
  let tf := default {| ready_time_ := 0; dead_time_ := 0; files_ := ∅ |}
                    (dead_tablets !! tablet) in
  let with_files lg_files :=
    <[ tablet := {| ready_time_ := ready_time_ tf; dead_time_ := dead_time_ tf;
                    files_ := lg_files |} ]> dead_tablets in
  let r := run_foldl (gc_lg table tablet)
                     (ascending (elements (dom (files_ tf)))) (files_ tf) in
  run_bind r
    (fun lg_files =>
       if bool_decide (lg_files = ∅) then
         MkRun (delete tablet dead_tablets) [DeleteTabletDir table tablet] false
       else
         run_ret (<[ tablet := {| ready_time_ := ready_time_ tf;
                                  dead_time_ := now;
                                  files_ := clear_live <$> lg_files |} ]>
                    dead_tablets))
    with_files.

Definition DeleteTableFiles (table_name : string) (now : Z) (st : t) : Run t :=
  let dead_tablets := default ∅ (dead_tablet_files_ st !! table_name) in
  let live_tablets := default ∅ (live_tablet_files_ st !! table_name) in
  let earliest := earliest_ready_time (max_ts_ st) live_tablets in
  let r := run_foldl (gc_tablet table_name now)
                     (gc_tablets earliest dead_tablets) dead_tablets in
  MkRun {| dead_tablet_files_ := <[ table_name := run_state r ]> (dead_tablet_files_ st);
           live_tablet_files_ := <[ table_name := live_tablets ]> (live_tablet_files_ st);
           max_ts_ := max_ts_ st |}
        (run_ops r) (run_aborted r).

End WithBuild.
End IncrementalGcStrategy.

(** ** Ordered maps: the iterators of [std::map<std::string, V>] *)

(** The least and the greatest of the keys of a list that satisfy [P]. *)
Fixpoint least (P : string -> bool) (l : list string) : option string :=
  match l with
  | [] => None
  | k :: l' =>
      match least P l' with
      | None => if P k then Some k else None
      | Some k' => if P k && String.ltb k k' then Some k else Some k'
      end
  end.

Fixpoint greatest (P : string -> bool) (l : list string) : option string :=
  match l with
  | [] => None
  | k :: l' =>
      match greatest P l' with
      | None => if P k then Some k else None
      | Some k' => if P k && String.ltb k' k then Some k else Some k'
      end
  end.

(** The part of a list from its first element that fails [P]. *)
Fixpoint drop_while {A} (P : A -> bool) (l : list A) : list A :=
  match l with
  | [] => []
  | x :: l' => if P x then drop_while P l' else l
  end.

(** The part of a list before its first element that fails [P]. *)
Fixpoint take_while {A} (P : A -> bool) (l : list A) : list A :=
  match l with
  | [] => []
  | x :: l' => if P x then x :: take_while P l' else []
  end.

#[global] Instance sle_dec : RelDecision sle :=
  fun a b => decide (String.leb a b = true).

Section OrderedMap.
Context {V : Type}.

Definition keys (m : gmap string V) : list string := elements (dom m).

(** The keys in iteration order. *)
Definition sorted_keys (m : gmap string V) : list string :=
  merge_sort sle (keys m).

(** [m.begin()] *)
Definition begin_it (m : gmap string V) : option string :=
  least (fun _ => true) (keys m).

(** [m.upper_bound(key)]: the first entry whose key is above [key]. *)
Definition upper_bound (m : gmap string V) (key : string) : option string :=
  least (fun k => String.ltb key k) (keys m).

(** [m.lower_bound(key)]: the first entry whose key is not below [key]. *)
Definition lower_bound (m : gmap string V) (key : string) : option string :=
  least (fun k => String.leb key k) (keys m).

(** [++it] for an iterator at the entry of key [k]. *)
Definition next_it (m : gmap string V) (k : string) : option string :=
  upper_bound m k.

(** [--it]: the entry before [it]; [None] as a result means there is none
    (the iterator was [begin()]). *)
Definition prev_it (m : gmap string V) (it : option string) : option string :=
  greatest (fun k => match it with
                     | None => true
                     | Some i => String.ltb k i
                     end) (keys m).

(** The keys [lower_bound(lo)] and after, in iteration order. *)
Definition keys_from (m : gmap string V) (lo : string) : list string :=
  drop_while (fun k => String.ltb k lo) (sorted_keys m).

End OrderedMap.

(** [it1 == it2] *)
Definition it_eqb (a b : option string) : bool :=
  match a, b with
  | None, None => true
  | Some x, Some y => String.eqb x y
  | _, _ => false
  end.

(** ** master/gc_strategy.cc: the query round of the incremental strategy *)

(** A loop that a failed [CHECK] cuts short. *)
Fixpoint try_foldl {A K} (step : A -> K -> option A) (ks : list K) (a : A)
    : option A :=
  match ks with
  | [] => Some a
  | k :: rest =>
      match step a k with
      | None => None
      | Some a' => try_foldl step rest a'
      end
  end.

Module IncrementalGcRound.
Import IncrementalGcStrategy.

(** [TableFiles]: table name, tablet number, the files of the tablet. *)
Abbreviation TableFiles := (gmap string (gmap Z TabletFileSet)).

(** What the callback reads of [temp_tablet_files]: tablet number,
    locality group, the [live_files_] gathered for it. *)
Abbreviation LiveFiles := (gmap Z (gmap Z (gset Z))).

(** A default-constructed [LgFileSet]. *)
Definition empty_lg : LgFileSet := {| storage_files_ := ∅; live_files_ := ∅ |}.

Section WithEnv.
Variable FLAGS_tera_master_meta_table_name : string.
(** [leveldb::GetTabletNumFromPath], as the key of a tablet *)
Variable GetTabletNumFromPath : string -> Z.
(** [leveldb::ParseFullFileNumber]: the tablet number and the file number *)
Variable ParseFullFileNumber : Z -> Z * Z.
Variable assert_enabled : bool.

(** First loop of [ProcessQueryCallbackForGc]. *)
Definition ready_tables (response : QueryResponse.t) : gset string :=
  list_to_set (InheritedLiveFiles.table_name <$> QueryResponse.inh_live_files response).

(** Second loop, one tablet of the response: a live tablet the strategy
    knows is ready at [now], which is [get_micros() / 1000000]. *)
Definition see_live_tablet (now : Z) (ready : gset string)
    (live : TableFiles) (meta : TabletMeta.t) : TableFiles :=
  let table_name := TabletMeta.table_name meta in
  if String.eqb table_name FLAGS_tera_master_meta_table_name then live
  else
    match live !! table_name with
    | None => live
    | Some live_tablets =>
        if bool_decide (table_name ∈ ready) then
          let tablet_number := GetTabletNumFromPath (TabletMeta.path meta) in
          match live_tablets !! tablet_number with
          | None => live
          | Some tf =>
              <[ table_name :=
                   <[ tablet_number := {| ready_time_ := now;
                                          dead_time_ := dead_time_ tf;
                                          files_ := files_ tf |} ]> live_tablets ]> live
          end
        else live
    end.

(** Third loop, one file number of one locality group: the file of a dead
    tablet is noted in [temp_tablet_files] and must be among the stored
    files of the tablet; [None] is the failed [CHECK].  The [operator[]]
    calls on [dead_tablet_files_] and on [files_] create the entries they
    do not find. *)
Definition collect_live_file (table_name : string) (lg_no : Z)
    (acc : TableFiles * LiveFiles) (file_number : Z)
    : option (TableFiles * LiveFiles) :=
  let '(dead, temp) := acc in
  let tablet_number := fst (ParseFullFileNumber file_number) in
  let dead_tablets := default ∅ (dead !! table_name) in
  match dead_tablets !! tablet_number with
  | None => Some (<[ table_name := dead_tablets ]> dead, temp)
  | Some tf =>
      let lgs := default ∅ (temp !! tablet_number) in
      let temp' :=
        <[ tablet_number :=
             <[ lg_no := default ∅ (lgs !! lg_no) ∪ {[ file_number ]} ]> lgs ]> temp in
      let check := default empty_lg (files_ tf !! lg_no) in
      let tf' := {| ready_time_ := ready_time_ tf; dead_time_ := dead_time_ tf;
                    files_ := <[ lg_no := check ]> (files_ tf) |} in
      if bool_decide (file_number ∈ storage_files_ check)
      then Some (<[ table_name := <[ tablet_number := tf' ]> dead_tablets ]> dead, temp')
      else None
  end.

Definition collect_lg (table_name : string) (acc : TableFiles * LiveFiles)
    (lg_live_files : LgInheritedLiveFiles.t) : option (TableFiles * LiveFiles) :=
  try_foldl (collect_live_file table_name (LgInheritedLiveFiles.lg_no lg_live_files))
            (LgInheritedLiveFiles.file_number lg_live_files) acc.

(** [dead_lg.insert(...)] and the loop that copies the live files of one
    locality group. *)
Definition insert_live (live_lg : gmap Z (gset Z)) (dead_lg : gmap Z LgFileSet)
    (lg_no : Z) : gmap Z LgFileSet :=
  let l := default empty_lg (dead_lg !! lg_no) in
  <[ lg_no := {| storage_files_ := storage_files_ l;
                 live_files_ := live_files_ l ∪ default ∅ (live_lg !! lg_no) |} ]> dead_lg.

(** One round of the loop over [temp_tablet_files]. *)
Definition update_dead_tablet (temp : LiveFiles)
    (dead_tablets : gmap Z TabletFileSet) (tablet_number : Z)
    : gmap Z TabletFileSet :=
  match dead_tablets !! tablet_number with
  | None => dead_tablets
  | Some tf =>
      let live_lg := default ∅ (temp !! tablet_number) in
      <[ tablet_number :=
           {| ready_time_ := ready_time_ tf; dead_time_ := dead_time_ tf;
              files_ := foldl (insert_live live_lg) (files_ tf)
                              (ascending (elements (dom live_lg))) |} ]> dead_tablets
  end.

(** Third loop, one [InheritedLiveFiles] of the response. *)
Definition insert_live_files (live : TableFiles) (dead : TableFiles)
    (live_files : InheritedLiveFiles.t) : option TableFiles :=
  let table_name := InheritedLiveFiles.table_name live_files in
  if String.eqb table_name FLAGS_tera_master_meta_table_name then Some dead
  else if negb (bool_decide (is_Some (live !! table_name))) then Some dead
  else
    match try_foldl (collect_lg table_name)
                    (InheritedLiveFiles.lg_live_files live_files) (dead, ∅) with
    | None => None
    | Some (dead1, temp) =>
        let dead_tablets := default ∅ (dead1 !! table_name) in
        Some (<[ table_name :=
                   foldl (update_dead_tablet temp) dead_tablets
                         (ascending (elements (dom temp))) ]> dead1)
    end.

Definition ProcessQueryCallbackForGc (response : QueryResponse.t) (now : Z)
    (st : t) : option t :=
  let ready := ready_tables response in
  let live := foldl (see_live_tablet now ready) (live_tablet_files_ st)
                    (QueryResponse.tabletmeta_list response) in
  match try_foldl (insert_live_files live)
                  (QueryResponse.inh_live_files response) (dead_tablet_files_ st) with
  | None => None
  | Some dead =>
      Some {| dead_tablet_files_ := dead; live_tablet_files_ := live;
              max_ts_ := max_ts_ st |}
  end.

(** The query callbacks of one round, in the order they arrive. *)
Fixpoint ProcessQueryCallbacks (responses : list (QueryResponse.t * Z)) (st : t)
    : option t :=
  match responses with
  | [] => Some st
  | (r, now) :: rest =>
      match ProcessQueryCallbackForGc r now st with
      | None => None
      | Some st' => ProcessQueryCallbacks rest st'
      end
  end.

(** [PostQuery]: the tables of [dead_tablet_files_] in the order of their
    names. *)
Definition PostQuery (now : Z) (st : t) : Run t :=
  run_foldl (fun st table_name => DeleteTableFiles assert_enabled table_name now st)
            (sorted_keys (dead_tablet_files_ st)) st.


End WithEnv.
End IncrementalGcRound.

(** ** sdk/table_impl.cc *)

Module TableImpl.

Inductive TabletMetaStatus := NORMAL | DELAY_UPDATE | WAIT_UPDATE | UPDATING.

(** Modelled from the spec: the declaration of [TabletMetaNode]
    (sdk/table_impl.h is not among the sources): a cached meta record, its
    status and the time of its last update. *)
Record TabletMetaNode := {
  meta : TabletMeta.t;
  update_time : Z;
  status : TabletMetaStatus
}.

Definition node_start (n : TabletMetaNode) : string :=
  KeyRange.key_start (TabletMeta.key_range (meta n)).
Definition node_end (n : TabletMetaNode) : string :=
  KeyRange.key_end (TabletMeta.key_range (meta n)).

Definition set_node_start (k : string) (n : TabletMetaNode) : TabletMetaNode :=
  {| meta := TabletMeta.set_key_start (meta n) k;
     update_time := update_time n; status := status n |}.
Definition set_node_end (k : string) (n : TabletMetaNode) : TabletMetaNode :=
  {| meta := TabletMeta.set_key_end (meta n) k;
     update_time := update_time n; status := status n |}.
Definition set_node_status (s : TabletMetaStatus) (n : TabletMetaNode) : TabletMetaNode :=
  {| meta := meta n; update_time := update_time n; status := s |}.

(** The node [tablet_meta_list_[key]] creates when the key is new. *)
Definition default_node : TabletMetaNode :=
  {| meta := TabletMeta.empty_meta; update_time := 0; status := NORMAL |}.

Definition status_eqb (a b : TabletMetaStatus) : bool :=
  match a, b with
  | NORMAL, NORMAL | DELAY_UPDATE, DELAY_UPDATE
  | WAIT_UPDATE, WAIT_UPDATE | UPDATING, UPDATING => true
  | _, _ => false
  end.

Inductive StatusCode :=
  | kTabletNodeOk | kKeyNotInRange | kConnectError | kServerError
  | kClientError | kRPCTimeout | kRPCError | kTxnFail | kKeyNotExist
  | kSnapshotNotExist.

Inductive ErrorCode := kOK | kBusy | kTimeout | kSystem | kNotFound.

Inductive TaskType := READ | MUTATION | SCAN.

(** What the modelled code reads and writes of an [SdkTask] (a
    [RowMutationImpl], a [RowReaderImpl] or a [ScanTask]). *)
Record SdkTask := {
  task_type : TaskType;
  task_id : Z;
  row_key : string;
  is_async : bool;
  mutation_num : Z;
  task_size : Z;
  task_timeout : Z;
  internal_error : StatusCode;
  meta_timestamp : Z;
  error : ErrorCode
}.

Definition SetId (id : Z) (k : SdkTask) : SdkTask :=
  {| task_type := task_type k; task_id := id; row_key := row_key k;
     is_async := is_async k; mutation_num := mutation_num k;
     task_size := task_size k; task_timeout := task_timeout k;
     internal_error := internal_error k;
     meta_timestamp := meta_timestamp k; error := error k |}.

Definition SetMetaTimeStamp (ts : Z) (k : SdkTask) : SdkTask :=
  {| task_type := task_type k; task_id := task_id k; row_key := row_key k;
     is_async := is_async k; mutation_num := mutation_num k;
     task_size := task_size k; task_timeout := task_timeout k;
     internal_error := internal_error k;
     meta_timestamp := ts; error := error k |}.

Definition SetError (e : ErrorCode) (k : SdkTask) : SdkTask :=
  {| task_type := task_type k; task_id := task_id k; row_key := row_key k;
     is_async := is_async k; mutation_num := mutation_num k;
     task_size := task_size k; task_timeout := task_timeout k;
     internal_error := internal_error k;
     meta_timestamp := meta_timestamp k; error := e |}.

(** A per-server batch.  [batch_id] is not in the source: it numbers the
    batches in the order they are created, so that statements can tell two
    batches of one server apart. *)
Record TaskBatch := {
  sequence_num : Z;
  timer_id : Z;
  byte_size : Z;
  row_id_list : list Z;
  batch_id : nat
}.

(** The closures handed to the thread pool. *)
Inductive Task :=
  | MutationBatchTimeoutTask (server_addr : string) (batch_seq : Z)
  | ReaderBatchTimeoutTask (server_addr : string) (batch_seq : Z)
  | DelayUpdateMetaTask (start_key end_key : string)
  | BreakRequestTask (task_id : Z)
  | ScanMetaTableAsyncInLockTask (key_start key_end expand_key_end : string)
      (zk_access : bool).

(** The calls that leave [TableImpl]: to the thread pool, to the tablet
    servers, to the user. *)
Inductive Event :=
  | EvDelayTask (delay : Z) (timer : Z) (task : Task)
  | EvAddTask (task : Task)
  | EvCancelTask (timer : Z)
  | EvCommitMutations (server_addr : string) (batch : nat) (ids : list Z)
  | EvCommitReaders (server_addr : string) (batch : nat) (ids : list Z)
  | EvCommitScan (task_id : Z) (server_addr : string)
  | EvScanMetaTableAsync (key_start key_end expand_key_end : string)
      (zk_access : bool)
  | EvRunCallback (task_id : Z) (err : ErrorCode)
  | EvPutTask (task_id : Z) (row_timeout : Z)
  | EvWait (task_id : Z).

(** Flags and the members set once by the constructor.  [kMaxRpcSize] is a
    constant of a header that is not among the sources. *)
Record Config := {
  FLAGS_tera_sdk_update_meta_internal : Z;
  FLAGS_tera_sdk_update_meta_concurrency : Z;
  FLAGS_tera_sdk_async_blocking_enabled : bool;
  kMaxRpcSize : Z;
  commit_size_ : Z;
  write_commit_timeout_ : Z;
  read_commit_timeout_ : Z;
  max_commit_pending_num_ : Z;
  max_reader_pending_num_ : Z;
  timeout_ : Z
}.

(** The members of [TableImpl] the modelled code touches; [next_timer_id_]
    stands for the thread pool's supply of timer ids, [log] for the calls
    made so far, [aborted] for a failed [CHECK]. *)
Record t := {
  config : Config;
  mutation_batch_map_ : gmap string TaskBatch;
  mutation_batch_seq_ : Z;
  reader_batch_map_ : gmap string TaskBatch;
  reader_batch_seq_ : Z;
  tablet_meta_list_ : gmap string TabletMetaNode;
  pending_task_id_list_ : gmap string (list Z);
  meta_updating_count_ : Z;
  task_pool_ : gmap Z SdkTask;
  next_task_id_ : Z;
  cur_commit_pending_counter_ : Z;
  cur_reader_pending_counter_ : Z;
  next_timer_id_ : Z;
  batches_created : nat;
  log : list Event;
  aborted : bool
}.

Definition set_mutation_batch_map_ (v : gmap string TaskBatch) (st : t) : t :=
  {| config := config st;
     mutation_batch_map_ := v;
     mutation_batch_seq_ := mutation_batch_seq_ st;
     reader_batch_map_ := reader_batch_map_ st;
     reader_batch_seq_ := reader_batch_seq_ st;
     tablet_meta_list_ := tablet_meta_list_ st;
     pending_task_id_list_ := pending_task_id_list_ st;
     meta_updating_count_ := meta_updating_count_ st;
     task_pool_ := task_pool_ st;
     next_task_id_ := next_task_id_ st;
     cur_commit_pending_counter_ := cur_commit_pending_counter_ st;
     cur_reader_pending_counter_ := cur_reader_pending_counter_ st;
     next_timer_id_ := next_timer_id_ st;
     batches_created := batches_created st;
     log := log st;
     aborted := aborted st |}.

Definition set_mutation_batch_seq_ (v : Z) (st : t) : t :=
  {| config := config st;
     mutation_batch_map_ := mutation_batch_map_ st;
     mutation_batch_seq_ := v;
     reader_batch_map_ := reader_batch_map_ st;
     reader_batch_seq_ := reader_batch_seq_ st;
     tablet_meta_list_ := tablet_meta_list_ st;
     pending_task_id_list_ := pending_task_id_list_ st;
     meta_updating_count_ := meta_updating_count_ st;
     task_pool_ := task_pool_ st;
     next_task_id_ := next_task_id_ st;
     cur_commit_pending_counter_ := cur_commit_pending_counter_ st;
     cur_reader_pending_counter_ := cur_reader_pending_counter_ st;
     next_timer_id_ := next_timer_id_ st;
     batches_created := batches_created st;
     log := log st;
     aborted := aborted st |}.

Definition set_reader_batch_map_ (v : gmap string TaskBatch) (st : t) : t :=
  {| config := config st;
     mutation_batch_map_ := mutation_batch_map_ st;
     mutation_batch_seq_ := mutation_batch_seq_ st;
     reader_batch_map_ := v;
     reader_batch_seq_ := reader_batch_seq_ st;
     tablet_meta_list_ := tablet_meta_list_ st;
     pending_task_id_list_ := pending_task_id_list_ st;
     meta_updating_count_ := meta_updating_count_ st;
     task_pool_ := task_pool_ st;
     next_task_id_ := next_task_id_ st;
     cur_commit_pending_counter_ := cur_commit_pending_counter_ st;
     cur_reader_pending_counter_ := cur_reader_pending_counter_ st;
     next_timer_id_ := next_timer_id_ st;
     batches_created := batches_created st;
     log := log st;
     aborted := aborted st |}.

Definition set_reader_batch_seq_ (v : Z) (st : t) : t :=
  {| config := config st;
     mutation_batch_map_ := mutation_batch_map_ st;
     mutation_batch_seq_ := mutation_batch_seq_ st;
     reader_batch_map_ := reader_batch_map_ st;
     reader_batch_seq_ := v;
     tablet_meta_list_ := tablet_meta_list_ st;
     pending_task_id_list_ := pending_task_id_list_ st;
     meta_updating_count_ := meta_updating_count_ st;
     task_pool_ := task_pool_ st;
     next_task_id_ := next_task_id_ st;
     cur_commit_pending_counter_ := cur_commit_pending_counter_ st;
     cur_reader_pending_counter_ := cur_reader_pending_counter_ st;
     next_timer_id_ := next_timer_id_ st;
     batches_created := batches_created st;
     log := log st;
     aborted := aborted st |}.

Definition set_tablet_meta_list_ (v : gmap string TabletMetaNode) (st : t) : t :=
  {| config := config st;
     mutation_batch_map_ := mutation_batch_map_ st;
     mutation_batch_seq_ := mutation_batch_seq_ st;
     reader_batch_map_ := reader_batch_map_ st;
     reader_batch_seq_ := reader_batch_seq_ st;
     tablet_meta_list_ := v;
     pending_task_id_list_ := pending_task_id_list_ st;
     meta_updating_count_ := meta_updating_count_ st;
     task_pool_ := task_pool_ st;
     next_task_id_ := next_task_id_ st;
     cur_commit_pending_counter_ := cur_commit_pending_counter_ st;
     cur_reader_pending_counter_ := cur_reader_pending_counter_ st;
     next_timer_id_ := next_timer_id_ st;
     batches_created := batches_created st;
     log := log st;
     aborted := aborted st |}.

Definition set_pending_task_id_list_ (v : gmap string (list Z)) (st : t) : t :=
  {| config := config st;
     mutation_batch_map_ := mutation_batch_map_ st;
     mutation_batch_seq_ := mutation_batch_seq_ st;
     reader_batch_map_ := reader_batch_map_ st;
     reader_batch_seq_ := reader_batch_seq_ st;
     tablet_meta_list_ := tablet_meta_list_ st;
     pending_task_id_list_ := v;
     meta_updating_count_ := meta_updating_count_ st;
     task_pool_ := task_pool_ st;
     next_task_id_ := next_task_id_ st;
     cur_commit_pending_counter_ := cur_commit_pending_counter_ st;
     cur_reader_pending_counter_ := cur_reader_pending_counter_ st;
     next_timer_id_ := next_timer_id_ st;
     batches_created := batches_created st;
     log := log st;
     aborted := aborted st |}.

Definition set_meta_updating_count_ (v : Z) (st : t) : t :=
  {| config := config st;
     mutation_batch_map_ := mutation_batch_map_ st;
     mutation_batch_seq_ := mutation_batch_seq_ st;
     reader_batch_map_ := reader_batch_map_ st;
     reader_batch_seq_ := reader_batch_seq_ st;
     tablet_meta_list_ := tablet_meta_list_ st;
     pending_task_id_list_ := pending_task_id_list_ st;
     meta_updating_count_ := v;
     task_pool_ := task_pool_ st;
     next_task_id_ := next_task_id_ st;
     cur_commit_pending_counter_ := cur_commit_pending_counter_ st;
     cur_reader_pending_counter_ := cur_reader_pending_counter_ st;
     next_timer_id_ := next_timer_id_ st;
     batches_created := batches_created st;
     log := log st;
     aborted := aborted st |}.

Definition set_task_pool_ (v : gmap Z SdkTask) (st : t) : t :=
  {| config := config st;
     mutation_batch_map_ := mutation_batch_map_ st;
     mutation_batch_seq_ := mutation_batch_seq_ st;
     reader_batch_map_ := reader_batch_map_ st;
     reader_batch_seq_ := reader_batch_seq_ st;
     tablet_meta_list_ := tablet_meta_list_ st;
     pending_task_id_list_ := pending_task_id_list_ st;
     meta_updating_count_ := meta_updating_count_ st;
     task_pool_ := v;
     next_task_id_ := next_task_id_ st;
     cur_commit_pending_counter_ := cur_commit_pending_counter_ st;
     cur_reader_pending_counter_ := cur_reader_pending_counter_ st;
     next_timer_id_ := next_timer_id_ st;
     batches_created := batches_created st;
     log := log st;
     aborted := aborted st |}.

Definition set_next_task_id_ (v : Z) (st : t) : t :=
  {| config := config st;
     mutation_batch_map_ := mutation_batch_map_ st;
     mutation_batch_seq_ := mutation_batch_seq_ st;
     reader_batch_map_ := reader_batch_map_ st;
     reader_batch_seq_ := reader_batch_seq_ st;
     tablet_meta_list_ := tablet_meta_list_ st;
     pending_task_id_list_ := pending_task_id_list_ st;
     meta_updating_count_ := meta_updating_count_ st;
     task_pool_ := task_pool_ st;
     next_task_id_ := v;
     cur_commit_pending_counter_ := cur_commit_pending_counter_ st;
     cur_reader_pending_counter_ := cur_reader_pending_counter_ st;
     next_timer_id_ := next_timer_id_ st;
     batches_created := batches_created st;
     log := log st;
     aborted := aborted st |}.

Definition set_cur_commit_pending_counter_ (v : Z) (st : t) : t :=
  {| config := config st;
     mutation_batch_map_ := mutation_batch_map_ st;
     mutation_batch_seq_ := mutation_batch_seq_ st;
     reader_batch_map_ := reader_batch_map_ st;
     reader_batch_seq_ := reader_batch_seq_ st;
     tablet_meta_list_ := tablet_meta_list_ st;
     pending_task_id_list_ := pending_task_id_list_ st;
     meta_updating_count_ := meta_updating_count_ st;
     task_pool_ := task_pool_ st;
     next_task_id_ := next_task_id_ st;
     cur_commit_pending_counter_ := v;
     cur_reader_pending_counter_ := cur_reader_pending_counter_ st;
     next_timer_id_ := next_timer_id_ st;
     batches_created := batches_created st;
     log := log st;
     aborted := aborted st |}.

Definition set_cur_reader_pending_counter_ (v : Z) (st : t) : t :=
  {| config := config st;
     mutation_batch_map_ := mutation_batch_map_ st;
     mutation_batch_seq_ := mutation_batch_seq_ st;
     reader_batch_map_ := reader_batch_map_ st;
     reader_batch_seq_ := reader_batch_seq_ st;
     tablet_meta_list_ := tablet_meta_list_ st;
     pending_task_id_list_ := pending_task_id_list_ st;
     meta_updating_count_ := meta_updating_count_ st;
     task_pool_ := task_pool_ st;
     next_task_id_ := next_task_id_ st;
     cur_commit_pending_counter_ := cur_commit_pending_counter_ st;
     cur_reader_pending_counter_ := v;
     next_timer_id_ := next_timer_id_ st;
     batches_created := batches_created st;
     log := log st;
     aborted := aborted st |}.

Definition set_next_timer_id_ (v : Z) (st : t) : t :=
  {| config := config st;
     mutation_batch_map_ := mutation_batch_map_ st;
     mutation_batch_seq_ := mutation_batch_seq_ st;
     reader_batch_map_ := reader_batch_map_ st;
     reader_batch_seq_ := reader_batch_seq_ st;
     tablet_meta_list_ := tablet_meta_list_ st;
     pending_task_id_list_ := pending_task_id_list_ st;
     meta_updating_count_ := meta_updating_count_ st;
     task_pool_ := task_pool_ st;
     next_task_id_ := next_task_id_ st;
     cur_commit_pending_counter_ := cur_commit_pending_counter_ st;
     cur_reader_pending_counter_ := cur_reader_pending_counter_ st;
     next_timer_id_ := v;
     batches_created := batches_created st;
     log := log st;
     aborted := aborted st |}.

Definition set_batches_created (v : nat) (st : t) : t :=
  {| config := config st;
     mutation_batch_map_ := mutation_batch_map_ st;
     mutation_batch_seq_ := mutation_batch_seq_ st;
     reader_batch_map_ := reader_batch_map_ st;
     reader_batch_seq_ := reader_batch_seq_ st;
     tablet_meta_list_ := tablet_meta_list_ st;
     pending_task_id_list_ := pending_task_id_list_ st;
     meta_updating_count_ := meta_updating_count_ st;
     task_pool_ := task_pool_ st;
     next_task_id_ := next_task_id_ st;
     cur_commit_pending_counter_ := cur_commit_pending_counter_ st;
     cur_reader_pending_counter_ := cur_reader_pending_counter_ st;
     next_timer_id_ := next_timer_id_ st;
     batches_created := v;
     log := log st;
     aborted := aborted st |}.

Definition set_log (v : list Event) (st : t) : t :=
  {| config := config st;
     mutation_batch_map_ := mutation_batch_map_ st;
     mutation_batch_seq_ := mutation_batch_seq_ st;
     reader_batch_map_ := reader_batch_map_ st;
     reader_batch_seq_ := reader_batch_seq_ st;
     tablet_meta_list_ := tablet_meta_list_ st;
     pending_task_id_list_ := pending_task_id_list_ st;
     meta_updating_count_ := meta_updating_count_ st;
     task_pool_ := task_pool_ st;
     next_task_id_ := next_task_id_ st;
     cur_commit_pending_counter_ := cur_commit_pending_counter_ st;
     cur_reader_pending_counter_ := cur_reader_pending_counter_ st;
     next_timer_id_ := next_timer_id_ st;
     batches_created := batches_created st;
     log := v;
     aborted := aborted st |}.

Definition set_aborted (v : bool) (st : t) : t :=
  {| config := config st;
     mutation_batch_map_ := mutation_batch_map_ st;
     mutation_batch_seq_ := mutation_batch_seq_ st;
     reader_batch_map_ := reader_batch_map_ st;
     reader_batch_seq_ := reader_batch_seq_ st;
     tablet_meta_list_ := tablet_meta_list_ st;
     pending_task_id_list_ := pending_task_id_list_ st;
     meta_updating_count_ := meta_updating_count_ st;
     task_pool_ := task_pool_ st;
     next_task_id_ := next_task_id_ st;
     cur_commit_pending_counter_ := cur_commit_pending_counter_ st;
     cur_reader_pending_counter_ := cur_reader_pending_counter_ st;
     next_timer_id_ := next_timer_id_ st;
     batches_created := batches_created st;
     log := log st;
     aborted := v |}.


Definition emit (e : Event) (st : t) : t := set_log (log st ++ [e]) st.

Definition abort (st : t) : t := set_aborted true st.

(** [thread_pool_->DelayTask(delay, task)]: the call and the id it returns. *)
Definition DelayTask (delay : Z) (task : Task) (st : t) : t * Z :=
  let id := next_timer_id_ st in
  (set_next_timer_id_ (id + 1) (emit (EvDelayTask delay id task) st), id).

Definition uint32 (v : Z) : Z := v mod 2 ^ 32.
Definition uint64 (v : Z) : Z := v mod 2 ^ 64.

(** *** Batches: PackMutations, PackReaders and their timers *)

(** The batch [PackMutations] finds for [server_addr], or the one it
    creates: next sequence number, empty id list, a timer for
    [MutationBatchTimeout], no bytes. *)
Definition find_or_create_mutation_batch (server_addr : string) (st : t)
    : t * TaskBatch :=
  match mutation_batch_map_ st !! server_addr with
  | Some b => (st, b)
  | None =>
      let seq := mutation_batch_seq_ st in
      let st1 := set_mutation_batch_seq_ (uint64 (seq + 1)) st in
      let '(st2, timer) :=
        DelayTask (write_commit_timeout_ (config st))
                  (MutationBatchTimeoutTask server_addr seq) st1 in
      let b := {| sequence_num := seq; timer_id := timer; byte_size := 0;
                  row_id_list := []; batch_id := batches_created st |} in
      (set_batches_created (S (batches_created st))
         (set_mutation_batch_map_ (<[ server_addr := b ]> (mutation_batch_map_ st2)) st2),
       b)
  end.

(** The condition under which the loop of [PackMutations] commits the
    batch, [last] being [i == mu_list.size() - 1]. *)
Definition mutation_commit_due (cfg : Config) (b : TaskBatch) (last flush : bool) : bool :=
  (kMaxRpcSize cfg <=? byte_size b)
  || (last && (flush || (commit_size_ cfg <=? Z.of_nat (length (row_id_list b))))).

(** One round of the loop of [PackMutations].  The local pointer
    [mutation_batch] is the map entry of [server_addr] whenever it is not
    NULL, so each round looks the entry up. *)
Definition pack_mutation (server_addr : string) (flush last : bool)
    (st : t) (row_mutation : SdkTask) : t :=
  let '(st1, b) := find_or_create_mutation_batch server_addr st in
  let b' := {| sequence_num := sequence_num b; timer_id := timer_id b;
               byte_size := uint64 (byte_size b + task_size row_mutation);
               row_id_list := row_id_list b ++ [task_id row_mutation];
               batch_id := batch_id b |} in
  if mutation_commit_due (config st1) b' last flush then
    emit (EvCommitMutations server_addr (batch_id b') (row_id_list b'))
      (set_mutation_batch_map_ (delete server_addr (mutation_batch_map_ st1))
         (emit (EvCancelTask (timer_id b')) st1))
  else
    set_mutation_batch_map_ (<[ server_addr := b' ]> (mutation_batch_map_ st1)) st1.

Fixpoint PackMutations (server_addr : string) (mu_list : list SdkTask)
    (flush : bool) (st : t) : t :=
  match mu_list with
  | [] => st
  | mu :: rest =>
      PackMutations server_addr rest flush
        (pack_mutation server_addr flush
           (match rest with [] => true | _ => false end) st mu)
  end.

Definition MutationBatchTimeout (server_addr : string) (batch_seq : Z) (st : t) : t :=
  match mutation_batch_map_ st !! server_addr with
  | None => st
  | Some b =>
      if negb (sequence_num b =? batch_seq) then st
      else
        emit (EvCommitMutations server_addr (batch_id b) (row_id_list b))
          (set_mutation_batch_map_ (delete server_addr (mutation_batch_map_ st)) st)
  end.

Definition find_or_create_reader_batch (server_addr : string) (st : t)
    : t * TaskBatch :=
  match reader_batch_map_ st !! server_addr with
  | Some b => (st, b)
  | None =>
      let seq := reader_batch_seq_ st in
      let st1 := set_reader_batch_seq_ (uint64 (seq + 1)) st in
      let '(st2, timer) :=
        DelayTask (read_commit_timeout_ (config st))
                  (ReaderBatchTimeoutTask server_addr seq) st1 in
      let b := {| sequence_num := seq; timer_id := timer; byte_size := 0;
                  row_id_list := []; batch_id := batches_created st |} in
      (set_batches_created (S (batches_created st))
         (set_reader_batch_map_ (<[ server_addr := b ]> (reader_batch_map_ st2)) st2),
       b)
  end.

Definition PackReaders (server_addr : string) (reader_list : list SdkTask)
    (st : t) : t :=
  let '(st1, b) := find_or_create_reader_batch server_addr st in
  let b' := {| sequence_num := sequence_num b; timer_id := timer_id b;
               byte_size := byte_size b;
               row_id_list := row_id_list b ++ (task_id <$> reader_list);
               batch_id := batch_id b |} in
  if commit_size_ (config st1) <=? Z.of_nat (length (row_id_list b')) then
    emit (EvCommitReaders server_addr (batch_id b') (row_id_list b'))
      (set_reader_batch_map_ (delete server_addr (reader_batch_map_ st1))
         (emit (EvCancelTask (timer_id b')) st1))
  else
    set_reader_batch_map_ (<[ server_addr := b' ]> (reader_batch_map_ st1)) st1.

Definition ReaderBatchTimeout (server_addr : string) (batch_seq : Z) (st : t) : t :=
  match reader_batch_map_ st !! server_addr with
  | None => st
  | Some b =>
      if negb (sequence_num b =? batch_seq) then st
      else
        emit (EvCommitReaders server_addr (batch_id b) (row_id_list b))
          (set_reader_batch_map_ (delete server_addr (reader_batch_map_ st)) st)
  end.

(** *** The meta cache *)

Definition GetTabletMetaNodeForKey (m : gmap string TabletMetaNode)
    (key : string) : option (string * TabletMetaNode) :=
  if bool_decide (size m = 0%nat) then None
  else
    let it := upper_bound m key in
    if it_eqb it (begin_it m) then None
    else
      match prev_it m it with
      | None => None
      | Some k =>
          match m !! k with
          | None => None
          | Some node =>
              let end_key := node_end node in
              if negb (empty end_key) && String.leb end_key key then None
              else Some (k, node)
          end
      end.

Definition GetTabletMetaForKey (key : string) (st : t) : option TabletMeta.t :=
  match GetTabletMetaNodeForKey (tablet_meta_list_ st) key with
  | None => None
  | Some (_, node) => Some (meta node)
  end.

(** [ScanMetaTableAsync]: the scan request (or, with no root address, its
    delayed retry) is left to the event; the [CHECK] on the expanded end
    is kept. *)
Definition ScanMetaTableAsync (key_start key_end expand_key_end : string)
    (zk_access : bool) (st : t) : t :=
  if empty expand_key_end || String.leb key_end expand_key_end then
    emit (EvScanMetaTableAsync key_start key_end expand_key_end zk_access) st
  else abort st.

Definition ScanMetaTableAsyncInLock (key_start key_end expand_key_end : string)
    (zk_access : bool) (st : t) : t :=
  ScanMetaTableAsync key_start key_end expand_key_end zk_access st.

(** The local variables of the loop of [UpdateMetaAsync]; [stopped] is the
    [break], [check_failed] the failed [CHECK_GT]. *)
Record UpdatePlan := {
  need_update : bool;
  update_start_key : string;
  update_end_key : string;
  update_expand_end_key : string;
  stopped : bool;
  check_failed : bool
}.

Definition update_meta_step
    (acc : gmap string TabletMetaNode * UpdatePlan) (k : string)
    : gmap string TabletMetaNode * UpdatePlan :=
  let '(m, p) := acc in
  if stopped p then acc
  else
    match m !! k with
    | None => acc
    | Some node =>
        let updating := alter (set_node_status UPDATING) k m in
        if negb (status_eqb (status node) WAIT_UPDATE) && need_update p then
          (m, {| need_update := true;
                 update_start_key := update_start_key p;
                 update_end_key := update_end_key p;
                 update_expand_end_key := node_start node;
                 stopped := true; check_failed := false |})
        else if negb (status_eqb (status node) WAIT_UPDATE) then acc
        else if negb (need_update p) then
          (updating, {| need_update := true;
                        update_start_key := node_start node;
                        update_end_key := node_end node;
                        update_expand_end_key := update_expand_end_key p;
                        stopped := false; check_failed := false |})
        else if String.eqb (node_start node) (update_end_key p) then
          (updating, {| need_update := true;
                        update_start_key := update_start_key p;
                        update_end_key := node_end node;
                        update_expand_end_key := update_expand_end_key p;
                        stopped := false; check_failed := false |})
        else
          (m, {| need_update := true;
                 update_start_key := update_start_key p;
                 update_end_key := update_end_key p;
                 update_expand_end_key := node_start node;
                 stopped := true;
                 check_failed := negb (String.ltb (update_end_key p) (node_start node)) |})
    end.

Definition UpdateMetaAsync (st : t) : t :=
  if uint32 (FLAGS_tera_sdk_update_meta_concurrency (config st))
     <=? meta_updating_count_ st
  then st
  else
    let '(m, p) :=
      foldl update_meta_step
        (tablet_meta_list_ st,
         {| need_update := false; update_start_key := "";
            update_end_key := ""; update_expand_end_key := "";
            stopped := false; check_failed := false |})
        (sorted_keys (tablet_meta_list_ st)) in
    let st1 := set_tablet_meta_list_ m st in
    if check_failed p then abort st1
    else if negb (need_update p) then st1
    else
      ScanMetaTableAsync (update_start_key p) (update_end_key p)
        (update_expand_end_key p) false
        (set_meta_updating_count_ (uint32 (meta_updating_count_ st1 + 1)) st1).

(** [ScanMetaTable] up to its wait on [meta_cond_], which returns once
    [meta_updating_count_] is back to zero. *)
Definition ScanMetaTable (key_start key_end : string) (st : t) : t :=
  ScanMetaTableAsync key_start key_end key_end false
    (set_meta_updating_count_ (uint32 (meta_updating_count_ st + 1)) st).

(** [pending_task_id_list_[row].push_back(id)] *)
Definition push_pending (row : string) (id : Z) (st : t) : t :=
  set_pending_task_id_list_
    (<[ row := (default [] (pending_task_id_list_ st !! row) ++ [id])%list ]>
       (pending_task_id_list_ st)) st.

(** The node made for a key no cached range holds: [[row, row + '\0')],
    waiting for an update. *)
Definition add_wait_node (row : string) (st : t) : t :=
  let m := tablet_meta_list_ st in
  let node := default default_node (m !! row) in
  set_tablet_meta_list_
    (<[ row := set_node_status WAIT_UPDATE
                 (set_node_end (append0 row) (set_node_start row node)) ]> m) st.

Definition set_status_at (k : string) (s : TabletMetaStatus) (st : t) : t :=
  set_tablet_meta_list_ (alter (set_node_status s) k (tablet_meta_list_ st)) st.

(** The common tail of [GetTabletAddrOrScheduleUpdateMeta] and
    [ScheduleUpdateMeta]: refresh the node at [k] now, or once
    [FLAGS_tera_sdk_update_meta_internal] has passed since its update;
    [now] is [get_micros() / 1000]. *)
Definition schedule_node_update (k : string) (node : TabletMetaNode)
    (now : Z) (st : t) : t :=
  let update_interval :=
    update_time node + FLAGS_tera_sdk_update_meta_internal (config st) - now in
  if update_interval <=? 0 then
    UpdateMetaAsync (set_status_at k WAIT_UPDATE st)
  else
    fst (DelayTask update_interval
           (DelayUpdateMetaTask (node_start node) (node_end node))
           (set_status_at k DELAY_UPDATE st)).

Definition stale_error (e : StatusCode) : bool :=
  match e with
  | kKeyNotInRange | kConnectError => true
  | _ => false
  end.

(** The server address for [row], or [None] (the [false] return) with the
    task queued in [pending_task_id_list_]. *)
Definition GetTabletAddrOrScheduleUpdateMeta (row : string) (task : SdkTask)
    (now : Z) (st : t) : t * option string :=
  match GetTabletMetaNodeForKey (tablet_meta_list_ st) row with
  | None =>
      (UpdateMetaAsync (add_wait_node row (push_pending row (task_id task) st)),
       None)
  | Some (k, node) =>
      if negb (status_eqb (status node) NORMAL) then
        (push_pending row (task_id task) st, None)
      else if stale_error (internal_error task)
              && (update_time node <=? meta_timestamp task) then
        (schedule_node_update k node now (push_pending row (task_id task) st),
         None)
      else
        (set_task_pool_
           (alter (SetMetaTimeStamp (update_time node)) (task_id task)
              (task_pool_ st)) st,
         Some (TabletMeta.server_addr (meta node)))
  end.

Definition ScheduleUpdateMeta (row : string) (meta_timestamp : Z) (now : Z)
    (st : t) : t :=
  match GetTabletMetaNodeForKey (tablet_meta_list_ st) row with
  | None => UpdateMetaAsync (add_wait_node row st)
  | Some (k, node) =>
      if status_eqb (status node) NORMAL && (update_time node <=? meta_timestamp)
      then schedule_node_update k node now st
      else st
  end.

(** One round of the loop of [DelayUpdateMeta]; the flag is the [break]. *)
Definition delay_update_step (end_key : string)
    (acc : gmap string TabletMetaNode * bool) (k : string)
    : gmap string TabletMetaNode * bool :=
  let '(m, stop) := acc in
  if stop then acc
  else
    match m !! k with
    | None => acc
    | Some node =>
        if String.ltb end_key (node_end node) then (m, true)
        else if negb (status_eqb (status node) DELAY_UPDATE) then acc
        else (alter (set_node_status WAIT_UPDATE) k m, false)
    end.

Definition DelayUpdateMeta (start_key end_key : string) (st : t) : t :=
  let m := tablet_meta_list_ st in
  UpdateMetaAsync
    (set_tablet_meta_list_
       (fst (foldl (delay_update_step end_key) (m, false) (keys_from m start_key)))
       st).

(** The keys the loops of [WakeUpPendingRequest] and
    [GiveupUpdateTabletMeta] visit: from [lower_bound(start_key)] up to the
    first key that is not below a non-empty [end_key]. *)
Definition pending_keys_in (pending : gmap string (list Z))
    (start_key end_key : string) : list string :=
  take_while (fun k => empty end_key || String.ltb k end_key)
             (keys_from pending start_key).

(** One task id of a pending list, in [WakeUpPendingRequest]. *)
Definition wake_task (server_addr : string) (ts : Z)
    (acc : t * list SdkTask * list SdkTask) (id : Z)
    : t * list SdkTask * list SdkTask :=
  let '(st, mutation_list, reader_list) := acc in
  match task_pool_ st !! id with
  | None => acc
  | Some task =>
      let task' := SetMetaTimeStamp ts task in
      let st1 := set_task_pool_ (<[ id := task' ]> (task_pool_ st)) st in
      match task_type task with
      | READ => (st1, mutation_list, (reader_list ++ [task'])%list)
      | MUTATION => (st1, (mutation_list ++ [task'])%list, reader_list)
      | SCAN => (emit (EvCommitScan (task_id task') server_addr) st1,
                 mutation_list, reader_list)
      end
  end.

(** One entry of [pending_task_id_list_]: its tasks are collected, the
    entry is erased. *)
Definition wake_key (server_addr : string) (ts : Z)
    (acc : t * list SdkTask * list SdkTask) (k : string)
    : t * list SdkTask * list SdkTask :=
  let ids := default [] (pending_task_id_list_ (fst (fst acc)) !! k) in
  let '(st, mutation_list, reader_list) :=
    foldl (wake_task server_addr ts) acc ids in
  (set_pending_task_id_list_ (delete k (pending_task_id_list_ st)) st,
   mutation_list, reader_list).

Definition WakeUpPendingRequest (node : TabletMetaNode) (st : t) : t :=
  let server_addr := TabletMeta.server_addr (meta node) in
  let '(st1, mutation_list, reader_list) :=
    foldl (wake_key server_addr (update_time node)) (st, [], [])
      (pending_keys_in (pending_task_id_list_ st) (node_start node) (node_end node)) in
  let st2 := match mutation_list with
             | [] => st1
             | _ => PackMutations server_addr mutation_list false st1
             end in
  match reader_list with
  | [] => st2
  | _ => PackReaders server_addr reader_list st2
  end.

(** The loop of [UpdateTabletMetaList] over the old nodes from [it] on.
    [fuel] bounds the number of rounds; [None] is returned only when it runs
    out, which [2 + size] rounds never do. *)
Fixpoint update_overlapped (fuel : nat) (new_start new_end : string)
    (m : gmap string TabletMetaNode) (it : option string)
    : option (gmap string TabletMetaNode) :=
  match it with
  | None => Some m
  | Some cur =>
      match fuel with
      | O => None
      | S fuel' =>
          match m !! cur with
          | None => Some m
          | Some old_node =>
              let it' := next_it m cur in
              let old_start := node_start old_node in
              let old_end := node_end old_node in
              if String.ltb old_start new_start then
                if negb (empty old_end) && String.leb old_end new_start then
                  update_overlapped fuel' new_start new_end m it'
                else if empty new_end
                        || (negb (empty old_end) && String.leb old_end new_end) then
                  update_overlapped fuel' new_start new_end
                    (alter (set_node_end new_start) cur m) it'
                else
                  update_overlapped fuel' new_start new_end
                    (alter (set_node_end new_start) cur
                       (<[ new_end := set_node_start new_end old_node ]> m)) it'
              else if empty new_end || String.ltb old_start new_end then
                if empty new_end
                   || (negb (empty old_end) && String.leb old_end new_end) then
                  update_overlapped fuel' new_start new_end (delete cur m) it'
                else
                  update_overlapped fuel' new_start new_end
                    (delete cur
                       (<[ new_end := set_node_start new_end old_node ]> m)) it'
              else Some m
          end
      end
  end.

(** Where the loop starts: [upper_bound(new_start)], stepped back once
    unless it is [begin()]. *)
Definition first_overlapped (m : gmap string TabletMetaNode)
    (new_start : string) : option string :=
  let it := upper_bound m new_start in
  if negb (bool_decide (size m = 0%nat)) && negb (it_eqb it (begin_it m)) then
    match prev_it m it with
    | Some k => Some k
    | None => it
    end
  else it.

(** The cache after the overlapped old nodes are cut and the new node is
    put in. *)
Definition insert_meta_node (new_meta : TabletMeta.t) (now : Z)
    (m : gmap string TabletMetaNode) : option (gmap string TabletMetaNode) :=
  let new_start := KeyRange.key_start (TabletMeta.key_range new_meta) in
  let new_end := KeyRange.key_end (TabletMeta.key_range new_meta) in
  match update_overlapped (S (S (size m))) new_start new_end m
          (first_overlapped m new_start) with
  | None => None
  | Some m' =>
      Some (<[ new_start := {| meta := new_meta; update_time := now;
                               status := NORMAL |} ]> m')
  end.

(** [now] is [get_micros() / 1000]. *)
Definition UpdateTabletMetaList (new_meta : TabletMeta.t) (now : Z) (st : t) : t :=
  match insert_meta_node new_meta now (tablet_meta_list_ st) with
  | None => st
  | Some m' =>
      WakeUpPendingRequest
        {| meta := new_meta; update_time := now; status := NORMAL |}
        (set_tablet_meta_list_ m' st)
  end.

(** The inner loop of [GiveupUpdateTabletMeta]: the id of a task that has
    left the pool is erased, and the [++itask] that follows steps over the
    id after it; stepping past the end of the list is taken to end the
    loop. *)
Fixpoint giveup_list (pool : gmap Z SdkTask) (ids : list Z) : list Z :=
  match ids with
  | [] => []
  | id :: rest =>
      match pool !! id with
      | Some _ => id :: giveup_list pool rest
      | None =>
          match rest with
          | [] => []
          | next :: rest' => next :: giveup_list pool rest'
          end
      end
  end.

Definition giveup_key (pool : gmap Z SdkTask)
    (pending : gmap string (list Z)) (k : string) : gmap string (list Z) :=
  match pending !! k with
  | None => pending
  | Some ids =>
      match giveup_list pool ids with
      | [] => delete k pending
      | ids' => <[ k := ids' ]> pending
      end
  end.

Definition GiveupUpdateTabletMeta (key_start key_end : string) (st : t) : t :=
  set_pending_task_id_list_
    (foldl (giveup_key (task_pool_ st)) (pending_task_id_list_ st)
       (pending_keys_in (pending_task_id_list_ st) key_start key_end)) st.

Inductive RpcErrorCode :=
  | RPC_ERROR_SERVER_SHUTDOWN | RPC_ERROR_SERVER_UNREACHABLE
  | RPC_ERROR_SERVER_UNAVAILABLE | RPC_ERROR_REQUEST_CANCELED
  | RPC_ERROR_SEND_BUFFER_FULL | RPC_ERROR_CONNECTION_CLOSED
  | RPC_ERROR_RESOLVE_ADDRESS | RPC_ERROR_REQUEST_TIMEOUT
  | RPC_ERROR_OTHER.

(** The status a callback gives a failed RPC. *)
Definition failed_status (error_code : RpcErrorCode) : StatusCode :=
  match error_code with
  | RPC_ERROR_SERVER_SHUTDOWN | RPC_ERROR_SERVER_UNREACHABLE
  | RPC_ERROR_SERVER_UNAVAILABLE => kServerError
  | RPC_ERROR_REQUEST_CANCELED | RPC_ERROR_SEND_BUFFER_FULL => kClientError
  | RPC_ERROR_CONNECTION_CLOSED | RPC_ERROR_RESOLVE_ADDRESS => kConnectError
  | RPC_ERROR_REQUEST_TIMEOUT => kRPCTimeout
  | RPC_ERROR_OTHER => kRPCError
  end.

(** A [ScanTabletResponse] of the meta table, its key-value pairs already
    parsed by [ParseMetaTableKeyValue]. *)
Record ScanTabletResponse := {
  response_status : StatusCode;
  results : list TabletMeta.t;
  complete : bool
}.

Definition is_ok (e : StatusCode) : bool :=
  match e with kTabletNodeOk => true | _ => false end.

(** The clock is read as [now] (in ms) for every record of the response. *)
Definition ScanMetaTableCallBack (key_start key_end expand_key_end : string)
    (response : ScanTabletResponse) (failed : bool) (error_code : RpcErrorCode)
    (now : Z) (st : t) : t :=
  let err := if failed then failed_status error_code
             else response_status response in
  if negb (is_ok err) then
    fst (DelayTask (FLAGS_tera_sdk_update_meta_internal (config st))
           (ScanMetaTableAsyncInLockTask key_start key_end expand_key_end true)
           (GiveupUpdateTabletMeta key_start key_end st))
  else
    let metas := results response in
    let return_start :=
      match metas with
      | [] => ""
      | m0 :: _ => KeyRange.key_start (TabletMeta.key_range m0)
      end in
    let return_end :=
      match last metas with
      | None => ""
      | Some ml => KeyRange.key_end (TabletMeta.key_range ml)
      end in
    let st1 := foldl (fun s m => UpdateTabletMetaList m now s) st metas in
    let beyond := negb (empty return_end)
                  && (empty key_end || String.ltb return_end key_end) in
    let scan_meta_error :=
      bool_decide (metas = [])
      || String.ltb key_start return_start
      || (complete response && beyond) in
    if scan_meta_error then
      ScanMetaTableAsync key_start key_end expand_key_end false st1
    else if beyond then
      if complete response then abort st1
      else ScanMetaTableAsync return_end key_end expand_key_end false st1
    else
      UpdateMetaAsync
        (set_meta_updating_count_ (uint32 (meta_updating_count_ st1 - 1)) st1).

(** *** Flow control: DistributeMutations, DistributeReaders *)

(** [while (counter.Get() > max) usleep(100000);] The counter is brought
    down by the callbacks of other threads: [c] is what the first [Get()]
    returns, [reads] what the later ones would.  [None]: the loop is still
    waiting when [reads] is used up. *)
Fixpoint wait_below (max c : Z) (reads : list Z) : option (Z * list Z) :=
  if max <? c then
    match reads with
    | [] => None
    | c' :: rest => wait_below max c' rest
    end
  else Some (c, reads).

(** [row->TimeOut() > 0 ? row->TimeOut() : timeout_] *)
Definition row_timeout_of (cfg : Config) (task : SdkTask) : Z :=
  if 0 <? task_timeout task then task_timeout task else timeout_ cfg.

(** The first loop: the least timeout of the synchronous rows. *)
Definition sync_min_timeout_of (cfg : Config) (tasks : list SdkTask) : Z :=
  foldl (fun acc task =>
           if is_async task then acc
           else
             let row_timeout := row_timeout_of cfg task in
             if (0 <? row_timeout) && ((acc <=? 0) || (row_timeout <? acc))
             then row_timeout else acc)
        (-1) tasks.

(** [struct MuFlushPair] *)
Record MuFlushPair := {
  mu_list : list SdkTask;
  flush : bool
}.

(** The state of the main loop: the client, [ts_mu_list], the ids of the
    synchronous rows, the counter values still to be observed. *)
Record Distribution := {
  d_state : t;
  d_ts_list : gmap string MuFlushPair;
  d_sync_ids : list Z;
  d_reads : list Z
}.

(** [SetId(next_task_id_.Inc())] and [task_pool_.PutTask]; a task that is
    retried is in the pool already. *)
Definition register_task (called_by_user : bool) (sync_min_timeout : Z)
    (task : SdkTask) (st : t) : t * SdkTask :=
  if called_by_user then
    let id := next_task_id_ st + 1 in
    let task' := SetId id task in
    let row_timeout := if is_async task then row_timeout_of (config st) task
                       else sync_min_timeout in
    (emit (EvPutTask id row_timeout)
       (set_task_pool_ (<[ id := task' ]> (task_pool_ st))
          (set_next_task_id_ id st)),
     task')
  else (st, task).

(** The task as the pool holds it now. *)
Definition current_task (task : SdkTask) (st : t) : SdkTask :=
  default task (task_pool_ st !! task_id task).

(** The rest of a round of the loop once flow control lets the row through:
    resolve the server, file the row under it. *)
Definition route_mutation (task : SdkTask) (now : Z) (d : Distribution)
    : Distribution :=
  let '(st1, addr) :=
    GetTabletAddrOrScheduleUpdateMeta (row_key task) task now (d_state d) in
  match addr with
  | None => {| d_state := st1; d_ts_list := d_ts_list d;
               d_sync_ids := d_sync_ids d; d_reads := d_reads d |}
  | Some server_addr =>
      let pr := default {| mu_list := []; flush := false |}
                        (d_ts_list d !! server_addr) in
      let pr' := {| mu_list := (mu_list pr ++ [current_task task st1])%list;
                    flush := flush pr || negb (is_async task) |} in
      {| d_state := st1;
         d_ts_list := <[ server_addr := pr' ]> (d_ts_list d);
         d_sync_ids := d_sync_ids d; d_reads := d_reads d |}
  end.

(** One round of the main loop of [DistributeMutations].  [None]: the
    round is still waiting for the counter to drain. *)
Definition distribute_mutation (called_by_user : bool) (sync_min_timeout : Z)
    (now : Z) (d : Distribution) (row_mutation : SdkTask)
    : option Distribution :=
  let '(st1, task) :=
    register_task called_by_user sync_min_timeout row_mutation (d_state d) in
  let sync_ids := if called_by_user && negb (is_async task)
                  then (d_sync_ids d ++ [task_id task])%list
                  else d_sync_ids d in
  if called_by_user then
    let c := cur_commit_pending_counter_ st1 + mutation_num task in
    let st2 := set_cur_commit_pending_counter_ c st1 in
    if (max_commit_pending_num_ (config st2) <? c) && is_async task then
      if FLAGS_tera_sdk_async_blocking_enabled (config st2) then
        match wait_below (max_commit_pending_num_ (config st2)) c (d_reads d) with
        | None => None
        | Some (c', reads') =>
            Some (route_mutation task now
                    {| d_state := set_cur_commit_pending_counter_ c' st2;
                       d_ts_list := d_ts_list d;
                       d_sync_ids := sync_ids; d_reads := reads' |})
        end
      else
        Some {| d_state :=
                  emit (EvAddTask (BreakRequestTask (task_id task)))
                    (set_task_pool_
                       (alter (SetError kBusy) (task_id task) (task_pool_ st2))
                       (set_cur_commit_pending_counter_ (c - mutation_num task) st2));
                d_ts_list := d_ts_list d;
                d_sync_ids := sync_ids; d_reads := d_reads d |}
    else
      Some (route_mutation task now
              {| d_state := st2; d_ts_list := d_ts_list d;
                 d_sync_ids := sync_ids; d_reads := d_reads d |})
  else
    Some (route_mutation task now
            {| d_state := st1; d_ts_list := d_ts_list d;
               d_sync_ids := sync_ids; d_reads := d_reads d |}).

Fixpoint distribute_mutations (called_by_user : bool) (sync_min_timeout : Z)
    (now : Z) (tasks : list SdkTask) (d : Distribution) : option Distribution :=
  match tasks with
  | [] => Some d
  | task :: rest =>
      match distribute_mutation called_by_user sync_min_timeout now d task with
      | None => None
      | Some d' => distribute_mutations called_by_user sync_min_timeout now rest d'
      end
  end.

(** The loop over [ts_mu_list]. *)
Definition pack_all_mutations (ts_list : gmap string MuFlushPair) (st : t) : t :=
  foldl (fun s server_addr =>
           match ts_list !! server_addr with
           | None => s
           | Some pr => PackMutations server_addr (mu_list pr) (flush pr) s
           end)
        st (sorted_keys ts_list).

(** The last loop: for each synchronous row, wait for the counter to be at
    most [max], then for the row itself. *)
Fixpoint wait_sync (counter : t -> Z) (set_counter : Z -> t -> t) (max : Z)
    (ids : list Z) (reads : list Z) (st : t) : option (t * list Z) :=
  match ids with
  | [] => Some (st, reads)
  | id :: rest =>
      match wait_below max (counter st) reads with
      | None => None
      | Some (c', reads') =>
          wait_sync counter set_counter max rest reads'
            (emit (EvWait id) (set_counter c' st))
      end
  end.

(** [reads] are the values later [Get()]s of the pending counter return;
    [None]: the call has not returned when they are used up. *)
Definition DistributeMutations (tasks : list SdkTask) (called_by_user : bool)
    (now : Z) (reads : list Z) (st : t) : option (t * list Z) :=
  let sync_min_timeout :=
    if called_by_user then sync_min_timeout_of (config st) tasks else -1 in
  match distribute_mutations called_by_user sync_min_timeout now tasks
          {| d_state := st; d_ts_list := ∅; d_sync_ids := []; d_reads := reads |} with
  | None => None
  | Some d =>
      let st1 := pack_all_mutations (d_ts_list d) (d_state d) in
      if negb called_by_user then Some (st1, d_reads d)
      else wait_sync cur_commit_pending_counter_ set_cur_commit_pending_counter_
             (max_commit_pending_num_ (config st1)) (d_sync_ids d) (d_reads d) st1
  end.

(** The rounds of [DistributeReaders] differ in the counter, which counts
    rows, and in the batches the rows go to. *)
Record ReaderDistribution := {
  r_state : t;
  r_ts_list : gmap string (list SdkTask);
  r_sync_ids : list Z;
  r_reads : list Z
}.

Definition route_reader (task : SdkTask) (now : Z) (d : ReaderDistribution)
    : ReaderDistribution :=
  let '(st1, addr) :=
    GetTabletAddrOrScheduleUpdateMeta (row_key task) task now (r_state d) in
  match addr with
  | None => {| r_state := st1; r_ts_list := r_ts_list d;
               r_sync_ids := r_sync_ids d; r_reads := r_reads d |}
  | Some server_addr =>
      let l := default [] (r_ts_list d !! server_addr) in
      {| r_state := st1;
         r_ts_list := <[ server_addr := (l ++ [current_task task st1])%list ]>
                        (r_ts_list d);
         r_sync_ids := r_sync_ids d; r_reads := r_reads d |}
  end.

Definition distribute_reader (called_by_user : bool) (sync_min_timeout : Z)
    (now : Z) (d : ReaderDistribution) (row_reader : SdkTask)
    : option ReaderDistribution :=
  let '(st1, task) :=
    register_task called_by_user sync_min_timeout row_reader (r_state d) in
  let sync_ids := if called_by_user && negb (is_async task)
                  then (r_sync_ids d ++ [task_id task])%list
                  else r_sync_ids d in
  if called_by_user then
    let c := cur_reader_pending_counter_ st1 + 1 in
    let st2 := set_cur_reader_pending_counter_ c st1 in
    if (max_reader_pending_num_ (config st2) <? c) && is_async task then
      if FLAGS_tera_sdk_async_blocking_enabled (config st2) then
        match wait_below (max_reader_pending_num_ (config st2)) c (r_reads d) with
        | None => None
        | Some (c', reads') =>
            Some (route_reader task now
                    {| r_state := set_cur_reader_pending_counter_ c' st2;
                       r_ts_list := r_ts_list d;
                       r_sync_ids := sync_ids; r_reads := reads' |})
        end
      else
        Some {| r_state :=
                  emit (EvAddTask (BreakRequestTask (task_id task)))
                    (set_task_pool_
                       (alter (SetError kBusy) (task_id task) (task_pool_ st2))
                       (set_cur_reader_pending_counter_ (c - 1) st2));
                r_ts_list := r_ts_list d;
                r_sync_ids := sync_ids; r_reads := r_reads d |}
    else
      Some (route_reader task now
              {| r_state := st2; r_ts_list := r_ts_list d;
                 r_sync_ids := sync_ids; r_reads := r_reads d |})
  else
    Some (route_reader task now
            {| r_state := st1; r_ts_list := r_ts_list d;
               r_sync_ids := sync_ids; r_reads := r_reads d |}).

Fixpoint distribute_readers (called_by_user : bool) (sync_min_timeout : Z)
    (now : Z) (tasks : list SdkTask) (d : ReaderDistribution)
    : option ReaderDistribution :=
  match tasks with
  | [] => Some d
  | task :: rest =>
      match distribute_reader called_by_user sync_min_timeout now d task with
      | None => None
      | Some d' => distribute_readers called_by_user sync_min_timeout now rest d'
      end
  end.

Definition pack_all_readers (ts_list : gmap string (list SdkTask)) (st : t) : t :=
  foldl (fun s server_addr =>
           match ts_list !! server_addr with
           | None => s
           | Some l => PackReaders server_addr l s
           end)
        st (sorted_keys ts_list).

Definition DistributeReaders (tasks : list SdkTask) (called_by_user : bool)
    (now : Z) (reads : list Z) (st : t) : option (t * list Z) :=
  let sync_min_timeout :=
    if called_by_user then sync_min_timeout_of (config st) tasks else -1 in
  match distribute_readers called_by_user sync_min_timeout now tasks
          {| r_state := st; r_ts_list := ∅; r_sync_ids := []; r_reads := reads |} with
  | None => None
  | Some d =>
      let st1 := pack_all_readers (r_ts_list d) (r_state d) in
      if negb called_by_user then Some (st1, r_reads d)
      else wait_sync cur_reader_pending_counter_ set_cur_reader_pending_counter_
             (max_reader_pending_num_ (config st1)) (r_sync_ids d) (r_reads d) st1
  end.


(** *** The client as a whole *)

(** The members as the constructor leaves them. *)
Definition init (cfg : Config) : t :=
  {| config := cfg;
     mutation_batch_map_ := ∅; mutation_batch_seq_ := 0;
     reader_batch_map_ := ∅; reader_batch_seq_ := 0;
     tablet_meta_list_ := ∅; pending_task_id_list_ := ∅;
     meta_updating_count_ := 0;
     task_pool_ := ∅; next_task_id_ := 0;
     cur_commit_pending_counter_ := 0; cur_reader_pending_counter_ := 0;
     next_timer_id_ := 1; batches_created := 0%nat;
     log := []; aborted := false |}.

(** The mutation batches committed so far: server and row ids. *)
Definition mutation_commits (l : list Event) : list (string * list Z) :=
  omap (fun e => match e with
                 | EvCommitMutations server_addr _ ids => Some (server_addr, ids)
                 | _ => None
                 end) l.

(** The batches committed so far, of either kind, by their number. *)
Definition committed_batches (l : list Event) : list nat :=
  omap (fun e => match e with
                 | EvCommitMutations _ b _ | EvCommitReaders _ b _ => Some b
                 | _ => None
                 end) l.

(** The entry points that touch the batch maps; the timeout callbacks run
    with whatever arguments their timers were given. *)
Inductive BatchOp :=
  | OpPackMutations (server_addr : string) (mu_list : list SdkTask) (flush : bool)
  | OpPackReaders (server_addr : string) (reader_list : list SdkTask)
  | OpMutationBatchTimeout (server_addr : string) (batch_seq : Z)
  | OpReaderBatchTimeout (server_addr : string) (batch_seq : Z).

Definition run_batch_op (st : t) (op : BatchOp) : t :=
  match op with
  | OpPackMutations server_addr mu_list flush =>
      PackMutations server_addr mu_list flush st
  | OpPackReaders server_addr reader_list => PackReaders server_addr reader_list st
  | OpMutationBatchTimeout server_addr batch_seq =>
      MutationBatchTimeout server_addr batch_seq st
  | OpReaderBatchTimeout server_addr batch_seq =>
      ReaderBatchTimeout server_addr batch_seq st
  end.

(** *** Meta scans in flight *)

(** A round of a meta scan, by the arguments [ScanMetaTableAsync] was
    called with.  A round goes on with the callback of its request or, when
    it was put off, with the delayed [ScanMetaTableAsyncInLock] of the same
    arguments. *)
Abbreviation ScanRound := (string * string * string)%type.

(** The rounds the calls of a log started. *)
Definition scan_rounds (l : list Event) : list ScanRound :=
  omap (fun e => match e with
                 | EvScanMetaTableAsync key_start key_end expand_key_end _
                 | EvDelayTask _ _ (ScanMetaTableAsyncInLockTask
                                      key_start key_end expand_key_end _) =>
                     Some (key_start, key_end, expand_key_end)
                 | _ => None
                 end) l.

(** The rounds started on the way from [st] to [st']. *)
Definition rounds_started (st st' : t) : list ScanRound :=
  scan_rounds (drop (length (log st)) (log st')).

(** The entry points that touch [meta_updating_count_].  A callback or a
    retry names the round in flight it belongs to by its position. *)
Inductive MetaOp :=
  | OpGetTabletAddrOrScheduleUpdateMeta (row : string) (task : SdkTask) (now : Z)
  | OpScheduleUpdateMeta (row : string) (meta_timestamp now : Z)
  | OpDelayUpdateMeta (start_key end_key : string)
  | OpScanMetaTableCallBack (i : nat) (response : ScanTabletResponse)
      (failed : bool) (error_code : RpcErrorCode) (now : Z)
  | OpScanMetaTableAsyncInLock (i : nat)
  | OpScanMetaTable (key_start key_end : string).

(** Every entry point but the synchronous [ScanMetaTable]. *)
Definition asynchronous (op : MetaOp) : bool :=
  match op with
  | OpScanMetaTable _ _ => false
  | _ => true
  end.

(** One call, on a client and its rounds in flight.  [None]: the call
    cannot take place, the process being dead or the round named not in
    flight. *)
Definition run_meta_op (sys : t * list ScanRound) (op : MetaOp)
    : option (t * list ScanRound) :=
  let '(st, flights) := sys in
  if aborted st then None
  else
    match op with
    | OpGetTabletAddrOrScheduleUpdateMeta row task now =>
        let st' := fst (GetTabletAddrOrScheduleUpdateMeta row task now st) in
        Some (st', (flights ++ rounds_started st st')%list)
    | OpScheduleUpdateMeta row meta_timestamp now =>
        let st' := ScheduleUpdateMeta row meta_timestamp now st in
        Some (st', (flights ++ rounds_started st st')%list)
    | OpDelayUpdateMeta start_key end_key =>
        let st' := DelayUpdateMeta start_key end_key st in
        Some (st', (flights ++ rounds_started st st')%list)
    | OpScanMetaTableCallBack i response failed error_code now =>
        match flights !! i with
        | None => None
        | Some (key_start, key_end, expand_key_end) =>
            let st' := ScanMetaTableCallBack key_start key_end expand_key_end
                         response failed error_code now st in
            Some (st', (delete i flights ++ rounds_started st st')%list)
        end
    | OpScanMetaTableAsyncInLock i =>
        match flights !! i with
        | None => None
        | Some (key_start, key_end, expand_key_end) =>
            let st' := ScanMetaTableAsyncInLock key_start key_end expand_key_end
                         true st in
            Some (st', (delete i flights ++ rounds_started st st')%list)
        end
    | OpScanMetaTable key_start key_end =>
        let st' := ScanMetaTable key_start key_end st in
        Some (st', (flights ++ rounds_started st st')%list)
    end.

Fixpoint run_meta_ops (sys : t * list ScanRound) (ops : list MetaOp)
    : option (t * list ScanRound) :=
  match ops with
  | [] => Some sys
  | op :: rest =>
      match run_meta_op sys op with
      | None => None
      | Some sys' => run_meta_ops sys' rest
      end
  end.

End TableImpl.

(** ** Predicates used in the statements about garbage collection *)

(** Number [n] is not, or no longer, a candidate of locality group [lg]. *)
Definition absent (lg : nat) (n : Z) (fs : BatchGcStrategy.GcFileSet) : Prop :=
  forall s : gset Z, fs !! lg = Some s -> n ∉ s.

(** File [f] is not, or no longer, among the candidates. *)
Definition not_candidate (files : gmap string BatchGcStrategy.GcFileSet) (f : SstFile) : Prop :=
  forall fs : BatchGcStrategy.GcFileSet,
    files !! (fst (fst f)) = Some fs ->
    forall lg : nat, snd (fst f) = Z.of_nat lg -> absent lg (snd f) fs.

(** What a call on the file system may be, given the locality group it
    came from: the deletion of a stored file that is not live. *)
Definition obsolete_in (table : string) (lg : option IncrementalGcStrategy.LgFileSet) (lg_no : Z)
    (op : EnvOp) : Prop :=
  match op with
  | DeleteFile f =>
      exists l, lg = Some l /\ fst (fst f) = table /\ snd (fst f) = lg_no /\
        snd f ∈ IncrementalGcStrategy.storage_files_ l /\ snd f ∉ IncrementalGcStrategy.live_files_ l
  | _ => True
  end.

(** What a call may be, given the dead tablet it came from. *)
Definition obsolete_of (table : string) (tf : option IncrementalGcStrategy.TabletFileSet) (tablet : Z)
    (op : EnvOp) : Prop :=
  match op with
  | DeleteFile f =>
      exists t l, tf = Some t /\ fst (fst f) = table /\
        IncrementalGcStrategy.files_ t !! snd (fst f) = Some l /\
        snd f ∈ IncrementalGcStrategy.storage_files_ l /\ snd f ∉ IncrementalGcStrategy.live_files_ l
  | _ => True
  end.

(** ** Predicates used in the statements about batches *)

(** The batches of two maps, [created] batches having been made and those
    of [committed] committed: every stored batch has a number below
    [created] that is not committed and that no other stored batch has. *)
Definition batch_inv (m1 m2 : gmap string TableImpl.TaskBatch) (created : nat)
    (committed : list nat) : Prop :=
  (forall s b, m1 !! s = Some b ->
     (TableImpl.batch_id b < created)%nat /\ TableImpl.batch_id b ∉ committed) /\
  (forall s b, m2 !! s = Some b ->
     (TableImpl.batch_id b < created)%nat /\ TableImpl.batch_id b ∉ committed) /\
  (forall i, i ∈ committed -> (i < created)%nat) /\
  NoDup committed /\
  (forall s1 s2 b1 b2, m1 !! s1 = Some b1 -> m1 !! s2 = Some b2 ->
     TableImpl.batch_id b1 = TableImpl.batch_id b2 -> s1 = s2) /\
  (forall s1 s2 b1 b2, m2 !! s1 = Some b1 -> m2 !! s2 = Some b2 ->
     TableImpl.batch_id b1 = TableImpl.batch_id b2 -> s1 = s2) /\
  (forall s1 s2 b1 b2, m1 !! s1 = Some b1 -> m2 !! s2 = Some b2 ->
     TableImpl.batch_id b1 <> TableImpl.batch_id b2).

(** The invariant, of the batches of a client. *)
Definition batches_ok (st : TableImpl.t) : Prop :=
  batch_inv (TableImpl.mutation_batch_map_ st) (TableImpl.reader_batch_map_ st)
            (TableImpl.batches_created st) (TableImpl.committed_batches (TableImpl.log st)).

(** ** Predicates used in the statements about flow control *)

(** What resolving a row leaves alone: the configuration, the pending
    counters, the task ids, the batches, and of each task everything but
    its meta timestamp. *)
Definition same_flow (st st' : TableImpl.t) : Prop :=
  TableImpl.config st' = TableImpl.config st /\
  TableImpl.cur_commit_pending_counter_ st' = TableImpl.cur_commit_pending_counter_ st /\
  TableImpl.cur_reader_pending_counter_ st' = TableImpl.cur_reader_pending_counter_ st /\
  TableImpl.next_task_id_ st' = TableImpl.next_task_id_ st /\
  TableImpl.mutation_batch_map_ st' = TableImpl.mutation_batch_map_ st /\
  TableImpl.reader_batch_map_ st' = TableImpl.reader_batch_map_ st /\
  (forall id, TableImpl.error <$> TableImpl.task_pool_ st' !! id = TableImpl.error <$> TableImpl.task_pool_ st !! id) /\
  (forall id, TableImpl.task_type <$> TableImpl.task_pool_ st' !! id = TableImpl.task_type <$> TableImpl.task_pool_ st !! id) /\
  exists new, TableImpl.log st' = (TableImpl.log st ++ new)%list /\
    Forall (fun e => match e with
                     | TableImpl.EvDelayTask _ _ (TableImpl.DelayUpdateMetaTask _ _)
                     | TableImpl.EvScanMetaTableAsync _ _ _ _ => True
                     | _ => False
                     end) new.

(** ** Predicates used in the statements about meta scans *)

(** A step that starts no round of a meta scan and leaves the count of
    them, the configuration and the state of the process alone. *)
Definition quiet (st st' : TableImpl.t) : Prop :=
  TableImpl.config st' = TableImpl.config st /\
  TableImpl.meta_updating_count_ st' = TableImpl.meta_updating_count_ st /\
  TableImpl.aborted st' = TableImpl.aborted st /\
  exists new, TableImpl.log st' = (TableImpl.log st ++ new)%list /\
    TableImpl.scan_rounds new = [].

(** A step that ends [d] rounds and keeps the count in step with the
    rounds it starts, as long as the count was within its bounds. *)
Definition tracks (d : Z) (st st' : TableImpl.t) : Prop :=
  TableImpl.config st' = TableImpl.config st /\
  exists new, TableImpl.log st' = (TableImpl.log st ++ new)%list /\
    (d <= TableImpl.meta_updating_count_ st
          <= TableImpl.uint32 (TableImpl.FLAGS_tera_sdk_update_meta_concurrency
                                 (TableImpl.config st)) ->
     0 <= TableImpl.meta_updating_count_ st'
       <= TableImpl.uint32 (TableImpl.FLAGS_tera_sdk_update_meta_concurrency
                              (TableImpl.config st)) /\
     TableImpl.meta_updating_count_ st - d
       + Z.of_nat (length (TableImpl.scan_rounds new))
       <= TableImpl.meta_updating_count_ st' /\
     (TableImpl.aborted st' = false ->
      TableImpl.aborted st = false /\
      TableImpl.meta_updating_count_ st'
      = TableImpl.meta_updating_count_ st - d
        + Z.of_nat (length (TableImpl.scan_rounds new)))).

(** The count of a client agrees with its rounds in flight and is within
    the configured maximum. *)
Definition scans_bounded (sys : TableImpl.t * list TableImpl.ScanRound) : Prop :=
  0 <= TableImpl.meta_updating_count_ (fst sys)
    <= TableImpl.uint32 (TableImpl.FLAGS_tera_sdk_update_meta_concurrency
                           (TableImpl.config (fst sys))) /\
  Z.of_nat (length (snd sys)) <= TableImpl.meta_updating_count_ (fst sys) /\
  (TableImpl.aborted (fst sys) = false ->
   Z.of_nat (length (snd sys)) = TableImpl.meta_updating_count_ (fst sys)).

(** ** Predicates used in the statements about stale meta *)




(** What [UpdateMetaAsync] does to a cache: entries stay, but for those
    of status [WAIT_UPDATE] that become [UPDATING]. *)
Definition upgraded (m m' : gmap string TableImpl.TabletMetaNode) : Prop :=
  forall k n, m !! k = Some n ->
    exists n', m' !! k = Some n' /\
      (n' = n \/ (TableImpl.status n = TableImpl.WAIT_UPDATE /\
                  n' = TableImpl.set_node_status TableImpl.UPDATING n)).

(** ** Predicates used in the statements about the meta cache *)

(** [row] is in [[start_key, end_key)], an empty end standing for the end
    of the key space. *)
Definition in_range (start_key end_key row : string) : Prop :=
  sle start_key row /\ (end_key = "" \/ slt row end_key).

Definition covers (n : TableImpl.TabletMetaNode) (row : string) : Prop :=
  in_range (TableImpl.node_start n) (TableImpl.node_end n) row.

(** The cache as the code keeps it: every node is the entry of its start
    key, no range is empty and no row is in two ranges. *)
Definition well_formed (m : gmap string TableImpl.TabletMetaNode) : Prop :=
  (forall k n, m !! k = Some n -> TableImpl.node_start n = k) /\
  (forall k n, m !! k = Some n ->
     TableImpl.node_end n = "" \/ slt (TableImpl.node_start n) (TableImpl.node_end n)) /\
  (forall k1 n1 k2 n2 row, m !! k1 = Some n1 -> m !! k2 = Some n2 -> k1 <> k2 ->
     covers n1 row -> ~ covers n2 row).

(** The old node [o] ends at or before the start of the new range, or
    starts at or after its end. *)
Definition apart (new_start new_end : string) (o : TableImpl.TabletMetaNode) : Prop :=
  (TableImpl.node_end o <> "" /\ sle (TableImpl.node_end o) new_start) \/
  (new_end <> "" /\ sle new_end (TableImpl.node_start o)).

(** The old node [o] goes on after the end of the new range. *)
Definition sticks_out (new_end : string) (o : TableImpl.TabletMetaNode) : Prop :=
  new_end <> "" /\
  (TableImpl.node_end o = "" \/ slt new_end (TableImpl.node_end o)).

(** The entries before the iterator [it], [None] being [end()]. *)
Definition before (it : option string) (k : string) : Prop :=
  match it with
  | None => True
  | Some cur => slt k cur
  end.

(** The old cache [m] with the nodes before [it] cut to make room for the
    new range: a node apart from it is kept; of any other, what is before
    [new_start] is kept under the old key with its end set to [new_start],
    what is after [new_end] is kept under [new_end] with its start set to
    [new_end], and the rest is dropped. *)
Definition cut_upto (it : option string) (new_start new_end : string)
    (m m' : gmap string TableImpl.TabletMetaNode) : Prop :=
  forall k n', m' !! k = Some n' <->
    (exists o, m !! k = Some o /\ (~ before it k \/ apart new_start new_end o) /\
       n' = o)
    \/ (exists o, m !! k = Some o /\ before it k /\ ~ apart new_start new_end o /\
          slt (TableImpl.node_start o) new_start /\
          n' = TableImpl.set_node_end new_start o)
    \/ (k = new_end /\
        exists k0 o, m !! k0 = Some o /\ before it k0 /\
          ~ apart new_start new_end o /\ sticks_out new_end o /\
          n' = TableImpl.set_node_start new_end o).

(** The cache [m'] is the old cache [m] cut, with [new_node] put in. *)
Definition replaced (new_node : TableImpl.TabletMetaNode)
    (m m' : gmap string TableImpl.TabletMetaNode) : Prop :=
  let new_start := TableImpl.node_start new_node in
  let new_end := TableImpl.node_end new_node in
  forall k n', m' !! k = Some n' <->
    (k = new_start /\ n' = new_node)
    \/ (exists o, m !! k = Some o /\ apart new_start new_end o /\ n' = o)
    \/ (exists o, m !! k = Some o /\ ~ apart new_start new_end o /\
          slt (TableImpl.node_start o) new_start /\
          n' = TableImpl.set_node_end new_start o)
    \/ (k = new_end /\
        exists k0 o, m !! k0 = Some o /\
          ~ apart new_start new_end o /\ sticks_out new_end o /\
          n' = TableImpl.set_node_start new_end o).

(** The range of a node. *)
Definition node_range (n : TableImpl.TabletMetaNode) : string * string :=
  (TableImpl.node_start n, TableImpl.node_end n).

(** Two caches with the same keys and, under each, the same range. *)
Definition same_ranges (m m' : gmap string TableImpl.TabletMetaNode) : Prop :=
  forall k, node_range <$> m' !! k = node_range <$> m !! k.

(** The range of a record is not empty. *)
Definition valid_range (new_meta : TabletMeta.t) : Prop :=
  KeyRange.key_end (TabletMeta.key_range new_meta) = ""
  \/ slt (KeyRange.key_start (TabletMeta.key_range new_meta))
         (KeyRange.key_end (TabletMeta.key_range new_meta)).

(** The records a scan callback is given, if any, have ranges that are
    not empty. *)
Definition valid_meta_op (op : TableImpl.MetaOp) : Prop :=
  match op with
  | TableImpl.OpScanMetaTableCallBack _ response _ _ _ =>
      Forall valid_range (TableImpl.results response)
  | _ => True
  end.

(** On the way from [st] to [st'] the scan task [id] was handed to
    [CommitScan] for [server_addr]. *)
Definition scan_committed (server_addr : string) (id : Z)
    (st st' : TableImpl.t) : Prop :=
  exists new, TableImpl.log st' = (TableImpl.log st ++ new)%list /\
    TableImpl.EvCommitScan id server_addr ∈ new.

(** The mutation [id] is in a batch for [server_addr] that was committed
    on the way from [st] to [st'] or is stored in [st']. *)
Definition mutation_batched (server_addr : string) (id : Z)
    (st st' : TableImpl.t) : Prop :=
  exists new, TableImpl.log st' = (TableImpl.log st ++ new)%list /\
    ((exists b ids, TableImpl.EvCommitMutations server_addr b ids ∈ new /\ id ∈ ids)
     \/ (exists b, TableImpl.mutation_batch_map_ st' !! server_addr = Some b /\
           id ∈ TableImpl.row_id_list b)).

(** The same, of a read. *)
Definition reader_batched (server_addr : string) (id : Z)
    (st st' : TableImpl.t) : Prop :=
  exists new, TableImpl.log st' = (TableImpl.log st ++ new)%list /\
    ((exists b ids, TableImpl.EvCommitReaders server_addr b ids ∈ new /\ id ∈ ids)
     \/ (exists b, TableImpl.reader_batch_map_ st' !! server_addr = Some b /\
           id ∈ TableImpl.row_id_list b)).

(** The task has gone to [server_addr] on the way from [st] to [st']. *)
Definition dispatched (server_addr : string) (task : TableImpl.SdkTask)
    (st st' : TableImpl.t) : Prop :=
  match TableImpl.task_type task with
  | TableImpl.SCAN => scan_committed server_addr (TableImpl.task_id task) st st'
  | TableImpl.MUTATION => mutation_batched server_addr (TableImpl.task_id task) st st'
  | TableImpl.READ => reader_batched server_addr (TableImpl.task_id task) st st'
  end.

(** What [WakeUpPendingRequest] has in hand while it goes through the
    pending lists: the client, [mutation_list] and [reader_list]. *)
Abbreviation Woken := (TableImpl.t * list TableImpl.SdkTask * list TableImpl.SdkTask)%type.

(** The type and the id of a task. *)
Definition task_sig (task : TableImpl.SdkTask) : TableImpl.TaskType * Z :=
  (TableImpl.task_type task, TableImpl.task_id task).

(** From [acc] to [acc'] calls were added to the log and tasks to the two
    lists, and the tasks of the pool kept their types and ids. *)
Definition grows (acc acc' : Woken) : Prop :=
  (exists new, TableImpl.log (fst (fst acc'))
               = (TableImpl.log (fst (fst acc)) ++ new)%list) /\
  (exists l, snd (fst acc') = (snd (fst acc) ++ l)%list) /\
  (exists l, snd acc' = (snd acc ++ l)%list) /\
  (forall id, task_sig <$> TableImpl.task_pool_ (fst (fst acc')) !! id
              = task_sig <$> TableImpl.task_pool_ (fst (fst acc)) !! id).

(** The task of type [ty] and id [id] was taken up on the way from [acc] to
    [acc']: a scan was committed, a mutation or a read is in its list. *)
Definition collected (server_addr : string) (ty : TableImpl.TaskType) (id : Z)
    (acc acc' : Woken) : Prop :=
  match ty with
  | TableImpl.SCAN => scan_committed server_addr id (fst (fst acc)) (fst (fst acc'))
  | TableImpl.MUTATION => id ∈ TableImpl.task_id <$> snd (fst acc')
  | TableImpl.READ => id ∈ TableImpl.task_id <$> snd acc'
  end.

(** ** Example inputs *)

Definition example_config: TableImpl.Config :=
  {| TableImpl.FLAGS_tera_sdk_update_meta_internal := 10000;
     TableImpl.FLAGS_tera_sdk_update_meta_concurrency := 3;
     TableImpl.FLAGS_tera_sdk_async_blocking_enabled := false;
     TableImpl.kMaxRpcSize := 16777216;
     TableImpl.commit_size_ := 2;
     TableImpl.write_commit_timeout_ := 10;
     TableImpl.read_commit_timeout_ := 10;
     TableImpl.max_commit_pending_num_ := 3;
     TableImpl.max_reader_pending_num_ := 3;
     TableImpl.timeout_ := 60000 |}.

Definition example_task (ty : TableImpl.TaskType) (id : Z) (row : string)
    (async : bool) : TableImpl.SdkTask :=
  {| TableImpl.task_type := ty; TableImpl.task_id := id;
     TableImpl.row_key := row; TableImpl.is_async := async;
     TableImpl.mutation_num := 2; TableImpl.task_size := 5;
     TableImpl.task_timeout := 0;
     TableImpl.internal_error := TableImpl.kTabletNodeOk;
     TableImpl.meta_timestamp := 0; TableImpl.error := TableImpl.kOK |}.


(** Four requests for rows of an empty cache, one after the other. *)
Definition example_meta_ops : list TableImpl.MetaOp :=
  [TableImpl.OpGetTabletAddrOrScheduleUpdateMeta "a"
     (example_task TableImpl.MUTATION 1 "a" true) 0;
   TableImpl.OpGetTabletAddrOrScheduleUpdateMeta "c"
     (example_task TableImpl.MUTATION 2 "c" true) 0;
   TableImpl.OpGetTabletAddrOrScheduleUpdateMeta "e"
     (example_task TableImpl.READ 3 "e" true) 0;
   TableImpl.OpGetTabletAddrOrScheduleUpdateMeta "g"
     (example_task TableImpl.READ 4 "g" true) 0].

(** The client and its rounds in flight after them. *)
Definition example_meta_run : TableImpl.t * list TableImpl.ScanRound :=
  default (TableImpl.init example_config, [])
    (TableImpl.run_meta_ops (TableImpl.init example_config, []) example_meta_ops).

(** A node for the whole key space, updated at time 100. *)
Definition example_node (s : TableImpl.TabletMetaStatus) : TableImpl.TabletMetaNode :=
  {| TableImpl.meta :=
       {| TabletMeta.table_name := "t"; TabletMeta.path := "t/tablet1";
          TabletMeta.key_range := {| KeyRange.key_start := "";
                                     KeyRange.key_end := "" |};
          TabletMeta.server_addr := "ts1" |};
     TableImpl.update_time := 100; TableImpl.status := s |}.

(** A client whose cache holds that node only. *)
Definition example_cached (s : TableImpl.TabletMetaStatus) : TableImpl.t :=
  TableImpl.set_tablet_meta_list_ {[ "" := example_node s ]}
    (TableImpl.init example_config).


(** The entries of [m] a loop at [it] has yet to visit. *)
Definition remaining {V} (m : gmap string V) (it : option string) : nat :=
  match it with
  | None => 0
  | Some cur => length (filter (sle cur) (keys m))
  end.


(** A record for the rows from "b" to "d", on another server. *)
Definition example_new_meta : TabletMeta.t :=
  {| TabletMeta.table_name := "t"; TabletMeta.path := "t/tablet2";
     TabletMeta.key_range := {| KeyRange.key_start := "b"; KeyRange.key_end := "d" |};
     TabletMeta.server_addr := "ts2" |}.

(** A client with one cached node and tasks waiting for rows "c" and "e". *)
Definition example_pending : TableImpl.t :=
  TableImpl.set_task_pool_
    {[ 7 := example_task TableImpl.MUTATION 7 "c" true;
       8 := example_task TableImpl.SCAN 8 "c" true ]}
    (TableImpl.set_pending_task_id_list_ {[ "c" := [7; 8]; "e" := [9] ]}
       (example_cached TableImpl.NORMAL)).

(** A round of each strategy: table "t" has the candidates 1 and 2 in
    its locality group 0, and a tablet server reports 1 as inherited. *)
Definition gc_example_response : QueryResponse.t :=
  {| QueryResponse.inh_live_files :=
       [ {| InheritedLiveFiles.table_name := "t";
            InheritedLiveFiles.lg_live_files :=
              [ {| LgInheritedLiveFiles.lg_no := 0;
                   LgInheritedLiveFiles.file_number := [1] |} ] |} ];
     QueryResponse.tabletmeta_list := [] |}.

Definition gc_example_batch : BatchGcStrategy.t :=
  {| BatchGcStrategy.gc_tablets_ := ∅;
     BatchGcStrategy.gc_live_files_ := {[ "t" := [ ({[ 1; 2 ]} : gset Z) ] ]} |}.

Definition gc_example_incremental : IncrementalGcStrategy.t :=
  {| IncrementalGcStrategy.dead_tablet_files_ :=
       {[ "t" := {[ 7 := {| IncrementalGcStrategy.ready_time_ := 0;
                            IncrementalGcStrategy.dead_time_ := 5;
                            IncrementalGcStrategy.files_ :=
                              {[ 0 := {| IncrementalGcStrategy.storage_files_ := {[ 1; 2 ]};
                                         IncrementalGcStrategy.live_files_ := {[ 1 ]} |} ]} |} ]} ]};
     IncrementalGcStrategy.live_tablet_files_ := ∅;
     IncrementalGcStrategy.max_ts_ := 100 |}.

(** Live tablet [n] of table [table] has not been heard from yet. *)
Definition awaited (st : BatchGcStrategy.t) (table : string) (n : Z) : Prop :=
  exists p : BatchGcStrategy.GcTabletSet,
    BatchGcStrategy.gc_tablets_ st !! table = Some p /\ n ∈ fst p.

(** A response answers for tablet [n] of [table]: it lists a tablet of the
    table whose path gives [n], and it carries inherited files of the
    table. *)
Definition answers (GetTabletNumFromPath : string -> Z)
    (response : QueryResponse.t) (table : string) (n : Z) : Prop :=
  (exists meta : TabletMeta.t,
     meta ∈ QueryResponse.tabletmeta_list response /\
     TabletMeta.table_name meta = table /\
     GetTabletNumFromPath (TabletMeta.path meta) = n) /\
  (exists live : InheritedLiveFiles.t,
     live ∈ QueryResponse.inh_live_files response /\
     InheritedLiveFiles.table_name live = table).

(** A response names a table with a number of locality groups other than
    the one the candidates of the table were collected with. *)
Definition lg_mismatch (files : gmap string BatchGcStrategy.GcFileSet)
    (response : QueryResponse.t) : Prop :=
  exists (live : InheritedLiveFiles.t) (fs : BatchGcStrategy.GcFileSet),
    live ∈ QueryResponse.inh_live_files response /\
    files !! InheritedLiveFiles.table_name live = Some fs /\
    length (InheritedLiveFiles.lg_live_files live) <> length fs.

(** File [f] is among the candidates: its number is in the set of its
    locality group. *)
Definition candidate (files : gmap string BatchGcStrategy.GcFileSet) (f : SstFile) : Prop :=
  exists (fs : BatchGcStrategy.GcFileSet) (lg : nat) (s : gset Z),
    files !! fst (fst f) = Some fs /\ snd (fst f) = Z.of_nat lg /\
    fs !! lg = Some s /\ snd f ∈ s.

(** A round with one live tablet, number 3, awaited for table "t". *)
Definition gc_example_waiting : BatchGcStrategy.t :=
  {| BatchGcStrategy.gc_tablets_ := {[ "t" := (({[ 3 ]} : gset Z), ({[ 7 ]} : gset Z)) ]};
     BatchGcStrategy.gc_live_files_ := {[ "t" := [ ({[ 1; 2 ]} : gset Z) ] ]} |}.

(** The same response from the tablet server that serves tablet 3. *)
Definition gc_example_answer : QueryResponse.t :=
  {| QueryResponse.inh_live_files := QueryResponse.inh_live_files gc_example_response;
     QueryResponse.tabletmeta_list :=
       [ {| TabletMeta.table_name := "t"; TabletMeta.path := "t/tablet3";
            TabletMeta.key_range := {| KeyRange.key_start := ""; KeyRange.key_end := "" |};
            TabletMeta.server_addr := "ts1" |} ] |}.

(** The files noted for a tablet of a table. *)
Definition tablet_files (dead : IncrementalGcRound.TableFiles) (table : string) (tablet : Z)
    : option IncrementalGcStrategy.TabletFileSet :=
  dead !! table ≫= (fun tablets => tablets !! tablet).

(** Locality group [l'] is [l] with the numbers of [P] added to its live
    files. *)
Definition lg_gains (P : Z -> Prop) (l l' : IncrementalGcStrategy.LgFileSet) : Prop :=
  IncrementalGcStrategy.storage_files_ l' = IncrementalGcStrategy.storage_files_ l /\
  forall n, n ∈ IncrementalGcStrategy.live_files_ l' <->
            n ∈ IncrementalGcStrategy.live_files_ l \/ P n.

Definition tablet_gains (P : Z -> Z -> Prop)
    (tf tf' : IncrementalGcStrategy.TabletFileSet) : Prop :=
  IncrementalGcStrategy.ready_time_ tf' = IncrementalGcStrategy.ready_time_ tf /\
  IncrementalGcStrategy.dead_time_ tf' = IncrementalGcStrategy.dead_time_ tf /\
  forall lg, option_Forall2 (lg_gains (P lg))
               (IncrementalGcStrategy.files_ tf !! lg)
               (IncrementalGcStrategy.files_ tf' !! lg).

(** The dead tablets of [dead'] are those of [dead], with the same stored
    files and times, and with the numbers of [P] added to their live
    files. *)
Definition gains (P : string -> Z -> Z -> Z -> Prop)
    (dead dead' : IncrementalGcRound.TableFiles) : Prop :=
  forall table tablet,
    option_Forall2 (tablet_gains (P table tablet))
      (tablet_files dead table tablet) (tablet_files dead' table tablet).

(** What holds of the third loop of the incremental callback while it
    gathers the files of one table: the dead tablets are as they were in
    [dead0], [temp] holds the numbers seen so far (the pairs of [S]) whose
    tablet is dead, only for locality groups the tablet has, and every
    number seen so far passed the [CHECK]. *)
Definition collect_inv (ParseFullFileNumber : Z -> Z * Z)
    (dead0 : IncrementalGcRound.TableFiles) (table : string) (S : Z -> Z -> Prop)
    (acc : IncrementalGcRound.TableFiles * IncrementalGcRound.LiveFiles) : Prop :=
  (forall table' tablet, tablet_files (fst acc) table' tablet = tablet_files dead0 table' tablet) /\
  (forall tablet lg n,
     n ∈ default ∅ (snd acc !! tablet ≫= (fun lgs => lgs !! lg)) <->
     S lg n /\ fst (ParseFullFileNumber n) = tablet /\
     is_Some (tablet_files dead0 table tablet)) /\
  (forall tablet lgs lg,
     snd acc !! tablet = Some lgs -> is_Some (lgs !! lg) ->
     exists tf, tablet_files dead0 table tablet = Some tf /\
                is_Some (IncrementalGcStrategy.files_ tf !! lg)) /\
  (forall lg n tf,
     S lg n -> tablet_files dead0 table (fst (ParseFullFileNumber n)) = Some tf ->
     exists l, IncrementalGcStrategy.files_ tf !! lg = Some l /\
               n ∈ IncrementalGcStrategy.storage_files_ l).

(** Number [n] is named for locality group [lg] by one of [lgs]. *)
Definition named_in (lgs : list LgInheritedLiveFiles.t) (lg n : Z) : Prop :=
  exists l, l ∈ lgs /\ LgInheritedLiveFiles.lg_no l = lg /\
            n ∈ LgInheritedLiveFiles.file_number l.

(** What an [InheritedLiveFiles] of a response claims for the incremental
    strategy: the table is not the meta table and has an entry in
    [live_tablet_files_], and the number is named for the locality group
    and parses to the tablet. *)
Definition claims (FLAGS_tera_master_meta_table_name : string)
    (ParseFullFileNumber : Z -> Z * Z) (live : IncrementalGcRound.TableFiles)
    (live_files : InheritedLiveFiles.t)
    (table : string) (tablet lg n : Z) : Prop :=
  InheritedLiveFiles.table_name live_files = table /\
  table <> FLAGS_tera_master_meta_table_name /\
  is_Some (live !! table) /\
  named_in (InheritedLiveFiles.lg_live_files live_files) lg n /\
  fst (ParseFullFileNumber n) = tablet.

(** A claim the [CHECK] of the incremental callback rejects: the tablet is
    dead and the number is not among the stored files of its locality
    group. *)
Definition unchecked (FLAGS_tera_master_meta_table_name : string)
    (ParseFullFileNumber : Z -> Z * Z) (live dead : IncrementalGcRound.TableFiles)
    (live_files : InheritedLiveFiles.t) : Prop :=
  exists table tablet lg n tf,
    claims FLAGS_tera_master_meta_table_name ParseFullFileNumber live live_files
           table tablet lg n /\
    tablet_files dead table tablet = Some tf /\
    n ∉ IncrementalGcStrategy.storage_files_
          (default IncrementalGcRound.empty_lg (IncrementalGcStrategy.files_ tf !! lg)).

(** A response answers for a live tablet: the table is not the meta table,
    the response carries inherited files of the table, and it lists a
    tablet of the table whose path gives the number. *)
Definition answered (FLAGS_tera_master_meta_table_name : string)
    (GetTabletNumFromPath : string -> Z) (response : QueryResponse.t)
    (table : string) (tablet : Z) : Prop :=
  table <> FLAGS_tera_master_meta_table_name /\
  (exists live_files, live_files ∈ QueryResponse.inh_live_files response /\
                      InheritedLiveFiles.table_name live_files = table) /\
  (exists meta, meta ∈ QueryResponse.tabletmeta_list response /\
                TabletMeta.table_name meta = table /\
                GetTabletNumFromPath (TabletMeta.path meta) = tablet).

(** [tf'] is [tf], seen ready at [now] if [A] holds and not touched
    otherwise. *)
Definition stamped (now : Z) (A : Prop)
    (tf tf' : IncrementalGcStrategy.TabletFileSet) : Prop :=
  IncrementalGcStrategy.dead_time_ tf' = IncrementalGcStrategy.dead_time_ tf /\
  IncrementalGcStrategy.files_ tf' = IncrementalGcStrategy.files_ tf /\
  (A -> IncrementalGcStrategy.ready_time_ tf' = now) /\
  (IncrementalGcStrategy.ready_time_ tf' = IncrementalGcStrategy.ready_time_ tf \/
   (A /\ IncrementalGcStrategy.ready_time_ tf' = now)).

(** What [DeleteTableFiles] reads of the strategy for one table. *)
Abbreviation TableView :=
  (option (gmap Z IncrementalGcStrategy.TabletFileSet)
   * option (gmap Z IncrementalGcStrategy.TabletFileSet) * Z)%type.

Definition table_view (st : IncrementalGcStrategy.t) (table : string) : TableView :=
  (IncrementalGcStrategy.dead_tablet_files_ st !! table,
   IncrementalGcStrategy.live_tablet_files_ st !! table,
   IncrementalGcStrategy.max_ts_ st).

(** The table a call on the file system is about. *)
Definition op_table (op : EnvOp) : string :=
  match op with
  | DeleteFile f => fst (fst f)
  | DeleteLgDir table _ _ => table
  | DeleteTabletDir table _ => table
  end.

(** What a call of the sweep of [table] may be: a call about [table],
    which has dead tablets noted; if a file is deleted, it is a stored
    file, not live, of a dead tablet that died before the earliest ready
    time of the live tablets. *)
Definition swept (v : TableView) (table : string) (op : EnvOp) : Prop :=
  op_table op = table /\
  exists dead, fst (fst v) = Some dead /\
    match op with
    | DeleteFile f =>
        exists tablet tf l,
          dead !! tablet = Some tf /\
          IncrementalGcStrategy.dead_time_ tf
            < IncrementalGcStrategy.earliest_ready_time (snd v) (default ∅ (snd (fst v))) /\
          IncrementalGcStrategy.files_ tf !! snd (fst f) = Some l /\
          snd f ∈ IncrementalGcStrategy.storage_files_ l /\
          snd f ∉ IncrementalGcStrategy.live_files_ l
    | _ => True
    end.

(** A round of the incremental strategy: table "t" has the dead tablet 7
    with the stored files 1 and 2 in locality group 0 and the live tablet
    3, which has not been seen ready since tablet 7 died. *)
Definition gc_example_round : IncrementalGcStrategy.t :=
  {| IncrementalGcStrategy.dead_tablet_files_ :=
       {[ "t" := {[ 7 := {| IncrementalGcStrategy.ready_time_ := 0;
                            IncrementalGcStrategy.dead_time_ := 5;
                            IncrementalGcStrategy.files_ :=
                              {[ 0 := {| IncrementalGcStrategy.storage_files_ := {[ 1; 2 ]};
                                         IncrementalGcStrategy.live_files_ := ∅ |} ]} |} ]} ]};
     IncrementalGcStrategy.live_tablet_files_ :=
       {[ "t" := {[ 3 := {| IncrementalGcStrategy.ready_time_ := 0;
                            IncrementalGcStrategy.dead_time_ := 0;
                            IncrementalGcStrategy.files_ := ∅ |} ]} ]};
     IncrementalGcStrategy.max_ts_ := 100 |}.

(** The round after the answer of the server of tablet 3 at time 9, which
    reports file 1 as inherited; every file number is taken to be one of
    tablet 7. *)
Definition gc_example_round_answered : IncrementalGcStrategy.t :=
  default gc_example_round
    (IncrementalGcRound.ProcessQueryCallbacks "meta" (fun _ => 3) (fun n => (7, n))
       [(gc_example_answer, 9)] gc_example_round).

(** The node [n'] is the node [o], whole or cut at [new_start] or at
    [new_end]: same server, path, update time and status. *)
Definition cut_of (new_start new_end : string)
    (o n' : TableImpl.TabletMetaNode) : Prop :=
  n' = o \/ n' = TableImpl.set_node_end new_start o
  \/ n' = TableImpl.set_node_start new_end o.

(** The node [n] is what the record [r], put in at [now], left in the
    cache: the server, table and path of [r], the time [now], status
    [NORMAL]. *)
Definition serves (r : TabletMeta.t) (now : Z) (n : TableImpl.TabletMetaNode) : Prop :=
  TabletMeta.server_addr (TableImpl.meta n) = TabletMeta.server_addr r /\
  TabletMeta.table_name (TableImpl.meta n) = TabletMeta.table_name r /\
  TabletMeta.path (TableImpl.meta n) = TabletMeta.path r /\
  TableImpl.update_time n = now /\
  TableImpl.status n = TableImpl.NORMAL.

(** The row is in the range of the record. *)
Definition in_record (r : TabletMeta.t) (row : string) : Prop :=
  in_range (KeyRange.key_start (TabletMeta.key_range r))
           (KeyRange.key_end (TabletMeta.key_range r)) row.

(** The answer to a scan of the meta table that holds one record. *)
Definition example_scan_response : TableImpl.ScanTabletResponse :=
  {| TableImpl.response_status := TableImpl.kTabletNodeOk;
     TableImpl.results := [example_new_meta]; TableImpl.complete := true |}.

(** A client with an empty cache and one mutation, for row "c", in its
    pool. *)
Definition example_registered : TableImpl.t :=
  TableImpl.set_task_pool_ {[ 1 := example_task TableImpl.MUTATION 1 "c" true ]}
    (TableImpl.init example_config).

(** No node of the cache waits for a scan. *)
Definition none_waiting (m : gmap string TableImpl.TabletMetaNode) : Prop :=
  forall k n, m !! k = Some n -> TableImpl.status n <> TableImpl.WAIT_UPDATE.

(** The node [n], the entry of [k], is the first in the order of the keys
    that waits for a scan. *)
Definition first_waiting (m : gmap string TableImpl.TabletMetaNode)
    (k : string) (n : TableImpl.TabletMetaNode) : Prop :=
  m !! k = Some n /\ TableImpl.status n = TableImpl.WAIT_UPDATE /\
  forall k' n', m !! k' = Some n' -> slt k' k ->
    TableImpl.status n' <> TableImpl.WAIT_UPDATE.

(** A client whose cache holds one node, for the row "c", that waits for
    a scan. *)
Definition example_one_waiting : TableImpl.t :=
  TableImpl.add_wait_node "c" (TableImpl.init example_config).

(** The rows committed to [server_addr] so far, in the order they were
    sent. *)
Definition rows_committed (server_addr : string) (l : list TableImpl.Event) : list Z :=
  flat_map (fun p => if String.eqb (fst p) server_addr then snd p else [])
           (TableImpl.mutation_commits l).

(** The rows of the batch stored for [server_addr]. *)
Definition rows_stored (server_addr : string) (st : TableImpl.t) : list Z :=
  from_option TableImpl.row_id_list [] (TableImpl.mutation_batch_map_ st !! server_addr).

(** The reader batches committed so far: server and row ids. *)
Definition reader_commits (l : list TableImpl.Event) : list (string * list Z) :=
  omap (fun e => match e with
                 | TableImpl.EvCommitReaders server_addr _ ids => Some (server_addr, ids)
                 | _ => None
                 end) l.

(** Every task of the pool is the entry of its own id. *)
Definition pool_consistent (st : TableImpl.t) : Prop :=
  forall id task, TableImpl.task_pool_ st !! id = Some task -> TableImpl.task_id task = id.

(** The task [id] waits for the meta of [row]. *)
Definition pending_at (st : TableImpl.t) (row : string) (id : Z) : Prop :=
  id ∈ default [] (TableImpl.pending_task_id_list_ st !! row).

(** The mutation [id] is in the list gathered for [server_addr]. *)
Definition listed (ts_list : gmap string TableImpl.MuFlushPair)
    (server_addr : string) (id : Z) : Prop :=
  exists pr, ts_list !! server_addr = Some pr /\
             id ∈ TableImpl.task_id <$> TableImpl.mu_list pr.

(** On the way from [st] to [st'] the task [id] was refused by flow
    control: its [BreakRequest] was scheduled. *)
Definition refused (id : Z) (st st' : TableImpl.t) : Prop :=
  exists new, TableImpl.log st' = (TableImpl.log st ++ new)%list /\
    TableImpl.EvAddTask (TableImpl.BreakRequestTask id) ∈ new.

(** What the rounds of a distribution keep: tasks that wait still wait,
    mutations gathered stay gathered, calls are only added and the
    batches are not touched. *)
Definition gathers (d d' : TableImpl.Distribution) : Prop :=
  (forall row id, pending_at (TableImpl.d_state d) row id ->
                  pending_at (TableImpl.d_state d') row id) /\
  (forall server id, listed (TableImpl.d_ts_list d) server id ->
                     listed (TableImpl.d_ts_list d') server id) /\
  (exists new, TableImpl.log (TableImpl.d_state d')
               = (TableImpl.log (TableImpl.d_state d) ++ new)%list) /\
  TableImpl.mutation_batch_map_ (TableImpl.d_state d')
  = TableImpl.mutation_batch_map_ (TableImpl.d_state d).

(** The calls that register a task, answer it or hold the caller up. *)
Definition user_event (e : TableImpl.Event) : Prop :=
  match e with
  | TableImpl.EvPutTask _ _ | TableImpl.EvWait _ | TableImpl.EvRunCallback _ _
  | TableImpl.EvAddTask (TableImpl.BreakRequestTask _) => True
  | _ => False
  end.

(** What a retry leaves alone: the pending counters, the supply of task
    ids, the tasks of the pool and their errors; and it makes no call that
    registers a task, answers one or waits for one. *)
Definition retried (st st' : TableImpl.t) : Prop :=
  TableImpl.cur_commit_pending_counter_ st' = TableImpl.cur_commit_pending_counter_ st /\
  TableImpl.cur_reader_pending_counter_ st' = TableImpl.cur_reader_pending_counter_ st /\
  TableImpl.next_task_id_ st' = TableImpl.next_task_id_ st /\
  (forall id, TableImpl.error <$> TableImpl.task_pool_ st' !! id
              = TableImpl.error <$> TableImpl.task_pool_ st !! id) /\
  exists new, TableImpl.log st' = (TableImpl.log st ++ new)%list /\
              Forall (fun e => ~ user_event e) new.

(** The read [id] is in the list gathered for [server_addr]. *)
Definition reader_listed (ts_list : gmap string (list TableImpl.SdkTask))
    (server_addr : string) (id : Z) : Prop :=
  exists l, ts_list !! server_addr = Some l /\ id ∈ TableImpl.task_id <$> l.

(** What the rounds of a distribution of reads keep. *)
Definition reader_gathers (d d' : TableImpl.ReaderDistribution) : Prop :=
  (forall row id, pending_at (TableImpl.r_state d) row id ->
                  pending_at (TableImpl.r_state d') row id) /\
  (forall server id, reader_listed (TableImpl.r_ts_list d) server id ->
                     reader_listed (TableImpl.r_ts_list d') server id) /\
  (exists new, TableImpl.log (TableImpl.r_state d')
               = (TableImpl.log (TableImpl.r_state d) ++ new)%list) /\
  TableImpl.reader_batch_map_ (TableImpl.r_state d')
  = TableImpl.reader_batch_map_ (TableImpl.r_state d).

(** The timeouts the first loop looks at: those of the synchronous rows
    that are positive. *)
Definition sync_timeouts (cfg : TableImpl.Config) (tasks : list TableImpl.SdkTask)
    : list Z :=
  filter (fun x => 0 < x)
    (TableImpl.row_timeout_of cfg
       <$> filter (fun task => TableImpl.is_async task = false) tasks).

(** * Properties *)

(** ** The order of byte strings *)

Lemma ascii_compare_refl (a : ascii) : Ascii.compare a a = Eq.
Proof. unfold Ascii.compare. apply N.compare_refl. Qed.

Lemma ascii_compare_lt_trans (a b c : ascii) :
  Ascii.compare a b = Lt -> Ascii.compare b c = Lt -> Ascii.compare a c = Lt.
Proof.
  unfold Ascii.compare. rewrite !N.compare_lt_iff. apply N.lt_trans.
Qed.

Lemma string_compare_refl (s : string) : String.compare s s = Eq.
Proof.
  induction s as [|a s IH]; simpl; [reflexivity|].
  rewrite ascii_compare_refl. exact IH.
Qed.

Lemma string_compare_eq (a b : string) : String.compare a b = Eq <-> a = b.
Proof.
  split; [apply String.compare_eq_iff|].
  intros ->. apply string_compare_refl.
Qed.

Lemma string_compare_lt_trans (a b c : string) :
  String.compare a b = Lt -> String.compare b c = Lt -> String.compare a c = Lt.
Proof.
  revert b c. induction a as [|x a IH]; intros [|y b] [|z c]; simpl;
    try discriminate; try reflexivity.
  destruct (Ascii.compare x y) eqn:Hxy; try discriminate;
    destruct (Ascii.compare y z) eqn:Hyz; try discriminate; intros H1 H2.
  - apply Ascii.compare_eq_iff in Hxy, Hyz. subst.
    rewrite ascii_compare_refl. eauto.
  - apply Ascii.compare_eq_iff in Hxy. subst. rewrite Hyz. reflexivity.
  - apply Ascii.compare_eq_iff in Hyz. subst. rewrite Hxy. reflexivity.
  - rewrite (ascii_compare_lt_trans _ _ _ Hxy Hyz). reflexivity.
Qed.

Lemma string_compare_gt (a b : string) :
  String.compare a b = Gt <-> String.compare b a = Lt.
Proof.
  rewrite (String.compare_antisym b a).
  destruct (String.compare a b); simpl; split; congruence.
Qed.

Lemma slt_compare (a b : string) : slt a b <-> String.compare a b = Lt.
Proof.
  unfold slt, String.ltb. destruct (String.compare a b); split; congruence.
Qed.

Lemma sle_compare (a b : string) : sle a b <-> String.compare a b <> Gt.
Proof.
  unfold sle, String.leb. destruct (String.compare a b); split; congruence.
Qed.

Lemma slt_irrefl (a : string) : ~ slt a a.
Proof. rewrite slt_compare, string_compare_refl. discriminate. Qed.

Lemma slt_trans (a b c : string) : slt a b -> slt b c -> slt a c.
Proof. rewrite !slt_compare. apply string_compare_lt_trans. Qed.

Lemma sle_lteq (a b : string) : sle a b <-> slt a b \/ a = b.
Proof.
  rewrite sle_compare, slt_compare, <- string_compare_eq.
  destruct (String.compare a b); split; intros; try tauto; try congruence.
  - destruct H; discriminate.
Qed.

Lemma slt_total (a b : string) : slt a b \/ a = b \/ slt b a.
Proof.
  rewrite !slt_compare, <- string_compare_eq.
  destruct (String.compare a b) eqn:H; auto.
  right. right. apply string_compare_gt. exact H.
Qed.

Lemma ltb_false (a b : string) : String.ltb a b = false <-> sle b a.
Proof.
  rewrite sle_lteq. destruct (String.ltb a b) eqn:H.
  - split; [discriminate|]. intros [H'| ->].
    + exfalso. exact (slt_irrefl _ (slt_trans _ _ _ H H')).
    + exfalso. exact (slt_irrefl _ H).
  - split; [|reflexivity]. intros _.
    destruct (slt_total a b) as [H'|[H'|H']]; auto.
    unfold slt in H'. congruence.
Qed.

Lemma leb_false (a b : string) : String.leb a b = false <-> slt b a.
Proof.
  destruct (String.leb a b) eqn:H.
  - split; [discriminate|]. intros H'. apply sle_lteq in H.
    destruct H as [H| ->].
    + exfalso. exact (slt_irrefl _ (slt_trans _ _ _ H H')).
    + exfalso. exact (slt_irrefl _ H').
  - split; [|reflexivity]. intros _.
    destruct (slt_total a b) as [H'|[H'|H']]; auto.
    + assert (sle a b) by (apply sle_lteq; auto). unfold sle in *. congruence.
    + assert (sle a b) by (apply sle_lteq; auto). unfold sle in *. congruence.
Qed.

Lemma empty_true (s : string) : empty s = true <-> s = "".
Proof. unfold empty. apply String.eqb_eq. Qed.

Lemma empty_false (s : string) : empty s = false <-> s <> "".
Proof. unfold empty. apply String.eqb_neq. Qed.

Lemma slt_empty_l (s : string) : s <> "" -> slt "" s.
Proof. destruct s; [congruence|]. intros _. reflexivity. Qed.

Lemma not_slt_empty_r (s : string) : ~ slt s "".
Proof. destruct s; unfold slt; simpl; discriminate. Qed.

Module StringOrder <: TotalOrder.
Definition t := string.
Definition eq := @Logic.eq string.
Definition lt := slt.
Definition le := sle.
#[global] Instance eq_equiv : Equivalence eq := eq_equivalence.
#[global] Instance lt_strorder : StrictOrder lt.
Proof.
  split.
  - intros x. apply slt_irrefl.
  - intros x y z. apply slt_trans.
Qed.
#[global] Instance lt_compat : Proper (eq ==> eq ==> iff) lt.
Proof. intros x x' -> y y' ->. reflexivity. Qed.
Lemma le_lteq (x y : string) : le x y <-> lt x y \/ eq x y.
Proof. apply sle_lteq. Qed.
Lemma lt_total (x y : string) : lt x y \/ eq x y \/ lt y x.
Proof. apply slt_total. Qed.
End StringOrder.

Module StringOrderTac := MakeOrderTac StringOrder StringOrder.

(** Comparisons of the model, as the order they decide. *)
Ltac to_order :=
  repeat match goal with
  | H : String.ltb ?a ?b = true |- _ => change (slt a b) in H
  | H : String.leb ?a ?b = true |- _ => change (sle a b) in H
  | H : String.ltb _ _ = false |- _ => apply ltb_false in H
  | H : String.leb _ _ = false |- _ => apply leb_false in H
  | H : empty _ = true |- _ => apply empty_true in H
  | H : empty _ = false |- _ => apply empty_false in H
  | |- String.ltb ?a ?b = true => change (slt a b)
  | |- String.leb ?a ?b = true => change (sle a b)
  | |- String.ltb _ _ = false => apply ltb_false
  | |- String.leb _ _ = false => apply leb_false
  end.

Ltac sorder :=
  to_order;
  change slt with StringOrder.lt in *;
  change sle with StringOrder.le in *;
  StringOrderTac.order.

(** ** FindAverageKey: the result lies between the bounds *)

Import TabletIO.

Lemma byte_val_range (c : ascii) : 0 <= byte_val c < 256.
Proof.
  unfold byte_val. pose proof (N_ascii_bounded c). lia.
Qed.

Lemma byte_val_of (d : Z) : 0 <= d < 256 -> byte_val (byte_of d) = d.
Proof.
  intros H. unfold byte_val, byte_of.
  rewrite Z.mod_small by lia.
  rewrite N_ascii_embedding by lia. lia.
Qed.

Lemma byte_val_inj (a b : ascii) : byte_val a = byte_val b -> a = b.
Proof.
  unfold byte_val. intros H.
  rewrite <- (ascii_N_embedding a), <- (ascii_N_embedding b).
  f_equal. lia.
Qed.

Lemma ascii_compare_val (a b : ascii) :
  Ascii.compare a b = (byte_val a ?= byte_val b).
Proof.
  unfold Ascii.compare, byte_val. rewrite N2Z.inj_compare. reflexivity.
Qed.

Lemma length_resize (n : nat) (c : ascii) (s : string) :
  String.length (resize n c s) = n.
Proof.
  revert s. induction n as [|n IH]; intros s; simpl; [reflexivity|].
  destruct s; simpl; rewrite IH; reflexivity.
Qed.

Lemma key_value_range (s : string) :
  0 <= key_value s < 256 ^ Z.of_nat (String.length s).
Proof.
  induction s as [|c s IH]; simpl String.length; simpl key_value.
  - simpl. lia.
  - pose proof (byte_val_range c).
    rewrite Nat2Z.inj_succ, Z.pow_succ_r by lia. nia.
Qed.

Lemma compare_key_value (a b : string) :
  String.length a = String.length b ->
  String.compare a b = (key_value a ?= key_value b).
Proof.
  revert b. induction a as [|x a IH]; intros [|y b]; simpl String.length;
    try discriminate; intros Hlen.
  - reflexivity.
  - injection Hlen as Hlen. cbn [String.compare key_value].
    rewrite ascii_compare_val, <- Hlen, (IH b Hlen).
    pose proof (key_value_range a) as Ha.
    pose proof (key_value_range b) as Hb. rewrite <- Hlen in Hb.
    set (P := 256 ^ Z.of_nat (String.length a)) in *.
    symmetry.
    destruct (Z.compare_spec (byte_val x) (byte_val y)) as [Hc|Hc|Hc].
    + rewrite Hc.
      destruct (Z.compare_spec (key_value a) (key_value b)) as [Hv|Hv|Hv].
      * apply Z.compare_eq_iff. lia.
      * apply Z.compare_lt_iff. lia.
      * apply Z.compare_gt_iff. lia.
    + apply Z.compare_lt_iff.
      assert ((byte_val x + 1) * P <= byte_val y * P)
        by (apply Z.mul_le_mono_nonneg_r; lia).
      lia.
    + apply Z.compare_gt_iff.
      assert ((byte_val y + 1) * P <= byte_val x * P)
        by (apply Z.mul_le_mono_nonneg_r; lia).
      lia.
Qed.

Lemma length_key_of_value (n : nat) (v : Z) :
  String.length (key_of_value n v) = n.
Proof.
  revert v. induction n as [|n IH]; intros v; simpl; [reflexivity|].
  rewrite IH. reflexivity.
Qed.

Lemma key_value_of_value (n : nat) (v : Z) :
  0 <= v < 256 ^ Z.of_nat n -> key_value (key_of_value n v) = v.
Proof.
  revert v. induction n as [|n IH]; intros v Hv.
  - simpl in *. lia.
  - cbn [key_of_value key_value]. rewrite length_key_of_value.
    rewrite Nat2Z.inj_succ, Z.pow_succ_r in Hv by lia.
    set (P := 256 ^ Z.of_nat n) in *.
    assert (0 < P) by (apply Z.pow_pos_nonneg; lia).
    rewrite byte_val_of.
    + rewrite IH by (apply Z.mod_pos_bound; lia).
      pose proof (Z.div_mod v P). lia.
    + split; [apply Z.div_pos; lia|]. apply Z.div_lt_upper_bound; lia.
Qed.

Lemma compare_resize_longer (c : ascii) (s : string) (n : nat) :
  (String.length s < n)%nat -> String.compare s (resize n c s) = Lt.
Proof.
  revert n. induction s as [|x s IH]; intros [|n]; simpl; try lia.
  - reflexivity.
  - intros H. rewrite ascii_compare_refl. apply IH. lia.
Qed.

Lemma zeros_least (x : string) :
  String.compare x (zeros (String.length x)) <> Lt.
Proof.
  induction x as [|a x IH]; simpl; [discriminate|].
  rewrite ascii_compare_val.
  pose proof (byte_val_range a) as Ha.
  change (byte_val zero) with 0.
  destruct (Z.compare_spec (byte_val a) 0) as [Hc|Hc|Hc].
  - exact IH.
  - lia.
  - discriminate.
Qed.

Lemma substring_prefix (j : nat) (s : string) :
  exists rest, s = substring 0 j s +:+ rest.
Proof.
  revert s. induction j as [|j IH]; intros s.
  - exists s. destruct s; reflexivity.
  - destruct s as [|c s]; [exists ""; reflexivity|].
    destruct (IH s) as [rest Hr]. exists rest.
    change (String c s = String c (substring 0 j s +:+ rest)).
    f_equal. exact Hr.
Qed.

Lemma substring_all (s : string) : substring 0 (String.length s) s = s.
Proof. induction s as [|c s IH]; simpl; [reflexivity|]. f_equal. exact IH. Qed.

Lemma prefix_below_padded (p rest e0 : string) (n : nat) :
  String.compare (p +:+ rest) (resize n zero e0) = Lt ->
  String.length (p +:+ rest) = n ->
  String.compare p e0 = Lt.
Proof.
  revert e0 n. induction p as [|a p IH]; intros e0 n Hc Hlen.
  - destruct e0; [|reflexivity].
    exfalso. simpl in Hc, Hlen. subst n. exact (zeros_least rest Hc).
  - destruct n as [|n]; [discriminate|]. simpl in Hlen. injection Hlen as Hlen.
    destruct e0 as [|b e0]; simpl in Hc |- *.
    + exfalso. rewrite ascii_compare_val in Hc.
      pose proof (byte_val_range a) as Ha. change (byte_val zero) with 0 in Hc.
      destruct (Z.compare_spec (byte_val a) 0) as [Hc'|Hc'|Hc']; try discriminate.
      * subst n. exact (zeros_least _ Hc).
      * lia.
    + destruct (Ascii.compare a b); try discriminate; [|reflexivity].
      eapply IH; eauto.
Qed.

Lemma diff_pos_lt (s e : string) :
  String.length s = String.length e -> s <> e ->
  (diff_pos s e < String.length s)%nat.
Proof.
  revert e. induction s as [|a s IH]; intros [|b e]; simpl; try discriminate.
  - congruence.
  - intros Hlen Hne. injection Hlen as Hlen.
    destruct (Ascii.eqb a b) eqn:Hab; [|lia].
    apply Ascii.eqb_eq in Hab. subst b.
    assert (s <> e) by congruence. specialize (IH e Hlen H). lia.
Qed.

Lemma shortest_above_spec (start ave : string) (k n : nat) :
  exists j, (k <= j <= k + n)%nat /\
    shortest_above start ave k n = substring 0 j ave /\
    (slt start (substring 0 j ave) \/ j = (k + n)%nat).
Proof.
  revert k. induction n as [|n IH]; intros k; simpl.
  - exists k. split; [lia|]. split; [reflexivity|]. right. lia.
  - destruct (String.ltb start (substring 0 k ave)) eqn:Hlt.
    + exists k. split; [lia|]. split; [reflexivity|]. left. exact Hlt.
    + destruct (IH (S k)) as (j & Hj & Heq & Hor).
      exists j. split; [lia|]. split; [exact Heq|].
      destruct Hor; [left; assumption|right; lia].
Qed.

(** The padded bounds of a successful call, and its average. *)
Lemma FindAverageKey_Some (start end_ r : string) :
  FindAverageKey start end_ = Some r ->
  exists e0 n ave rest,
    e0 = (if empty end_ then resize (S (String.length start)) "255"%char "" else end_) /\
    n = S (Nat.max (String.length start) (String.length e0)) /\
    String.length ave = n /\
    sle (resize n zero start) ave /\
    slt ave (resize n zero e0) /\
    ave = r +:+ rest /\
    (slt start r \/ r = ave).
Proof.
  unfold FindAverageKey.
  set (e0 := if empty end_ then _ else _).
  set (n := S (Nat.max (String.length start) (String.length e0))).
  set (s := resize n zero start). set (e := resize n zero e0).
  destruct (String.ltb s e) eqn:Hlt; [|discriminate].
  set (ave := key_of_value n ((key_value s + key_value e) / 2)).
  intros Hr.
  assert (Hr' : shortest_above start ave (S (diff_pos s e)) (n - S (diff_pos s e)) = r)
    by (injection Hr; auto).
  clear Hr.
  assert (Hls : String.length s = n) by apply length_resize.
  assert (Hle : String.length e = n) by apply length_resize.
  assert (Hla : String.length ave = n) by apply length_key_of_value.
  apply slt_compare in Hlt.
  rewrite compare_key_value in Hlt by lia.
  change (key_value s < key_value e) in Hlt.
  pose proof (key_value_range s) as Hs. pose proof (key_value_range e) as He.
  rewrite Hls in Hs. rewrite Hle in He.
  assert (Hav : key_value s <= (key_value s + key_value e) / 2 < key_value e).
  { split.
    - apply Z.div_le_lower_bound; lia.
    - apply Z.div_lt_upper_bound; lia. }
  assert (Hva : key_value ave = (key_value s + key_value e) / 2).
  { apply key_value_of_value. lia. }
  assert (Hne : s <> e) by (intros Heq; rewrite Heq in Hlt; lia).
  pose proof (diff_pos_lt s e ltac:(lia) Hne) as Hd. rewrite Hls in Hd.
  destruct (shortest_above_spec start ave (S (diff_pos s e)) (n - S (diff_pos s e)))
    as (j & Hj & Heq & Hor).
  destruct (substring_prefix j ave) as [rest Hrest].
  rewrite Heq in Hr'. subst r.
  exists e0, n, ave, rest.
  repeat split; try reflexivity; try assumption.
  - apply sle_compare. fold s. rewrite compare_key_value by lia.
    rewrite Hva. intros Hc. change (key_value s > (key_value s + key_value e) / 2) in Hc. lia.
  - apply slt_compare. fold e. rewrite compare_key_value by lia.
    rewrite Hva. apply Z.compare_lt_iff. lia.
  - destruct Hor as [H|H]; [left; exact H|right].
    replace j with (String.length ave) by lia. apply substring_all.
Qed.

Lemma FindAverageKey_between (start end_ r : string) :
  FindAverageKey start end_ = Some r ->
  slt start r /\ (end_ = "" \/ slt r end_).
Proof.
  intros H. destruct (FindAverageKey_Some _ _ _ H)
    as (e0 & n & ave & rest & He0 & Hn & Hla & Hsa & Hae & Hr & Hor).
  split.
  - destruct Hor as [Hlt| ->]; [exact Hlt|].
    assert (slt start (resize n zero start)).
    { apply slt_compare, compare_resize_longer. lia. }
    sorder.
  - destruct (empty end_) eqn:Hemp.
    + left. apply empty_true. exact Hemp.
    + right. subst e0. apply slt_compare.
      apply (prefix_below_padded r rest end_ n).
      * rewrite <- Hr. apply slt_compare. exact Hae.
      * rewrite <- Hr. exact Hla.
Qed.







(** C2. Whenever [FindAverageKey] succeeds its result is strictly between
    [start] and [end] in byte order, an empty [end] standing for plus
    infinity (and an empty [start], the least string, for minus infinity);
    and it returns the values the test asserts for ("helloa", "hellob"),
    ("a", "b"), ("a\xff\xff", "b") and ("", "\x01"). *)
Theorem FindAverageKey_strictly_between :
  (forall start end_ r : string,
     FindAverageKey start end_ = Some r ->
     slt start r /\ (end_ = "" \/ slt r end_)) /\
  FindAverageKey "helloa" "hellob" = Some ("helloa" +:+ String "128" "") /\
  FindAverageKey "a" "b" = Some (String "a" (String "128" "")) /\
  FindAverageKey (String "a" (String "255" (String "255" ""))) "b"
    = Some (String "a" (String "255" (String "255" (String "128" "")))) /\
  FindAverageKey "" (String "001" "") = Some (String "000" "").
Proof.
  split; [exact FindAverageKey_between|].
  repeat split; vm_compute; reflexivity.
Qed.

Lemma FindAverageKey_strictly_between_witness :
  slt "abc" "abd" /\ ("abe" = "" \/ slt "abd" "abe").
Proof.
  apply (proj1 FindAverageKey_strictly_between "abc" "abe" "abd").
  vm_compute. reflexivity.
Defined.



(** ** Garbage collection: the batch strategy *)

Section BatchGc.
Import BatchGcStrategy.

Lemma absent_alter (lg lg' : nat) (n m : Z) (fs : GcFileSet) :
  absent lg n fs -> absent lg n (alter (fun s => s ∖ {[ m ]}) lg' fs).
Proof.
  intros H s. destruct (decide (lg' = lg)) as [->|Hne].
  - rewrite list_lookup_alter_eq. destruct (fs !! lg) as [s0|] eqn:E; [|discriminate].
    intros [= <-]. specialize (H s0 E). rewrite elem_of_difference. tauto.
  - rewrite list_lookup_alter_ne by done. apply H.
Qed.

Lemma absent_alter_same (lg : nat) (n : Z) (fs : GcFileSet) :
  absent lg n (alter (fun s => s ∖ {[ n ]}) lg fs).
Proof.
  intros s. rewrite list_lookup_alter_eq.
  destruct (fs !! lg) as [s0|]; [|discriminate]. intros [= <-].
  rewrite elem_of_difference, elem_of_singleton. tauto.
Qed.

Lemma erase_files_keeps (lg lg' : nat) (n : Z) (numbers : list Z) (fs : GcFileSet) :
  absent lg n fs -> absent lg n (erase_files lg' numbers fs).
Proof.
  unfold erase_files. revert fs.
  induction numbers as [|m numbers IH]; intros fs H; simpl; [exact H|].
  apply IH. apply absent_alter. exact H.
Qed.

Lemma erase_files_erases (lg : nat) (n : Z) (numbers : list Z) (fs : GcFileSet) :
  n ∈ numbers -> absent lg n (erase_files lg numbers fs).
Proof.
  unfold erase_files. revert fs.
  induction numbers as [|m numbers IH]; intros fs Hin; simpl.
  - inversion Hin.
  - apply elem_of_cons in Hin as [->|Hin].
    + apply (erase_files_keeps lg lg). apply absent_alter_same.
    + apply IH. exact Hin.
Qed.

Lemma erase_from_keeps (lg lg0 : nat) (n : Z)
    (lgs : list LgInheritedLiveFiles.t) (fs : GcFileSet) :
  absent lg n fs -> absent lg n (erase_from lg0 lgs fs).
Proof.
  revert lg0 fs. induction lgs as [|l lgs IH]; intros lg0 fs H; simpl; [exact H|].
  apply IH. apply erase_files_keeps. exact H.
Qed.

Lemma erase_from_erases (i lg0 : nat) (n : Z) (l : LgInheritedLiveFiles.t)
    (lgs : list LgInheritedLiveFiles.t) (fs : GcFileSet) :
  lgs !! i = Some l -> n ∈ LgInheritedLiveFiles.file_number l ->
  absent (lg0 + i) n (erase_from lg0 lgs fs).
Proof.
  revert i lg0 fs. induction lgs as [|l0 lgs IH]; intros i lg0 fs Hi Hn; [discriminate|].
  destruct i as [|i]; simpl in *.
  - injection Hi as ->. rewrite Nat.add_0_r.
    apply erase_from_keeps. apply erase_files_erases. exact Hn.
  - replace (lg0 + S i)%nat with (S lg0 + i)%nat by lia. apply IH; assumption.
Qed.

Lemma erase_inherited_keeps files live files' f :
  erase_inherited files live = Some files' ->
  not_candidate files f -> not_candidate files' f.
Proof.
  unfold erase_inherited.
  destruct (files !! InheritedLiveFiles.table_name live) as [file_set|] eqn:E.
  - destruct (bool_decide _) eqn:Hbd; [|discriminate]. intros [= <-] H fs.
    destruct (decide (InheritedLiveFiles.table_name live = f.1.1)) as [Heq|Hne].
    + rewrite <- Heq, lookup_insert_eq. intros [= <-] lg Hlg.
      apply erase_from_keeps. apply (H file_set); [congruence|exact Hlg].
    + rewrite lookup_insert_ne by done. apply H.
  - intros [= <-]. auto.
Qed.

Lemma erase_inherited_erases files live files' (lg : nat) l n :
  erase_inherited files live = Some files' ->
  InheritedLiveFiles.lg_live_files live !! lg = Some l ->
  n ∈ LgInheritedLiveFiles.file_number l ->
  not_candidate files' (InheritedLiveFiles.table_name live, Z.of_nat lg, n).
Proof.
  unfold erase_inherited.
  destruct (files !! InheritedLiveFiles.table_name live) as [file_set|] eqn:E.
  - destruct (bool_decide _) eqn:Hbd; [|discriminate]. intros [= <-] Hl Hn fs. simpl.
    rewrite lookup_insert_eq. intros [= <-] lg' Hlg'.
    assert (lg' = lg) as -> by lia.
    apply (erase_from_erases lg 0%nat n l); assumption.
  - intros [= <-] _ _ fs. simpl. congruence.
Qed.

Lemma erase_all_inherited_keeps lives : forall files files' f,
  erase_all_inherited files lives = Some files' ->
  not_candidate files f -> not_candidate files' f.
Proof.
  induction lives as [|live lives IH]; intros files files' f; simpl.
  - intros [= <-]. auto.
  - destruct (erase_inherited files live) as [files1|] eqn:E; [|discriminate].
    intros H Hf. eapply IH; [exact H|]. eapply erase_inherited_keeps; eauto.
Qed.

Lemma erase_all_inherited_erases lives : forall files files' live (lg : nat) l n,
  erase_all_inherited files lives = Some files' ->
  live ∈ lives ->
  InheritedLiveFiles.lg_live_files live !! lg = Some l ->
  n ∈ LgInheritedLiveFiles.file_number l ->
  not_candidate files' (InheritedLiveFiles.table_name live, Z.of_nat lg, n).
Proof.
  induction lives as [|live0 lives IH]; intros files files' live lg l n; simpl.
  - intros _ Hin. inversion Hin.
  - destruct (erase_inherited files live0) as [files1|] eqn:E; [|discriminate].
    intros H Hin Hl Hn. apply elem_of_cons in Hin as [->|Hin].
    + eapply erase_all_inherited_keeps; [exact H|].
      eapply erase_inherited_erases; eauto.
    + eapply IH; eauto.
Qed.

Variable GetTabletNumFromPath : string -> Z.

Lemma callback_keeps response st st' f :
  ProcessQueryCallbackForGc GetTabletNumFromPath response st = Some st' ->
  not_candidate (gc_live_files_ st) f -> not_candidate (gc_live_files_ st') f.
Proof.
  unfold ProcessQueryCallbackForGc.
  destruct (erase_all_inherited _ _) as [files|] eqn:E; [|discriminate].
  intros [= <-]. simpl. eapply erase_all_inherited_keeps; eauto.
Qed.

Lemma callback_erases response st st' f :
  ProcessQueryCallbackForGc GetTabletNumFromPath response st = Some st' ->
  reported response f -> not_candidate (gc_live_files_ st') f.
Proof.
  unfold ProcessQueryCallbackForGc.
  destruct (erase_all_inherited _ _) as [files|] eqn:E; [|discriminate].
  intros [= <-] (live & lg & l & Hin & Hl & Hn & ->). simpl.
  eapply erase_all_inherited_erases; eauto.
Qed.

Lemma callbacks_erase responses : forall st st' response f,
  ProcessQueryCallbacks GetTabletNumFromPath responses st = Some st' ->
  response ∈ responses -> reported response f ->
  not_candidate (gc_live_files_ st') f.
Proof.
  assert (Hkeep : forall rs st st' f,
    ProcessQueryCallbacks GetTabletNumFromPath rs st = Some st' ->
    not_candidate (gc_live_files_ st) f -> not_candidate (gc_live_files_ st') f).
  { induction rs as [|r rs IH]; intros st st' f; simpl.
    - intros [= <-]. auto.
    - destruct (ProcessQueryCallbackForGc _ r st) as [st1|] eqn:E; [|discriminate].
      intros H Hf. eapply IH; [exact H|]. eapply callback_keeps; eauto. }
  induction responses as [|r rs IH]; intros st st' response f; simpl.
  - intros _ Hin. inversion Hin.
  - destruct (ProcessQueryCallbackForGc _ r st) as [st1|] eqn:E; [|discriminate].
    intros H Hin Hrep. apply elem_of_cons in Hin as [->|Hin].
    + eapply Hkeep; [exact H|]. eapply callback_erases; eauto.
    + eapply IH; eauto.
Qed.

Lemma elem_of_DeleteObsoleteFiles st (f : SstFile) :
  f ∈ DeleteObsoleteFiles st ->
  exists (fs : GcFileSet) (lg : nat) (s : gset Z),
    gc_live_files_ st !! (fst (fst f)) = Some fs /\
    snd (fst f) = Z.of_nat lg /\ fs !! lg = Some s /\ snd f ∈ s.
Proof.
  unfold DeleteObsoleteFiles. intros H.
  apply list_elem_of_bind in H as ([name fs] & H & Hm).
  apply elem_of_map_to_list in Hm.
  apply list_elem_of_bind in H as ([lg s] & H & Hl).
  apply elem_of_lookup_imap in Hl as (i & s' & Heq & Hi).
  injection Heq as -> ->.
  apply list_elem_of_bind in H as (n & H & Hn).
  apply elem_of_elements in Hn.
  apply list_elem_of_singleton in H. subst f. simpl.
  exists fs, i, s'. auto.
Qed.

Lemma not_candidate_not_deleted st f :
  not_candidate (gc_live_files_ st) f -> f ∉ DeleteObsoleteFiles st.
Proof.
  intros H Hin. apply elem_of_DeleteObsoleteFiles in Hin as (fs & lg & s & Hfs & Hlg & Hs & Hn).
  exact (H fs Hfs lg Hlg s Hs Hn).
Qed.

Lemma PostQuery_subset st f : f ∈ PostQuery st -> f ∈ DeleteObsoleteFiles st.
Proof.
  unfold PostQuery. destruct (bool_decide _); [auto|]. intros H. inversion H.
Qed.

End BatchGc.

(** ** Garbage collection: the incremental strategy *)

Lemma elem_of_ascending (x : Z) (ks : list Z) : x ∈ ascending ks <-> x ∈ ks.
Proof. unfold ascending. rewrite merge_sort_Permutation. reflexivity. Qed.

Lemma NoDup_ascending (ks : list Z) : NoDup ks -> NoDup (ascending ks).
Proof. unfold ascending. rewrite merge_sort_Permutation. auto. Qed.

Lemma run_foldl_nil {A K} (step : A -> K -> Run A) (a : A) :
  run_foldl step [] a = run_ret a.
Proof. reflexivity. Qed.

Lemma run_foldl_aborted {A K} (step : A -> K -> Run A) (ks : list K) (r : Run A) :
  run_aborted r = true ->
  foldl (fun r k => run_bind r (fun a => step a k) id) r ks = r.
Proof.
  revert r. induction ks as [|k ks IH]; intros r Hr; simpl; [reflexivity|].
  assert (run_bind r (fun a => step a k) id = r) as ->.
  { unfold run_bind. rewrite Hr. destruct r; simpl in *. subst. reflexivity. }
  apply IH. exact Hr.
Qed.

Lemma run_foldl_from {A K} (step : A -> K -> Run A) (ks : list K) (r : Run A) :
  run_aborted r = false ->
  foldl (fun r k => run_bind r (fun a => step a k) id) r ks
  = let r' := run_foldl step ks (run_state r) in
    MkRun (run_state r') (run_ops r ++ run_ops r') (run_aborted r').
Proof.
  revert r. induction ks as [|k ks IH]; intros r Hr.
  - simpl. rewrite app_nil_r. destruct r; simpl in *. subst. reflexivity.
  - unfold run_foldl. simpl.
    destruct (run_aborted (run_bind r (fun a => step a k) id)) eqn:E1.
    + rewrite run_foldl_aborted by exact E1.
      assert (E2 : run_aborted (run_bind (run_ret (run_state r)) (fun a => step a k) id) = true).
      { unfold run_bind in *. rewrite Hr in E1. simpl in *. exact E1. }
      rewrite (run_foldl_aborted step ks _ E2).
      unfold run_bind. rewrite Hr. simpl. reflexivity.
    + rewrite IH by exact E1.
      assert (E2 : run_aborted (run_bind (run_ret (run_state r)) (fun a => step a k) id) = false).
      { unfold run_bind in *. rewrite Hr in E1. simpl in *. exact E1. }
      rewrite (IH _ E2).
      unfold run_bind. rewrite Hr. simpl. rewrite app_assoc. reflexivity.
Qed.

(** The calls of a loop are those of its first round followed, unless the
    assertion fired, by those of the rest. *)
Lemma run_foldl_cons_ops {A K} (step : A -> K -> Run A) (k : K) (ks : list K) (a : A) :
  run_ops (run_foldl step (k :: ks) a)
  = (run_ops (step a k) ++
     (if run_aborted (step a k) then []
      else run_ops (run_foldl step ks (run_state (step a k)))))%list.
Proof.
  unfold run_foldl at 1. simpl.
  destruct (run_aborted (step a k)) eqn:E.
  - rewrite run_foldl_aborted by (unfold run_bind; simpl; exact E).
    unfold run_bind. simpl. rewrite app_nil_r. reflexivity.
  - rewrite run_foldl_from by (unfold run_bind; simpl; exact E).
    unfold run_bind. simpl. reflexivity.
Qed.

(** A loop whose rounds each touch one entry of a map: every call it makes
    is made by some round, and that round saw the entry as it was when the
    loop began. *)
Lemma run_foldl_ops_frame {A K X} `{EqDecision K}
    (view : A -> K -> option X) (step : A -> K -> Run A)
    (Q : option X -> K -> EnvOp -> Prop) :
  (forall a k k', k' <> k -> view (run_state (step a k)) k' = view a k') ->
  (forall a k op, op ∈ run_ops (step a k) -> Q (view a k) k op) ->
  forall ks a op, NoDup ks ->
    op ∈ run_ops (run_foldl step ks a) ->
    exists k, k ∈ ks /\ Q (view a k) k op.
Proof.
  intros Hframe Hstep. induction ks as [|k ks IH]; intros a op Hnd Hop.
  - inversion Hop.
  - rewrite run_foldl_cons_ops in Hop. apply NoDup_cons in Hnd as [Hk Hnd].
    apply elem_of_app in Hop as [Hop|Hop].
    + exists k. split; [left|]. auto.
    + destruct (run_aborted (step a k)); [inversion Hop|].
      destruct (IH _ _ Hnd Hop) as (k' & Hk' & HQ).
      exists k'. split; [right; exact Hk'|].
      rewrite Hframe in HQ; [exact HQ|]. intros ->. contradiction.
Qed.

Section IncrementalGc.
Import IncrementalGcStrategy.
Variable assert_enabled : bool.

Lemma elem_of_obsolete (l : LgFileSet) (n : Z) :
  n ∈ obsolete l -> n ∈ storage_files_ l /\ n ∉ live_files_ l.
Proof.
  unfold obsolete. intros H. apply list_elem_of_filter in H as [H1 H2].
  apply elem_of_ascending, elem_of_elements in H2. auto.
Qed.

Lemma gc_lg_ops table tablet lg_files lg_no op :
  op ∈ run_ops (gc_lg assert_enabled table tablet lg_files lg_no) ->
  obsolete_in table (lg_files !! lg_no) lg_no op.
Proof.
  unfold gc_lg. destruct (lg_files !! lg_no) as [l|] eqn:E; [|intros H; inversion H].
  assert (Hdel : forall op, op ∈ ((fun f => DeleteFile (table, lg_no, f)) <$> obsolete l) ->
                 obsolete_in table (Some l) lg_no op).
  { intros op' H. apply list_elem_of_fmap in H as (n & -> & Hn).
    apply elem_of_obsolete in Hn. simpl. exists l. tauto. }
  destruct (bool_decide (storage_files_ (sweep_lg l) = ∅)).
  - destruct (negb _ && assert_enabled); simpl; intros H.
    + auto.
    + apply elem_of_app in H as [H|H]; [auto|].
      apply list_elem_of_singleton in H. subst op. exact I.
  - simpl. auto.
Qed.

Lemma gc_lg_frame table tablet lg_files lg_no k' :
  k' <> lg_no ->
  run_state (gc_lg assert_enabled table tablet lg_files lg_no) !! k' = lg_files !! k'.
Proof.
  intros Hne. unfold gc_lg. destruct (lg_files !! lg_no) as [l|]; [|reflexivity].
  destruct (bool_decide _); [destruct (negb _ && assert_enabled)|]; simpl.
  - rewrite lookup_insert_ne by done. reflexivity.
  - rewrite lookup_delete_ne, lookup_insert_ne by done. reflexivity.
  - rewrite lookup_insert_ne by done. reflexivity.
Qed.

Lemma gc_tablet_ops table now dead tablet op :
  op ∈ run_ops (gc_tablet assert_enabled table now dead tablet) ->
  obsolete_of table (dead !! tablet) tablet op.
Proof.
  unfold gc_tablet.
  set (tf := default _ (dead !! tablet)).
  set (r := run_foldl _ _ (files_ tf)).
  assert (Hr : forall op, op ∈ run_ops r -> obsolete_of table (dead !! tablet) tablet op).
  { intros op' Hop'. unfold r in Hop'.
    apply (run_foldl_ops_frame (fun (m : gmap Z LgFileSet) k => m !! k)
             (gc_lg assert_enabled table tablet) (obsolete_in table)) in Hop'.
    - destruct Hop' as (k & Hk & HQ). destruct op'; simpl in *; try exact I.
      destruct HQ as (l & Hl & H1 & H2 & H3 & H4).
      destruct (dead !! tablet) as [t|] eqn:Et.
      + exists t, l. subst tf. simpl in *. rewrite H2. auto.
      + subst tf. simpl in Hl. rewrite lookup_empty in Hl. discriminate.
    - intros a k k' Hne. exact (gc_lg_frame table tablet a k k' Hne).
    - intros a k op0 Hop0. exact (gc_lg_ops table tablet a k op0 Hop0).
    - apply NoDup_ascending, NoDup_elements. }
  unfold run_bind. destruct (run_aborted r); simpl; [auto|].
  intros H. apply elem_of_app in H as [H|H]; [auto|].
  destruct (bool_decide _); simpl in H.
  - apply list_elem_of_singleton in H. subst op. exact I.
  - inversion H.
Qed.

Lemma gc_tablet_frame table now dead tablet k' :
  k' <> tablet ->
  run_state (gc_tablet assert_enabled table now dead tablet) !! k' = dead !! k'.
Proof.
  intros Hne. unfold gc_tablet, run_bind.
  destruct (run_aborted _); simpl.
  - rewrite lookup_insert_ne by done. reflexivity.
  - destruct (bool_decide _); simpl.
    + rewrite lookup_delete_ne by done. reflexivity.
    + rewrite lookup_insert_ne by done. reflexivity.
Qed.

Lemma elem_of_gc_tablets earliest (dead : gmap Z TabletFileSet) tablet :
  tablet ∈ gc_tablets earliest dead ->
  exists tf, dead !! tablet = Some tf /\ dead_time_ tf < earliest.
Proof.
  unfold gc_tablets. intros H.
  apply elem_of_ascending, elem_of_elements, elem_of_dom in H as [tf H].
  apply map_lookup_filter_Some in H as [H1 H2]. eauto.
Qed.

Lemma DeleteTableFiles_deletes table now st f :
  DeleteFile f ∈ run_ops (DeleteTableFiles assert_enabled table now st) ->
  exists dead tablet tf l,
    dead_tablet_files_ st !! table = Some dead /\
    dead !! tablet = Some tf /\
    dead_time_ tf < earliest_ready_time (max_ts_ st)
                      (default ∅ (live_tablet_files_ st !! table)) /\
    fst (fst f) = table /\
    files_ tf !! snd (fst f) = Some l /\
    snd f ∈ storage_files_ l /\ snd f ∉ live_files_ l.
Proof.
  unfold DeleteTableFiles. simpl. intros H.
  apply (run_foldl_ops_frame (fun (m : gmap Z TabletFileSet) k => m !! k)
           (gc_tablet assert_enabled table now) (obsolete_of table)) in H.
  - destruct H as (tablet & Hin & t & l & Ht & H1 & H2 & H3 & H4).
    apply elem_of_gc_tablets in Hin as (tf & Htf & Hdead).
    destruct (dead_tablet_files_ st !! table) as [dead|] eqn:Ed; simpl in *.
    + exists dead, tablet, tf, l. rewrite Ht in Htf. injection Htf as <-.
      repeat split; assumption.
    + rewrite lookup_empty in Ht. discriminate.
  - intros a k k' Hne. exact (gc_tablet_frame table now a k k' Hne).
  - intros a k op0 Hop0. exact (gc_tablet_ops table now a k op0 Hop0).
  - apply NoDup_ascending, NoDup_elements.
Qed.

End IncrementalGc.

(** C1. Neither strategy deletes a file a live tablet still claims as
    inherited.  Batch: once the query callbacks of a round have run (none
    stopped by the [CHECK]), no file reported in any of the responses is
    among the files [DeleteObsoleteFiles], and so [PostQuery], deletes.
    Incremental: every file [DeleteTableFiles] deletes belongs to a dead
    tablet of the table whose [dead_time_] is before the earliest ready
    time of the live tablets, is in that tablet's [storage_files_] and is
    not in its [live_files_], whether or not [assert] is compiled in. *)
Theorem gc_keeps_inherited_files :
  (forall (GetTabletNumFromPath : string -> Z)
          (responses : list QueryResponse.t) (st st' : BatchGcStrategy.t)
          (response : QueryResponse.t) (f : SstFile),
     BatchGcStrategy.ProcessQueryCallbacks GetTabletNumFromPath responses st = Some st' ->
     response ∈ responses ->
     BatchGcStrategy.reported response f ->
     (f ∉ BatchGcStrategy.DeleteObsoleteFiles st') /\
     (f ∉ BatchGcStrategy.PostQuery st')) /\
  (forall (assert_enabled : bool) (table : string) (now : Z)
          (st : IncrementalGcStrategy.t) (f : SstFile),
     DeleteFile f ∈ run_ops (IncrementalGcStrategy.DeleteTableFiles
                               assert_enabled table now st) ->
     exists dead tablet tf l,
       IncrementalGcStrategy.dead_tablet_files_ st !! table = Some dead /\
       dead !! tablet = Some tf /\
       IncrementalGcStrategy.dead_time_ tf
         < IncrementalGcStrategy.earliest_ready_time
             (IncrementalGcStrategy.max_ts_ st)
             (default ∅ (IncrementalGcStrategy.live_tablet_files_ st !! table)) /\
       fst (fst f) = table /\
       IncrementalGcStrategy.files_ tf !! snd (fst f) = Some l /\
       snd f ∈ IncrementalGcStrategy.storage_files_ l /\
       snd f ∉ IncrementalGcStrategy.live_files_ l).
Proof.
  split.
  - intros G responses st st' response f Hrun Hin Hrep.
    pose proof (callbacks_erase G responses st st' response f Hrun Hin Hrep) as Hc.
    apply not_candidate_not_deleted in Hc. split; [exact Hc|].
    intros H. apply Hc, PostQuery_subset, H.
  - intros. eapply DeleteTableFiles_deletes. eassumption.
Qed.

Lemma gc_keeps_inherited_files_witness :
  (("t", 0, 1) ∉ BatchGcStrategy.DeleteObsoleteFiles
      (default gc_example_batch
         (BatchGcStrategy.ProcessQueryCallbacks (fun _ => 0)
            [gc_example_response] gc_example_batch))) /\
  (exists dead tablet tf l,
     IncrementalGcStrategy.dead_tablet_files_ gc_example_incremental !! "t" = Some dead /\
     dead !! tablet = Some tf /\
     IncrementalGcStrategy.files_ tf !! 0 = Some l /\
     2 ∈ IncrementalGcStrategy.storage_files_ l /\
     2 ∉ IncrementalGcStrategy.live_files_ l).
Proof.
  split.
  - apply (proj1 gc_keeps_inherited_files (fun _ => 0) [gc_example_response]
             gc_example_batch _ gc_example_response ("t", 0, 1)).
    + vm_compute. reflexivity.
    + apply list_elem_of_here.
    + eexists _, 0%nat, _. split; [apply list_elem_of_here|].
      split; [reflexivity|]. split; [apply list_elem_of_here|reflexivity].
  - destruct (proj2 gc_keeps_inherited_files false "t" 9
                gc_example_incremental ("t", 0, 2))
      as (dead & tablet & tf & l & H1 & H2 & _ & _ & H3 & H4 & H5).
    + vm_compute. apply list_elem_of_here.
    + exists dead, tablet, tf, l. auto.
Defined.

(** ** Iterators of ordered maps *)

Lemma least_Some (P : string -> bool) (l : list string) (k : string) :
  least P l = Some k ->
  k ∈ l /\ P k = true /\ forall k', k' ∈ l -> P k' = true -> sle k k'.
Proof.
  revert k. induction l as [|x l IH]; intros k; simpl; [discriminate|].
  destruct (least P l) as [k0|] eqn:E.
  - destruct (IH k0 eq_refl) as (Hin & HP & Hmin).
    destruct (P x) eqn:Px; simpl.
    + destruct (String.ltb x k0) eqn:Hlt; intros [= <-].
      * split; [left|]. split; [exact Px|].
        intros k' Hk' HPk'. apply elem_of_cons in Hk' as [->|Hk'].
        -- sorder.
        -- specialize (Hmin k' Hk' HPk'). sorder.
      * split; [right; exact Hin|]. split; [exact HP|].
        intros k' Hk' HPk'. apply elem_of_cons in Hk' as [->|Hk'].
        -- sorder.
        -- auto.
    + intros [= <-]. split; [right; exact Hin|]. split; [exact HP|].
      intros k' Hk' HPk'. apply elem_of_cons in Hk' as [->|Hk']; [congruence|auto].
  - destruct (P x) eqn:Px; [|discriminate]. intros [= <-].
    split; [left|]. split; [exact Px|].
    intros k' Hk' HPk'. apply elem_of_cons in Hk' as [->|Hk']; [sorder|].
    clear IH. exfalso. revert Hk' HPk' E. clear. induction l as [|y l IH]; intros Hin HP.
    + inversion Hin.
    + simpl. destruct (least P l) eqn:E'.
      * destruct (P y && _); discriminate.
      * apply elem_of_cons in Hin as [->|Hin]; [rewrite HP; discriminate|].
        intros _. apply (IH Hin HP). reflexivity.
Qed.

Lemma least_None (P : string -> bool) (l : list string) :
  least P l = None <-> forall k, k ∈ l -> P k = false.
Proof.
  induction l as [|x l IH]; simpl.
  - split; [|reflexivity]. intros _ k H. inversion H.
  - destruct (least P l) as [k0|] eqn:E.
    + split.
      * destruct (P x && _); discriminate.
      * intros H. exfalso. destruct (least_Some _ _ _ E) as (Hin & HP & _).
        rewrite (H k0) in HP by (right; exact Hin). discriminate.
    + destruct (P x) eqn:Px.
      * split; [discriminate|]. intros H. rewrite (H x) in Px by left. discriminate.
      * split; [|reflexivity]. intros _ k Hk.
        apply elem_of_cons in Hk as [->|Hk]; [exact Px|]. apply IH; auto.
Qed.

Lemma least_intro (P : string -> bool) (l : list string) (k : string) :
  k ∈ l -> P k = true -> (forall k', k' ∈ l -> P k' = true -> sle k k') ->
  least P l = Some k.
Proof.
  intros Hin HP Hmin. destruct (least P l) as [k0|] eqn:E.
  - destruct (least_Some _ _ _ E) as (Hin0 & HP0 & Hmin0).
    specialize (Hmin k0 Hin0 HP0). specialize (Hmin0 k Hin HP).
    f_equal. sorder.
  - rewrite least_None in E. rewrite (E k Hin) in HP. discriminate.
Qed.

Lemma greatest_Some (P : string -> bool) (l : list string) (k : string) :
  greatest P l = Some k ->
  k ∈ l /\ P k = true /\ forall k', k' ∈ l -> P k' = true -> sle k' k.
Proof.
  revert k. induction l as [|x l IH]; intros k; simpl; [discriminate|].
  destruct (greatest P l) as [k0|] eqn:E.
  - destruct (IH k0 eq_refl) as (Hin & HP & Hmax).
    destruct (P x) eqn:Px; simpl.
    + destruct (String.ltb k0 x) eqn:Hlt; intros [= <-].
      * split; [left|]. split; [exact Px|].
        intros k' Hk' HPk'. apply elem_of_cons in Hk' as [->|Hk'].
        -- sorder.
        -- specialize (Hmax k' Hk' HPk'). sorder.
      * split; [right; exact Hin|]. split; [exact HP|].
        intros k' Hk' HPk'. apply elem_of_cons in Hk' as [->|Hk'].
        -- sorder.
        -- auto.
    + intros [= <-]. split; [right; exact Hin|]. split; [exact HP|].
      intros k' Hk' HPk'. apply elem_of_cons in Hk' as [->|Hk']; [congruence|auto].
  - destruct (P x) eqn:Px; [|discriminate]. intros [= <-].
    split; [left|]. split; [exact Px|].
    intros k' Hk' HPk'. apply elem_of_cons in Hk' as [->|Hk']; [sorder|].
    clear IH. exfalso. revert Hk' HPk' E. clear. induction l as [|y l IH]; intros Hin HP.
    + inversion Hin.
    + simpl. destruct (greatest P l) eqn:E'.
      * destruct (P y && _); discriminate.
      * apply elem_of_cons in Hin as [->|Hin]; [rewrite HP; discriminate|].
        intros _. apply (IH Hin HP). reflexivity.
Qed.

Lemma greatest_None (P : string -> bool) (l : list string) :
  greatest P l = None <-> forall k, k ∈ l -> P k = false.
Proof.
  induction l as [|x l IH]; simpl.
  - split; [|reflexivity]. intros _ k H. inversion H.
  - destruct (greatest P l) as [k0|] eqn:E.
    + split.
      * destruct (P x && _); discriminate.
      * intros H. exfalso. destruct (greatest_Some _ _ _ E) as (Hin & HP & _).
        rewrite (H k0) in HP by (right; exact Hin). discriminate.
    + destruct (P x) eqn:Px.
      * split; [discriminate|]. intros H. rewrite (H x) in Px by left. discriminate.
      * split; [|reflexivity]. intros _ k Hk.
        apply elem_of_cons in Hk as [->|Hk]; [exact Px|]. apply IH; auto.
Qed.

Lemma greatest_intro (P : string -> bool) (l : list string) (k : string) :
  k ∈ l -> P k = true -> (forall k', k' ∈ l -> P k' = true -> sle k' k) ->
  greatest P l = Some k.
Proof.
  intros Hin HP Hmax. destruct (greatest P l) as [k0|] eqn:E.
  - destruct (greatest_Some _ _ _ E) as (Hin0 & HP0 & Hmax0).
    specialize (Hmax k0 Hin0 HP0). specialize (Hmax0 k Hin HP).
    f_equal. sorder.
  - rewrite greatest_None in E. rewrite (E k Hin) in HP. discriminate.
Qed.

Section OrderedMapFacts.
Context {V : Type}.
Implicit Types m : gmap string V.

Lemma elem_of_keys m k : k ∈ keys m <-> is_Some (m !! k).
Proof. unfold keys. rewrite elem_of_elements, elem_of_dom. reflexivity. Qed.

Lemma upper_bound_Some m key k :
  upper_bound m key = Some k <->
  is_Some (m !! k) /\ slt key k /\
  forall k', is_Some (m !! k') -> slt key k' -> sle k k'.
Proof.
  unfold upper_bound. split.
  - intros H. apply least_Some in H as (Hin & HP & Hmin).
    split; [apply elem_of_keys, Hin|]. split; [exact HP|].
    intros k' Hk' Hlt. apply Hmin; [apply elem_of_keys, Hk'|exact Hlt].
  - intros (Hin & HP & Hmin). apply least_intro.
    + apply elem_of_keys, Hin.
    + exact HP.
    + intros k' Hk' Hlt. apply Hmin; [apply elem_of_keys, Hk'|exact Hlt].
Qed.

Lemma upper_bound_None m key :
  upper_bound m key = None <-> forall k, is_Some (m !! k) -> sle k key.
Proof.
  unfold upper_bound. rewrite least_None. split.
  - intros H k Hk. apply ltb_false, H, elem_of_keys, Hk.
  - intros H k Hk. apply ltb_false, H, elem_of_keys, Hk.
Qed.

Lemma lower_bound_Some m key k :
  lower_bound m key = Some k <->
  is_Some (m !! k) /\ sle key k /\
  forall k', is_Some (m !! k') -> sle key k' -> sle k k'.
Proof.
  unfold lower_bound. split.
  - intros H. apply least_Some in H as (Hin & HP & Hmin).
    split; [apply elem_of_keys, Hin|]. split; [exact HP|].
    intros k' Hk' Hlt. apply Hmin; [apply elem_of_keys, Hk'|exact Hlt].
  - intros (Hin & HP & Hmin). apply least_intro.
    + apply elem_of_keys, Hin.
    + exact HP.
    + intros k' Hk' Hlt. apply Hmin; [apply elem_of_keys, Hk'|exact Hlt].
Qed.

Lemma begin_it_Some m k :
  begin_it m = Some k <->
  is_Some (m !! k) /\ forall k', is_Some (m !! k') -> sle k k'.
Proof.
  unfold begin_it. split.
  - intros H. apply least_Some in H as (Hin & _ & Hmin).
    split; [apply elem_of_keys, Hin|].
    intros k' Hk'. apply Hmin; [apply elem_of_keys, Hk'|reflexivity].
  - intros (Hin & Hmin). apply least_intro.
    + apply elem_of_keys, Hin.
    + reflexivity.
    + intros k' Hk' _. apply Hmin, elem_of_keys, Hk'.
Qed.

Lemma begin_it_None m : begin_it m = None <-> m = ∅.
Proof.
  unfold begin_it. rewrite least_None. split.
  - intros H. apply map_empty. intros k.
    destruct (m !! k) eqn:E; [|reflexivity].
    specialize (H k). rewrite elem_of_keys, E in H. discriminate H. eauto.
  - intros -> k Hk. apply elem_of_keys in Hk. rewrite lookup_empty in Hk.
    destruct Hk; discriminate.
Qed.

(** Stepping back from [upper_bound(key)] reaches the last entry that is
    not above [key]. *)
Lemma prev_upper_bound_Some m key k :
  prev_it m (upper_bound m key) = Some k <->
  is_Some (m !! k) /\ sle k key /\
  forall k', is_Some (m !! k') -> sle k' key -> sle k' k.
Proof.
  unfold prev_it. destruct (upper_bound m key) as [u|] eqn:Eu.
  - apply upper_bound_Some in Eu as (Hu & Hku & Hmin). split.
    + intros H. apply greatest_Some in H as (Hin & HP & Hmax).
      apply elem_of_keys in Hin. split; [exact Hin|].
      assert (Hk : sle k key).
      { destruct (String.leb k key) eqn:E; [exact E|]. exfalso.
        specialize (Hmin k Hin ltac:(sorder)). sorder. }
      split; [exact Hk|].
      intros k' Hk' Hle. apply Hmax; [apply elem_of_keys, Hk'|]. sorder.
    + intros (Hin & Hle & Hmax). apply greatest_intro.
      * apply elem_of_keys, Hin.
      * sorder.
      * intros k' Hk' Hlt. apply elem_of_keys in Hk'. apply Hmax; [exact Hk'|].
        destruct (String.leb k' key) eqn:E; [exact E|]. exfalso.
        specialize (Hmin k' Hk' ltac:(sorder)). sorder.
  - rewrite upper_bound_None in Eu. split.
    + intros H. apply greatest_Some in H as (Hin & _ & Hmax).
      apply elem_of_keys in Hin. split; [exact Hin|]. split; [auto|].
      intros k' Hk' _. apply Hmax; [apply elem_of_keys, Hk'|reflexivity].
    + intros (Hin & Hle & Hmax). apply greatest_intro.
      * apply elem_of_keys, Hin.
      * reflexivity.
      * intros k' Hk' _. apply elem_of_keys in Hk'. auto.
Qed.

Lemma prev_upper_bound_None m key :
  prev_it m (upper_bound m key) = None <->
  forall k, is_Some (m !! k) -> slt key k.
Proof.
  split.
  - intros H k Hk.
    destruct (String.ltb key k) eqn:E; [exact E|]. exfalso.
    assert (Hex : exists k0, prev_it m (upper_bound m key) = Some k0).
    { destruct (prev_it m (upper_bound m key)) as [k0|] eqn:E0; [eauto|].
      unfold prev_it in E0. rewrite greatest_None in E0.
      specialize (E0 k ltac:(apply elem_of_keys, Hk)).
      destruct (upper_bound m key) as [u|] eqn:Eu; [|discriminate].
      apply upper_bound_Some in Eu as (_ & Hku & _). sorder. }
    destruct Hex as [k0 Hk0]. congruence.
  - intros H. destruct (prev_it m (upper_bound m key)) as [k|] eqn:E; [|reflexivity].
    apply prev_upper_bound_Some in E as (Hin & Hle & _).
    specialize (H k Hin). sorder.
Qed.

(** [upper_bound(key)] is [begin()] exactly when no entry is at or below
    [key]. *)
Lemma upper_bound_is_begin m key :
  it_eqb (upper_bound m key) (begin_it m) = true <->
  forall k, is_Some (m !! k) -> slt key k.
Proof.
  destruct (upper_bound m key) as [u|] eqn:Eu, (begin_it m) as [b|] eqn:Eb; simpl.
  - rewrite String.eqb_eq.
    apply upper_bound_Some in Eu as (Hu & Hku & Hmin).
    apply begin_it_Some in Eb as (Hb & Hbmin). split.
    + intros -> k Hk. specialize (Hbmin k Hk). sorder.
    + intros H. specialize (H b Hb). specialize (Hmin b Hb H).
      specialize (Hbmin u Hu). sorder.
  - apply begin_it_None in Eb. subst m. apply upper_bound_Some in Eu as (Hu & _).
    rewrite lookup_empty in Hu. destruct Hu; discriminate.
  - rewrite upper_bound_None in Eu. apply begin_it_Some in Eb as (Hb & _).
    split; [discriminate|]. intros H. specialize (H b Hb). specialize (Eu b Hb). sorder.
  - apply begin_it_None in Eb. subst m. split; [|reflexivity].
    intros _ k Hk. rewrite lookup_empty in Hk. destruct Hk; discriminate.
Qed.

End OrderedMapFacts.

Import TableImpl.

(** ** The lookup of the meta cache *)

Lemma accepted_iff (node : TabletMetaNode) (row : string) :
  negb (empty (node_end node)) && String.leb (node_end node) row = false <->
  node_end node = "" \/ slt row (node_end node).
Proof.
  destruct (empty (node_end node)) eqn:He; simpl.
  - apply empty_true in He. split; auto.
  - apply empty_false in He. rewrite leb_false. split; [auto|].
    intros [H|H]; [contradiction|exact H].
Qed.

Lemma GetTabletMetaNodeForKey_Some (m : gmap string TabletMetaNode) row k node :
  GetTabletMetaNodeForKey m row = Some (k, node) <->
  prev_it m (upper_bound m row) = Some k /\ m !! k = Some node /\
  (node_end node = "" \/ slt row (node_end node)).
Proof.
  unfold GetTabletMetaNodeForKey. case_bool_decide as Hsize.
  - apply map_size_empty_iff in Hsize. subst m. split; [discriminate|].
    intros (_ & H & _). rewrite lookup_empty in H. discriminate.
  - destruct (it_eqb (upper_bound m row) (begin_it m)) eqn:Hb.
    + pose proof (proj2 (prev_upper_bound_None m row)
                    (proj1 (upper_bound_is_begin m row) Hb)) as Hb'. rewrite Hb'.
      split; [discriminate|]. intros (H & _). discriminate.
    + destruct (prev_it m (upper_bound m row)) as [k0|] eqn:Ep.
      * destruct (m !! k0) as [n0|] eqn:En.
        -- destruct (negb _ && _) eqn:Hacc.
           ++ split; [discriminate|]. intros ([= ->] & Hn & H).
              rewrite En in Hn. injection Hn as ->.
              apply accepted_iff in H. congruence.
           ++ apply accepted_iff in Hacc. split.
              ** intros [= -> ->]. auto.
              ** intros ([= ->] & Hn & _). congruence.
        -- split; [discriminate|]. intros ([= ->] & Hn & _). congruence.
      * split; [discriminate|]. intros (H & _). discriminate.
Qed.

Lemma GetTabletMetaNodeForKey_None (m : gmap string TabletMetaNode) row :
  GetTabletMetaNodeForKey m row = None <->
  m = ∅ \/ it_eqb (upper_bound m row) (begin_it m) = true \/
  exists k node, prev_it m (upper_bound m row) = Some k /\ m !! k = Some node /\
    node_end node <> "" /\ sle (node_end node) row.
Proof.
  split.
  - unfold GetTabletMetaNodeForKey. case_bool_decide as Hsize.
    { apply map_size_empty_iff in Hsize. auto. }
    destruct (it_eqb _ _) eqn:Hb; [auto|].
    destruct (prev_it m (upper_bound m row)) as [k0|] eqn:Ep.
    + destruct (m !! k0) as [n0|] eqn:En.
      * destruct (negb _ && _) eqn:Hacc; [|discriminate]. intros _.
        right. right. exists k0, n0.
        apply andb_true_iff in Hacc as [H1 H2]. apply negb_true_iff in H1.
        to_order. auto.
      * apply prev_upper_bound_Some in Ep as ([n Hn] & _). congruence.
    + intros _. exfalso.
      pose proof (proj2 (upper_bound_is_begin m row)
                    (proj1 (prev_upper_bound_None m row) Ep)). congruence.
  - intros H. destruct (GetTabletMetaNodeForKey m row) as [[k node]|] eqn:E;
      [|reflexivity]. exfalso.
    apply GetTabletMetaNodeForKey_Some in E as (Hp & Hn & Hacc).
    destruct H as [->|[H|(k' & node' & Hp' & Hn' & Hne & Hle)]].
    + rewrite lookup_empty in Hn. discriminate.
    + pose proof (proj2 (prev_upper_bound_None m row)
                    (proj1 (upper_bound_is_begin m row) H)) as H'. congruence.
    + rewrite Hp in Hp'. injection Hp' as <-. rewrite Hn in Hn'. injection Hn' as <-.
      destruct Hacc as [Hacc|Hacc]; [contradiction|]. sorder.
Qed.

(** C3. The lookup returns the node at [upper_bound(row)] stepped back by
    one, which is the last entry whose key is not above [row], and accepts
    it only if its end key is empty or above [row]; it returns no node
    exactly when the cache is empty, when [upper_bound(row)] is the first
    entry, or when the end key of that node is non-empty and not above
    [row].  [GetTabletMetaForKey] copies the meta of the node found. *)
Theorem GetTabletMetaNodeForKey_spec (m : gmap string TabletMetaNode) (row : string) :
  (forall k,
     upper_bound m row = Some k <->
     is_Some (m !! k) /\ slt row k /\
     forall k', is_Some (m !! k') -> slt row k' -> sle k k') /\
  (forall k,
     prev_it m (upper_bound m row) = Some k <->
     is_Some (m !! k) /\ sle k row /\
     forall k', is_Some (m !! k') -> sle k' row -> sle k' k) /\
  (forall k node,
     GetTabletMetaNodeForKey m row = Some (k, node) <->
     prev_it m (upper_bound m row) = Some k /\ m !! k = Some node /\
     (node_end node = "" \/ slt row (node_end node))) /\
  (GetTabletMetaNodeForKey m row = None <->
     m = ∅ \/ it_eqb (upper_bound m row) (begin_it m) = true \/
     exists k node,
       prev_it m (upper_bound m row) = Some k /\ m !! k = Some node /\
       node_end node <> "" /\ sle (node_end node) row) /\
  (forall st,
     GetTabletMetaForKey row st
     = (fun kn => meta (snd kn))
         <$> GetTabletMetaNodeForKey (tablet_meta_list_ st) row).
Proof.
  split; [intros k; apply upper_bound_Some|].
  split; [intros k; apply prev_upper_bound_Some|].
  split; [intros k node; apply GetTabletMetaNodeForKey_Some|].
  split; [apply GetTabletMetaNodeForKey_None|].
  intros st. unfold GetTabletMetaForKey.
  destruct (GetTabletMetaNodeForKey _ row) as [[k node]|]; reflexivity.
Qed.

(** ** Batches: when a batch is committed *)

Lemma mutation_commits_app (l1 l2 : list Event) :
  mutation_commits (l1 ++ l2) = (mutation_commits l1 ++ mutation_commits l2)%list.
Proof. apply omap_app. Qed.

Lemma mutation_commit_due_iff (cfg : Config) (b : TaskBatch) (last flush : bool) :
  mutation_commit_due cfg b last flush = true <->
  kMaxRpcSize cfg <= byte_size b \/
  (last = true /\
   (flush = true \/ commit_size_ cfg <= Z.of_nat (length (row_id_list b)))).
Proof.
  unfold mutation_commit_due.
  rewrite orb_true_iff, andb_true_iff, orb_true_iff, !Z.leb_le. reflexivity.
Qed.

(** The batch a mutation joins: the one stored for the server, or a new
    one with no rows and no bytes. *)
Lemma find_or_create_mutation_batch_spec (server_addr : string) (st : t) :
  let r := find_or_create_mutation_batch server_addr st in
  mutation_batch_map_ (fst r) !! server_addr = Some (snd r) /\
  config (fst r) = config st /\
  (forall s, s <> server_addr ->
     mutation_batch_map_ (fst r) !! s = mutation_batch_map_ st !! s) /\
  match mutation_batch_map_ st !! server_addr with
  | Some b => r = (st, b)
  | None =>
      byte_size (snd r) = 0 /\ row_id_list (snd r) = [] /\
      sequence_num (snd r) = mutation_batch_seq_ st /\
      log (fst r) = (log st ++
        [EvDelayTask (write_commit_timeout_ (config st)) (timer_id (snd r))
           (MutationBatchTimeoutTask server_addr (sequence_num (snd r)))])%list
  end.
Proof.
  unfold find_or_create_mutation_batch.
  destruct (mutation_batch_map_ st !! server_addr) as [b|] eqn:E; simpl.
  - auto.
  - rewrite lookup_insert_eq. repeat split; try reflexivity.
    intros s Hs. rewrite lookup_insert_ne by done. reflexivity.
Qed.

Lemma pack_mutation_spec (server_addr : string) (flush last : bool) (st : t)
    (mu : SdkTask) :
  let old := mutation_batch_map_ st !! server_addr in
  let bytes := uint64 (from_option byte_size 0 old + task_size mu) in
  let ids := (from_option row_id_list [] old ++ [task_id mu])%list in
  let due := kMaxRpcSize (config st) <= bytes \/
             (last = true /\
              (flush = true \/ commit_size_ (config st) <= Z.of_nat (length ids))) in
  let st' := pack_mutation server_addr flush last st mu in
  (due ->
   mutation_commits (log st') = (mutation_commits (log st) ++ [(server_addr, ids)])%list /\
   mutation_batch_map_ st' !! server_addr = None) /\
  (~ due ->
   mutation_commits (log st') = mutation_commits (log st) /\
   exists b', mutation_batch_map_ st' !! server_addr = Some b' /\
              row_id_list b' = ids /\ byte_size b' = bytes) /\
  (forall s, s <> server_addr ->
     mutation_batch_map_ st' !! s = mutation_batch_map_ st !! s).
Proof.
  cbv zeta. unfold pack_mutation.
  pose proof (find_or_create_mutation_batch_spec server_addr st) as Hf.
  cbv zeta in Hf.
  destruct (find_or_create_mutation_batch server_addr st) as [st1 b] eqn:Ef.
  simpl in Hf. destruct Hf as (Hb & Hcfg & Hother & Hold).
  set (b' := {| sequence_num := sequence_num b; timer_id := timer_id b;
                byte_size := uint64 (byte_size b + task_size mu);
                row_id_list := (row_id_list b ++ [task_id mu])%list;
                batch_id := batch_id b |}).
  assert (Hbytes : from_option byte_size 0 (mutation_batch_map_ st !! server_addr)
                   = byte_size b).
  { destruct (mutation_batch_map_ st !! server_addr) as [b0|].
    - injection Hold as _ <-. reflexivity.
    - simpl. symmetry. apply Hold. }
  assert (Hids : from_option row_id_list [] (mutation_batch_map_ st !! server_addr)
                 = row_id_list b).
  { destruct (mutation_batch_map_ st !! server_addr) as [b0|].
    - injection Hold as _ <-. reflexivity.
    - simpl. symmetry. apply Hold. }
  assert (Hlog : mutation_commits (log st1) = mutation_commits (log st)).
  { destruct (mutation_batch_map_ st !! server_addr) as [b0|].
    - injection Hold as <- _. reflexivity.
    - destruct Hold as (_ & _ & _ & ->). rewrite mutation_commits_app. simpl.
      apply app_nil_r. }
  rewrite Hbytes, Hids, <- Hcfg.
  pose proof (mutation_commit_due_iff (config st1) b' last flush) as Hdue.
  destruct (mutation_commit_due (config st1) b' last flush).
  - split; [|split].
    + intros _. simpl. rewrite lookup_delete_eq. split; [|reflexivity].
      rewrite !mutation_commits_app, Hlog. simpl. rewrite app_nil_r. reflexivity.
    + intros Hn. exfalso. apply Hn, Hdue. reflexivity.
    + intros s Hs. simpl. rewrite lookup_delete_ne by done. auto.
  - split; [|split].
    + intros H. apply Hdue in H. discriminate.
    + intros _. simpl. rewrite lookup_insert_eq. split; [exact Hlog|].
      exists b'. auto.
    + intros s Hs. simpl. rewrite lookup_insert_ne by done. auto.
Qed.




(** ** Batches: a batch is committed at most once *)

Lemma batch_inv_sym m1 m2 c l : batch_inv m1 m2 c l -> batch_inv m2 m1 c l.
Proof.
  intros (H1 & H2 & H3 & H4 & H5 & H6 & H7).
  split; [exact H2|]. split; [exact H1|]. split; [exact H3|].
  split; [exact H4|]. split; [exact H6|]. split; [exact H5|].
  intros s1 s2 b1 b2 Hb1 Hb2 Heq. exact (H7 s2 s1 b2 b1 Hb2 Hb1 (eq_sym Heq)).
Qed.

Lemma batch_inv_create m1 m2 c l s b :
  batch_inv m1 m2 c l -> batch_id b = c ->
  batch_inv (<[ s := b ]> m1) m2 (S c) l.
Proof.
  intros (H1 & H2 & H3 & H4 & H5 & H6 & H7) Hid.
  assert (Hfresh : c ∉ l) by (intros Hc; apply H3 in Hc; lia).
  split; [|split; [|split; [|split; [|split; [|split]]]]].
  - intros s0 b0. rewrite lookup_insert. case_decide.
    + intros [= <-]. rewrite Hid. split; [lia|exact Hfresh].
    + intros Hb. destruct (H1 _ _ Hb). split; [lia|assumption].
  - intros s0 b0 Hb. destruct (H2 _ _ Hb). split; [lia|assumption].
  - intros i Hi. apply H3 in Hi. lia.
  - exact H4.
  - intros s1 s2 b1 b2. rewrite !lookup_insert. repeat case_decide; subst.
    + auto.
    + intros [= <-] Hb2 Heq. destruct (H1 _ _ Hb2). lia.
    + intros Hb1 [= <-] Heq. destruct (H1 _ _ Hb1). lia.
    + apply H5.
  - exact H6.
  - intros s1 s2 b1 b2. rewrite lookup_insert. case_decide.
    + intros [= <-] Hb2 Heq. destruct (H2 _ _ Hb2). lia.
    + apply H7.
Qed.

Lemma batch_inv_update m1 m2 c l s b b' :
  batch_inv m1 m2 c l -> m1 !! s = Some b -> batch_id b' = batch_id b ->
  batch_inv (<[ s := b' ]> m1) m2 c l.
Proof.
  intros (H1 & H2 & H3 & H4 & H5 & H6 & H7) Hb Hid.
  split; [|split; [|split; [|split; [|split; [|split]]]]]; try assumption.
  - intros s0 b0. rewrite lookup_insert. case_decide.
    + intros [= <-]. rewrite Hid. eauto.
    + apply H1.
  - intros s1 s2 b1 b2. rewrite !lookup_insert. repeat case_decide; subst.
    + auto.
    + intros [= <-] Hb2 Heq. rewrite Hid in Heq. eauto.
    + intros Hb1 [= <-] Heq. rewrite Hid in Heq. eauto.
    + apply H5.
  - intros s1 s2 b1 b2. rewrite lookup_insert. case_decide.
    + intros [= <-]. rewrite Hid. eauto.
    + apply H7.
Qed.

Lemma batch_inv_commit m1 m2 c l s b :
  batch_inv m1 m2 c l -> m1 !! s = Some b ->
  batch_inv (delete s m1) m2 c (l ++ [batch_id b]).
Proof.
  intros (H1 & H2 & H3 & H4 & H5 & H6 & H7) Hb.
  destruct (H1 _ _ Hb) as [Hlt Hnew].
  split; [|split; [|split; [|split; [|split; [|split]]]]].
  - intros s0 b0. rewrite lookup_delete. case_decide; [discriminate|].
    intros Hb0. destruct (H1 _ _ Hb0) as [? Hn]. split; [assumption|].
    rewrite elem_of_app, list_elem_of_singleton. intros [?|Heq]; [contradiction|].
    apply H. symmetry. eapply H5; eauto.
  - intros s0 b0 Hb0. destruct (H2 _ _ Hb0) as [? Hn]. split; [assumption|].
    rewrite elem_of_app, list_elem_of_singleton. intros [?|Heq]; [contradiction|].
    eapply H7; eauto.
  - intros i. rewrite elem_of_app, list_elem_of_singleton. intros [?| ->]; auto.
  - apply NoDup_app. split; [exact H4|]. split; [|apply NoDup_singleton].
    intros i Hi Hi'. apply list_elem_of_singleton in Hi'. subst. contradiction.
  - intros s1 s2 b1 b2. rewrite !lookup_delete. repeat case_decide; try discriminate.
    apply H5.
  - exact H6.
  - intros s1 s2 b1 b2. rewrite lookup_delete. case_decide; [discriminate|]. apply H7.
Qed.

Lemma committed_batches_app (l1 l2 : list Event) :
  committed_batches (l1 ++ l2) = (committed_batches l1 ++ committed_batches l2)%list.
Proof. apply omap_app. Qed.

Lemma pack_mutation_ok server_addr flush last st mu :
  batches_ok st -> batches_ok (pack_mutation server_addr flush last st mu).
Proof.
  unfold batches_ok, pack_mutation, find_or_create_mutation_batch. intros H.
  destruct (mutation_batch_map_ st !! server_addr) as [b|] eqn:E.
  - destruct (mutation_commit_due _ _ _ _); simpl.
    + rewrite !committed_batches_app. simpl. rewrite app_nil_r.
      apply batch_inv_commit; assumption.
    + eapply batch_inv_update; eauto.
  - simpl. destruct (mutation_commit_due _ _ _ _); simpl.
    + rewrite !committed_batches_app. simpl. rewrite !app_nil_r.
      apply (batch_inv_commit _ _ _ _ server_addr
               {| sequence_num := mutation_batch_seq_ st;
                  timer_id := next_timer_id_ st; byte_size := 0;
                  row_id_list := []; batch_id := batches_created st |}).
      * apply batch_inv_create; [exact H|reflexivity].
      * apply lookup_insert_eq.
    + rewrite committed_batches_app. simpl. rewrite app_nil_r.
      eapply batch_inv_update; [|apply lookup_insert_eq|reflexivity].
      apply batch_inv_create; [exact H|reflexivity].
Qed.

Lemma PackMutations_ok server_addr mu_list flush st :
  batches_ok st -> batches_ok (PackMutations server_addr mu_list flush st).
Proof.
  revert st. induction mu_list as [|mu rest IH]; intros st H; simpl; [exact H|].
  apply IH, pack_mutation_ok, H.
Qed.

Lemma PackReaders_ok server_addr reader_list st :
  batches_ok st -> batches_ok (PackReaders server_addr reader_list st).
Proof.
  unfold batches_ok, PackReaders, find_or_create_reader_batch. intros H.
  apply batch_inv_sym in H. apply batch_inv_sym.
  destruct (reader_batch_map_ st !! server_addr) as [b|] eqn:E.
  - destruct (_ <=? _); simpl.
    + rewrite !committed_batches_app. simpl. rewrite app_nil_r.
      apply batch_inv_commit; assumption.
    + eapply batch_inv_update; eauto.
  - simpl. destruct (_ <=? _); simpl.
    + rewrite !committed_batches_app. simpl. rewrite !app_nil_r.
      apply (batch_inv_commit _ _ _ _ server_addr
               {| sequence_num := reader_batch_seq_ st;
                  timer_id := next_timer_id_ st; byte_size := 0;
                  row_id_list := []; batch_id := batches_created st |}).
      * apply batch_inv_create; [exact H|reflexivity].
      * apply lookup_insert_eq.
    + rewrite committed_batches_app. simpl. rewrite app_nil_r.
      eapply batch_inv_update; [|apply lookup_insert_eq|reflexivity].
      apply batch_inv_create; [exact H|reflexivity].
Qed.

Lemma MutationBatchTimeout_ok server_addr batch_seq st :
  batches_ok st -> batches_ok (MutationBatchTimeout server_addr batch_seq st).
Proof.
  unfold batches_ok, MutationBatchTimeout. intros H.
  destruct (mutation_batch_map_ st !! server_addr) as [b|] eqn:E; [|exact H].
  destruct (negb _); [exact H|]. simpl.
  rewrite committed_batches_app. simpl. apply batch_inv_commit; assumption.
Qed.

Lemma ReaderBatchTimeout_ok server_addr batch_seq st :
  batches_ok st -> batches_ok (ReaderBatchTimeout server_addr batch_seq st).
Proof.
  unfold batches_ok, ReaderBatchTimeout. intros H.
  destruct (reader_batch_map_ st !! server_addr) as [b|] eqn:E; [|exact H].
  destruct (negb _); [exact H|]. simpl.
  rewrite committed_batches_app. simpl.
  apply batch_inv_sym, batch_inv_commit; [apply batch_inv_sym, H|assumption].
Qed.

Lemma run_batch_op_ok st op : batches_ok st -> batches_ok (run_batch_op st op).
Proof.
  destruct op; simpl.
  - apply PackMutations_ok.
  - apply PackReaders_ok.
  - apply MutationBatchTimeout_ok.
  - apply ReaderBatchTimeout_ok.
Qed.

Lemma init_batches_ok cfg : batches_ok (init cfg).
Proof.
  unfold batches_ok, batch_inv. simpl.
  repeat split; try (intros; simplify_map_eq; fail).
  - intros i Hi. inversion Hi.
  - apply NoDup_nil_2.
Qed.

Lemma run_batch_ops_ok ops : forall st,
  batches_ok st -> batches_ok (foldl run_batch_op st ops).
Proof.
  induction ops as [|op ops IH]; intros st H; simpl; [exact H|].
  apply IH, run_batch_op_ok, H.
Qed.

(** What a round of a pack loop leaves in the log when it commits: the
    cancellation of the batch's timer, then the commit. *)
Lemma pack_mutation_log server_addr flush last st mu :
  let st' := pack_mutation server_addr flush last st mu in
  (exists b', mutation_batch_map_ st' !! server_addr = Some b' /\
     committed_batches (log st') = committed_batches (log st)) \/
  (exists pre b',
     mutation_batch_map_ (fst (find_or_create_mutation_batch server_addr st))
       !! server_addr = Some b' /\
     mutation_batch_map_ st' !! server_addr = None /\
     log st' = (pre ++ [EvCancelTask (timer_id b');
                        EvCommitMutations server_addr (batch_id b')
                          (row_id_list b' ++ [task_id mu])])%list).
Proof.
  cbv zeta. unfold pack_mutation, find_or_create_mutation_batch.
  destruct (mutation_batch_map_ st !! server_addr) as [b|] eqn:E.
  - destruct (mutation_commit_due _ _ _ _); simpl.
    + right. exists (log st), b. rewrite E, lookup_delete_eq.
      split; [reflexivity|]. split; [reflexivity|].
      unfold emit. simpl. rewrite <- app_assoc. reflexivity.
    + left. rewrite lookup_insert_eq. eauto.
  - simpl. destruct (mutation_commit_due _ _ _ _); simpl.
    + right. eexists _, _. rewrite lookup_insert_eq, lookup_delete_eq.
      split; [reflexivity|]. split; [reflexivity|].
      unfold emit. simpl. rewrite <- app_assoc. reflexivity.
    + left. rewrite lookup_insert_eq. eexists. split; [reflexivity|].
      rewrite committed_batches_app. simpl. apply app_nil_r.
Qed.

Lemma PackReaders_log server_addr reader_list st :
  let st' := PackReaders server_addr reader_list st in
  (exists b', reader_batch_map_ st' !! server_addr = Some b' /\
     committed_batches (log st') = committed_batches (log st)) \/
  (exists pre b',
     reader_batch_map_ (fst (find_or_create_reader_batch server_addr st))
       !! server_addr = Some b' /\
     reader_batch_map_ st' !! server_addr = None /\
     log st' = (pre ++ [EvCancelTask (timer_id b');
                        EvCommitReaders server_addr (batch_id b')
                          (row_id_list b' ++ (task_id <$> reader_list))])%list).
Proof.
  cbv zeta. unfold PackReaders, find_or_create_reader_batch.
  destruct (reader_batch_map_ st !! server_addr) as [b|] eqn:E.
  - destruct (_ <=? _); simpl.
    + right. exists (log st), b. rewrite E, lookup_delete_eq.
      split; [reflexivity|]. split; [reflexivity|].
      unfold emit. simpl. rewrite <- app_assoc. reflexivity.
    + left. rewrite lookup_insert_eq. eauto.
  - simpl. destruct (_ <=? _); simpl.
    + right. eexists _, _. rewrite lookup_insert_eq, lookup_delete_eq.
      split; [reflexivity|]. split; [reflexivity|].
      unfold emit. simpl. rewrite <- app_assoc. reflexivity.
    + left. rewrite lookup_insert_eq. eexists. split; [reflexivity|].
      rewrite committed_batches_app. simpl. apply app_nil_r.
Qed.

Lemma ReaderBatchTimeout_stale server_addr batch_seq st :
  reader_batch_map_ st !! server_addr = None \/
  (exists b, reader_batch_map_ st !! server_addr = Some b /\
             sequence_num b <> batch_seq) ->
  ReaderBatchTimeout server_addr batch_seq st = st.
Proof.
  unfold ReaderBatchTimeout. intros [H|(b & H & Hne)]; rewrite H; [reflexivity|].
  destruct (Z.eqb_spec (sequence_num b) batch_seq); [contradiction|reflexivity].
Qed.

Lemma MutationBatchTimeout_stale server_addr batch_seq st :
  mutation_batch_map_ st !! server_addr = None \/
  (exists b, mutation_batch_map_ st !! server_addr = Some b /\
             sequence_num b <> batch_seq) ->
  MutationBatchTimeout server_addr batch_seq st = st.
Proof.
  unfold MutationBatchTimeout. intros [H|(b & H & Hne)]; rewrite H; [reflexivity|].
  destruct (Z.eqb_spec (sequence_num b) batch_seq); [contradiction|reflexivity].
Qed.

(** C10. Every batch is committed at most once.  A timeout callback that
    finds no batch for its server, or one with another sequence number,
    changes nothing; a round of [PackMutations], and [PackReaders], either
    leaves the batch in the map and commits nothing, or ends its log with
    the cancellation of the batch's timer followed by the commit, the batch
    being erased from the map; and whatever calls of [PackMutations],
    [PackReaders] and the two timeout callbacks follow the construction of
    the client, no batch is committed twice. *)
Theorem batch_committed_at_most_once :
  (forall server_addr batch_seq st,
     mutation_batch_map_ st !! server_addr = None \/
     (exists b, mutation_batch_map_ st !! server_addr = Some b /\
                sequence_num b <> batch_seq) ->
     MutationBatchTimeout server_addr batch_seq st = st) /\
  (forall server_addr batch_seq st,
     reader_batch_map_ st !! server_addr = None \/
     (exists b, reader_batch_map_ st !! server_addr = Some b /\
                sequence_num b <> batch_seq) ->
     ReaderBatchTimeout server_addr batch_seq st = st) /\
  (forall server_addr flush last st mu,
     let st' := pack_mutation server_addr flush last st mu in
     (exists b', mutation_batch_map_ st' !! server_addr = Some b' /\
        committed_batches (log st') = committed_batches (log st)) \/
     (exists pre b',
        mutation_batch_map_ (fst (find_or_create_mutation_batch server_addr st))
          !! server_addr = Some b' /\
        mutation_batch_map_ st' !! server_addr = None /\
        log st' = (pre ++ [EvCancelTask (timer_id b');
                           EvCommitMutations server_addr (batch_id b')
                             (row_id_list b' ++ [task_id mu])])%list)) /\
  (forall server_addr reader_list st,
     let st' := PackReaders server_addr reader_list st in
     (exists b', reader_batch_map_ st' !! server_addr = Some b' /\
        committed_batches (log st') = committed_batches (log st)) \/
     (exists pre b',
        reader_batch_map_ (fst (find_or_create_reader_batch server_addr st))
          !! server_addr = Some b' /\
        reader_batch_map_ st' !! server_addr = None /\
        log st' = (pre ++ [EvCancelTask (timer_id b');
                           EvCommitReaders server_addr (batch_id b')
                             (row_id_list b' ++ (task_id <$> reader_list))])%list)) /\
  (forall (cfg : Config) (ops : list BatchOp),
     NoDup (committed_batches (log (foldl run_batch_op (init cfg) ops)))).
Proof.
  split; [exact MutationBatchTimeout_stale|].
  split; [exact ReaderBatchTimeout_stale|].
  split; [exact pack_mutation_log|].
  split; [exact PackReaders_log|].
  intros cfg ops.
  pose proof (run_batch_ops_ok ops (init cfg) (init_batches_ok cfg)) as H.
  apply H.
Qed.

Lemma batch_committed_at_most_once_witness :
  MutationBatchTimeout "ts1" 0 (init example_config) = init example_config.
Proof.
  apply (proj1 batch_committed_at_most_once "ts1" 0 (init example_config)).
  left. reflexivity.
Defined.

(** ** Flow control *)

Ltac flow_split :=
  split; [|split; [|split; [|split; [|split; [|split; [|split; [|split]]]]]]].

Ltac flow_triv :=
  flow_split; try reflexivity;
  exists []; split; [symmetry; apply app_nil_r|constructor].

Lemma same_flow_refl st : same_flow st st.
Proof.
  flow_split; try reflexivity.
  exists []. split; [symmetry; apply app_nil_r|constructor].
Qed.

Lemma same_flow_trans st1 st2 st3 :
  same_flow st1 st2 -> same_flow st2 st3 -> same_flow st1 st3.
Proof.
  intros (A1 & A2 & A3 & A4 & A5 & A6 & A7 & A8 & n1 & A9 & A10)
         (B1 & B2 & B3 & B4 & B5 & B6 & B7 & B8 & n2 & B9 & B10).
  flow_split.
  - congruence.
  - congruence.
  - congruence.
  - congruence.
  - congruence.
  - congruence.
  - intros id. rewrite B7. apply A7.
  - intros id. rewrite B8. apply A8.
  - exists (n1 ++ n2)%list. split.
    + rewrite B9, A9, app_assoc. reflexivity.
    + apply Forall_app. auto.
Qed.

Lemma same_flow_cache st m : same_flow st (set_tablet_meta_list_ m st).
Proof. flow_triv. Qed.

Lemma same_flow_pending st p : same_flow st (set_pending_task_id_list_ p st).
Proof. flow_triv. Qed.

Lemma same_flow_ScanMetaTableAsync a b c z st :
  same_flow st (ScanMetaTableAsync a b c z st).
Proof.
  unfold ScanMetaTableAsync. destruct (_ || _).
  - flow_split; try reflexivity. eexists. split; [reflexivity|].
    repeat constructor.
  - flow_triv.
Qed.

Lemma same_flow_UpdateMetaAsync st : same_flow st (UpdateMetaAsync st).
Proof.
  unfold UpdateMetaAsync. destruct (_ <=? _); [flow_triv|].
  destruct (foldl _ _ _) as [m p].
  destruct (check_failed p); [flow_triv|].
  destruct (negb (need_update p)); [flow_triv|].
  eapply same_flow_trans; [|apply same_flow_ScanMetaTableAsync].
  flow_triv.
Qed.

Lemma same_flow_schedule k node now st :
  same_flow st (schedule_node_update k node now st).
Proof.
  unfold schedule_node_update. destruct (_ <=? _).
  - eapply same_flow_trans; [|apply same_flow_UpdateMetaAsync]. flow_triv.
  - simpl. flow_split; try reflexivity. eexists. split; [reflexivity|].
    repeat constructor.
Qed.

Lemma same_flow_GetTabletAddr row task now st :
  same_flow st (fst (GetTabletAddrOrScheduleUpdateMeta row task now st)).
Proof.
  unfold GetTabletAddrOrScheduleUpdateMeta.
  destruct (GetTabletMetaNodeForKey _ _) as [[k node]|]; simpl.
  - destruct (negb _); simpl; [flow_triv|].
    destruct (_ && _); simpl.
    + eapply same_flow_trans; [|apply same_flow_schedule]. flow_triv.
    + flow_split; try reflexivity; simpl.
      * intros id. rewrite lookup_alter. case_decide; [|reflexivity].
        subst. destruct (task_pool_ st !! task_id task); reflexivity.
      * intros id. rewrite lookup_alter. case_decide; [|reflexivity].
        subst. destruct (task_pool_ st !! task_id task); reflexivity.
      * exists []. split; [symmetry; apply app_nil_r|constructor].
  - eapply same_flow_trans; [|apply same_flow_UpdateMetaAsync]. flow_triv.
Qed.

























(** ** The cap on meta scans *)

Lemma scan_rounds_app l1 l2 :
  scan_rounds (l1 ++ l2) = (scan_rounds l1 ++ scan_rounds l2)%list.
Proof. apply omap_app. Qed.

Lemma quiet_refl st : quiet st st.
Proof.
  repeat split. exists []. split; [symmetry; apply app_nil_r | reflexivity].
Qed.

Lemma quiet_trans st1 st2 st3 : quiet st1 st2 -> quiet st2 st3 -> quiet st1 st3.
Proof.
  intros (Hc1 & Hn1 & Ha1 & new1 & Hl1 & Hs1) (Hc2 & Hn2 & Ha2 & new2 & Hl2 & Hs2).
  split; [congruence|]. split; [congruence|]. split; [congruence|].
  exists (new1 ++ new2)%list. split.
  - rewrite Hl2, Hl1. symmetry. apply app_assoc.
  - rewrite scan_rounds_app, Hs1, Hs2. reflexivity.
Qed.

Ltac quiet_field :=
  repeat split; exists []; split; [symmetry; apply app_nil_r | reflexivity].

Lemma quiet_emit e st : scan_rounds [e] = [] -> quiet st (emit e st).
Proof. intros He. repeat split. exists [e]. split; [reflexivity | exact He]. Qed.

Lemma quiet_DelayTask delay task st :
  scan_rounds [EvDelayTask delay (next_timer_id_ st) task] = [] ->
  quiet st (fst (DelayTask delay task st)).
Proof.
  intros He. repeat split. exists [EvDelayTask delay (next_timer_id_ st) task].
  split; [reflexivity | exact He].
Qed.

Lemma quiet_find_or_create_mutation_batch server st :
  quiet st (fst (find_or_create_mutation_batch server st)).
Proof.
  unfold find_or_create_mutation_batch.
  destruct (mutation_batch_map_ st !! server); [apply quiet_refl|].
  repeat split. eexists. split; [reflexivity | reflexivity].
Qed.

Lemma quiet_pack_mutation server flush last st mu :
  quiet st (pack_mutation server flush last st mu).
Proof.
  unfold pack_mutation.
  pose proof (quiet_find_or_create_mutation_batch server st) as Hq.
  destruct (find_or_create_mutation_batch server st) as [st1 b]. simpl in Hq.
  eapply quiet_trans; [exact Hq|].
  destruct (mutation_commit_due _ _ _ _).
  - repeat split. eexists. split; [simpl; rewrite <- app_assoc; reflexivity | reflexivity].
  - quiet_field.
Qed.

Lemma quiet_PackMutations server mu_list flush : forall st,
  quiet st (PackMutations server mu_list flush st).
Proof.
  induction mu_list as [|mu rest IH]; intros st; [apply quiet_refl|].
  simpl. eapply quiet_trans; [apply quiet_pack_mutation | apply IH].
Qed.

Lemma quiet_find_or_create_reader_batch server st :
  quiet st (fst (find_or_create_reader_batch server st)).
Proof.
  unfold find_or_create_reader_batch.
  destruct (reader_batch_map_ st !! server); [apply quiet_refl|].
  repeat split. eexists. split; [reflexivity | reflexivity].
Qed.

Lemma quiet_PackReaders server reader_list st :
  quiet st (PackReaders server reader_list st).
Proof.
  unfold PackReaders.
  pose proof (quiet_find_or_create_reader_batch server st) as Hq.
  destruct (find_or_create_reader_batch server st) as [st1 b]. simpl in Hq.
  eapply quiet_trans; [exact Hq|].
  destruct (_ <=? _).
  - repeat split. eexists. split; [simpl; rewrite <- app_assoc; reflexivity | reflexivity].
  - quiet_field.
Qed.

Lemma quiet_wake_task server ts acc id :
  quiet (fst (fst acc)) (fst (fst (wake_task server ts acc id))).
Proof.
  destruct acc as [[st ml] rl]. unfold wake_task.
  destruct (task_pool_ st !! id) as [task|]; [|apply quiet_refl].
  destruct (task_type task); simpl; try quiet_field.
  repeat split. eexists. split; [reflexivity | reflexivity].
Qed.

Lemma quiet_foldl {A B} (f : A -> B -> A) (g : A -> t) l :
  (forall a b, quiet (g a) (g (f a b))) ->
  forall a, quiet (g a) (g (foldl f a l)).
Proof.
  intros Hf. induction l as [|b l IH]; intros a; [apply quiet_refl|].
  simpl. eapply quiet_trans; [apply Hf | apply IH].
Qed.

Lemma quiet_wake_key server ts acc k :
  quiet (fst (fst acc)) (fst (fst (wake_key server ts acc k))).
Proof.
  unfold wake_key.
  pose proof (quiet_foldl (wake_task server ts) (fun a => fst (fst a))
                (default [] (pending_task_id_list_ (fst (fst acc)) !! k))
                (quiet_wake_task server ts) acc) as Hq.
  destruct (foldl _ acc _) as [[st ml] rl]. simpl in *.
  eapply quiet_trans; [exact Hq|]. quiet_field.
Qed.

Lemma quiet_WakeUpPendingRequest node st : quiet st (WakeUpPendingRequest node st).
Proof.
  unfold WakeUpPendingRequest.
  pose proof (quiet_foldl (wake_key (TabletMeta.server_addr (meta node)) (update_time node))
                (fun a => fst (fst a))
                (pending_keys_in (pending_task_id_list_ st) (node_start node) (node_end node))
                (quiet_wake_key _ _) (st, [], [])) as Hq.
  destruct (foldl _ _ _) as [[st1 ml] rl]. simpl in Hq.
  eapply quiet_trans; [exact Hq|].
  eapply quiet_trans with
    (st2 := match ml with [] => st1 | _ => PackMutations _ ml false st1 end).
  - destruct ml; [apply quiet_refl | apply quiet_PackMutations].
  - destruct rl; [apply quiet_refl | apply quiet_PackReaders].
Qed.

Lemma quiet_UpdateTabletMetaList new_meta now st :
  quiet st (UpdateTabletMetaList new_meta now st).
Proof.
  unfold UpdateTabletMetaList.
  destruct (insert_meta_node _ _ _); [|apply quiet_refl].
  eapply quiet_trans; [|apply quiet_WakeUpPendingRequest]. quiet_field.
Qed.

Lemma quiet_GiveupUpdateTabletMeta a b st : quiet st (GiveupUpdateTabletMeta a b st).
Proof. quiet_field. Qed.

Lemma quiet_push_pending row id st : quiet st (push_pending row id st).
Proof. quiet_field. Qed.

Lemma quiet_add_wait_node row st : quiet st (add_wait_node row st).
Proof. quiet_field. Qed.

Lemma quiet_set_status_at k s st : quiet st (set_status_at k s st).
Proof. quiet_field. Qed.

Lemma uint32_range v : 0 <= uint32 v < 2 ^ 32.
Proof. apply Z.mod_pos_bound. reflexivity. Qed.

Lemma uint32_small v : 0 <= v < 2 ^ 32 -> uint32 v = v.
Proof. apply Z.mod_small. Qed.

Lemma tracks_of_quiet st st' : quiet st st' -> tracks 0 st st'.
Proof.
  intros (Hc & Hn & Ha & new & Hl & Hs). split; [exact Hc|].
  exists new. split; [exact Hl|]. rewrite Hs, Hn. simpl. intros Hb.
  repeat split; try lia. congruence.
Qed.

Lemma tracks_trans d st1 st2 st3 :
  tracks d st1 st2 -> tracks 0 st2 st3 -> tracks d st1 st3.
Proof.
  intros (Hc1 & new1 & Hl1 & H1) (Hc2 & new2 & Hl2 & H2).
  split; [congruence|]. exists (new1 ++ new2)%list. split.
  - rewrite Hl2, Hl1. symmetry. apply app_assoc.
  - intros Hb. destruct (H1 Hb) as (Hr1 & Hle1 & He1).
    rewrite Hc1 in H2. destruct (H2 Hr1) as (Hr2 & Hle2 & He2).
    rewrite scan_rounds_app, length_app, Nat2Z.inj_add.
    split; [exact Hr2|]. split; [lia|].
    intros Ha3. destruct (He2 Ha3) as [Ha2 E2]. destruct (He1 Ha2) as [Ha1 E1].
    split; [exact Ha1 | lia].
Qed.

Lemma tracks_quiet_l d st1 st2 st3 :
  quiet st1 st2 -> tracks d st2 st3 -> tracks d st1 st3.
Proof.
  intros (Hc1 & Hn1 & Ha1 & new1 & Hl1 & Hs1) (Hc2 & new2 & Hl2 & H2).
  split; [congruence|]. exists (new1 ++ new2)%list. split.
  - rewrite Hl2, Hl1. symmetry. apply app_assoc.
  - rewrite Hc1, Hn1 in H2. intros Hb. destruct (H2 Hb) as (Hr2 & Hle2 & He2).
    rewrite scan_rounds_app, Hs1. simpl.
    split; [exact Hr2|]. split; [exact Hle2|].
    intros Ha3. destruct (He2 Ha3) as [Ha2 E2]. split; [congruence | exact E2].
Qed.

Lemma tracks_abort d st : 0 <= d -> tracks d st (abort st).
Proof.
  intros Hd. split; [reflexivity|]. exists []. split; [symmetry; apply app_nil_r|].
  simpl. intros Hb. split; [lia|]. split; [lia|]. discriminate.
Qed.

Lemma tracks_UpdateMetaAsync st : tracks 0 st (UpdateMetaAsync st).
Proof.
  unfold UpdateMetaAsync.
  destruct (Z.leb_spec (uint32 (FLAGS_tera_sdk_update_meta_concurrency (config st)))
              (meta_updating_count_ st)) as [Hfull|Hroom];
    [apply tracks_of_quiet, quiet_refl|].
  destruct (foldl _ _ _) as [m p].
  destruct (check_failed p).
  { eapply tracks_quiet_l; [|apply tracks_abort; lia]. quiet_field. }
  destruct (need_update p); simpl; [|apply tracks_of_quiet; quiet_field].
  pose proof (uint32_range (FLAGS_tera_sdk_update_meta_concurrency (config st))) as Hmax.
  unfold ScanMetaTableAsync.
  destruct (_ || _); (split; [reflexivity|]).
  - eexists. split; [reflexivity|]. simpl. intros Hb.
    rewrite uint32_small by lia. repeat split; try lia. assumption.
  - exists []. split; [symmetry; apply app_nil_r|]. simpl. intros Hb.
    rewrite uint32_small by lia. split; [lia|]. split; [lia|]. discriminate.
Qed.

Lemma tracks_schedule_node_update k node now st :
  tracks 0 st (schedule_node_update k node now st).
Proof.
  unfold schedule_node_update. destruct (_ <=? 0).
  - eapply tracks_quiet_l; [apply quiet_set_status_at | apply tracks_UpdateMetaAsync].
  - apply tracks_of_quiet.
    eapply quiet_trans; [apply quiet_set_status_at | apply quiet_DelayTask; reflexivity].
Qed.

Lemma tracks_GetTabletAddrOrScheduleUpdateMeta row task now st :
  tracks 0 st (fst (GetTabletAddrOrScheduleUpdateMeta row task now st)).
Proof.
  unfold GetTabletAddrOrScheduleUpdateMeta.
  destruct (GetTabletMetaNodeForKey _ _) as [[k node]|]; simpl.
  - destruct (negb _); simpl; [apply tracks_of_quiet, quiet_push_pending|].
    destruct (_ && _); simpl.
    + eapply tracks_quiet_l; [apply quiet_push_pending | apply tracks_schedule_node_update].
    + apply tracks_of_quiet. quiet_field.
  - eapply tracks_quiet_l; [|apply tracks_UpdateMetaAsync].
    eapply quiet_trans; [apply quiet_push_pending | apply quiet_add_wait_node].
Qed.

Lemma tracks_ScheduleUpdateMeta row ts now st :
  tracks 0 st (ScheduleUpdateMeta row ts now st).
Proof.
  unfold ScheduleUpdateMeta.
  destruct (GetTabletMetaNodeForKey _ _) as [[k node]|].
  - destruct (_ && _); [apply tracks_schedule_node_update | apply tracks_of_quiet, quiet_refl].
  - eapply tracks_quiet_l; [apply quiet_add_wait_node | apply tracks_UpdateMetaAsync].
Qed.

Lemma tracks_DelayUpdateMeta a b st : tracks 0 st (DelayUpdateMeta a b st).
Proof.
  unfold DelayUpdateMeta.
  eapply tracks_quiet_l; [|apply tracks_UpdateMetaAsync]. quiet_field.
Qed.

Lemma tracks_ScanMetaTableAsync a b c z st : tracks 1 st (ScanMetaTableAsync a b c z st).
Proof.
  unfold ScanMetaTableAsync. destruct (_ || _); [|apply tracks_abort; lia].
  split; [reflexivity|]. eexists. split; [reflexivity|]. simpl. intros Hb.
  repeat split; try lia. assumption.
Qed.

Lemma tracks_ScanMetaTableCallBack a b c response failed code now st :
  tracks 1 st (ScanMetaTableCallBack a b c response failed code now st).
Proof.
  unfold ScanMetaTableCallBack.
  destruct (negb (is_ok _)).
  { eapply tracks_quiet_l; [apply quiet_GiveupUpdateTabletMeta|].
    split; [reflexivity|]. eexists. split; [reflexivity|]. simpl. intros Hb.
    repeat split; try lia. assumption. }
  set (st1 := foldl _ st _).
  apply (tracks_quiet_l _ st st1).
  { apply (quiet_foldl (fun s m => UpdateTabletMetaList m now s) (fun s => s)).
    intros s m. apply quiet_UpdateTabletMetaList. }
  destruct (_ || _); [apply tracks_ScanMetaTableAsync|].
  destruct (_ && _).
  { destruct (complete response); [apply tracks_abort; lia | apply tracks_ScanMetaTableAsync]. }
  eapply tracks_trans; [|apply tracks_UpdateMetaAsync].
  pose proof (uint32_range (FLAGS_tera_sdk_update_meta_concurrency (config st1))) as Hmax.
  split; [reflexivity|]. exists []. split; [symmetry; apply app_nil_r|]. simpl. intros Hb.
  rewrite uint32_small by lia. repeat split; try lia. assumption.
Qed.

Lemma rounds_started_app st st' new :
  log st' = (log st ++ new)%list -> rounds_started st st' = scan_rounds new.
Proof. intros H. unfold rounds_started. rewrite H, drop_app_length. reflexivity. Qed.

Lemma scans_bounded_tracks_0 st st' flights :
  aborted st = false -> scans_bounded (st, flights) -> tracks 0 st st' ->
  scans_bounded (st', (flights ++ rounds_started st st')%list)
  /\ config st' = config st.
Proof.
  intros Ha (Hb & Hle & He) (Hc & new & Hl & H). simpl in *.
  rewrite (rounds_started_app _ _ _ Hl).
  specialize (He Ha). destruct H as (Hr & Hle' & He'); [lia|].
  split; [|exact Hc]. unfold scans_bounded. simpl.
  rewrite Hc, length_app, Nat2Z.inj_add.
  split; [exact Hr|]. split; [lia|]. intros Ha'. destruct (He' Ha'). lia.
Qed.

Lemma scans_bounded_tracks_1 st st' flights i r :
  aborted st = false -> scans_bounded (st, flights) -> flights !! i = Some r ->
  tracks 1 st st' ->
  scans_bounded (st', (delete i flights ++ rounds_started st st')%list)
  /\ config st' = config st.
Proof.
  intros Ha (Hb & Hle & He) Hi (Hc & new & Hl & H). simpl in *.
  rewrite (rounds_started_app _ _ _ Hl).
  specialize (He Ha).
  assert (Hlen : (length (delete i flights) = length flights - 1)%nat)
    by (apply length_delete; eauto).
  assert (Hpos : (0 < length flights)%nat)
    by (apply lookup_lt_Some in Hi; lia).
  destruct H as (Hr & Hle' & He'); [lia|].
  split; [|exact Hc]. unfold scans_bounded. simpl.
  rewrite Hc, length_app, Nat2Z.inj_add, Hlen.
  split; [exact Hr|]. split; [lia|]. intros Ha'. destruct (He' Ha'). lia.
Qed.

(** Every asynchronous entry point keeps the count within the maximum and
    in step with the rounds in flight. *)
Lemma run_meta_op_bounded sys op sys' :
  asynchronous op = true -> scans_bounded sys -> run_meta_op sys op = Some sys' ->
  scans_bounded sys' /\ config (fst sys') = config (fst sys).
Proof.
  destruct sys as [st flights]. intros Hop Hb. unfold run_meta_op.
  destruct (aborted st) eqn:Ha; [discriminate|].
  destruct op as [row task now|row ts now|a b|i response failed code now|i|a b];
    try discriminate Hop.
  - intros [= <-]. apply scans_bounded_tracks_0; auto.
    apply tracks_GetTabletAddrOrScheduleUpdateMeta.
  - intros [= <-]. apply scans_bounded_tracks_0; auto. apply tracks_ScheduleUpdateMeta.
  - intros [= <-]. apply scans_bounded_tracks_0; auto. apply tracks_DelayUpdateMeta.
  - destruct (flights !! i) as [[[a b] c]|] eqn:Hi; [|discriminate].
    intros [= <-]. eapply scans_bounded_tracks_1; eauto.
    apply tracks_ScanMetaTableCallBack.
  - destruct (flights !! i) as [[[a b] c]|] eqn:Hi; [|discriminate].
    intros [= <-]. eapply scans_bounded_tracks_1; eauto.
    apply tracks_ScanMetaTableAsync.
Qed.

Lemma run_meta_ops_bounded ops : forall sys sys',
  forallb asynchronous ops = true -> scans_bounded sys ->
  run_meta_ops sys ops = Some sys' ->
  scans_bounded sys' /\ config (fst sys') = config (fst sys).
Proof.
  induction ops as [|op ops IH]; intros sys sys' Hops Hb; simpl.
  - intros [= <-]. auto.
  - simpl in Hops. apply andb_true_iff in Hops as [Hop Hops].
    destruct (run_meta_op sys op) as [sys1|] eqn:H1; [|discriminate].
    intros Hrun. destruct (run_meta_op_bounded _ _ _ Hop Hb H1) as [Hb1 Hc1].
    destruct (IH _ _ Hops Hb1 Hrun) as [Hb' Hc']. split; [exact Hb' | congruence].
Qed.

Lemma scans_bounded_init cfg : scans_bounded (init cfg, []).
Proof.
  unfold scans_bounded. simpl.
  pose proof (uint32_range (FLAGS_tera_sdk_update_meta_concurrency cfg)).
  repeat split; lia.
Qed.

(** C9 (as amended).  Starting from a fresh client, after any sequence of
    calls of [GetTabletAddrOrScheduleUpdateMeta], [ScheduleUpdateMeta],
    [DelayUpdateMeta], scan callbacks and scan retries (every entry point
    but the synchronous [ScanMetaTable]), the number of rounds of meta scans
    in flight is at most [FLAGS_tera_sdk_update_meta_concurrency] read as a
    [uint32_t], [meta_updating_count_] is at most that too, and as long as
    no [CHECK] has failed the two numbers are equal. *)
Theorem asynchronous_meta_scans_capped (cfg : Config) (ops : list MetaOp)
    (st : t) (flights : list ScanRound) :
  forallb asynchronous ops = true ->
  run_meta_ops (init cfg, []) ops = Some (st, flights) ->
  Z.of_nat (length flights) <= uint32 (FLAGS_tera_sdk_update_meta_concurrency cfg)
  /\ meta_updating_count_ st <= uint32 (FLAGS_tera_sdk_update_meta_concurrency cfg)
  /\ (aborted st = false -> meta_updating_count_ st = Z.of_nat (length flights)).
Proof.
  intros Hops Hrun.
  destruct (run_meta_ops_bounded ops _ _ Hops (scans_bounded_init cfg) Hrun)
    as [(Hb & Hle & He) Hc]. simpl in *. rewrite Hc in Hb.
  split; [lia|]. split; [lia|]. intros Ha. symmetry. auto.
Qed.

Lemma asynchronous_meta_scans_capped_witness :
  Z.of_nat (length (snd example_meta_run)) <= uint32 3
  /\ meta_updating_count_ (fst example_meta_run) <= uint32 3
  /\ (aborted (fst example_meta_run) = false ->
      meta_updating_count_ (fst example_meta_run)
      = Z.of_nat (length (snd example_meta_run))).
Proof.
  apply (asynchronous_meta_scans_capped example_config example_meta_ops
           (fst example_meta_run) (snd example_meta_run)).
  - reflexivity.
  - vm_compute. reflexivity.
Defined.

(** C9 (as stated) fails: with three rounds in flight, the maximum of the
    example configuration, [ScanMetaTable] still increments the count and
    starts a fourth round. *)
Lemma ScanMetaTable_exceeds_concurrency :
  meta_updating_count_ (fst example_meta_run)
  = uint32 (FLAGS_tera_sdk_update_meta_concurrency example_config)
  /\ match run_meta_op example_meta_run (OpScanMetaTable "" "") with
     | Some (st, flights) =>
         aborted st = false
         /\ meta_updating_count_ st = meta_updating_count_ (fst example_meta_run) + 1
         /\ length flights = 4%nat
         /\ uint32 (FLAGS_tera_sdk_update_meta_concurrency (config st))
            < Z.of_nat (length flights)
     | None => False
     end.
Proof. vm_compute. repeat split. Qed.

(** ** Maps in iteration order *)

#[global] Instance sle_trans : Transitive sle.
Proof. intros a b c H1 H2. sorder. Qed.

#[global] Instance sle_total : Total sle.
Proof. intros a b. destruct (slt_total a b) as [H|[H|H]]; [left|left|right]; sorder. Qed.

Lemma drop_while_sorted (lo : string) (l : list string) :
  StronglySorted sle l ->
  forall x, x ∈ drop_while (fun k => String.ltb k lo) l <-> x ∈ l /\ sle lo x.
Proof.
  induction 1 as [|a l Hl IH Ha]; intros x; simpl.
  - split; [intros H; inversion H | intros [H _]; inversion H].
  - destruct (String.ltb a lo) eqn:E.
    + rewrite IH, elem_of_cons. split; [tauto|].
      intros [[->|Hx] Hlo]; [|tauto]. exfalso. sorder.
    + apply ltb_false in E. split; [|tauto]. intros Hx. split; [exact Hx|].
      apply elem_of_cons in Hx as [->|Hx]; [exact E|].
      rewrite Forall_forall in Ha. specialize (Ha x Hx). sorder.
Qed.

Lemma drop_while_suffix {A} (P : A -> bool) (l : list A) :
  exists l1, l = (l1 ++ drop_while P l)%list.
Proof.
  induction l as [|a l [l1 IH]]; simpl; [exists []; reflexivity|].
  destruct (P a); [exists (a :: l1); simpl; congruence | exists []; reflexivity].
Qed.


Lemma take_while_sorted (hi : string) (l : list string) :
  StronglySorted sle l ->
  forall x, x ∈ take_while (fun k => empty hi || String.ltb k hi) l
            <-> x ∈ l /\ (hi = "" \/ slt x hi).
Proof.
  induction 1 as [|a l Hl IH Ha]; intros x; simpl.
  - split; [intros H; inversion H | intros [H _]; inversion H].
  - destruct (empty hi) eqn:He; simpl.
    + apply empty_true in He. rewrite elem_of_cons, IH, elem_of_cons. tauto.
    + apply empty_false in He. destruct (String.ltb a hi) eqn:E.
      * rewrite elem_of_cons, IH, elem_of_cons. split; [|tauto].
        intros [->|[Hx Hc]]; [|tauto]. split; [tauto|]. right. exact E.
      * apply ltb_false in E. split; [intros H; inversion H|].
        intros [Hx [Hc|Hc]]; [contradiction|]. exfalso.
        apply elem_of_cons in Hx as [->|Hx]; [sorder|].
        rewrite Forall_forall in Ha. specialize (Ha x Hx). sorder.
Qed.

Section SortedKeys.
Context {V : Type}.
Implicit Types m : gmap string V.

Lemma sorted_keys_sorted m : StronglySorted sle (sorted_keys m).
Proof. apply StronglySorted_merge_sort; apply _. Qed.

Lemma sorted_keys_perm m : sorted_keys m ≡ₚ keys m.
Proof. apply merge_sort_Permutation. Qed.

Lemma NoDup_sorted_keys m : NoDup (sorted_keys m).
Proof. rewrite sorted_keys_perm. apply NoDup_elements. Qed.

Lemma elem_of_sorted_keys m k : k ∈ sorted_keys m <-> is_Some (m !! k).
Proof. rewrite sorted_keys_perm. apply elem_of_keys. Qed.

Lemma elem_of_keys_from m lo k :
  k ∈ keys_from m lo <-> is_Some (m !! k) /\ sle lo k.
Proof.
  unfold keys_from. rewrite (drop_while_sorted lo _ (sorted_keys_sorted m)).
  rewrite elem_of_sorted_keys. reflexivity.
Qed.


Lemma keys_from_sorted m lo : StronglySorted sle (keys_from m lo).
Proof.
  unfold keys_from.
  destruct (drop_while_suffix (fun k => String.ltb k lo) (sorted_keys m)) as [l1 H].
  pose proof (sorted_keys_sorted m) as Hs. rewrite H in Hs.
  apply StronglySorted_app_1_r in Hs. exact Hs.
Qed.


End SortedKeys.

Lemma elem_of_pending_keys_in (p : gmap string (list Z)) s e k :
  k ∈ pending_keys_in p s e <-> is_Some (p !! k) /\ sle s k /\ (e = "" \/ slt k e).
Proof.
  unfold pending_keys_in.
  rewrite (take_while_sorted e _ (keys_from_sorted p s)), elem_of_keys_from. tauto.
Qed.


(** ** Stale meta: when the re-fetch of a node is set going *)

Lemma status_eqb_eq a b : status_eqb a b = true <-> a = b.
Proof. destruct a, b; simpl; split; intros H; try reflexivity; discriminate H. Qed.

Lemma status_eqb_neq a b : status_eqb a b = false <-> a <> b.
Proof.
  rewrite <- status_eqb_eq. destruct (status_eqb a b); split; intros H; congruence.
Qed.

Lemma upgraded_refl m : upgraded m m.
Proof. intros k n H. eauto. Qed.

Lemma upgraded_trans m1 m2 m3 : upgraded m1 m2 -> upgraded m2 m3 -> upgraded m1 m3.
Proof.
  intros H1 H2 k n Hk. destruct (H1 k n Hk) as (n' & Hk' & Hn').
  destruct (H2 k n' Hk') as (n'' & Hk'' & Hn''). exists n''. split; [exact Hk''|].
  destruct Hn' as [->|[Hs ->]]; [exact Hn''|].
  destruct Hn'' as [->|[Hs' _]]; [right; auto | discriminate Hs'].
Qed.

Lemma upgraded_alter m k node :
  m !! k = Some node -> status node = WAIT_UPDATE ->
  upgraded m (alter (set_node_status UPDATING) k m).
Proof.
  intros Hk Hs k' n Hk'. destruct (decide (k' = k)) as [->|Hne].
  - rewrite lookup_alter_eq, Hk'. simpl. eexists. split; [reflexivity|].
    right. split; congruence.
  - rewrite lookup_alter_ne by congruence. eauto.
Qed.

Lemma update_meta_step_upgraded acc k :
  upgraded (fst acc) (fst (update_meta_step acc k)).
Proof.
  destruct acc as [m p]. unfold update_meta_step. simpl.
  destruct (stopped p); [apply upgraded_refl|].
  destruct (m !! k) as [node|] eqn:Hk; [|apply upgraded_refl].
  destruct (status_eqb (status node) WAIT_UPDATE) eqn:Hs; simpl.
  - apply status_eqb_eq in Hs.
    destruct (need_update p); simpl.
    + destruct (String.eqb _ _); simpl;
        [apply (upgraded_alter _ _ _ Hk Hs) | apply upgraded_refl].
    + apply (upgraded_alter _ _ _ Hk Hs).
  - destruct (need_update p); apply upgraded_refl.
Qed.

Lemma update_meta_steps_upgraded l : forall acc,
  upgraded (fst acc) (fst (foldl update_meta_step acc l)).
Proof.
  induction l as [|k l IH]; intros acc; [apply upgraded_refl|].
  simpl. eapply upgraded_trans; [apply update_meta_step_upgraded | apply IH].
Qed.

Lemma ScanMetaTableAsync_cache a b c z st :
  tablet_meta_list_ (ScanMetaTableAsync a b c z st) = tablet_meta_list_ st.
Proof. unfold ScanMetaTableAsync. destruct (_ || _); reflexivity. Qed.

Lemma UpdateMetaAsync_upgraded st :
  upgraded (tablet_meta_list_ st) (tablet_meta_list_ (UpdateMetaAsync st)).
Proof.
  unfold UpdateMetaAsync. destruct (_ <=? _); [apply upgraded_refl|].
  pose proof (update_meta_steps_upgraded (sorted_keys (tablet_meta_list_ st))
                (tablet_meta_list_ st,
                 {| need_update := false; update_start_key := "";
                    update_end_key := ""; update_expand_end_key := "";
                    stopped := false; check_failed := false |})) as H.
  destruct (foldl _ _ _) as [m p]. simpl in H.
  destruct (check_failed p); [exact H|].
  destruct (negb (need_update p)); [exact H|].
  rewrite ScanMetaTableAsync_cache. exact H.
Qed.










(** ** The meta cache: UpdateTabletMetaList *)

#[global] Instance slt_dec : RelDecision slt :=
  fun a b => decide (String.ltb a b = true).

#[global] Instance apart_dec ns ne o : Decision (apart ns ne o).
Proof. unfold apart. apply _. Defined.

#[global] Instance sticks_out_dec ne o : Decision (sticks_out ne o).
Proof. unfold sticks_out. apply _. Defined.

Lemma sle_empty_l (s : string) : sle "" s.
Proof. destruct s; reflexivity. Qed.

Lemma well_formed_start m k n : well_formed m -> m !! k = Some n -> node_start n = k.
Proof. intros (H & _ & _). apply H. Qed.

Lemma well_formed_nonempty m k n :
  well_formed m -> m !! k = Some n -> node_end n = "" \/ slt k (node_end n).
Proof.
  intros (Hs & Hn & _) Hk. specialize (Hn k n Hk). rewrite (Hs k n Hk) in Hn. exact Hn.
Qed.

Lemma covers_start m k n : well_formed m -> m !! k = Some n -> covers n k.
Proof.
  intros Hwf Hk. unfold covers, in_range. rewrite (well_formed_start _ _ _ Hwf Hk).
  split; [sorder | exact (well_formed_nonempty _ _ _ Hwf Hk)].
Qed.

(** In key order, a node ends where the next starts, or before. *)
Lemma well_formed_ordered m k1 n1 k2 n2 :
  well_formed m -> m !! k1 = Some n1 -> m !! k2 = Some n2 -> slt k1 k2 ->
  node_end n1 <> "" /\ sle (node_end n1) k2.
Proof.
  intros Hwf H1 H2 Hlt.
  destruct (decide (node_end n1 <> "" /\ sle (node_end n1) k2)) as [|Hno]; [assumption|].
  exfalso. destruct Hwf as (Hs & Hn & Hd).
  apply (Hd k1 n1 k2 n2 k2 H1 H2).
  - intros ->. exact (slt_irrefl _ Hlt).
  - unfold covers, in_range. rewrite (Hs _ _ H1). split; [sorder|].
    destruct (decide (node_end n1 = "")) as [|Hne]; [left; assumption|].
    right. destruct (slt_total k2 (node_end n1)) as [H|[H|H]]; [exact H| |];
      exfalso; apply Hno; split; auto; sorder.
  - apply (covers_start m); [repeat split; assumption | exact H2].
Qed.

Section CutLoop.
Variables (m0 : gmap string TabletMetaNode) (ns ne : string).
Hypothesis Hwf : well_formed m0.
Hypothesis Hvalid : ne = "" \/ slt ns ne.

(** A node that is not apart from the new range starts before its end. *)
Lemma not_apart_start k o :
  m0 !! k = Some o -> ~ apart ns ne o -> ne <> "" -> slt k ne.
Proof.
  intros Hk Hna Hne. rewrite <- (well_formed_start _ _ _ Hwf Hk).
  destruct (slt_total (node_start o) ne) as [H|[H|H]]; [exact H| |];
    exfalso; apply Hna; right; split; auto; sorder.
Qed.

(** At most one node goes on after the end of the new range. *)
Lemma sticks_out_unique k1 o1 k2 o2 :
  m0 !! k1 = Some o1 -> m0 !! k2 = Some o2 ->
  ~ apart ns ne o1 -> sticks_out ne o1 ->
  ~ apart ns ne o2 -> sticks_out ne o2 -> k1 = k2.
Proof.
  intros H1 H2 Ha1 [Hne S1] Ha2 [_ S2].
  pose proof (not_apart_start _ _ H1 Ha1 Hne) as L1.
  pose proof (not_apart_start _ _ H2 Ha2 Hne) as L2.
  destruct (slt_total k1 k2) as [H|[H|H]]; [|exact H|]; exfalso.
  - destruct (well_formed_ordered _ _ _ _ _ Hwf H1 H2 H) as [E1 E2].
    destruct S1 as [S1|S1]; [contradiction | sorder].
  - destruct (well_formed_ordered _ _ _ _ _ Hwf H2 H1 H) as [E1 E2].
    destruct S2 as [S2|S2]; [contradiction | sorder].
Qed.

(** No node starts where one that sticks out would be copied to. *)
Lemma sticks_out_free k o :
  m0 !! k = Some o -> ~ apart ns ne o -> sticks_out ne o -> m0 !! ne = None.
Proof.
  intros Hk Ha [Hne S].
  destruct (m0 !! ne) as [o'|] eqn:E; [exfalso|reflexivity].
  pose proof (not_apart_start _ _ Hk Ha Hne) as L.
  destruct (well_formed_ordered _ _ _ _ _ Hwf Hk E L) as [E1 E2].
  destruct S as [S|S]; [contradiction | sorder].
Qed.

(** One round of the loop: the node at [cur] is kept, cut or dropped, and
    what sticks out is copied to [ne]. *)
Lemma cut_upto_step it' cur o m m' :
  m0 !! cur = Some o ->
  cut_upto (Some cur) ns ne m0 m ->
  (forall k, is_Some (m0 !! k) -> (before it' k <-> slt k cur \/ k = cur)) ->
  m' !! cur = (if decide (apart ns ne o) then Some o
               else if decide (slt cur ns) then Some (set_node_end ns o) else None) ->
  (~ apart ns ne o -> sticks_out ne o -> m' !! ne = Some (set_node_start ne o)) ->
  (forall k, k <> cur -> ~ (k = ne /\ ~ apart ns ne o /\ sticks_out ne o) ->
             m' !! k = m !! k) ->
  cut_upto it' ns ne m0 m'.
Proof.
  intros Ho Hcut Hbef Hcur Hcopy Hoth k n'.
  assert (Hbc : before it' cur) by (apply Hbef; eauto).
  assert (Hstart : node_start o = cur) by (apply (well_formed_start _ _ _ Hwf Ho)).
  destruct (decide (k = cur)) as [->|Hk].
  { rewrite Hcur. split.
    - destruct (decide (apart ns ne o)) as [Ha|Ha].
      + intros [= <-]. left. exists o. auto.
      + destruct (decide (slt cur ns)) as [Hl|Hl]; [|discriminate].
        intros [= <-]. right. left. exists o. rewrite Hstart. auto.
    - intros [(o' & Ho' & Hc & ->)|[(o' & Ho' & Hb & Ha & Hl & ->)
                                   |(-> & k0 & o0 & H0 & Hb0 & Ha0 & Hs0 & ->)]].
      + rewrite Ho in Ho'. injection Ho' as <-.
        destruct Hc as [Hc|Hc]; [contradiction|].
        rewrite decide_True by assumption. reflexivity.
      + rewrite Ho in Ho'. injection Ho' as <-.
        rewrite decide_False by assumption. rewrite Hstart in Hl.
        rewrite decide_True by assumption. reflexivity.
      + exfalso. rewrite (sticks_out_free _ _ H0 Ha0 Hs0) in Ho. discriminate. }
  destruct (decide (k = ne /\ ~ apart ns ne o /\ sticks_out ne o))
    as [(-> & Ha & Hs)|Hn].
  { rewrite (Hcopy Ha Hs). split.
    - intros [= <-]. right. right. split; [reflexivity|]. exists cur, o. auto 10.
    - intros [(o' & Ho' & _)|[(o' & Ho' & _)
                             |(_ & k0 & o0 & H0 & Hb0 & Ha0 & Hs0 & ->)]].
      + rewrite (sticks_out_free _ _ Ho Ha Hs) in Ho'. discriminate.
      + rewrite (sticks_out_free _ _ Ho Ha Hs) in Ho'. discriminate.
      + assert (k0 = cur) by (eapply sticks_out_unique; eauto). subst k0.
        rewrite Ho in H0. injection H0 as <-. reflexivity. }
  rewrite (Hoth k Hk Hn), (Hcut k n'). simpl. split.
  - intros [(o' & Ho' & Hc & ->)|[(o' & Ho' & Hb & Ha & Hl & ->)
                                 |(-> & k0 & o0 & H0 & Hb0 & Ha0 & Hs0 & ->)]].
    + left. exists o'. split; [exact Ho'|]. split; [|reflexivity].
      destruct Hc as [Hc|Hc]; [left|right; exact Hc].
      intros Hb. apply Hbef in Hb as [Hb|Hb]; [auto | contradiction | eauto].
    + right. left. exists o'. split; [exact Ho'|].
      split; [apply Hbef; eauto|]. auto.
    + right. right. split; [reflexivity|]. exists k0, o0. split; [exact H0|].
      split; [apply Hbef; eauto|]. auto.
  - intros [(o' & Ho' & Hc & ->)|[(o' & Ho' & Hb & Ha & Hl & ->)
                                 |(-> & k0 & o0 & H0 & Hb0 & Ha0 & Hs0 & ->)]].
    + left. exists o'. split; [exact Ho'|]. split; [|reflexivity].
      destruct Hc as [Hc|Hc]; [left|right; exact Hc].
      intros Hb. apply Hc. apply Hbef; eauto.
    + right. left. exists o'. split; [exact Ho'|]. split; [|auto].
      apply Hbef in Hb as [Hb|Hb]; [exact Hb | contradiction | eauto].
    + right. right. split; [reflexivity|]. exists k0, o0. split; [exact H0|].
      split; [|auto].
      apply Hbef in Hb0 as [Hb0|Hb0]; [exact Hb0 | | eauto].
      exfalso. subst k0. rewrite Ho in H0. injection H0 as <-. apply Hn. auto.
Qed.

Lemma cut_upto_at_cur cur o m :
  m0 !! cur = Some o -> cut_upto (Some cur) ns ne m0 m -> m !! cur = Some o.
Proof.
  intros Ho Hcut. apply Hcut. left. exists o. split; [exact Ho|].
  split; [|reflexivity]. left. apply slt_irrefl.
Qed.

(** [++it]: the next old entry, none being skipped. *)
Lemma cut_upto_next cur o m :
  m0 !! cur = Some o -> cut_upto (Some cur) ns ne m0 m ->
  (forall c', next_it m cur = Some c' -> is_Some (m0 !! c') /\ slt cur c') /\
  (forall k, is_Some (m0 !! k) -> (before (next_it m cur) k <-> slt k cur \/ k = cur)).
Proof.
  intros Ho Hcut.
  assert (Hlater : forall k, is_Some (m0 !! k) -> slt cur k -> is_Some (m !! k)).
  { intros k [n Hn] Hk. exists n. apply Hcut. left. exists n. split; [exact Hn|].
    split; [|reflexivity]. left. simpl. intros Hb. sorder. }
  unfold next_it. destruct (upper_bound m cur) as [c'|] eqn:E.
  - apply upper_bound_Some in E as ([n' Hn'] & Hlt & Hmin).
    assert (Hc' : is_Some (m0 !! c')).
    { apply Hcut in Hn' as [(o' & Ho' & _)|[(o' & Ho' & Hb & _)
                                           |(-> & k0 & o0 & H0 & Hb0 & Ha0 & Hs0 & _)]].
      - eauto.
      - exfalso. simpl in Hb. sorder.
      - exfalso. simpl in Hb0.
        destruct (well_formed_ordered _ _ _ _ _ Hwf H0 Ho Hb0) as [E1 E2].
        destruct Hs0 as [_ [S|S]]; [contradiction | sorder]. }
    split.
    + intros c [= <-]. auto.
    + intros k Hk. simpl. split.
      * intros Hkc. destruct (slt_total k cur) as [H|[H|H]]; auto.
        exfalso. pose proof (Hmin k (Hlater k Hk H) H). sorder.
      * intros [H| ->]; [sorder | exact Hlt].
  - split; [discriminate|]. intros k Hk. simpl. split; [|auto]. intros _.
    destruct (slt_total k cur) as [H|[H|H]]; auto.
    exfalso. pose proof (proj1 (upper_bound_None m cur) E k (Hlater k Hk H)). sorder.
Qed.

Lemma remaining_size it : (remaining m0 it <= size m0)%nat.
Proof.
  destruct it as [cur|]; simpl; [|lia].
  etransitivity; [apply length_filter|]. unfold keys.
  change (length (elements (dom m0))) with (size (dom m0)). rewrite size_dom. lia.
Qed.

Lemma remaining_next cur it' :
  is_Some (m0 !! cur) -> (forall c', it' = Some c' -> slt cur c') ->
  (remaining m0 it' < remaining m0 (Some cur))%nat.
Proof.
  intros Hcur Hit.
  assert (Hin : cur ∈ filter (sle cur) (keys m0)).
  { apply list_elem_of_filter. split; [sorder | apply elem_of_keys, Hcur]. }
  destruct it' as [c'|]; simpl.
  - specialize (Hit c' eq_refl).
    rewrite <- (list_filter_filter_l (sle c') (sle cur)) by (intros x Hx; sorder).
    apply (length_filter_lt _ _ cur); [exact Hin | intros H; sorder].
  - destruct (filter (sle cur) (keys m0)); [inversion Hin | simpl; lia].
Qed.

Lemma ends_before_iff (o : TabletMetaNode) (k : string) :
  negb (empty (node_end o)) && String.leb (node_end o) k = true
  <-> node_end o <> "" /\ sle (node_end o) k.
Proof.
  rewrite andb_true_iff, negb_true_iff, empty_false. reflexivity.
Qed.

Lemma not_sticks_out_iff (o : TabletMetaNode) :
  empty ne || (negb (empty (node_end o)) && String.leb (node_end o) ne) = true
  <-> ~ sticks_out ne o.
Proof.
  unfold sticks_out. rewrite orb_true_iff, ends_before_iff, empty_true. split.
  - intros [H|[H1 H2]] [Hne [S|S]]; try contradiction. sorder.
  - intros H. destruct (decide (ne = "")) as [|Hne]; [auto|]. right.
    destruct (decide (node_end o = "")) as [He|He]; [exfalso; apply H; auto|].
    split; [exact He|].
    destruct (slt_total ne (node_end o)) as [S|[S|S]]; [exfalso; apply H; auto| |];
      sorder.
Qed.

Lemma starts_within_iff (k : string) :
  empty ne || String.ltb k ne = true <-> ~ (ne <> "" /\ sle ne k).
Proof.
  rewrite orb_true_iff, empty_true. split.
  - intros [H|H] [Hne S]; [contradiction | sorder].
  - intros H. destruct (decide (ne = "")) as [|Hne]; [auto|]. right.
    destruct (slt_total k ne) as [S|[S|S]]; [exact S| |]; exfalso; apply H;
      split; auto; sorder.
Qed.

(** The loop ends within its fuel, with every old node cut. *)
Lemma update_overlapped_cut fuel : forall m it,
  cut_upto it ns ne m0 m ->
  (forall cur, it = Some cur -> is_Some (m0 !! cur)) ->
  (remaining m0 it < fuel)%nat ->
  exists m', update_overlapped fuel ns ne m it = Some m'
             /\ cut_upto None ns ne m0 m'.
Proof.
  induction fuel as [|fuel IH]; intros m it Hcut Hit Hfuel; [lia|].
  destruct it as [cur|]; simpl; [|eauto].
  destruct (Hit cur eq_refl) as [o Ho].
  rewrite (cut_upto_at_cur _ _ _ Ho Hcut).
  destruct (cut_upto_next _ _ _ Ho Hcut) as [Hnext Hbef].
  pose proof (well_formed_start _ _ _ Hwf Ho) as Hstart.
  pose proof (well_formed_nonempty _ _ _ Hwf Ho) as Hnonempty.
  pose proof (cut_upto_at_cur _ _ _ Ho Hcut) as Hm.
  assert (Hfuel' : (remaining m0 (next_it m cur) < fuel)%nat).
  { pose proof (remaining_next cur (next_it m cur) (ex_intro _ o Ho)
                  (fun c' H => proj2 (Hnext c' H))). lia. }
  assert (Hit' : forall c', next_it m cur = Some c' -> is_Some (m0 !! c'))
    by (intros c' H; apply (Hnext c' H)).
  rewrite Hstart.
  destruct (String.ltb cur ns) eqn:Hlt.
  - destruct (negb (empty (node_end o)) && String.leb (node_end o) ns) eqn:Hc2.
    { (* the old node ends before the new range *)
      apply ends_before_iff in Hc2. apply IH; [|exact Hit'|exact Hfuel'].
      assert (Ha : apart ns ne o) by (left; exact Hc2).
      apply (cut_upto_step (next_it m cur) cur o m); auto.
      - rewrite decide_True by exact Ha. exact Hm.
      - intros Hna. contradiction. }
    assert (Ha : ~ apart ns ne o).
    { intros [H|[Hne H]].
      - apply ends_before_iff in H. congruence.
      - rewrite Hstart in H. destruct Hvalid as [|Hv]; [contradiction | sorder]. }
    destruct (empty ne || (negb (empty (node_end o)) && String.leb (node_end o) ne))
      eqn:Hc3.
    + (* shrunk to end at the new start *)
      apply not_sticks_out_iff in Hc3. apply IH; [|exact Hit'|exact Hfuel'].
      apply (cut_upto_step (next_it m cur) cur o m); auto.
      * rewrite lookup_alter_eq, Hm, decide_False, decide_True by assumption.
        reflexivity.
      * intros _ Hs. contradiction.
      * intros k Hk _. apply lookup_alter_ne. congruence.
    + (* split in two *)
      assert (Hs : sticks_out ne o).
      { destruct (decide (sticks_out ne o)) as [|Hn]; [assumption|].
        apply not_sticks_out_iff in Hn. congruence. }
      assert (Hne : ne <> cur).
      { intros <-. destruct Hvalid as [Hv|Hv]; [destruct Hs; contradiction | sorder]. }
      apply IH; [|exact Hit'|exact Hfuel'].
      apply (cut_upto_step (next_it m cur) cur o m); auto.
      * rewrite lookup_alter_eq, lookup_insert_ne, Hm, decide_False, decide_True
          by assumption. reflexivity.
      * intros _ _. rewrite lookup_alter_ne, lookup_insert_eq by congruence.
        reflexivity.
      * intros k Hk Hn. rewrite lookup_alter_ne by congruence.
        apply lookup_insert_ne. intros <-. apply Hn. auto.
  - apply ltb_false in Hlt.
    destruct (empty ne || String.ltb cur ne) eqn:Hc4.
    + apply starts_within_iff in Hc4.
      assert (Ha : ~ apart ns ne o).
      { intros [[He H]|H]; [|rewrite Hstart in H; contradiction].
        destruct Hnonempty as [|Hn]; [contradiction | sorder]. }
      assert (Hnl : ~ slt cur ns) by (intros H; sorder).
      destruct (empty ne || (negb (empty (node_end o)) && String.leb (node_end o) ne))
        eqn:Hc3.
      * (* covered by the new range *)
        apply not_sticks_out_iff in Hc3. apply IH; [|exact Hit'|exact Hfuel'].
        apply (cut_upto_step (next_it m cur) cur o m); auto.
        -- rewrite lookup_delete_eq, decide_False, decide_False by assumption.
           reflexivity.
        -- intros _ Hs. contradiction.
        -- intros k Hk _. apply lookup_delete_ne. congruence.
      * (* shrunk to start at the new end *)
        assert (Hs : sticks_out ne o).
        { destruct (decide (sticks_out ne o)) as [|Hn]; [assumption|].
          apply not_sticks_out_iff in Hn. congruence. }
        assert (Hne : ne <> cur).
        { intros <-. apply Hc4. split; [apply Hs | sorder]. }
        apply IH; [|exact Hit'|exact Hfuel'].
        apply (cut_upto_step (next_it m cur) cur o m); auto.
        -- rewrite lookup_delete_eq, decide_False, decide_False by assumption.
           reflexivity.
        -- intros _ _. rewrite lookup_delete_ne, lookup_insert_eq by congruence.
           reflexivity.
        -- intros k Hk Hn. rewrite lookup_delete_ne by congruence.
           apply lookup_insert_ne. intros <-. apply Hn. auto.
    + (* the old node starts after the new range: so do all that follow *)
      assert (Hc4' : ne <> "" /\ sle ne cur).
      { destruct (decide (ne <> "" /\ sle ne cur)) as [|Hn]; [assumption|].
        apply starts_within_iff in Hn. congruence. }
      destruct Hc4' as [Hne Hle].
      exists m. split; [reflexivity|].
      assert (Hrest : forall k o', m0 !! k = Some o' -> ~ slt k cur -> apart ns ne o').
      { intros k o' Hk Hnb. right. split; [exact Hne|].
        rewrite (well_formed_start _ _ _ Hwf Hk).
        destruct (slt_total k cur) as [H|[H|H]]; [contradiction| |]; sorder. }
      intros k n'. rewrite (Hcut k n'). simpl. split.
      * intros [(o' & Ho' & Hc & ->)|[(o' & Ho' & Hb & Ha & Hl & ->)
                                     |(-> & k0 & o0 & H0 & Hb0 & Ha0 & Hs0 & ->)]].
        -- left. exists o'. split; [exact Ho'|]. split; [|reflexivity]. right.
           destruct Hc as [Hc|Hc]; [exact (Hrest _ _ Ho' Hc) | exact Hc].
        -- right. left. exists o'. auto.
        -- right. right. split; [reflexivity|]. exists k0, o0. auto.
      * intros [(o' & Ho' & Hc & ->)|[(o' & Ho' & Hb & Ha & Hl & ->)
                                     |(-> & k0 & o0 & H0 & Hb0 & Ha0 & Hs0 & ->)]].
        -- left. exists o'. split; [exact Ho'|]. split; [|reflexivity]. right.
           destruct Hc as [Hc|Hc]; [contradiction | exact Hc].
        -- right. left. exists o'. split; [exact Ho'|]. split; [|auto].
           destruct (decide (slt k cur)) as [|Hnb]; [assumption|].
           exfalso. exact (Ha (Hrest _ _ Ho' Hnb)).
        -- right. right. split; [reflexivity|]. exists k0, o0. split; [exact H0|].
           split; [|auto].
           destruct (decide (slt k0 cur)) as [|Hnb]; [assumption|].
           exfalso. exact (Ha0 (Hrest _ _ H0 Hnb)).
Qed.

End CutLoop.

#[global] Instance before_dec it k : Decision (before it k).
Proof. destruct it; simpl; apply _. Defined.

Section Replace.
Variables (m0 : gmap string TabletMetaNode) (ns ne : string).
Hypothesis Hwf : well_formed m0.
Hypothesis Hvalid : ne = "" \/ slt ns ne.

(** Where the loop starts: at an old entry, every entry before which ends
    before the new range. *)
Lemma first_overlapped_spec :
  (forall cur, first_overlapped m0 ns = Some cur -> is_Some (m0 !! cur)) /\
  (forall k o, m0 !! k = Some o -> before (first_overlapped m0 ns) k ->
               apart ns ne o).
Proof.
  unfold first_overlapped.
  destruct (negb (bool_decide (size m0 = 0%nat))
            && negb (it_eqb (upper_bound m0 ns) (begin_it m0))) eqn:Hc.
  - apply andb_true_iff in Hc as [_ Hb]. apply negb_true_iff in Hb.
    destruct (prev_it m0 (upper_bound m0 ns)) as [p|] eqn:Hp.
    + apply prev_upper_bound_Some in Hp as (Hin & Hle & Hmax). split.
      * intros cur [= <-]. exact Hin.
      * intros k o Hk Hlt. simpl in Hlt. destruct Hin as [op Hop].
        destruct (well_formed_ordered _ _ _ _ _ Hwf Hk Hop Hlt) as [E1 E2].
        left. split; [exact E1 | sorder].
    + exfalso. pose proof (proj1 (prev_upper_bound_None _ _) Hp) as Hall.
      apply upper_bound_is_begin in Hall. congruence.
  - destruct (upper_bound m0 ns) as [u|] eqn:Hu.
    + pose proof (proj1 (upper_bound_Some _ _ _) Hu) as (Hin & Hlt & Hmin).
      split; [intros cur [= <-]; exact Hin|].
      intros k o Hk Hb. simpl in Hb. exfalso.
      apply andb_false_iff in Hc as [Hc|Hc].
      * apply negb_false_iff, bool_decide_eq_true in Hc.
        apply map_size_empty_iff in Hc. subst m0. rewrite lookup_empty in Hk.
        discriminate.
      * apply negb_false_iff in Hc. rewrite <- Hu in Hc.
        pose proof (proj1 (upper_bound_is_begin _ _) Hc) as Hall.
        pose proof (Hall k (ex_intro _ o Hk)) as Hk'.
        pose proof (Hmin k (ex_intro _ o Hk) Hk'). sorder.
    + split; [discriminate|]. intros k o Hk _. exfalso.
      apply andb_false_iff in Hc as [Hc|Hc].
      * apply negb_false_iff, bool_decide_eq_true in Hc.
        apply map_size_empty_iff in Hc. subst m0. rewrite lookup_empty in Hk.
        discriminate.
      * apply negb_false_iff in Hc. destruct (begin_it m0) as [b|] eqn:Hb;
          [discriminate Hc|].
        apply begin_it_None in Hb. subst m0. rewrite lookup_empty in Hk.
        discriminate.
Qed.

Lemma cut_upto_first : cut_upto (first_overlapped m0 ns) ns ne m0 m0.
Proof.
  destruct first_overlapped_spec as [_ Hb]. intros k n'. split.
  - intros Hk. left. exists n'. split; [exact Hk|]. split; [|reflexivity].
    destruct (decide (before (first_overlapped m0 ns) k)) as [H|H]; eauto.
  - intros [(o' & Ho' & Hc & ->)|[(o' & Ho' & Hbf & Ha & _)
                                 |(-> & k0 & o0 & H0 & Hb0 & Ha0 & _)]].
    + exact Ho'.
    + exfalso. exact (Ha (Hb _ _ Ho' Hbf)).
    + exfalso. exact (Ha0 (Hb _ _ H0 Hb0)).
Qed.

(** The cache after [UpdateTabletMetaList]: the loop ends, and what it
    leaves with the new node put in is the old cache cut around it. *)
Lemma insert_meta_node_replaced new_meta now :
  KeyRange.key_start (TabletMeta.key_range new_meta) = ns ->
  KeyRange.key_end (TabletMeta.key_range new_meta) = ne ->
  exists m', insert_meta_node new_meta now m0 = Some m'
    /\ replaced {| meta := new_meta; update_time := now; status := NORMAL |} m0 m'.
Proof.
  intros Hns Hne. unfold insert_meta_node. rewrite Hns, Hne.
  destruct (update_overlapped_cut m0 ns ne Hwf Hvalid (S (S (size m0))) m0
              (first_overlapped m0 ns) cut_upto_first
              (proj1 first_overlapped_spec)) as (m1 & Hrun & Hcut).
  { pose proof (remaining_size m0 (first_overlapped m0 ns)). lia. }
  rewrite Hrun. eexists. split; [reflexivity|].
  set (new_node := {| meta := new_meta; update_time := now; status := NORMAL |}).
  assert (Hs' : node_start new_node = ns) by exact Hns.
  assert (He' : node_end new_node = ne) by exact Hne.
  unfold replaced. rewrite Hs', He'. clearbody new_node.
  intros k n'. destruct (decide (k = ns)) as [->|Hk].
  - rewrite lookup_insert_eq. split.
    + intros [= <-]. left. auto.
    + intros [[_ ->]|[(o & Ho & Ha & ->)|[(o & Ho & Ha & Hl & ->)
                                        |(-> & k0 & o0 & H0 & Ha0 & Hs0 & ->)]]].
      * reflexivity.
      * exfalso. pose proof (well_formed_start _ _ _ Hwf Ho) as Hs.
        pose proof (well_formed_nonempty _ _ _ Hwf Ho) as Hn.
        destruct Ha as [[E1 E2]|[E1 E2]].
        -- destruct Hn as [|Hn]; [contradiction | sorder].
        -- rewrite Hs in E2. destruct Hvalid as [|Hv]; [contradiction | sorder].
      * exfalso. rewrite (well_formed_start _ _ _ Hwf Ho) in Hl.
        exact (slt_irrefl _ Hl).
      * exfalso. destruct Hs0 as [E _].
        destruct Hvalid as [|Hv]; [contradiction | exact (slt_irrefl _ Hv)].
  - rewrite lookup_insert_ne by congruence. rewrite (Hcut k n'). simpl. split.
    + intros [(o & Ho & Hc & ->)|[(o & Ho & _ & Ha & Hl & ->)
                                 |(-> & k0 & o0 & H0 & _ & Ha0 & Hs0 & ->)]].
      * right. left. exists o. destruct Hc as [Hc|Hc]; [exfalso; auto | auto].
      * right. right. left. exists o. auto.
      * right. right. right. split; [reflexivity|]. exists k0, o0. auto.
    + intros [[-> _]|[(o & Ho & Ha & ->)|[(o & Ho & Ha & Hl & ->)
                                        |(-> & k0 & o0 & H0 & Ha0 & Hs0 & ->)]]].
      * contradiction.
      * left. exists o. auto.
      * right. left. exists o. auto.
      * right. right. split; [reflexivity|]. exists k0, o0. auto.
Qed.

End Replace.

Section ReplacedWellFormed.
Variables (m0 m' : gmap string TabletMetaNode) (new_node : TabletMetaNode).
Hypothesis Hwf : well_formed m0.
Hypothesis Hvalid :
  node_end new_node = "" \/ slt (node_start new_node) (node_end new_node).
Hypothesis Hrep : replaced new_node m0 m'.

(** Every node of the new cache but the new one is a piece of an old one,
    outside the new range: the piece under the old key or the copy at the
    new end. *)
Lemma replaced_origin k n' :
  m' !! k = Some n' ->
  (k = node_start new_node /\ n' = new_node) \/
  exists k0 o, m0 !! k0 = Some o /\ node_start n' = k /\
    (node_end n' = "" \/ slt k (node_end n')) /\
    (forall row, covers n' row ->
       covers o row /\ ~ in_range (node_start new_node) (node_end new_node) row) /\
    ((k = k0 /\
      (~ apart (node_start new_node) (node_end new_node) o ->
       forall row, covers n' row -> slt row (node_start new_node))) \/
     (k = node_end new_node /\ node_end new_node <> "" /\
      ~ apart (node_start new_node) (node_end new_node) o /\
      forall row, covers n' row -> sle (node_end new_node) row)).
Proof.
  set (ns := node_start new_node) in *. set (ne := node_end new_node) in *.
  intros Hk. apply Hrep in Hk. fold ns ne in Hk.
  destruct Hk as [[-> ->]|[(o & Ho & Ha & ->)|[(o & Ho & Ha & Hl & ->)
                                           |(-> & k0 & o0 & H0 & Ha0 & Hs0 & ->)]]].
  - left. auto.
  - right. exists k, o. split; [exact Ho|].
    pose proof (well_formed_start _ _ _ Hwf Ho) as Hs.
    split; [exact Hs|]. split; [exact (well_formed_nonempty _ _ _ Hwf Ho)|].
    split.
    + intros row Hc. split; [exact Hc|]. intros [R1 R2].
      destruct Hc as [C1 C2]. rewrite Hs in C1.
      destruct Ha as [[E1 E2]|[E1 E2]].
      * destruct C2 as [|C2]; [contradiction | sorder].
      * rewrite Hs in E2. destruct R2 as [|R2]; [contradiction | sorder].
    + left. split; [reflexivity|]. intros Hna. contradiction.
  - right. exists k, o. split; [exact Ho|].
    pose proof (well_formed_start _ _ _ Hwf Ho) as Hs. rewrite Hs in Hl.
    assert (Hns : ns <> "") by (intros E; rewrite E in Hl; exact (not_slt_empty_r _ Hl)).
    assert (Hend : node_end o = "" \/ slt ns (node_end o)).
    { destruct (decide (node_end o = "")) as [|He]; [auto|]. right.
      destruct (slt_total ns (node_end o)) as [H|[H|H]]; [exact H| |];
        exfalso; apply Ha; left; split; auto; sorder. }
    assert (Hrow : forall row, covers (set_node_end ns o) row ->
                               sle k row /\ slt row ns).
    { intros row [C1 C2]. change (node_start (set_node_end ns o)) with (node_start o) in C1.
      change (node_end (set_node_end ns o)) with ns in C2. rewrite Hs in C1.
      destruct C2 as [|C2]; [contradiction | auto]. }
    split; [exact Hs|]. split; [right; exact Hl|]. split.
    + intros row Hc. destruct (Hrow row Hc) as [R1 R2]. split.
      * split; [rewrite Hs; exact R1|].
        destruct Hend as [H|H]; [left; exact H | right; sorder].
      * intros [R3 _]. sorder.
    + left. split; [reflexivity|]. intros _ row Hc. apply (Hrow row Hc).
  - right. exists k0, o0. split; [exact H0|].
    pose proof (well_formed_start _ _ _ Hwf H0) as Hs.
    destruct Hs0 as [Hne Hend].
    pose proof (not_apart_start m0 ns ne Hwf k0 o0 H0 Ha0 Hne) as Hlt.
    assert (Hrow : forall row, covers (set_node_start ne o0) row ->
                               sle ne row /\ (node_end o0 = "" \/ slt row (node_end o0))).
    { intros row [C1 C2]. auto. }
    split; [reflexivity|]. split; [exact Hend|]. split.
    + intros row Hc. destruct (Hrow row Hc) as [R1 R2]. split.
      * split; [rewrite Hs; sorder | exact R2].
      * intros [_ [R3|R3]]; [contradiction | sorder].
    + right. split; [reflexivity|]. split; [exact Hne|]. split; [exact Ha0|].
      intros row Hc. apply (Hrow row Hc).
Qed.

(** The cache stays well formed: the ranges stay apart. *)
Lemma replaced_well_formed : well_formed m'.
Proof.
  set (ns := node_start new_node) in *. set (ne := node_end new_node) in *.
  split; [|split].
  - intros k n Hk. destruct (replaced_origin k n Hk) as [[-> ->]|(k0 & o & _ & Hs & _)];
      [reflexivity | exact Hs].
  - intros k n Hk.
    destruct (replaced_origin k n Hk) as [[-> ->]|(k0 & o & _ & Hs & Hn & _)];
      [exact Hvalid | rewrite Hs; exact Hn].
  - intros k1 n1 k2 n2 row H1 H2 Hne C1 C2.
    destruct (replaced_origin k1 n1 H1) as [[-> ->]|(a & o1 & Ho1 & _ & _ & Hc1 & T1)];
      destruct (replaced_origin k2 n2 H2) as [[-> ->]|(b & o2 & Ho2 & _ & _ & Hc2 & T2)].
    + contradiction.
    + exact (proj2 (Hc2 row C2) C1).
    + exact (proj2 (Hc1 row C1) C2).
    + destruct (decide (a = b)) as [->|Hab].
      * rewrite Ho1 in Ho2. injection Ho2 as <-.
        destruct T1 as [[-> L1]|(-> & Hn1 & Ha1 & R1)],
                 T2 as [[-> L2]|(-> & Hn2 & Ha2 & R2)]; try contradiction.
        -- specialize (L1 Ha2 row C1). specialize (R2 row C2).
           fold ns ne in Hvalid, L1, R2.
           destruct Hvalid as [|Hv]; [contradiction | sorder].
        -- specialize (L2 Ha1 row C2). specialize (R1 row C1).
           fold ns ne in Hvalid, L2, R1.
           destruct Hvalid as [|Hv]; [contradiction | sorder].
      * destruct Hwf as (_ & _ & Hd).
        exact (Hd a o1 b o2 row Ho1 Ho2 Hab (proj1 (Hc1 row C1)) (proj1 (Hc2 row C2))).
Qed.

End ReplacedWellFormed.

(** ** The pending tasks: WakeUpPendingRequest *)

(** *** What the pending lists become *)

Lemma wake_task_pending server ts acc id :
  pending_task_id_list_ (fst (fst (wake_task server ts acc id)))
  = pending_task_id_list_ (fst (fst acc)).
Proof.
  destruct acc as [[st ml] rl]. unfold wake_task.
  destruct (task_pool_ st !! id) as [task|]; [|reflexivity].
  destruct (task_type task); reflexivity.
Qed.

Lemma wake_tasks_pending server ts ids : forall acc,
  pending_task_id_list_ (fst (fst (foldl (wake_task server ts) acc ids)))
  = pending_task_id_list_ (fst (fst acc)).
Proof.
  induction ids as [|id ids IH]; intros acc; [reflexivity|].
  simpl. rewrite IH. apply wake_task_pending.
Qed.

Lemma wake_key_pending server ts acc k :
  pending_task_id_list_ (fst (fst (wake_key server ts acc k)))
  = delete k (pending_task_id_list_ (fst (fst acc))).
Proof.
  unfold wake_key.
  pose proof (wake_tasks_pending server ts
                (default [] (pending_task_id_list_ (fst (fst acc)) !! k)) acc) as H.
  destruct (foldl _ acc _) as [[st ml] rl]. simpl in *. rewrite H. reflexivity.
Qed.

Lemma wake_keys_pending server ts l : forall acc,
  pending_task_id_list_ (fst (fst (foldl (wake_key server ts) acc l)))
  = foldl (fun p k => delete k p) (pending_task_id_list_ (fst (fst acc))) l.
Proof.
  induction l as [|k l IH]; intros acc; [reflexivity|].
  simpl. rewrite IH, wake_key_pending. reflexivity.
Qed.

Lemma lookup_foldl_delete {V} (l : list string) : forall (p : gmap string V) x,
  foldl (fun p k => delete k p) p l !! x = if decide (x ∈ l) then None else p !! x.
Proof.
  induction l as [|k l IH]; intros p x; simpl.
  - destruct (decide (x ∈ [])) as [H|H]; [inversion H | reflexivity].
  - rewrite IH.
    destruct (decide (x ∈ l)) as [Hin|Hin], (decide (x ∈ k :: l)) as [Hin'|Hin'];
      try reflexivity.
    + exfalso. apply Hin'. right. exact Hin.
    + apply elem_of_cons in Hin' as [->|Hin']; [|contradiction].
      apply lookup_delete_eq.
    + apply lookup_delete_ne. intros ->. apply Hin'. left.
Qed.

Lemma pack_mutation_pending server flush last st mu :
  pending_task_id_list_ (pack_mutation server flush last st mu)
  = pending_task_id_list_ st
  /\ tablet_meta_list_ (pack_mutation server flush last st mu) = tablet_meta_list_ st.
Proof.
  unfold pack_mutation, find_or_create_mutation_batch.
  destruct (mutation_batch_map_ st !! server); simpl;
    destruct (mutation_commit_due _ _ _ _); auto.
Qed.

Lemma PackMutations_pending server mu_list flush : forall st,
  pending_task_id_list_ (PackMutations server mu_list flush st)
  = pending_task_id_list_ st
  /\ tablet_meta_list_ (PackMutations server mu_list flush st) = tablet_meta_list_ st.
Proof.
  induction mu_list as [|mu rest IH]; intros st; [auto|].
  simpl. destruct (IH (pack_mutation server flush
                         match rest with [] => true | _ => false end st mu)) as [H1 H2].
  rewrite H1, H2. apply pack_mutation_pending.
Qed.

Lemma PackReaders_pending server reader_list st :
  pending_task_id_list_ (PackReaders server reader_list st)
  = pending_task_id_list_ st
  /\ tablet_meta_list_ (PackReaders server reader_list st) = tablet_meta_list_ st.
Proof.
  unfold PackReaders, find_or_create_reader_batch.
  destruct (reader_batch_map_ st !! server); simpl;
    destruct (_ <=? _); auto.
Qed.

Lemma wake_task_cache server ts acc id :
  tablet_meta_list_ (fst (fst (wake_task server ts acc id)))
  = tablet_meta_list_ (fst (fst acc)).
Proof.
  destruct acc as [[st ml] rl]. unfold wake_task.
  destruct (task_pool_ st !! id) as [task|]; [|reflexivity].
  destruct (task_type task); reflexivity.
Qed.

Lemma wake_key_cache server ts acc k :
  tablet_meta_list_ (fst (fst (wake_key server ts acc k)))
  = tablet_meta_list_ (fst (fst acc)).
Proof.
  unfold wake_key.
  assert (H : forall ids a,
    tablet_meta_list_ (fst (fst (foldl (wake_task server ts) a ids)))
    = tablet_meta_list_ (fst (fst a))).
  { induction ids as [|id ids IH]; intros a; [reflexivity|].
    simpl. rewrite IH. apply wake_task_cache. }
  specialize (H (default [] (pending_task_id_list_ (fst (fst acc)) !! k)) acc).
  destruct (foldl _ acc _) as [[st ml] rl]. simpl in *. exact H.
Qed.

Lemma wake_keys_cache server ts l : forall acc,
  tablet_meta_list_ (fst (fst (foldl (wake_key server ts) acc l)))
  = tablet_meta_list_ (fst (fst acc)).
Proof.
  induction l as [|k l IH]; intros acc; [reflexivity|].
  simpl. rewrite IH. apply wake_key_cache.
Qed.

(** [WakeUpPendingRequest] leaves the cache alone. *)
Lemma WakeUpPendingRequest_cache node st :
  tablet_meta_list_ (WakeUpPendingRequest node st) = tablet_meta_list_ st.
Proof.
  unfold WakeUpPendingRequest.
  pose proof (wake_keys_cache (TabletMeta.server_addr (meta node)) (update_time node)
                (pending_keys_in (pending_task_id_list_ st) (node_start node)
                   (node_end node)) (st, [], [])) as H.
  destruct (foldl _ _ _) as [[st1 ml] rl]. simpl in H.
  destruct rl as [|r rl].
  - destruct ml as [|mu ml]; [exact H|].
    rewrite (proj2 (PackMutations_pending _ _ _ _)). exact H.
  - rewrite (proj2 (PackReaders_pending _ _ _)).
    destruct ml as [|mu ml]; [exact H|].
    rewrite (proj2 (PackMutations_pending _ _ _ _)). exact H.
Qed.

(** The pending lists of the rows of the node's range are gone, the
    others are as they were. *)
Lemma WakeUpPendingRequest_pending node st row :
  pending_task_id_list_ (WakeUpPendingRequest node st) !! row
  = if decide (in_range (node_start node) (node_end node) row) then None
    else pending_task_id_list_ st !! row.
Proof.
  assert (Hfold : pending_task_id_list_ (WakeUpPendingRequest node st)
                  = foldl (fun p k => delete k p) (pending_task_id_list_ st)
                      (pending_keys_in (pending_task_id_list_ st) (node_start node)
                         (node_end node))).
  { unfold WakeUpPendingRequest.
    pose proof (wake_keys_pending (TabletMeta.server_addr (meta node)) (update_time node)
                  (pending_keys_in (pending_task_id_list_ st) (node_start node)
                     (node_end node)) (st, [], [])) as H.
    destruct (foldl _ _ _) as [[st1 ml] rl]. simpl in H.
    destruct rl as [|r rl].
    - destruct ml as [|mu ml]; [exact H|].
      rewrite (proj1 (PackMutations_pending _ _ _ _)). exact H.
    - rewrite (proj1 (PackReaders_pending _ _ _)).
      destruct ml as [|mu ml]; [exact H|].
      rewrite (proj1 (PackMutations_pending _ _ _ _)). exact H. }
  rewrite Hfold, lookup_foldl_delete.
  destruct (decide (row ∈ pending_keys_in _ _ _)) as [Hin|Hin];
    destruct (decide (in_range _ _ row)) as [Hr|Hr]; try reflexivity.
  - exfalso. apply elem_of_pending_keys_in in Hin as (_ & H1 & H2).
    apply Hr. split; assumption.
  - destruct (pending_task_id_list_ st !! row) as [ids|] eqn:E; [|reflexivity].
    exfalso. apply Hin, elem_of_pending_keys_in. destruct Hr as [H1 H2].
    rewrite E. eauto.
Qed.

(** *** Where the pending tasks go *)

Lemma grows_refl acc : grows acc acc.
Proof.
  split; [|split; [|split]]; try (exists []; symmetry; apply app_nil_r). reflexivity.
Qed.

Lemma grows_trans a b c : grows a b -> grows b c -> grows a c.
Proof.
  intros ([n1 L1] & [m1 M1] & [r1 R1] & P1) ([n2 L2] & [m2 M2] & [r2 R2] & P2).
  split; [|split; [|split]].
  - exists (n1 ++ n2)%list. rewrite L2, L1. symmetry. apply app_assoc.
  - exists (m1 ++ m2)%list. rewrite M2, M1. symmetry. apply app_assoc.
  - exists (r1 ++ r2)%list. rewrite R2, R1. symmetry. apply app_assoc.
  - intros id. rewrite P2. apply P1.
Qed.

Lemma task_sig_SetMetaTimeStamp ts task :
  task_sig (SetMetaTimeStamp ts task) = task_sig task.
Proof. reflexivity. Qed.

Lemma wake_task_grows server ts acc id : grows acc (wake_task server ts acc id).
Proof.
  destruct acc as [[st ml] rl]. unfold wake_task.
  destruct (task_pool_ st !! id) as [task|] eqn:E; [|apply grows_refl].
  assert (Hpool : forall id', task_sig <$> <[id := SetMetaTimeStamp ts task]> (task_pool_ st) !! id'
                              = task_sig <$> task_pool_ st !! id').
  { intros id'. destruct (decide (id' = id)) as [->|Hne].
    - rewrite lookup_insert_eq, E. reflexivity.
    - rewrite lookup_insert_ne by congruence. reflexivity. }
  destruct (task_type task); (split; [|split; [|split]]); simpl;
    try exact Hpool; try (exists []; symmetry; apply app_nil_r); eauto.
Qed.

Lemma wake_tasks_grows server ts ids : forall acc,
  grows acc (foldl (wake_task server ts) acc ids).
Proof.
  induction ids as [|id ids IH]; intros acc; [apply grows_refl|].
  simpl. eapply grows_trans; [apply wake_task_grows | apply IH].
Qed.

Lemma wake_key_grows server ts acc k : grows acc (wake_key server ts acc k).
Proof.
  unfold wake_key.
  pose proof (wake_tasks_grows server ts
                (default [] (pending_task_id_list_ (fst (fst acc)) !! k)) acc) as H.
  destruct (foldl _ acc _) as [[st ml] rl]. exact H.
Qed.

Lemma wake_keys_grows server ts l : forall acc,
  grows acc (foldl (wake_key server ts) acc l).
Proof.
  induction l as [|k l IH]; intros acc; [apply grows_refl|].
  simpl. eapply grows_trans; [apply wake_key_grows | apply IH].
Qed.

Lemma collected_grows_r server ty id a b c :
  collected server ty id a b -> grows b c -> collected server ty id a c.
Proof.
  intros H ([n L] & [m M] & [r R] & _). destruct ty; simpl in *.
  - rewrite R, fmap_app. apply elem_of_app. auto.
  - rewrite M, fmap_app. apply elem_of_app. auto.
  - destruct H as (new & Hl & Hin). exists (new ++ n)%list. split.
    + rewrite L, Hl. symmetry. apply app_assoc.
    + apply elem_of_app. auto.
Qed.

Lemma collected_grows_l server ty id a b c :
  grows a b -> collected server ty id b c -> collected server ty id a c.
Proof.
  intros ([n L] & _) H. destruct ty; simpl in *; try exact H.
  destruct H as (new & Hl & Hin). exists (n ++ new)%list. split.
  - rewrite Hl, L. symmetry. apply app_assoc.
  - apply elem_of_app. auto.
Qed.

(** A task the pool still has is taken up when its id comes by. *)
Lemma wake_task_collected server ts acc id task :
  task_pool_ (fst (fst acc)) !! id = Some task ->
  collected server (task_type task) (task_id task) acc (wake_task server ts acc id).
Proof.
  destruct acc as [[st ml] rl]. simpl. intros E. unfold wake_task. rewrite E.
  destruct (task_type task) eqn:Ety; simpl.
  - rewrite fmap_app. apply elem_of_app. right. simpl. left.
  - rewrite fmap_app. apply elem_of_app. right. simpl. left.
  - exists [EvCommitScan (task_id task) server]. split; [reflexivity | left].
Qed.

Lemma lookup_task_sig (pool pool' : gmap Z SdkTask) id task :
  task_sig <$> pool' !! id = task_sig <$> pool !! id ->
  pool !! id = Some task ->
  exists task', pool' !! id = Some task' /\ task_type task' = task_type task
                /\ task_id task' = task_id task.
Proof.
  intros H E. rewrite E in H. destruct (pool' !! id) as [task'|]; [|discriminate].
  simpl in H. injection H as H1 H2. eauto.
Qed.

Lemma wake_tasks_collected server ts ids id : forall acc task,
  id ∈ ids -> task_pool_ (fst (fst acc)) !! id = Some task ->
  collected server (task_type task) (task_id task) acc
    (foldl (wake_task server ts) acc ids).
Proof.
  induction ids as [|x ids IH]; intros acc task Hin E; [inversion Hin|].
  simpl. destruct (decide (x = id)) as [->|Hne].
  - eapply collected_grows_r; [apply wake_task_collected, E | apply wake_tasks_grows].
  - apply elem_of_cons in Hin as [->|Hin]; [contradiction|].
    pose proof (wake_task_grows server ts acc x) as Hg.
    destruct (lookup_task_sig _ _ id task (proj2 (proj2 (proj2 Hg)) id) E)
      as (task' & E' & Hty & Hid).
    apply (collected_grows_l _ _ _ _ _ _ Hg). rewrite <- Hty, <- Hid.
    apply IH; assumption.
Qed.

Lemma wake_key_collected server ts acc k ids id task :
  pending_task_id_list_ (fst (fst acc)) !! k = Some ids -> id ∈ ids ->
  task_pool_ (fst (fst acc)) !! id = Some task ->
  collected server (task_type task) (task_id task) acc (wake_key server ts acc k).
Proof.
  intros Hk Hin E. unfold wake_key. rewrite Hk. simpl.
  pose proof (wake_tasks_collected server ts ids id acc task Hin E) as H.
  destruct (foldl _ acc ids) as [[st ml] rl].
  destruct (task_type task); exact H.
Qed.

Lemma wake_keys_collected server ts l k ids id : forall acc task,
  k ∈ l -> pending_task_id_list_ (fst (fst acc)) !! k = Some ids -> id ∈ ids ->
  task_pool_ (fst (fst acc)) !! id = Some task ->
  collected server (task_type task) (task_id task) acc
    (foldl (wake_key server ts) acc l).
Proof.
  induction l as [|x l IH]; intros acc task Hk Hp Hin E; [inversion Hk|].
  simpl. destruct (decide (x = k)) as [->|Hne].
  - eapply collected_grows_r; [eapply wake_key_collected; eauto | apply wake_keys_grows].
  - apply elem_of_cons in Hk as [->|Hk]; [contradiction|].
    pose proof (wake_key_grows server ts acc x) as Hg.
    destruct (lookup_task_sig _ _ id task (proj2 (proj2 (proj2 Hg)) id) E)
      as (task' & E' & Hty & Hid).
    apply (collected_grows_l _ _ _ _ _ _ Hg). rewrite <- Hty, <- Hid.
    apply IH; try assumption.
    rewrite wake_key_pending, lookup_delete_ne by congruence. exact Hp.
Qed.

Lemma pack_mutation_batched server flush last st mu :
  mutation_batched server (task_id mu) st (pack_mutation server flush last st mu).
Proof.
  unfold mutation_batched, pack_mutation, find_or_create_mutation_batch.
  destruct (mutation_batch_map_ st !! server) as [b|] eqn:E; simpl;
    destruct (mutation_commit_due _ _ _ _); simpl.
  - eexists. split; [rewrite <- app_assoc; reflexivity|]. left.
    eexists _, _. split; [right; left|]. apply elem_of_app. right. left.
  - exists []. split; [symmetry; apply app_nil_r|]. right.
    eexists. rewrite lookup_insert_eq. split; [reflexivity|]. simpl.
    apply elem_of_app. right. left.
  - eexists. split; [rewrite <- !app_assoc; reflexivity|]. left.
    eexists _, _. split; [right; right; left|]. simpl. left.
  - eexists. split; [reflexivity|]. right.
    eexists. rewrite lookup_insert_eq. split; [reflexivity|]. simpl. left.
Qed.

Lemma quiet_log st st' : quiet st st' -> exists new, log st' = (log st ++ new)%list.
Proof. intros (_ & _ & _ & new & H & _). eauto. Qed.

Lemma pack_mutation_batched_keep server flush last st0 st mu id :
  mutation_batched server id st0 st ->
  mutation_batched server id st0 (pack_mutation server flush last st mu).
Proof.
  intros (new & Hl & [(b & ids & Hin & Hid)|(b & Hb & Hid)]).
  - destruct (quiet_log _ _ (quiet_pack_mutation server flush last st mu)) as [new' Hl'].
    exists (new ++ new')%list. split; [rewrite Hl', Hl; symmetry; apply app_assoc|].
    left. exists b, ids. split; [apply elem_of_app; auto | exact Hid].
  - unfold pack_mutation, find_or_create_mutation_batch. rewrite Hb. simpl.
    destruct (mutation_commit_due _ _ _ _); simpl.
    + eexists. split; [simpl; rewrite Hl, <- !app_assoc; reflexivity|]. left.
      eexists _, _. split; [apply elem_of_app; right; right; left|].
      apply elem_of_app. auto.
    + exists new. split; [exact Hl|]. right. simpl.
      eexists. rewrite lookup_insert_eq. split; [reflexivity|]. simpl.
      apply elem_of_app. auto.
Qed.

Lemma PackMutations_batched_keep server mu_list flush st0 id : forall st,
  mutation_batched server id st0 st ->
  mutation_batched server id st0 (PackMutations server mu_list flush st).
Proof.
  induction mu_list as [|mu rest IH]; intros st H; [exact H|].
  simpl. apply IH, pack_mutation_batched_keep, H.
Qed.

(** Every mutation handed to [PackMutations] ends up in a batch for the
    server, committed or stored. *)
Lemma PackMutations_batched server mu_list flush mu : forall st,
  mu ∈ mu_list ->
  mutation_batched server (task_id mu) st (PackMutations server mu_list flush st).
Proof.
  induction mu_list as [|x rest IH]; intros st Hin; [inversion Hin|].
  simpl. apply elem_of_cons in Hin as [->|Hin].
  - apply PackMutations_batched_keep, pack_mutation_batched.
  - destruct (quiet_log _ _ (quiet_pack_mutation server flush
                               match rest with [] => true | _ => false end st x))
      as [pre Hpre].
    destruct (IH (pack_mutation server flush
                    match rest with [] => true | _ => false end st x) Hin)
      as (new & Hl & H).
    exists (pre ++ new)%list. split; [rewrite Hl, Hpre; symmetry; apply app_assoc|].
    destruct H as [(b & ids & Hev & Hid)|H]; [|right; exact H].
    left. exists b, ids. split; [apply elem_of_app; auto | exact Hid].
Qed.

(** Every read handed to [PackReaders] ends up in a batch for the server,
    committed or stored. *)
Lemma PackReaders_batched server reader_list st id :
  id ∈ task_id <$> reader_list ->
  reader_batched server id st (PackReaders server reader_list st).
Proof.
  intros Hin. unfold reader_batched, PackReaders, find_or_create_reader_batch.
  destruct (reader_batch_map_ st !! server) as [b|] eqn:E; simpl;
    destruct (_ <=? _); simpl.
  - eexists. split; [rewrite <- app_assoc; reflexivity|]. left.
    eexists _, _. split; [right; left|]. apply elem_of_app. auto.
  - exists []. split; [symmetry; apply app_nil_r|]. right.
    eexists. rewrite lookup_insert_eq. split; [reflexivity|]. simpl.
    apply elem_of_app. auto.
  - eexists. split; [rewrite <- !app_assoc; reflexivity|]. left.
    eexists _, _. split; [right; right; left|]. simpl. exact Hin.
  - eexists. split; [reflexivity|]. right.
    eexists. rewrite lookup_insert_eq. split; [reflexivity|]. simpl. exact Hin.
Qed.

Lemma PackReaders_mutation_batch_map server reader_list st :
  mutation_batch_map_ (PackReaders server reader_list st) = mutation_batch_map_ st.
Proof.
  unfold PackReaders, find_or_create_reader_batch.
  destruct (reader_batch_map_ st !! server); simpl; destruct (_ <=? _); reflexivity.
Qed.

Lemma mutation_batched_PackReaders server id st0 st s rl :
  mutation_batched server id st0 st ->
  mutation_batched server id st0 (PackReaders s rl st).
Proof.
  intros (new & Hl & H).
  destruct (quiet_log _ _ (quiet_PackReaders s rl st)) as [new' Hl'].
  exists (new ++ new')%list. split; [rewrite Hl', Hl; symmetry; apply app_assoc|].
  rewrite PackReaders_mutation_batch_map.
  destruct H as [(b & ids & Hev & Hid)|H]; [|right; exact H].
  left. exists b, ids. split; [apply elem_of_app; auto | exact Hid].
Qed.

Lemma scan_committed_later server id st0 st st' :
  scan_committed server id st0 st -> quiet st st' -> scan_committed server id st0 st'.
Proof.
  intros (new & Hl & Hin) Hq. destruct (quiet_log _ _ Hq) as [new' Hl'].
  exists (new ++ new')%list. split; [rewrite Hl', Hl; symmetry; apply app_assoc|].
  apply elem_of_app. auto.
Qed.

Lemma mutation_batched_earlier server id st0 st st' pre :
  log st = (log st0 ++ pre)%list ->
  mutation_batched server id st st' -> mutation_batched server id st0 st'.
Proof.
  intros Hpre (new & Hl & H). exists (pre ++ new)%list.
  split; [rewrite Hl, Hpre; symmetry; apply app_assoc|].
  destruct H as [(b & ids & Hev & Hid)|H]; [|right; exact H].
  left. exists b, ids. split; [apply elem_of_app; auto | exact Hid].
Qed.

Lemma reader_batched_earlier server id st0 st st' pre :
  log st = (log st0 ++ pre)%list ->
  reader_batched server id st st' -> reader_batched server id st0 st'.
Proof.
  intros Hpre (new & Hl & H). exists (pre ++ new)%list.
  split; [rewrite Hl, Hpre; symmetry; apply app_assoc|].
  destruct H as [(b & ids & Hev & Hid)|H]; [|right; exact H].
  left. exists b, ids. split; [apply elem_of_app; auto | exact Hid].
Qed.

(** Every task in the pending list of a row of the node's range that the
    pool still has goes to the node's server. *)
Lemma WakeUpPendingRequest_dispatched node st row ids id task :
  pending_task_id_list_ st !! row = Some ids ->
  in_range (node_start node) (node_end node) row ->
  id ∈ ids -> task_pool_ st !! id = Some task ->
  dispatched (TabletMeta.server_addr (meta node)) task st (WakeUpPendingRequest node st).
Proof.
  intros Hrow [R1 R2] Hid Htask.
  set (server := TabletMeta.server_addr (meta node)).
  assert (Hin : row ∈ pending_keys_in (pending_task_id_list_ st) (node_start node)
                        (node_end node))
    by (apply elem_of_pending_keys_in; rewrite Hrow; eauto).
  pose proof (wake_keys_collected server (update_time node) _ row ids id (st, [], [])
                task Hin Hrow Hid Htask) as Hc.
  pose proof (wake_keys_grows server (update_time node)
                (pending_keys_in (pending_task_id_list_ st) (node_start node)
                   (node_end node)) (st, [], [])) as ([pre Hpre] & _).
  unfold WakeUpPendingRequest, dispatched. fold server.
  destruct (foldl _ _ _) as [[st1 ml] rl]. simpl in Hc, Hpre.
  set (st2 := match ml with [] => st1 | _ => PackMutations server ml false st1 end).
  assert (Hq12 : quiet st1 st2)
    by (subst st2; destruct ml; [apply quiet_refl | apply quiet_PackMutations]).
  destruct (task_type task); simpl in Hc.
  - (* READ *)
    destruct rl as [|r rl]; [inversion Hc|].
    destruct (quiet_log _ _ Hq12) as [mid Hmid].
    apply (reader_batched_earlier _ _ st st2 _ (pre ++ mid)%list).
    + rewrite Hmid, Hpre. symmetry. apply app_assoc.
    + apply PackReaders_batched, Hc.
  - (* MUTATION *)
    apply list_elem_of_fmap in Hc as (mu & -> & Hmu).
    assert (H2 : mutation_batched server (task_id mu) st1 st2).
    { subst st2. destruct ml as [|m ml]; [inversion Hmu|].
      apply PackMutations_batched, Hmu. }
    apply (mutation_batched_earlier _ _ st st1 _ pre Hpre).
    destruct rl; [exact H2 | apply mutation_batched_PackReaders, H2].
  - (* SCAN *)
    apply (scan_committed_later _ _ _ st2).
    + apply (scan_committed_later _ _ _ st1); [exact Hc | exact Hq12].
    + destruct rl; [apply quiet_refl | apply quiet_PackReaders].
Qed.

(** ** UpdateTabletMetaList as a whole *)

Lemma well_formed_singleton (k : string) (n : TabletMetaNode) :
  node_start n = k -> (node_end n = "" \/ slt (node_start n) (node_end n)) ->
  well_formed {[ k := n ]}.
Proof.
  intros Hs Hn. split; [|split].
  - intros k' n' H. apply lookup_singleton_Some in H as [<- <-]. exact Hs.
  - intros k' n' H. apply lookup_singleton_Some in H as [<- <-]. exact Hn.
  - intros k1 n1 k2 n2 row H1 H2 Hne.
    apply lookup_singleton_Some in H1 as [<- _].
    apply lookup_singleton_Some in H2 as [<- _]. contradiction.
Qed.

(** C4.  Let the cache be well formed (every node under its start key, no
    range empty, no row in two ranges) and the range of the new record not
    be empty.  After [UpdateTabletMetaList] the cache is well formed again,
    so that its ranges are pairwise disjoint; it is the old cache cut
    around the new range: an old node apart from the new range is kept, of
    any other what is before the new start is kept under the old key with
    its end set to the new start (the node is shrunk), what is after the
    new end is kept under the new end with its start set to it (with the
    former: split), and a node with neither part is erased; the new record
    is the entry of its start key, with status [NORMAL].  The pending list
    of every row in the new range is removed from [pending_task_id_list_],
    the other lists are as before, and every task of a removed list that is
    still in [task_pool_] is dispatched to the server of the new record. *)
Theorem UpdateTabletMetaList_cuts_and_dispatches (new_meta : TabletMeta.t) (now : Z)
    (st : t) :
  let new_node := {| meta := new_meta; update_time := now; status := NORMAL |} in
  let st' := UpdateTabletMetaList new_meta now st in
  well_formed (tablet_meta_list_ st) ->
  (node_end new_node = "" \/ slt (node_start new_node) (node_end new_node)) ->
  well_formed (tablet_meta_list_ st')
  /\ replaced new_node (tablet_meta_list_ st) (tablet_meta_list_ st')
  /\ tablet_meta_list_ st' !! node_start new_node = Some new_node
  /\ status new_node = NORMAL
  /\ (forall row, in_range (node_start new_node) (node_end new_node) row ->
        pending_task_id_list_ st' !! row = None)
  /\ (forall row, ~ in_range (node_start new_node) (node_end new_node) row ->
        pending_task_id_list_ st' !! row = pending_task_id_list_ st !! row)
  /\ (forall row ids id task,
        in_range (node_start new_node) (node_end new_node) row ->
        pending_task_id_list_ st !! row = Some ids -> id ∈ ids ->
        task_pool_ st !! id = Some task ->
        dispatched (TabletMeta.server_addr new_meta) task st st').
Proof.
  intros new_node st' Hwf Hvalid.
  destruct (insert_meta_node_replaced (tablet_meta_list_ st) (node_start new_node)
              (node_end new_node) Hwf Hvalid new_meta now eq_refl eq_refl)
    as (m' & Hins & Hrep).
  fold new_node in Hrep.
  assert (Hst' : st' = WakeUpPendingRequest new_node (set_tablet_meta_list_ m' st)).
  { subst st'. unfold UpdateTabletMetaList. rewrite Hins. reflexivity. }
  assert (Hcache : tablet_meta_list_ st' = m').
  { rewrite Hst', WakeUpPendingRequest_cache. reflexivity. }
  rewrite Hcache.
  split; [exact (replaced_well_formed _ _ _ Hwf Hvalid Hrep)|].
  split; [exact Hrep|].
  split; [apply Hrep; left; auto|].
  split; [reflexivity|].
  split; [|split].
  - intros row Hr. rewrite Hst', WakeUpPendingRequest_pending.
    rewrite decide_True by exact Hr. reflexivity.
  - intros row Hr. rewrite Hst', WakeUpPendingRequest_pending.
    rewrite decide_False by exact Hr. reflexivity.
  - intros row ids id task Hr Hrow Hid Htask. rewrite Hst'.
    exact (WakeUpPendingRequest_dispatched new_node (set_tablet_meta_list_ m' st)
             row ids id task Hrow Hr Hid Htask).
Qed.

Lemma UpdateTabletMetaList_cuts_and_dispatches_witness :
  tablet_meta_list_ (UpdateTabletMetaList example_new_meta 500 example_pending) !! "b"
  = Some {| meta := example_new_meta; update_time := 500; status := NORMAL |}.
Proof.
  refine (proj1 (proj2 (proj2 (UpdateTabletMetaList_cuts_and_dispatches
                                 example_new_meta 500 example_pending _ _)))).
  - apply well_formed_singleton; [reflexivity | left; reflexivity].
  - right. reflexivity.
Defined.

(** ** The cache stays well formed *)

Lemma append0_compare (row x : string) :
  String.compare row x <> Gt -> String.compare x (append0 row) = Lt -> x = row.
Proof.
  revert x. induction row as [|a r IH]; intros [|c x']; simpl; try congruence.
  - unfold Ascii.compare. destruct (N.compare_spec (N_of_ascii c) (N_of_ascii zero)) as [E|E|E];
      try discriminate.
    + destruct x'; discriminate.
    + simpl in E. lia.
  - rewrite (Ascii.compare_antisym c a).
    destruct (Ascii.compare a c) eqn:E; simpl; try congruence.
    apply Ascii.compare_eq_iff in E. subst c.
    intros H1 H2. f_equal. apply IH; assumption.
Qed.

(** No key lies between a row and the row followed by a zero byte. *)
Lemma append0_next (row x : string) : sle row x -> slt x (append0 row) -> x = row.
Proof. rewrite sle_compare, slt_compare. apply append0_compare. Qed.

Lemma slt_append0 (row : string) : slt row (append0 row).
Proof.
  apply slt_compare. induction row as [|a r IH]; simpl; [reflexivity|].
  rewrite ascii_compare_refl. exact IH.
Qed.

(** The lookup finds the node that covers the row. *)
Lemma GetTabletMetaNodeForKey_covers (m : gmap string TabletMetaNode) row k n :
  well_formed m -> m !! k = Some n -> covers n row ->
  GetTabletMetaNodeForKey m row = Some (k, n).
Proof.
  intros Hwf Hk [C1 C2]. rewrite (well_formed_start _ _ _ Hwf Hk) in C1.
  apply GetTabletMetaNodeForKey_Some. split; [|split; [exact Hk | exact C2]].
  apply prev_upper_bound_Some. split; [eauto|]. split; [exact C1|].
  intros k' [n' Hk'] Hle.
  destruct (slt_total k' k) as [H|[H|H]]; [sorder | sorder |]. exfalso.
  destruct (well_formed_ordered _ _ _ _ _ Hwf Hk Hk' H) as [E1 E2].
  destruct C2 as [|C2]; [contradiction | sorder].
Qed.

Lemma well_formed_empty : well_formed (∅ : gmap string TabletMetaNode).
Proof.
  split; [|split]; intros *; rewrite lookup_empty; discriminate.
Qed.

Lemma same_ranges_refl m : same_ranges m m.
Proof. intros k. reflexivity. Qed.

Lemma same_ranges_trans m1 m2 m3 :
  same_ranges m1 m2 -> same_ranges m2 m3 -> same_ranges m1 m3.
Proof. intros H1 H2 k. rewrite H2. apply H1. Qed.

Lemma same_ranges_lookup m m' k n' :
  same_ranges m m' -> m' !! k = Some n' ->
  exists n, m !! k = Some n /\ node_start n = node_start n' /\ node_end n = node_end n'.
Proof.
  intros H Hk. specialize (H k). rewrite Hk in H.
  destruct (m !! k) as [n|]; [|discriminate]. injection H as H1 H2. eauto.
Qed.

Lemma same_ranges_well_formed m m' :
  same_ranges m m' -> well_formed m -> well_formed m'.
Proof.
  intros Hs (Hk & Hn & Hd). split; [|split].
  - intros k n' H. destruct (same_ranges_lookup _ _ _ _ Hs H) as (n & Hn' & S & E).
    rewrite <- S. eauto.
  - intros k n' H. destruct (same_ranges_lookup _ _ _ _ Hs H) as (n & Hn' & S & E).
    rewrite <- S, <- E. eauto.
  - intros k1 n1 k2 n2 row H1 H2 Hne C1 C2.
    destruct (same_ranges_lookup _ _ _ _ Hs H1) as (o1 & Ho1 & S1 & E1).
    destruct (same_ranges_lookup _ _ _ _ Hs H2) as (o2 & Ho2 & S2 & E2).
    apply (Hd k1 o1 k2 o2 row Ho1 Ho2 Hne); unfold covers; [rewrite S1, E1 | rewrite S2, E2];
      assumption.
Qed.

Lemma same_ranges_alter_status s k m :
  same_ranges m (alter (set_node_status s) k m).
Proof.
  intros k'. destruct (decide (k' = k)) as [->|Hne].
  - rewrite lookup_alter_eq. destruct (m !! k); reflexivity.
  - rewrite lookup_alter_ne by congruence. reflexivity.
Qed.

Lemma update_meta_step_same_ranges acc k :
  same_ranges (fst acc) (fst (update_meta_step acc k)).
Proof.
  destruct acc as [m p]. unfold update_meta_step. simpl.
  destruct (stopped p); [apply same_ranges_refl|].
  destruct (m !! k) as [node|]; [|apply same_ranges_refl].
  destruct (negb (status_eqb (status node) WAIT_UPDATE)); simpl.
  - destruct (need_update p); apply same_ranges_refl.
  - destruct (need_update p); simpl; [|apply same_ranges_alter_status].
    destruct (String.eqb _ _); simpl;
      [apply same_ranges_alter_status | apply same_ranges_refl].
Qed.

Lemma UpdateMetaAsync_same_ranges st :
  same_ranges (tablet_meta_list_ st) (tablet_meta_list_ (UpdateMetaAsync st)).
Proof.
  unfold UpdateMetaAsync. destruct (_ <=? _); [apply same_ranges_refl|].
  assert (H : forall l acc, same_ranges (fst acc) (fst (foldl update_meta_step acc l))).
  { induction l as [|k l IH]; intros acc; [apply same_ranges_refl|].
    simpl. eapply same_ranges_trans; [apply update_meta_step_same_ranges | apply IH]. }
  specialize (H (sorted_keys (tablet_meta_list_ st))
                (tablet_meta_list_ st,
                 {| need_update := false; update_start_key := "";
                    update_end_key := ""; update_expand_end_key := "";
                    stopped := false; check_failed := false |})).
  destruct (foldl _ _ _) as [m p]. simpl in H.
  destruct (check_failed p); [exact H|].
  destruct (negb (need_update p)); [exact H|].
  rewrite ScanMetaTableAsync_cache. exact H.
Qed.

(** The node made for a row no node covers keeps the cache well formed. *)
Lemma add_wait_node_well_formed row st :
  well_formed (tablet_meta_list_ st) ->
  GetTabletMetaNodeForKey (tablet_meta_list_ st) row = None ->
  well_formed (tablet_meta_list_ (add_wait_node row st)).
Proof.
  intros Hwf Hnone. unfold add_wait_node. simpl.
  set (m := tablet_meta_list_ st) in *.
  set (n0 := set_node_status WAIT_UPDATE
               (set_node_end (append0 row)
                  (set_node_start row (default default_node (m !! row))))).
  assert (Hrow : forall x, covers n0 x -> x = row).
  { intros x [C1 C2]. apply append0_next; [exact C1|].
    destruct C2 as [C2|C2]; [|exact C2].
    exfalso. change (append0 row = "") in C2. destruct row; discriminate. }
  assert (Hfree : forall k n, m !! k = Some n -> ~ covers n row).
  { intros k n Hk Hc.
    rewrite (GetTabletMetaNodeForKey_covers _ _ _ _ Hwf Hk Hc) in Hnone. discriminate. }
  destruct Hwf as (Hk & Hn & Hd). split; [|split].
  - intros k n H. destruct (decide (k = row)) as [->|Hne].
    + rewrite lookup_insert_eq in H. injection H as <-. reflexivity.
    + rewrite lookup_insert_ne in H by congruence. eauto.
  - intros k n H. destruct (decide (k = row)) as [->|Hne].
    + rewrite lookup_insert_eq in H. injection H as <-. right. apply slt_append0.
    + rewrite lookup_insert_ne in H by congruence. eauto.
  - intros k1 n1 k2 n2 x H1 H2 Hne C1 C2.
    destruct (decide (k1 = row)) as [->|N1], (decide (k2 = row)) as [->|N2];
      try contradiction.
    + rewrite lookup_insert_eq in H1. injection H1 as <-.
      rewrite lookup_insert_ne in H2 by congruence.
      rewrite (Hrow x C1) in C2. exact (Hfree _ _ H2 C2).
    + rewrite lookup_insert_eq in H2. injection H2 as <-.
      rewrite lookup_insert_ne in H1 by congruence.
      rewrite (Hrow x C2) in C1. exact (Hfree _ _ H1 C1).
    + rewrite lookup_insert_ne in H1, H2 by congruence.
      exact (Hd _ _ _ _ _ H1 H2 Hne C1 C2).
Qed.

Lemma UpdateMetaAsync_well_formed st :
  well_formed (tablet_meta_list_ st) ->
  well_formed (tablet_meta_list_ (UpdateMetaAsync st)).
Proof. apply same_ranges_well_formed, UpdateMetaAsync_same_ranges. Qed.

Lemma schedule_node_update_well_formed k node now st :
  well_formed (tablet_meta_list_ st) ->
  well_formed (tablet_meta_list_ (schedule_node_update k node now st)).
Proof.
  intros Hwf. unfold schedule_node_update. destruct (_ <=? 0).
  - apply UpdateMetaAsync_well_formed. simpl.
    exact (same_ranges_well_formed _ _ (same_ranges_alter_status _ _ _) Hwf).
  - simpl. exact (same_ranges_well_formed _ _ (same_ranges_alter_status _ _ _) Hwf).
Qed.

Lemma GetTabletAddrOrScheduleUpdateMeta_well_formed row task now st :
  well_formed (tablet_meta_list_ st) ->
  well_formed (tablet_meta_list_ (fst (GetTabletAddrOrScheduleUpdateMeta row task now st))).
Proof.
  intros Hwf. unfold GetTabletAddrOrScheduleUpdateMeta.
  destruct (GetTabletMetaNodeForKey _ _) as [[k node]|] eqn:E; simpl.
  - destruct (negb _); simpl; [exact Hwf|].
    destruct (_ && _); simpl; [|exact Hwf].
    apply schedule_node_update_well_formed. exact Hwf.
  - apply UpdateMetaAsync_well_formed.
    apply (add_wait_node_well_formed row (push_pending row (task_id task) st));
      assumption.
Qed.

Lemma ScheduleUpdateMeta_well_formed row ts now st :
  well_formed (tablet_meta_list_ st) ->
  well_formed (tablet_meta_list_ (ScheduleUpdateMeta row ts now st)).
Proof.
  intros Hwf. unfold ScheduleUpdateMeta.
  destruct (GetTabletMetaNodeForKey _ _) as [[k node]|] eqn:E.
  - destruct (_ && _); [apply schedule_node_update_well_formed|]; exact Hwf.
  - apply UpdateMetaAsync_well_formed, add_wait_node_well_formed; assumption.
Qed.

Lemma delay_update_step_same_ranges end_key acc k :
  same_ranges (fst acc) (fst (delay_update_step end_key acc k)).
Proof.
  destruct acc as [m stop]. unfold delay_update_step. simpl.
  destruct stop; [apply same_ranges_refl|].
  destruct (m !! k) as [node|]; [|apply same_ranges_refl].
  destruct (String.ltb _ _); [apply same_ranges_refl|].
  destruct (negb _); [apply same_ranges_refl | apply same_ranges_alter_status].
Qed.

Lemma DelayUpdateMeta_well_formed a b st :
  well_formed (tablet_meta_list_ st) ->
  well_formed (tablet_meta_list_ (DelayUpdateMeta a b st)).
Proof.
  intros Hwf. unfold DelayUpdateMeta. apply UpdateMetaAsync_well_formed. simpl.
  assert (H : forall l acc,
    same_ranges (fst acc) (fst (foldl (delay_update_step b) acc l))).
  { induction l as [|k l IH]; intros acc; [apply same_ranges_refl|].
    simpl. eapply same_ranges_trans; [apply delay_update_step_same_ranges | apply IH]. }
  exact (same_ranges_well_formed _ _ (H _ (tablet_meta_list_ st, false)) Hwf).
Qed.

Lemma UpdateTabletMetaList_well_formed new_meta now st :
  valid_range new_meta -> well_formed (tablet_meta_list_ st) ->
  well_formed (tablet_meta_list_ (UpdateTabletMetaList new_meta now st)).
Proof.
  intros Hvalid Hwf.
  destruct (insert_meta_node_replaced (tablet_meta_list_ st) _ _ Hwf Hvalid
              new_meta now eq_refl eq_refl) as (m' & Hins & Hrep).
  unfold UpdateTabletMetaList. rewrite Hins, WakeUpPendingRequest_cache. simpl.
  exact (replaced_well_formed _ _
           {| meta := new_meta; update_time := now; status := NORMAL |}
           Hwf Hvalid Hrep).
Qed.

Lemma ScanMetaTableCallBack_well_formed a b c response failed code now st :
  Forall valid_range (results response) ->
  well_formed (tablet_meta_list_ st) ->
  well_formed (tablet_meta_list_
                 (ScanMetaTableCallBack a b c response failed code now st)).
Proof.
  intros Hvalid Hwf. unfold ScanMetaTableCallBack.
  destruct (negb (is_ok _)); [exact Hwf|].
  assert (H1 : well_formed (tablet_meta_list_
            (foldl (fun s m => UpdateTabletMetaList m now s) st (results response)))).
  { revert st Hwf. induction Hvalid as [|m l Hm Hl IH]; intros st Hwf; [exact Hwf|].
    simpl. apply IH, UpdateTabletMetaList_well_formed; assumption. }
  set (st1 := foldl _ st _) in *.
  destruct (_ || _); [rewrite ScanMetaTableAsync_cache; exact H1|].
  destruct (_ && _).
  - destruct (complete response); [exact H1|].
    rewrite ScanMetaTableAsync_cache. exact H1.
  - apply UpdateMetaAsync_well_formed. exact H1.
Qed.

(** Every cache a client comes to have is well formed, as long as the
    records the meta table returns have ranges that are not empty. *)
Lemma run_meta_op_well_formed sys op sys' :
  valid_meta_op op -> well_formed (tablet_meta_list_ (fst sys)) ->
  run_meta_op sys op = Some sys' -> well_formed (tablet_meta_list_ (fst sys')).
Proof.
  destruct sys as [st flights]. unfold run_meta_op. simpl. intros Hv Hwf.
  destruct (aborted st); [discriminate|].
  destruct op as [row task now|row ts now|a b|i response failed code now|i|a b].
  - intros [= <-]. apply GetTabletAddrOrScheduleUpdateMeta_well_formed, Hwf.
  - intros [= <-]. apply ScheduleUpdateMeta_well_formed, Hwf.
  - intros [= <-]. apply DelayUpdateMeta_well_formed, Hwf.
  - destruct (flights !! i) as [[[a b] c]|]; [|discriminate].
    intros [= <-]. apply ScanMetaTableCallBack_well_formed; assumption.
  - destruct (flights !! i) as [[[a b] c]|]; [|discriminate].
    intros [= <-]. simpl. unfold ScanMetaTableAsyncInLock.
    rewrite ScanMetaTableAsync_cache. exact Hwf.
  - intros [= <-]. simpl. unfold ScanMetaTable.
    rewrite ScanMetaTableAsync_cache. exact Hwf.
Qed.

Lemma run_meta_ops_well_formed ops : forall sys sys',
  Forall valid_meta_op ops -> well_formed (tablet_meta_list_ (fst sys)) ->
  run_meta_ops sys ops = Some sys' -> well_formed (tablet_meta_list_ (fst sys')).
Proof.
  induction ops as [|op ops IH]; intros sys sys' Hv Hwf; simpl.
  - intros [= <-]. exact Hwf.
  - inversion Hv as [|? ? Hop Hops]; subst.
    destruct (run_meta_op sys op) as [sys1|] eqn:E; [|discriminate].
    apply IH; [exact Hops|]. exact (run_meta_op_well_formed _ _ _ Hop Hwf E).
Qed.

(** The caches of a client as constructed, and after any calls, are well formed. *)
Lemma reachable_well_formed cfg ops sys :
  Forall valid_meta_op ops -> run_meta_ops (init cfg, []) ops = Some sys ->
  well_formed (tablet_meta_list_ (fst sys)).
Proof.
  intros Hv. apply run_meta_ops_well_formed; [exact Hv | apply well_formed_empty].
Qed.

(** ** More on the batch strategy *)

Section BatchGcRound.
Import BatchGcStrategy.
Variable GetTabletNumFromPath : string -> Z.

Lemma elem_of_gc_table_set (response : QueryResponse.t) (table : string) :
  table ∈ gc_table_set response <->
  exists live, live ∈ QueryResponse.inh_live_files response /\
               InheritedLiveFiles.table_name live = table.
Proof.
  unfold gc_table_set. rewrite elem_of_list_to_set, list_elem_of_fmap.
  split; intros (live & H1 & H2); exists live; auto.
Qed.

Lemma awaited_erase_live_tablet tables tablets meta table n p :
  erase_live_tablet GetTabletNumFromPath tables tablets meta !! table = Some p ->
  exists p0, tablets !! table = Some p0 /\ snd p = snd p0 /\
    (n ∈ fst p <->
     n ∈ fst p0 /\
     ~ (TabletMeta.table_name meta = table /\ table ∈ tables /\
        GetTabletNumFromPath (TabletMeta.path meta) = n)).
Proof.
  unfold erase_live_tablet.
  destruct (bool_decide (is_Some (tablets !! TabletMeta.table_name meta))) eqn:E1;
    [destruct (bool_decide (TabletMeta.table_name meta ∈ tables)) eqn:E2|]; simpl.
  - apply bool_decide_eq_true in E2.
    destruct (decide (TabletMeta.table_name meta = table)) as [Heq|Hne].
    + rewrite Heq. rewrite lookup_alter_eq.
      destruct (tablets !! table) as [p0|]; [|discriminate]. simpl.
      intros [= <-]. exists p0. split; [reflexivity|]. split; [reflexivity|].
      simpl. rewrite elem_of_difference, elem_of_singleton.
      rewrite Heq in E2. split.
      * intros [H1 H2]. split; [exact H1|]. intros (_ & _ & H3). auto.
      * intros [H1 H2]. split; [exact H1|]. intros H3. apply H2. auto.
    + rewrite lookup_alter_ne by done. intros H. exists p. split; [exact H|].
      split; [reflexivity|]. tauto.
  - apply bool_decide_eq_false in E2. intros H. exists p. split; [exact H|].
    split; [reflexivity|]. split; [|tauto].
    intros H1. split; [exact H1|]. intros (H2 & H3 & _). apply E2. congruence.
  - apply bool_decide_eq_false in E1. intros H. exists p. split; [exact H|].
    split; [reflexivity|]. split; [|tauto].
    intros H1. split; [exact H1|]. intros (H2 & _ & _). apply E1.
    rewrite H2, H. eauto.
Qed.

Lemma erase_live_tablet_dom tables tablets meta table :
  is_Some (erase_live_tablet GetTabletNumFromPath tables tablets meta !! table) <->
  is_Some (tablets !! table).
Proof.
  unfold erase_live_tablet. destruct (_ && _); [|reflexivity].
  destruct (decide (TabletMeta.table_name meta = table)) as [->|Hne].
  - rewrite lookup_alter_eq. destruct (tablets !! table); simpl; split; intros [x H]; eauto; discriminate.
  - rewrite lookup_alter_ne by done. reflexivity.
Qed.

Lemma awaited_foldl_erase tables metas : forall tablets table n,
  (exists p, foldl (erase_live_tablet GetTabletNumFromPath tables) tablets metas !! table = Some p
             /\ n ∈ fst p) <->
  (exists p0, tablets !! table = Some p0 /\ n ∈ fst p0) /\
  ~ (table ∈ tables /\
     exists meta, meta ∈ metas /\ TabletMeta.table_name meta = table /\
                  GetTabletNumFromPath (TabletMeta.path meta) = n).
Proof.
  induction metas as [|meta metas IH]; intros tablets table n; simpl.
  - split.
    + intros H. split; [exact H|]. intros (_ & meta & Hin & _). inversion Hin.
    + tauto.
  - rewrite IH. split.
    + intros [(p & Hp & Hn) Hnot].
      destruct (awaited_erase_live_tablet _ _ _ _ n _ Hp) as (p0 & Hp0 & _ & Hiff).
      apply Hiff in Hn as [Hn Hthis]. split; [eauto|].
      intros (Ht & m & Hin & Hm1 & Hm2). apply elem_of_cons in Hin as [->|Hin].
      * apply Hthis. auto.
      * apply Hnot. split; [exact Ht|]. eauto.
    + intros [(p0 & Hp0 & Hn) Hnot]. split.
      * destruct (proj2 (erase_live_tablet_dom tables tablets meta table)) as [p Hp]; [eauto|].
        exists p. split; [exact Hp|].
        destruct (awaited_erase_live_tablet _ _ _ _ n _ Hp) as (p1 & Hp1 & _ & Hiff).
        apply Hiff. rewrite Hp0 in Hp1. injection Hp1 as <-. split; [exact Hn|].
        intros (H1 & H2 & H3). apply Hnot. split; [exact H2|].
        exists meta. split; [left|]. auto.
      * intros (Ht & m & Hin & Hm). apply Hnot. split; [exact Ht|].
        exists m. split; [right; exact Hin|exact Hm].
Qed.

Lemma callback_awaited response st st' table n :
  ProcessQueryCallbackForGc GetTabletNumFromPath response st = Some st' ->
  (awaited st' table n <->
   awaited st table n /\ ~ answers GetTabletNumFromPath response table n).
Proof.
  unfold ProcessQueryCallbackForGc.
  destruct (erase_all_inherited _ _) as [files|]; [|discriminate].
  intros [= <-]. unfold awaited. simpl. rewrite awaited_foldl_erase.
  unfold answers. rewrite elem_of_gc_table_set. tauto.
Qed.

Lemma callbacks_awaited responses : forall st st' table n,
  ProcessQueryCallbacks GetTabletNumFromPath responses st = Some st' ->
  (awaited st' table n <->
   awaited st table n /\
   forall r, r ∈ responses -> ~ answers GetTabletNumFromPath r table n).
Proof.
  induction responses as [|r rs IH]; intros st st' table n; simpl.
  - intros [= <-]. split; [|tauto]. intros H. split; [exact H|].
    intros r Hr. inversion Hr.
  - destruct (ProcessQueryCallbackForGc _ r st) as [st1|] eqn:E; [|discriminate].
    intros H. rewrite (IH _ _ table n H), (callback_awaited _ _ _ table n E).
    split.
    + intros [[H1 H2] H3]. split; [exact H1|]. intros r0 Hr0.
      apply elem_of_cons in Hr0 as [->|Hr0]; auto.
    + intros [H1 H2]. split; [split; [exact H1|]|].
      * apply H2. left.
      * intros r0 Hr0. apply H2. right. exact Hr0.
Qed.

Lemma PostQuery_awaited st table n : awaited st table n -> PostQuery st = [].
Proof.
  intros (p & Hp & Hn). unfold PostQuery.
  rewrite bool_decide_eq_false_2; [reflexivity|].
  intros Hall. specialize (Hall table p Hp). simpl in Hall.
  rewrite Hall in Hn. set_solver.
Qed.

Lemma PostQuery_none_awaited st :
  (forall table n, ~ awaited st table n) -> PostQuery st = DeleteObsoleteFiles st.
Proof.
  intros H. unfold PostQuery. rewrite bool_decide_eq_true_2; [reflexivity|].
  intros table p Hp. simpl. apply set_eq. intros n. split; [|set_solver].
  intros Hn. exfalso. apply (H table n). exists p. auto.
Qed.

End BatchGcRound.

(** X1. The batch strategy deletes nothing while a live tablet is awaited.
    After the query callbacks of a round (none stopped by the [CHECK]), a
    live tablet is still awaited exactly when it was awaited before and no
    response answered for it, where a response answers for a tablet when
    it lists a tablet of the table whose path gives that number and also
    carries inherited files of the table.  [PostQuery] deletes nothing as
    long as one tablet is awaited, and every remaining candidate once
    none is. *)
Theorem batch_gc_waits_for_live_tablets :
  forall (GetTabletNumFromPath : string -> Z)
         (responses : list QueryResponse.t) (st st' : BatchGcStrategy.t),
    BatchGcStrategy.ProcessQueryCallbacks GetTabletNumFromPath responses st = Some st' ->
    (forall table n,
       awaited st' table n <->
       awaited st table n /\
       forall r, r ∈ responses -> ~ answers GetTabletNumFromPath r table n) /\
    ((exists table n, awaited st' table n) -> BatchGcStrategy.PostQuery st' = []) /\
    ((forall table n, ~ awaited st' table n) ->
     BatchGcStrategy.PostQuery st' = BatchGcStrategy.DeleteObsoleteFiles st').
Proof.
  intros G responses st st' Hrun. split; [|split].
  - intros table n. apply callbacks_awaited. exact Hrun.
  - intros (table & n & H). eapply PostQuery_awaited. exact H.
  - apply PostQuery_none_awaited.
Qed.

Lemma batch_gc_waits_for_live_tablets_witness :
  BatchGcStrategy.PostQuery
    (default gc_example_waiting
       (BatchGcStrategy.ProcessQueryCallbacks (fun _ => 0)
          [gc_example_response] gc_example_waiting)) = [] /\
  BatchGcStrategy.PostQuery
    (default gc_example_waiting
       (BatchGcStrategy.ProcessQueryCallbacks (fun _ => 3)
          [gc_example_answer] gc_example_waiting)) = [("t", 0, 2)].
Proof.
  split.
  - refine (proj1 (proj2 (batch_gc_waits_for_live_tablets (fun _ => 0)
             [gc_example_response] gc_example_waiting _ _)) _).
    + vm_compute. reflexivity.
    + exists "t", 3. exists ({[ 3 ]}, {[ 7 ]}). split; [reflexivity|].
      simpl. apply elem_of_singleton. reflexivity.
  - etransitivity.
    + apply (proj2 (proj2 (batch_gc_waits_for_live_tablets (fun _ => 3)
               [gc_example_answer] gc_example_waiting
               (default gc_example_waiting
                  (BatchGcStrategy.ProcessQueryCallbacks (fun _ => 3)
                     [gc_example_answer] gc_example_waiting))
               ltac:(vm_compute; reflexivity)))).
      intros table n Haw.
      apply (callbacks_awaited (fun _ => 3) [gc_example_answer] gc_example_waiting
               _ table n ltac:(vm_compute; reflexivity)) in Haw as [(p & Hp & Hn) Hno].
      unfold gc_example_waiting in Hp. simpl in Hp.
      apply lookup_singleton_Some in Hp as [<- <-]. simpl in Hn.
      apply elem_of_singleton in Hn as ->.
      apply (Hno gc_example_answer); [left|].
      split; eexists; (split; [left|]); simpl; auto.
    + vm_compute. reflexivity.
Defined.

Section BatchGcCandidates.
Import BatchGcStrategy.

Lemma length_erase_files (lg : nat) (numbers : list Z) (fs : GcFileSet) :
  length (erase_files lg numbers fs) = length fs.
Proof.
  unfold erase_files. revert fs.
  induction numbers as [|n numbers IH]; intros fs; simpl; [reflexivity|].
  rewrite IH. apply length_alter.
Qed.

Lemma length_erase_from (lgs : list LgInheritedLiveFiles.t) :
  forall (lg0 : nat) (fs : GcFileSet), length (erase_from lg0 lgs fs) = length fs.
Proof.
  induction lgs as [|l lgs IH]; intros lg0 fs; simpl; [reflexivity|].
  rewrite IH. apply length_erase_files.
Qed.

Lemma erase_files_lookup (lg' : nat) (numbers : list Z) :
  forall (fs : GcFileSet) (lg : nat) (s : gset Z),
    fs !! lg = Some s ->
    exists s', erase_files lg' numbers fs !! lg = Some s' /\
      forall n, n ∈ s' <-> n ∈ s /\ ~ (lg = lg' /\ n ∈ numbers).
Proof.
  unfold erase_files.
  induction numbers as [|m numbers IH]; intros fs lg s Hs; simpl.
  - exists s. split; [exact Hs|]. intros n. split; [|tauto].
    intros H. split; [exact H|]. intros [_ Hin]. inversion Hin.
  - destruct (decide (lg = lg')) as [->|Hne].
    + destruct (IH (alter (fun s => s ∖ {[ m ]}) lg' fs) lg' (s ∖ {[ m ]}))
        as (s' & Hs' & Hiff).
      { rewrite list_lookup_alter_eq, Hs. reflexivity. }
      exists s'. split; [exact Hs'|]. intros n. rewrite Hiff.
      rewrite elem_of_difference, elem_of_singleton, elem_of_cons. tauto.
    + destruct (IH (alter (fun s => s ∖ {[ m ]}) lg' fs) lg s) as (s' & Hs' & Hiff).
      { rewrite list_lookup_alter_ne by done. exact Hs. }
      exists s'. split; [exact Hs'|]. intros n. rewrite Hiff. tauto.
Qed.

Lemma erase_from_lookup (lgs : list LgInheritedLiveFiles.t) :
  forall (lg0 : nat) (fs : GcFileSet) (lg : nat) (s : gset Z),
    fs !! lg = Some s ->
    exists s', erase_from lg0 lgs fs !! lg = Some s' /\
      forall n, n ∈ s' <->
        n ∈ s /\ ~ exists (i : nat) l, lgs !! i = Some l /\ lg = (lg0 + i)%nat /\
                                        n ∈ LgInheritedLiveFiles.file_number l.
Proof.
  induction lgs as [|l lgs IH]; intros lg0 fs lg s Hs; simpl.
  - exists s. split; [exact Hs|]. intros n. split; [|tauto].
    intros H. split; [exact H|]. intros (i & l & Hl & _). discriminate.
  - destruct (erase_files_lookup lg0 (LgInheritedLiveFiles.file_number l) fs lg s Hs)
      as (s1 & Hs1 & Hiff1).
    destruct (IH (S lg0) _ lg s1 Hs1) as (s' & Hs' & Hiff).
    exists s'. split; [exact Hs'|]. intros n. rewrite Hiff, Hiff1. split.
    + intros [[Hn Hhead] Htail]. split; [exact Hn|].
      intros (i & l0 & Hl0 & Hlg & Hin). destruct i as [|i]; simpl in Hl0.
      * injection Hl0 as <-. apply Hhead. split; [lia|exact Hin].
      * apply Htail. exists i, l0. split; [exact Hl0|]. split; [lia|exact Hin].
    + intros [Hn Hnot]. split; [split; [exact Hn|]|].
      * intros [Hlg Hin]. apply Hnot. exists 0%nat, l. simpl.
        split; [reflexivity|]. split; [lia|exact Hin].
      * intros (i & l0 & Hl0 & Hlg & Hin). apply Hnot. exists (S i), l0. simpl.
        split; [exact Hl0|]. split; [lia|exact Hin].
Qed.

(** What one [InheritedLiveFiles] of a response reports. *)
Lemma erase_inherited_candidate files live files' (f : SstFile) :
  erase_inherited files live = Some files' ->
  (candidate files' f <->
   candidate files f /\
   ~ exists (lg : nat) l,
       InheritedLiveFiles.lg_live_files live !! lg = Some l /\
       snd f ∈ LgInheritedLiveFiles.file_number l /\
       f = (InheritedLiveFiles.table_name live, Z.of_nat lg, snd f)).
Proof.
  unfold erase_inherited. destruct f as [[table lgz] n]. unfold candidate. simpl.
  destruct (files !! InheritedLiveFiles.table_name live) as [file_set|] eqn:E.
  - destruct (bool_decide _) eqn:Hbd; [|discriminate]. intros [= <-].
    destruct (decide (InheritedLiveFiles.table_name live = table)) as [Heq|Hne].
    + rewrite Heq in *. split.
      * intros (fs & lg & s' & Hfs & Hlg & Hs' & Hn).
        rewrite lookup_insert_eq in Hfs. injection Hfs as <-.
        destruct (file_set !! lg) as [s|] eqn:Hs.
        -- destruct (erase_from_lookup (InheritedLiveFiles.lg_live_files live)
                       0%nat file_set lg s Hs) as (s1 & Hs1 & Hiff).
           rewrite Hs1 in Hs'. injection Hs' as Heq'. subst s'. destruct (proj1 (Hiff n) Hn) as [Hn' Hnot].
           split; [exists file_set, lg, s; auto|].
           intros (lg' & l & Hl & Hin & Hf). injection Hf as Hf. apply Hnot.
           exists lg', l. split; [exact Hl|]. split; [lia|exact Hin].
        -- apply lookup_lt_Some in Hs'. rewrite length_erase_from in Hs'.
           apply lookup_ge_None in Hs. lia.
      * intros [(fs & lg & s & Hfs & Hlg & Hs & Hn) Hnot].
        rewrite E in Hfs. injection Hfs as <-.
        destruct (erase_from_lookup (InheritedLiveFiles.lg_live_files live)
                    0%nat file_set lg s Hs) as (s1 & Hs1 & Hiff).
        exists (erase_from 0 (InheritedLiveFiles.lg_live_files live) file_set), lg, s1.
        rewrite lookup_insert_eq. split; [reflexivity|]. split; [exact Hlg|].
        split; [exact Hs1|]. apply Hiff. split; [exact Hn|].
        intros (i & l & Hl & Hi & Hin). apply Hnot. exists i, l.
        split; [exact Hl|]. split; [exact Hin|]. simpl in Hi. subst lg lgz. reflexivity.
    + split.
      * intros (fs & lg & s & Hfs & H). rewrite lookup_insert_ne in Hfs by done.
        split; [exists fs, lg, s; auto|].
        intros (lg' & l & _ & _ & Hf). injection Hf as Hf _. congruence.
      * intros [(fs & lg & s & Hfs & H) _]. exists fs, lg, s.
        rewrite lookup_insert_ne by done. auto.
  - intros [= <-]. split; [|tauto]. intros H. split; [exact H|].
    destruct H as (fs & lg & s & Hfs & _).
    intros (lg' & l & _ & _ & Hf). injection Hf as Hf _. congruence.
Qed.

Lemma erase_all_inherited_candidate lives : forall files files' (f : SstFile),
  erase_all_inherited files lives = Some files' ->
  (candidate files' f <->
   candidate files f /\
   ~ exists live (lg : nat) l,
       live ∈ lives /\
       InheritedLiveFiles.lg_live_files live !! lg = Some l /\
       snd f ∈ LgInheritedLiveFiles.file_number l /\
       f = (InheritedLiveFiles.table_name live, Z.of_nat lg, snd f)).
Proof.
  induction lives as [|live lives IH]; intros files files' f; simpl.
  - intros [= <-]. split; [|tauto]. intros H. split; [exact H|].
    intros (live & lg & l & Hin & _). inversion Hin.
  - destruct (erase_inherited files live) as [files1|] eqn:E; [|discriminate].
    intros H. rewrite (IH _ _ f H), (erase_inherited_candidate _ _ _ f E). split.
    + intros [[Hc Hhead] Htail]. split; [exact Hc|].
      intros (live0 & lg & l & Hin & Hrest). apply elem_of_cons in Hin as [->|Hin].
      * apply Hhead. eauto.
      * apply Htail. eauto 6.
    + intros [Hc Hnot]. split; [split; [exact Hc|]|].
      * intros (lg & l & Hrest). apply Hnot. exists live, lg, l. split; [left|exact Hrest].
      * intros (live0 & lg & l & Hin & Hrest). apply Hnot.
        exists live0, lg, l. split; [right; exact Hin|exact Hrest].
Qed.

Variable GetTabletNumFromPath : string -> Z.

Lemma callback_candidate response st st' (f : SstFile) :
  ProcessQueryCallbackForGc GetTabletNumFromPath response st = Some st' ->
  (candidate (gc_live_files_ st') f <->
   candidate (gc_live_files_ st) f /\ ~ reported response f).
Proof.
  unfold ProcessQueryCallbackForGc.
  destruct (erase_all_inherited _ _) as [files|] eqn:E; [|discriminate].
  intros [= <-]. simpl. rewrite (erase_all_inherited_candidate _ _ _ f E).
  unfold reported. split; intros [Hc Hnot]; (split; [exact Hc|]).
  - intros (live & lg & l & H1 & H2 & H3 & H4). apply Hnot. eauto 7.
  - intros (live & lg & l & H1 & H2 & H3 & H4). apply Hnot. eauto 7.
Qed.

Lemma callbacks_candidate responses : forall st st' (f : SstFile),
  ProcessQueryCallbacks GetTabletNumFromPath responses st = Some st' ->
  (candidate (gc_live_files_ st') f <->
   candidate (gc_live_files_ st) f /\
   forall r, r ∈ responses -> ~ reported r f).
Proof.
  induction responses as [|r rs IH]; intros st st' f; simpl.
  - intros [= <-]. split; [|tauto]. intros H. split; [exact H|].
    intros r Hr. inversion Hr.
  - destruct (ProcessQueryCallbackForGc _ r st) as [st1|] eqn:E; [|discriminate].
    intros H. rewrite (IH _ _ f H), (callback_candidate _ _ _ f E). split.
    + intros [[H1 H2] H3]. split; [exact H1|]. intros r0 Hr0.
      apply elem_of_cons in Hr0 as [->|Hr0]; auto.
    + intros [H1 H2]. split; [split; [exact H1|]|].
      * apply H2. left.
      * intros r0 Hr0. apply H2. right. exact Hr0.
Qed.

Lemma DeleteObsoleteFiles_candidate st (f : SstFile) :
  f ∈ DeleteObsoleteFiles st <-> candidate (gc_live_files_ st) f.
Proof.
  split.
  - intros H. apply elem_of_DeleteObsoleteFiles in H as (fs & lg & s & H).
    exists fs, lg, s. exact H.
  - intros (fs & lg & s & Hfs & Hlg & Hs & Hn). destruct f as [[table lgz] n].
    simpl in *. subst lgz. unfold DeleteObsoleteFiles.
    apply list_elem_of_bind. exists (table, fs). split.
    + apply list_elem_of_bind. exists (lg, s). split.
      * apply list_elem_of_bind. exists n. split; [left|].
        apply elem_of_elements. exact Hn.
      * apply elem_of_lookup_imap. exists lg, s. auto.
    + apply elem_of_map_to_list. exact Hfs.
Qed.

(** The [CHECK] of one [InheritedLiveFiles]. *)
Lemma erase_inherited_None files live :
  erase_inherited files live = None <->
  exists fs, files !! InheritedLiveFiles.table_name live = Some fs /\
             length (InheritedLiveFiles.lg_live_files live) <> length fs.
Proof.
  unfold erase_inherited.
  destruct (files !! InheritedLiveFiles.table_name live) as [fs|] eqn:E.
  - destruct (bool_decide _) eqn:Hbd.
    + apply bool_decide_eq_true in Hbd. split; [discriminate|].
      intros (fs' & [= <-] & Hne). contradiction.
    + apply bool_decide_eq_false in Hbd. split; [|reflexivity]. intros _. eauto.
  - split; [discriminate|]. intros (fs & Hfs & _). discriminate.
Qed.

Lemma erase_inherited_length files live files' (table : string) :
  erase_inherited files live = Some files' ->
  length <$> (files' !! table) = length <$> (files !! table).
Proof.
  unfold erase_inherited.
  destruct (files !! InheritedLiveFiles.table_name live) as [fs|] eqn:E.
  - destruct (bool_decide _); [|discriminate]. intros [= <-].
    destruct (decide (InheritedLiveFiles.table_name live = table)) as [<-|Hne].
    + rewrite lookup_insert_eq, E. simpl. rewrite length_erase_from. reflexivity.
    + rewrite lookup_insert_ne by done. reflexivity.
  - intros [= <-]. reflexivity.
Qed.

Lemma erase_all_inherited_None lives : forall files,
  erase_all_inherited files lives = None <->
  exists live fs, live ∈ lives /\
    files !! InheritedLiveFiles.table_name live = Some fs /\
    length (InheritedLiveFiles.lg_live_files live) <> length fs.
Proof.
  induction lives as [|live lives IH]; intros files; simpl.
  - split; [discriminate|]. intros (live & fs & Hin & _). inversion Hin.
  - destruct (erase_inherited files live) as [files1|] eqn:E.
    + rewrite IH. split.
      * intros (live0 & fs & Hin & Hfs & Hlen).
        pose proof (erase_inherited_length _ _ _ (InheritedLiveFiles.table_name live0) E) as Hl.
        rewrite Hfs in Hl. destruct (files !! InheritedLiveFiles.table_name live0) as [fs0|] eqn:E0;
          [|discriminate]. simpl in Hl. injection Hl as Hl.
        exists live0, fs0. split; [right; exact Hin|]. split; [exact E0|]. lia.
      * intros (live0 & fs & Hin & Hfs & Hlen).
        apply elem_of_cons in Hin as [->|Hin].
        -- assert (erase_inherited files live = None) as Hnone
             by (apply erase_inherited_None; eauto). congruence.
        -- pose proof (erase_inherited_length _ _ _ (InheritedLiveFiles.table_name live0) E) as Hl.
           rewrite Hfs in Hl.
           destruct (files1 !! InheritedLiveFiles.table_name live0) as [fs1|] eqn:E1;
             [|discriminate]. simpl in Hl. injection Hl as Hl.
           exists live0, fs1. split; [exact Hin|]. split; [exact E1|]. lia.
    + split; [|reflexivity]. intros _. apply erase_inherited_None in E as (fs & Hfs & Hlen).
      exists live, fs. split; [left|]. auto.
Qed.

End BatchGcCandidates.

(** X2. What the batch strategy deletes, exactly.  After the query
    callbacks of a round (none stopped by the [CHECK]), the files
    [DeleteObsoleteFiles] deletes are the candidates collected before the
    round that no response reported as inherited: the callbacks add no
    candidate and drop none that was not reported. *)
Theorem batch_gc_deletes_unreported_candidates :
  forall (GetTabletNumFromPath : string -> Z)
         (responses : list QueryResponse.t) (st st' : BatchGcStrategy.t) (f : SstFile),
    BatchGcStrategy.ProcessQueryCallbacks GetTabletNumFromPath responses st = Some st' ->
    (f ∈ BatchGcStrategy.DeleteObsoleteFiles st' <->
     f ∈ BatchGcStrategy.DeleteObsoleteFiles st /\
     forall r, r ∈ responses -> ~ BatchGcStrategy.reported r f).
Proof.
  intros G responses st st' f Hrun.
  rewrite !DeleteObsoleteFiles_candidate. apply (callbacks_candidate G). exact Hrun.
Qed.

Lemma batch_gc_deletes_unreported_candidates_witness :
  ("t", 0, 2) ∈ BatchGcStrategy.DeleteObsoleteFiles
    (default gc_example_batch
       (BatchGcStrategy.ProcessQueryCallbacks (fun _ => 0)
          [gc_example_response] gc_example_batch)).
Proof.
  apply (batch_gc_deletes_unreported_candidates (fun _ => 0) [gc_example_response]
           gc_example_batch _ ("t", 0, 2) ltac:(vm_compute; reflexivity)).
  split.
  - vm_compute. apply list_elem_of_here.
  - intros r Hr (live & lg & l & Hin & Hl & Hn & Hf).
    apply list_elem_of_singleton in Hr as ->.
    apply list_elem_of_singleton in Hin as ->. simpl in *.
    injection Hf as Hf. assert (lg = 0%nat) as -> by lia. simpl in Hl.
    injection Hl as <-. simpl in Hn. apply list_elem_of_singleton in Hn. discriminate.
Defined.

(** X3. The [CHECK] of the batch callback.  [ProcessQueryCallbackForGc]
    stops the master exactly when the response carries inherited files for
    a table with collected candidates and names a number of locality
    groups other than the one the candidates were collected with; a
    response that names no such table always goes through. *)
Theorem batch_gc_check_fails_iff :
  forall (GetTabletNumFromPath : string -> Z)
         (response : QueryResponse.t) (st : BatchGcStrategy.t),
    BatchGcStrategy.ProcessQueryCallbackForGc GetTabletNumFromPath response st = None <->
    lg_mismatch (BatchGcStrategy.gc_live_files_ st) response.
Proof.
  intros G response st. unfold BatchGcStrategy.ProcessQueryCallbackForGc, lg_mismatch.
  rewrite <- erase_all_inherited_None.
  destruct (BatchGcStrategy.erase_all_inherited _ _); split; congruence.
Qed.

(** ** More on the incremental strategy *)

Lemma try_foldl_app {A K} (step : A -> K -> option A) (ks1 ks2 : list K) (a : A) :
  try_foldl step (ks1 ++ ks2)%list a
  = match try_foldl step ks1 a with
    | None => None
    | Some a' => try_foldl step ks2 a'
    end.
Proof.
  revert a. induction ks1 as [|k ks1 IH]; intros a; simpl; [reflexivity|].
  destruct (step a k); [apply IH|reflexivity].
Qed.

(** An invariant of a loop that ran to its end. *)
Lemma try_foldl_inv {A K} (step : A -> K -> option A) (Inv : list K -> A -> Prop)
    (ks : list K) (a a' : A) :
  Inv [] a ->
  (forall done k a1 a2, Inv done a1 -> step a1 k = Some a2 -> Inv (done ++ [k])%list a2) ->
  try_foldl step ks a = Some a' -> Inv ks a'.
Proof.
  intros H0 Hstep.
  assert (Hgen : forall ks done a1, Inv done a1 ->
            try_foldl step ks a1 = Some a' -> Inv (done ++ ks)%list a').
  { clear ks. induction ks as [|k ks IH]; intros done a1 Hinv; simpl.
    - intros [= <-]. rewrite app_nil_r. exact Hinv.
    - destruct (step a1 k) as [a2|] eqn:E; [|discriminate]. intros H.
      replace (done ++ k :: ks)%list with ((done ++ [k]) ++ ks)%list
        by (rewrite <- app_assoc; reflexivity).
      eapply IH; [|exact H]. eapply Hstep; eauto. }
  intros H. exact (Hgen ks [] a H0 H).
Qed.

(** A loop that was cut short was cut at some round. *)
Lemma try_foldl_None {A K} (step : A -> K -> option A) (ks : list K) (a : A) :
  try_foldl step ks a = None ->
  exists done k rest a1,
    ks = (done ++ k :: rest)%list /\ try_foldl step done a = Some a1 /\ step a1 k = None.
Proof.
  revert a. induction ks as [|k ks IH]; intros a; simpl; [discriminate|].
  destruct (step a k) as [a2|] eqn:E.
  - intros H. destruct (IH _ H) as (done & k' & rest & a1 & -> & H1 & H2).
    exists (k :: done), k', rest, a1. simpl. rewrite E. auto.
  - intros _. exists [], k, ks, a. auto.
Qed.

(** A loop over the keys of a map whose rounds each touch their own
    entry. *)
Lemma foldl_pointwise `{Countable K} {V} (f : gmap K V -> K -> gmap K V)
    (g : K -> option V -> option V) (ks : list K) :
  (forall m k, f m k !! k = g k (m !! k)) ->
  (forall m k k', k <> k' -> f m k !! k' = m !! k') ->
  NoDup ks ->
  forall m k, foldl f m ks !! k = if decide (k ∈ ks) then g k (m !! k) else m !! k.
Proof.
  intros Hown Hframe. induction ks as [|k0 ks IH]; intros Hnd m k; simpl.
  - destruct (decide (k ∈ [])) as [Hin|_]; [inversion Hin|reflexivity].
  - apply NoDup_cons in Hnd as [Hk0 Hnd]. rewrite (IH Hnd).
    destruct (decide (k = k0)) as [->|Hne].
    + destruct (decide (k0 ∈ ks)) as [|_]; [contradiction|].
      destruct (decide (k0 ∈ k0 :: ks)) as [_|Hn]; [|exfalso; apply Hn; left].
      apply Hown.
    + rewrite Hframe by auto.
      destruct (decide (k ∈ ks)) as [Hin|Hnin];
        destruct (decide (k ∈ k0 :: ks)) as [Hin'|Hnin']; try reflexivity.
      * exfalso. apply Hnin'. right. exact Hin.
      * exfalso. apply elem_of_cons in Hin' as [?|?]; contradiction.
Qed.

Lemma lg_gains_refl (P : Z -> Prop) (l : IncrementalGcStrategy.LgFileSet) :
  (forall n, ~ P n) -> lg_gains P l l.
Proof. intros H. split; [reflexivity|]. intros n. specialize (H n). tauto. Qed.

Lemma tablet_gains_refl (P : Z -> Z -> Prop) (tf : IncrementalGcStrategy.TabletFileSet) :
  (forall lg n, ~ P lg n) -> tablet_gains P tf tf.
Proof.
  intros H. split; [reflexivity|]. split; [reflexivity|]. intros lg.
  destruct (IncrementalGcStrategy.files_ tf !! lg); constructor.
  apply lg_gains_refl. auto.
Qed.

Lemma gains_refl (P : string -> Z -> Z -> Z -> Prop) (dead : IncrementalGcRound.TableFiles) :
  (forall table tablet lg n, ~ P table tablet lg n) -> gains P dead dead.
Proof.
  intros H table tablet. destruct (tablet_files dead table tablet); constructor.
  apply tablet_gains_refl. auto.
Qed.

Lemma lg_gains_trans (P Q R : Z -> Prop) (l1 l2 l3 : IncrementalGcStrategy.LgFileSet) :
  (forall n, R n <-> P n \/ Q n) ->
  lg_gains P l1 l2 -> lg_gains Q l2 l3 -> lg_gains R l1 l3.
Proof.
  intros HR [H1 H2] [H3 H4]. split; [congruence|].
  intros n. rewrite H4, H2, HR. tauto.
Qed.

Lemma tablet_gains_trans (P Q R : Z -> Z -> Prop)
    (t1 t2 t3 : IncrementalGcStrategy.TabletFileSet) :
  (forall lg n, R lg n <-> P lg n \/ Q lg n) ->
  tablet_gains P t1 t2 -> tablet_gains Q t2 t3 -> tablet_gains R t1 t3.
Proof.
  intros HR (H1 & H2 & H3) (H4 & H5 & H6). split; [congruence|]. split; [congruence|].
  intros lg. specialize (H3 lg). specialize (H6 lg).
  destruct H3 as [l1 l2 H12|]; inversion H6 as [l2' l3 H23|]; subst; constructor.
  eapply lg_gains_trans; [apply HR|exact H12|exact H23].
Qed.

Lemma gains_trans (P Q R : string -> Z -> Z -> Z -> Prop)
    (d1 d2 d3 : IncrementalGcRound.TableFiles) :
  (forall table tablet lg n, R table tablet lg n <-> P table tablet lg n \/ Q table tablet lg n) ->
  gains P d1 d2 -> gains Q d2 d3 -> gains R d1 d3.
Proof.
  intros HR H12 H23 table tablet. specialize (H12 table tablet). specialize (H23 table tablet).
  destruct H12 as [t1 t2 Ht12|]; inversion H23 as [t2' t3 Ht23|]; subst; constructor.
  eapply tablet_gains_trans; [apply HR|exact Ht12|exact Ht23].
Qed.

Lemma gains_ext (P Q : string -> Z -> Z -> Z -> Prop) (d d' : IncrementalGcRound.TableFiles) :
  (forall table tablet lg n, Q table tablet lg n <-> P table tablet lg n) ->
  gains P d d' -> gains Q d d'.
Proof.
  intros HQ H. apply (gains_trans P (fun _ _ _ _ => False) Q d d' d').
  - intros. rewrite HQ. tauto.
  - exact H.
  - apply gains_refl. auto.
Qed.

Lemma tablet_files_default (dead : IncrementalGcRound.TableFiles) (table : string) (tablet : Z) :
  default ∅ (dead !! table) !! tablet = tablet_files dead table tablet.
Proof.
  unfold tablet_files. destruct (dead !! table); simpl; [reflexivity|apply lookup_empty].
Qed.

Lemma tablet_files_insert (dead : IncrementalGcRound.TableFiles) (table table' : string)
    (tablets : gmap Z IncrementalGcStrategy.TabletFileSet) (tablet : Z) :
  tablet_files (<[ table := tablets ]> dead) table' tablet
  = if decide (table = table') then tablets !! tablet else tablet_files dead table' tablet.
Proof.
  unfold tablet_files. destruct (decide (table = table')) as [->|Hne].
  - rewrite lookup_insert_eq. reflexivity.
  - rewrite lookup_insert_ne by done. reflexivity.
Qed.

Section IncrementalCallback.
Import IncrementalGcStrategy IncrementalGcRound.
Variable FLAGS_tera_master_meta_table_name : string.
Variable GetTabletNumFromPath : string -> Z.
Variable ParseFullFileNumber : Z -> Z * Z.

Lemma collect_inv_ext dead0 table (S S' : Z -> Z -> Prop) acc :
  (forall lg n, S' lg n <-> S lg n) ->
  collect_inv ParseFullFileNumber dead0 table S acc ->
  collect_inv ParseFullFileNumber dead0 table S' acc.
Proof.
  intros HS (H1 & H2 & H3 & H4). split; [exact H1|]. split; [|split; [exact H3|]].
  - intros tablet lg n. rewrite H2, HS. reflexivity.
  - intros lg n tf Hs. apply H4. apply HS. exact Hs.
Qed.

Lemma collect_inv_init dead0 table :
  collect_inv ParseFullFileNumber dead0 table (fun _ _ => False) (dead0, ∅).
Proof.
  split; [reflexivity|]. split; [|split].
  - intros tablet lg n. simpl. rewrite lookup_empty. simpl.
    rewrite elem_of_empty. tauto.
  - intros tablet lgs lg. simpl. rewrite lookup_empty. discriminate.
  - intros lg n tf [].
Qed.

Lemma storage_default_Some (files : gmap Z LgFileSet) (lg n : Z) :
  n ∈ storage_files_ (default empty_lg (files !! lg)) ->
  exists l, files !! lg = Some l /\ n ∈ storage_files_ l.
Proof.
  destruct (files !! lg) as [l|]; simpl; [eauto|]. rewrite elem_of_empty. tauto.
Qed.

Lemma collect_live_file_Some dead0 table S lg acc n acc' :
  collect_inv ParseFullFileNumber dead0 table S acc ->
  collect_live_file ParseFullFileNumber table lg acc n = Some acc' ->
  collect_inv ParseFullFileNumber dead0 table
    (fun lg' n' => S lg' n' \/ (lg' = lg /\ n' = n)) acc'.
Proof.
  destruct acc as [dead temp]. intros (H1 & H2 & H3 & H4). simpl in *.
  unfold collect_live_file. rewrite tablet_files_default, H1.
  destruct (tablet_files dead0 table (ParseFullFileNumber n).1) as [tf|] eqn:Etf.
  - destruct (bool_decide _) eqn:Hbd; [|discriminate]. intros [= <-].
    apply bool_decide_eq_true in Hbd.
    apply storage_default_Some in Hbd as (l & Hl & Hn).
    split; [|split; [|split]]; simpl.
    + intros table' tablet. rewrite tablet_files_insert.
      destruct (decide (table = table')) as [<-|Hne]; [|apply H1].
      destruct (decide ((ParseFullFileNumber n).1 = tablet)) as [<-|Hne].
      * rewrite lookup_insert_eq, Etf. f_equal. rewrite Hl. simpl.
        rewrite insert_id by exact Hl. destruct tf; reflexivity.
      * rewrite lookup_insert_ne by done. rewrite tablet_files_default. apply H1.
    + intros tablet lg' n'.
      destruct (decide ((ParseFullFileNumber n).1 = tablet)) as [<-|Hne].
      * rewrite lookup_insert_eq. simpl.
        destruct (decide (lg = lg')) as [<-|Hne'].
        -- rewrite lookup_insert_eq. simpl. rewrite elem_of_union, elem_of_singleton.
           specialize (H2 (ParseFullFileNumber n).1 lg n').
           destruct (temp !! (ParseFullFileNumber n).1) as [lgs|]; simpl in *.
           ++ rewrite H2. split.
              ** intros [(Hs & Hp & Hd)| ->]; [tauto|]. rewrite Etf. eauto.
              ** intros ([Hs|[_ ->]] & Hp & Hd); [left|right]; auto.
           ++ rewrite lookup_empty. simpl. rewrite elem_of_empty in *. split.
              ** intros [ [] | -> ]. rewrite Etf. eauto.
              ** intros ([Hs|[_ ->]] & Hp & Hd); [left|right]; tauto.
        -- rewrite lookup_insert_ne by done.
           specialize (H2 (ParseFullFileNumber n).1 lg' n').
           destruct (temp !! (ParseFullFileNumber n).1) as [lgs|]; simpl in *.
           ++ rewrite H2. split; [tauto|].
              intros ([Hs|[-> _]] & Hp & Hd); [tauto|contradiction].
           ++ rewrite lookup_empty. simpl. rewrite elem_of_empty in *. split; [tauto|].
              intros ([Hs|[-> _]] & Hp & Hd); [tauto|contradiction].
      * rewrite lookup_insert_ne by done. rewrite H2. split; [tauto|].
        intros ([Hs|[_ ->]] & Hp & Hd); [tauto|contradiction].
    + intros tablet lgs lg'.
      destruct (decide ((ParseFullFileNumber n).1 = tablet)) as [<-|Hne].
      * rewrite lookup_insert_eq. intros [= <-].
        destruct (decide (lg = lg')) as [<-|Hne'].
        -- intros _. exists tf. rewrite Hl. eauto.
        -- rewrite lookup_insert_ne by done.
           destruct (temp !! (ParseFullFileNumber n).1) as [lgs|] eqn:Et; simpl.
           ++ intros Hs. exact (H3 _ lgs lg' Et Hs).
           ++ rewrite lookup_empty. intros [x Hx]. discriminate.
      * rewrite lookup_insert_ne by done. apply H3.
    + intros lg' n' tf' [Hs|[-> ->]] Hd; [eapply H4; eauto|].
      rewrite Etf in Hd. injection Hd as <-. eauto.
  - intros [= <-]. split; [|split; [|split]]; simpl.
    + intros table' tablet. rewrite tablet_files_insert.
      destruct (decide (table = table')) as [<-|Hne]; [|apply H1].
      rewrite tablet_files_default. apply H1.
    + intros tablet lg' n'. rewrite H2. split; [tauto|].
      intros ([Hs|[_ ->]] & Hp & Hd); [tauto|]. subst tablet.
      rewrite Etf in Hd. destruct Hd as [x Hx]. discriminate.
    + exact H3.
    + intros lg' n' tf' [Hs|[-> ->]] Hd; [eapply H4; eauto|]. congruence.
Qed.

Lemma collect_live_file_None dead0 table S lg acc n :
  collect_inv ParseFullFileNumber dead0 table S acc ->
  (collect_live_file ParseFullFileNumber table lg acc n = None <->
   exists tf, tablet_files dead0 table (fst (ParseFullFileNumber n)) = Some tf /\
              n ∉ storage_files_ (default empty_lg (files_ tf !! lg))).
Proof.
  destruct acc as [dead temp]. intros (H1 & _). simpl in *.
  unfold collect_live_file. rewrite tablet_files_default, H1.
  destruct (tablet_files dead0 table (ParseFullFileNumber n).1) as [tf|] eqn:Etf.
  - destruct (bool_decide _) eqn:Hbd.
    + apply bool_decide_eq_true in Hbd. split; [discriminate|].
      intros (tf' & [= <-] & Hn). contradiction.
    + apply bool_decide_eq_false in Hbd. split; [|reflexivity]. intros _. eauto.
  - split; [discriminate|]. intros (tf & Htf & _). discriminate.
Qed.

Lemma collect_lg_Some dead0 table S acc l acc' :
  collect_inv ParseFullFileNumber dead0 table S acc ->
  collect_lg ParseFullFileNumber table acc l = Some acc' ->
  collect_inv ParseFullFileNumber dead0 table
    (fun lg n => S lg n \/ named_in [l] lg n) acc'.
Proof.
  intros Hinv Hrun. unfold collect_lg in Hrun.
  apply (try_foldl_inv _
           (fun done a => collect_inv ParseFullFileNumber dead0 table
              (fun lg n => S lg n \/ (lg = LgInheritedLiveFiles.lg_no l /\ n ∈ done)) a))
    in Hrun.
  - eapply collect_inv_ext; [|exact Hrun]. intros lg n. unfold named_in. split.
    + intros [Hs|(l0 & Hl0 & <- & Hn)]; [tauto|].
      apply list_elem_of_singleton in Hl0 as ->. auto.
    + intros [Hs|[-> Hn]]; [tauto|]. right. exists l. split; [left|]. auto.
  - eapply collect_inv_ext; [|exact Hinv]. intros lg n. split; [|tauto].
    intros [Hs|[_ Hn]]; [exact Hs|inversion Hn].
  - intros done k a1 a2 Ha1 Hstep.
    apply (collect_live_file_Some _ _ _ _ _ _ _ Ha1) in Hstep.
    eapply collect_inv_ext; [|exact Hstep]. intros lg n. simpl.
    rewrite elem_of_app, list_elem_of_singleton. tauto.
Qed.

Lemma collect_lg_None dead0 table S acc l :
  collect_inv ParseFullFileNumber dead0 table S acc ->
  (collect_lg ParseFullFileNumber table acc l = None <->
   exists n tf, n ∈ LgInheritedLiveFiles.file_number l /\
     tablet_files dead0 table (fst (ParseFullFileNumber n)) = Some tf /\
     n ∉ storage_files_ (default empty_lg (files_ tf !! LgInheritedLiveFiles.lg_no l))).
Proof.
  intros Hinv. split.
  - intros Hrun. unfold collect_lg in Hrun.
    apply try_foldl_None in Hrun as (done & n & rest & a1 & Hks & Hdone & Hstep).
    assert (Ha1 : collect_inv ParseFullFileNumber dead0 table
              (fun lg n => S lg n \/ (lg = LgInheritedLiveFiles.lg_no l /\ n ∈ done)) a1).
    { apply (try_foldl_inv _
               (fun done a => collect_inv ParseFullFileNumber dead0 table
                  (fun lg n => S lg n \/ (lg = LgInheritedLiveFiles.lg_no l /\ n ∈ done)) a))
        in Hdone; [exact Hdone| |].
      - eapply collect_inv_ext; [|exact Hinv]. intros lg n'. split; [|tauto].
        intros [Hs|[_ Hn]]; [exact Hs|inversion Hn].
      - intros done' k a2 a3 Ha2 Hstep'.
        apply (collect_live_file_Some _ _ _ _ _ _ _ Ha2) in Hstep'.
        eapply collect_inv_ext; [|exact Hstep']. intros lg n'. simpl.
        rewrite elem_of_app, list_elem_of_singleton. tauto. }
    apply (collect_live_file_None _ _ _ _ _ _ Ha1) in Hstep as (tf & Htf & Hn).
    exists n, tf. split; [|auto]. rewrite Hks. apply elem_of_app. right. left.
  - intros (n & tf & Hin & Htf & Hn).
    destruct (collect_lg ParseFullFileNumber table acc l) as [acc'|] eqn:E; [|reflexivity].
    exfalso. apply (collect_lg_Some _ _ _ _ _ _ Hinv) in E as (_ & _ & _ & H4).
    destruct (H4 (LgInheritedLiveFiles.lg_no l) n tf) as (l0 & Hl0 & Hn0); [|exact Htf|].
    + right. exists l. split; [left|]. auto.
    + rewrite Hl0 in Hn. simpl in Hn. contradiction.
Qed.

Lemma collect_lgs_Some dead0 table lgs acc' :
  try_foldl (collect_lg ParseFullFileNumber table) lgs (dead0, ∅) = Some acc' ->
  collect_inv ParseFullFileNumber dead0 table (named_in lgs) acc'.
Proof.
  intros Hrun.
  apply (try_foldl_inv _
           (fun done a => collect_inv ParseFullFileNumber dead0 table (named_in done) a))
    in Hrun; [exact Hrun| |].
  - eapply collect_inv_ext; [|apply collect_inv_init]. intros lg n. split; [|tauto].
    intros (l & Hl & _). inversion Hl.
  - intros done k a1 a2 Ha1 Hstep.
    apply (collect_lg_Some _ _ _ _ _ _ Ha1) in Hstep.
    eapply collect_inv_ext; [|exact Hstep]. intros lg n. unfold named_in. split.
    + intros (l & Hl & Hrest). apply elem_of_app in Hl as [Hl|Hl]; [left|right]; eauto.
    + intros [(l & Hl & Hrest)|(l & Hl & Hrest)]; exists l;
        (split; [apply elem_of_app; auto|exact Hrest]).
Qed.

Lemma collect_lgs_None dead0 table lgs :
  try_foldl (collect_lg ParseFullFileNumber table) lgs (dead0, ∅) = None <->
  exists lg n tf, named_in lgs lg n /\
    tablet_files dead0 table (fst (ParseFullFileNumber n)) = Some tf /\
    n ∉ storage_files_ (default empty_lg (files_ tf !! lg)).
Proof.
  split.
  - intros Hrun.
    apply try_foldl_None in Hrun as (done & l & rest & a1 & Hks & Hdone & Hstep).
    apply collect_lgs_Some in Hdone.
    apply (collect_lg_None _ _ _ _ _ Hdone) in Hstep as (n & tf & Hin & Htf & Hn).
    exists (LgInheritedLiveFiles.lg_no l), n, tf. split; [|auto].
    exists l. split; [|auto]. rewrite Hks. apply elem_of_app. right. left.
  - intros (lg & n & tf & Hnamed & Htf & Hn).
    destruct (try_foldl _ lgs (dead0, ∅)) as [acc'|] eqn:E; [|reflexivity].
    exfalso. apply collect_lgs_Some in E as (_ & _ & _ & H4).
    destruct (H4 lg n tf Hnamed Htf) as (l0 & Hl0 & Hn0).
    rewrite Hl0 in Hn. simpl in Hn. contradiction.
Qed.

Lemma lookup_insert_live live_lg (files : gmap Z LgFileSet) (lgs : list Z) (lg : Z) :
  NoDup lgs ->
  foldl (insert_live live_lg) files lgs !! lg
  = if decide (lg ∈ lgs)
    then Some {| storage_files_ := storage_files_ (default empty_lg (files !! lg));
                 live_files_ := live_files_ (default empty_lg (files !! lg))
                                ∪ default ∅ (live_lg !! lg) |}
    else files !! lg.
Proof.
  intros Hnd.
  apply (foldl_pointwise (insert_live live_lg)
           (fun lg o => Some {| storage_files_ := storage_files_ (default empty_lg o);
                                live_files_ := live_files_ (default empty_lg o)
                                               ∪ default ∅ (live_lg !! lg) |})).
  - intros m k. unfold insert_live. rewrite lookup_insert_eq. reflexivity.
  - intros m k k' Hne. unfold insert_live. rewrite lookup_insert_ne by done. reflexivity.
  - exact Hnd.
Qed.

Lemma lookup_update_dead_tablet temp (dead_tablets : gmap Z TabletFileSet)
    (tablets : list Z) (tablet : Z) :
  NoDup tablets ->
  foldl (update_dead_tablet temp) dead_tablets tablets !! tablet
  = if decide (tablet ∈ tablets)
    then (fun tf =>
            {| ready_time_ := ready_time_ tf; dead_time_ := dead_time_ tf;
               files_ := foldl (insert_live (default ∅ (temp !! tablet))) (files_ tf)
                           (ascending (elements (dom (default ∅ (temp !! tablet))))) |})
         <$> dead_tablets !! tablet
    else dead_tablets !! tablet.
Proof.
  intros Hnd.
  apply (foldl_pointwise (update_dead_tablet temp)
           (fun tablet o =>
              (fun tf =>
                 {| ready_time_ := ready_time_ tf; dead_time_ := dead_time_ tf;
                    files_ := foldl (insert_live (default ∅ (temp !! tablet))) (files_ tf)
                                (ascending (elements (dom (default ∅ (temp !! tablet))))) |})
              <$> o)).
  - intros m k. unfold update_dead_tablet. destruct (m !! k) as [tf|] eqn:E.
    + rewrite lookup_insert_eq. reflexivity.
    + rewrite E. reflexivity.
  - intros m k k' Hne. unfold update_dead_tablet. destruct (m !! k) as [tf|].
    + rewrite lookup_insert_ne by done. reflexivity.
    + reflexivity.
  - exact Hnd.
Qed.

(** The loop over [temp_tablet_files] adds what was gathered. *)
Lemma update_dead_tablets_gains dead0 table (S : Z -> Z -> Prop) dead1 temp tablet :
  collect_inv ParseFullFileNumber dead0 table S (dead1, temp) ->
  option_Forall2
    (tablet_gains (fun lg n => S lg n /\ fst (ParseFullFileNumber n) = tablet))
    (tablet_files dead0 table tablet)
    (foldl (update_dead_tablet temp) (default ∅ (dead1 !! table))
           (ascending (elements (dom temp))) !! tablet).
Proof.
  intros (H1 & H2 & H3 & H4). simpl in *.
  rewrite lookup_update_dead_tablet by apply NoDup_ascending, NoDup_elements.
  rewrite tablet_files_default, H1.
  assert (Hclaim : forall lg n,
            n ∈ default ∅ (default ∅ (temp !! tablet) !! lg) <->
            (S lg n /\ fst (ParseFullFileNumber n) = tablet) /\
            is_Some (tablet_files dead0 table tablet)).
  { intros lg n. specialize (H2 tablet lg n).
    destruct (temp !! tablet) as [lgs|]; simpl in *.
    - rewrite H2. tauto.
    - rewrite lookup_empty. simpl. rewrite H2. tauto. }
  destruct (tablet_files dead0 table tablet) as [tf|] eqn:Etf;
    [|destruct (decide _); constructor].
  assert (Hsome : is_Some (Some tf)) by eauto.
  destruct (decide (tablet ∈ ascending (elements (dom temp)))) as [Hin|Hnin]; simpl.
  - constructor. split; [reflexivity|]. split; [reflexivity|]. intros lg. simpl.
    rewrite lookup_insert_live by apply NoDup_ascending, NoDup_elements.
    apply elem_of_ascending, elem_of_elements, elem_of_dom in Hin as [lgs Hlgs].
    rewrite Hlgs in *. simpl in *.
    destruct (decide (lg ∈ ascending (elements (dom lgs)))) as [Hlg|Hlg].
    + apply elem_of_ascending, elem_of_elements, elem_of_dom in Hlg.
      destruct (H3 tablet lgs lg Hlgs Hlg) as (tf' & Htf' & [l Hl]).
      rewrite Etf in Htf'. injection Htf' as <-. rewrite Hl. constructor. simpl.
      split; [reflexivity|]. intros n. simpl. rewrite elem_of_union, Hclaim. tauto.
    + assert (Hnone : lgs !! lg = None).
      { apply not_elem_of_dom. intros Hd. apply Hlg.
        apply elem_of_ascending, elem_of_elements. exact Hd. }
      destruct (files_ tf !! lg) as [l|]; constructor.
      apply lg_gains_refl. intros n Hn.
      assert (Hn' : n ∈ default ∅ (lgs !! lg)) by (apply Hclaim; auto).
      rewrite Hnone in Hn'. simpl in Hn'. rewrite elem_of_empty in Hn'. exact Hn'.
  - constructor. apply tablet_gains_refl. intros lg n Hn.
    assert (Hnone : temp !! tablet = None).
    { apply not_elem_of_dom. intros Hd. apply Hnin.
      apply elem_of_ascending, elem_of_elements. exact Hd. }
    assert (Hn' : n ∈ default ∅ (default ∅ (temp !! tablet) !! lg)) by (apply Hclaim; auto).
    rewrite Hnone in Hn'. simpl in Hn'. rewrite lookup_empty in Hn'. simpl in Hn'.
    rewrite elem_of_empty in Hn'. exact Hn'.
Qed.

Lemma insert_live_files_gains live dead live_files dead' :
  insert_live_files FLAGS_tera_master_meta_table_name ParseFullFileNumber
    live dead live_files = Some dead' ->
  gains (claims FLAGS_tera_master_meta_table_name ParseFullFileNumber live live_files)
        dead dead'.
Proof.
  unfold insert_live_files.
  destruct (String.eqb_spec (InheritedLiveFiles.table_name live_files)
              FLAGS_tera_master_meta_table_name) as [Heq|Hne].
  { intros [= <-]. apply gains_refl. intros table tablet lg n (H1 & H2 & _). congruence. }
  destruct (bool_decide (is_Some (live !! InheritedLiveFiles.table_name live_files))) eqn:Hbd;
    simpl.
  2:{ apply bool_decide_eq_false in Hbd. intros [= <-]. apply gains_refl.
      intros table tablet lg n (H1 & _ & H3 & _). subst table. contradiction. }
  apply bool_decide_eq_true in Hbd.
  destruct (try_foldl _ _ (dead, ∅)) as [[dead1 temp]|] eqn:E; [|discriminate].
  intros [= <-]. apply collect_lgs_Some in E.
  intros table tablet. rewrite tablet_files_insert.
  destruct (decide (InheritedLiveFiles.table_name live_files = table)) as [<-|Hne'].
  - pose proof (update_dead_tablets_gains _ _ _ _ _ tablet E) as Hg.
    destruct Hg as [tf tf' Hg|]; constructor.
    eapply tablet_gains_trans; [|exact Hg|apply (tablet_gains_refl (fun _ _ => False)); auto].
    intros lg n. unfold claims. tauto.
  - destruct E as (H1 & _). simpl in H1. rewrite H1.
    destruct (tablet_files dead table tablet); constructor.
    apply tablet_gains_refl. intros lg n (H & _). contradiction.
Qed.

Lemma insert_live_files_None live dead live_files :
  insert_live_files FLAGS_tera_master_meta_table_name ParseFullFileNumber
    live dead live_files = None <->
  unchecked FLAGS_tera_master_meta_table_name ParseFullFileNumber live dead live_files.
Proof.
  unfold insert_live_files, unchecked, claims.
  destruct (String.eqb_spec (InheritedLiveFiles.table_name live_files)
              FLAGS_tera_master_meta_table_name) as [Heq|Hne].
  { split; [discriminate|]. intros (table & tablet & lg & n & tf & (H1 & H2 & _) & _). congruence. }
  destruct (bool_decide (is_Some (live !! InheritedLiveFiles.table_name live_files))) eqn:Hbd;
    simpl.
  2:{ apply bool_decide_eq_false in Hbd. split; [discriminate|].
      intros (table & tablet & lg & n & tf & (H1 & _ & H3 & _) & _). subst table. contradiction. }
  apply bool_decide_eq_true in Hbd.
  destruct (try_foldl _ _ (dead, ∅)) as [[dead1 temp]|] eqn:E.
  - split; [discriminate|].
    intros (table & tablet & lg & n & tf & (H1 & H2 & H3 & H4 & H5) & Htf & Hn).
    subst table tablet.
    assert (try_foldl (collect_lg ParseFullFileNumber (InheritedLiveFiles.table_name live_files))
              (InheritedLiveFiles.lg_live_files live_files) (dead, ∅) = None) as Hnone
      by (apply collect_lgs_None; eauto 6).
    congruence.
  - split; [|reflexivity]. intros _.
    apply collect_lgs_None in E as (lg & n & tf & Hnamed & Htf & Hn).
    exists (InheritedLiveFiles.table_name live_files), (fst (ParseFullFileNumber n)), lg, n, tf.
    auto 8.
Qed.

Lemma see_live_tablet_dom now ready live meta table :
  is_Some (see_live_tablet FLAGS_tera_master_meta_table_name GetTabletNumFromPath
             now ready live meta !! table) <-> is_Some (live !! table).
Proof.
  unfold see_live_tablet. destruct (String.eqb _ _); [reflexivity|].
  destruct (live !! TabletMeta.table_name meta) as [live_tablets|] eqn:E; [|reflexivity].
  destruct (bool_decide _); [|reflexivity].
  destruct (live_tablets !! _); [|reflexivity].
  destruct (decide (TabletMeta.table_name meta = table)) as [<-|Hne].
  - rewrite lookup_insert_eq, E. split; eauto.
  - rewrite lookup_insert_ne by done. reflexivity.
Qed.

Lemma see_live_tablets_dom now ready metas : forall live table,
  is_Some (foldl (see_live_tablet FLAGS_tera_master_meta_table_name GetTabletNumFromPath
                    now ready) live metas !! table) <-> is_Some (live !! table).
Proof.
  induction metas as [|meta metas IH]; intros live table; simpl; [reflexivity|].
  rewrite IH. apply see_live_tablet_dom.
Qed.

Lemma claims_dom live live' live_files table tablet lg n :
  (forall table, is_Some (live' !! table) <-> is_Some (live !! table)) ->
  claims FLAGS_tera_master_meta_table_name ParseFullFileNumber live' live_files
         table tablet lg n <->
  claims FLAGS_tera_master_meta_table_name ParseFullFileNumber live live_files
         table tablet lg n.
Proof. intros H. unfold claims. rewrite H. reflexivity. Qed.

(** The stored files survive what [gains] allows. *)
Lemma gains_storage P dead dead' table tablet lg n :
  gains P dead dead' ->
  (exists tf, tablet_files dead' table tablet = Some tf /\
              n ∉ storage_files_ (default empty_lg (files_ tf !! lg))) <->
  (exists tf, tablet_files dead table tablet = Some tf /\
              n ∉ storage_files_ (default empty_lg (files_ tf !! lg))).
Proof.
  intros Hg. specialize (Hg table tablet).
  destruct Hg as [tf tf' (_ & _ & Hlg)|].
  - specialize (Hlg lg).
    assert (Heq : storage_files_ (default empty_lg (files_ tf' !! lg))
                  = storage_files_ (default empty_lg (files_ tf !! lg))).
    { destruct Hlg as [l l' [Hs _]|]; simpl; auto. }
    split; intros (tf0 & [= <-] & Hn); eexists; (split; [reflexivity|]); congruence.
  - split; intros (tf0 & Htf0 & _); discriminate.
Qed.

Lemma unchecked_gains P live live' dead dead' live_files :
  (forall table, is_Some (live' !! table) <-> is_Some (live !! table)) ->
  gains P dead dead' ->
  unchecked FLAGS_tera_master_meta_table_name ParseFullFileNumber live' dead' live_files <->
  unchecked FLAGS_tera_master_meta_table_name ParseFullFileNumber live dead live_files.
Proof.
  intros Hdom Hg. unfold unchecked. split.
  - intros (table & tablet & lg & n & tf & Hc & Htf & Hn).
    apply (claims_dom live live') in Hc; [|exact Hdom].
    destruct (proj1 (gains_storage P dead dead' table tablet lg n Hg)) as (tf0 & H1 & H2); [eauto|].
    exists table, tablet, lg, n, tf0. auto.
  - intros (table & tablet & lg & n & tf & Hc & Htf & Hn).
    apply (claims_dom live live') in Hc; [|exact Hdom].
    destruct (proj2 (gains_storage P dead dead' table tablet lg n Hg)) as (tf0 & H1 & H2); [eauto|].
    exists table, tablet, lg, n, tf0. auto.
Qed.

Lemma insert_all_live_files_gains live lives dead dead' :
  try_foldl (insert_live_files FLAGS_tera_master_meta_table_name ParseFullFileNumber live)
            lives dead = Some dead' ->
  gains (fun table tablet lg n =>
           exists live_files, live_files ∈ lives /\
             claims FLAGS_tera_master_meta_table_name ParseFullFileNumber live live_files
                    table tablet lg n)
        dead dead'.
Proof.
  intros Hrun.
  apply (try_foldl_inv _
           (fun done d =>
              gains (fun table tablet lg n =>
                       exists live_files, live_files ∈ done /\
                         claims FLAGS_tera_master_meta_table_name ParseFullFileNumber
                                live live_files table tablet lg n) dead d))
    in Hrun; [exact Hrun| |].
  - apply gains_refl. intros table tablet lg n (lf & Hin & _). inversion Hin.
  - intros done lf d1 d2 Hd1 Hstep. apply insert_live_files_gains in Hstep.
    eapply gains_trans; [|exact Hd1|exact Hstep].
    intros table tablet lg n. simpl. split.
    + intros (lf0 & Hin & Hc). apply elem_of_app in Hin as [Hin|Hin]; [left; eauto|].
      apply list_elem_of_singleton in Hin as ->. right. exact Hc.
    + intros [(lf0 & Hin & Hc)|Hc].
      * exists lf0. split; [apply elem_of_app; auto|exact Hc].
      * exists lf. split; [apply elem_of_app; right; left|exact Hc].
Qed.

Lemma insert_all_live_files_None live lives dead :
  try_foldl (insert_live_files FLAGS_tera_master_meta_table_name ParseFullFileNumber live)
            lives dead = None <->
  exists live_files, live_files ∈ lives /\
    unchecked FLAGS_tera_master_meta_table_name ParseFullFileNumber live dead live_files.
Proof.
  split.
  - intros Hrun.
    apply try_foldl_None in Hrun as (done & lf & rest & d1 & Hks & Hdone & Hstep).
    apply insert_all_live_files_gains in Hdone.
    apply insert_live_files_None in Hstep.
    apply (proj1 (unchecked_gains _ live live dead d1 lf ltac:(reflexivity) Hdone)) in Hstep.
    exists lf. split; [|exact Hstep]. rewrite Hks. apply elem_of_app. right. left.
  - intros (lf & Hin & Hbad).
    apply list_elem_of_split in Hin as (done & rest & ->).
    rewrite try_foldl_app.
    destruct (try_foldl _ done dead) as [d1|] eqn:E; [|reflexivity]. simpl.
    apply insert_all_live_files_gains in E.
    apply (proj2 (unchecked_gains _ live live dead d1 lf ltac:(reflexivity) E)) in Hbad.
    apply insert_live_files_None in Hbad. rewrite Hbad. reflexivity.
Qed.

Lemma callback_gains response now st st' :
  ProcessQueryCallbackForGc FLAGS_tera_master_meta_table_name GetTabletNumFromPath
    ParseFullFileNumber response now st = Some st' ->
  gains (fun table tablet lg n =>
           exists live_files, live_files ∈ QueryResponse.inh_live_files response /\
             claims FLAGS_tera_master_meta_table_name ParseFullFileNumber
                    (live_tablet_files_ st) live_files table tablet lg n)
        (dead_tablet_files_ st) (dead_tablet_files_ st') /\
  (forall table, is_Some (live_tablet_files_ st' !! table) <->
                 is_Some (live_tablet_files_ st !! table)) /\
  max_ts_ st' = max_ts_ st.
Proof.
  unfold ProcessQueryCallbackForGc.
  destruct (try_foldl _ _ _) as [dead|] eqn:E; [|discriminate]. intros [= <-]. simpl.
  split; [|split; [|reflexivity]].
  - apply insert_all_live_files_gains in E.
    eapply gains_ext; [|exact E]. intros table tablet lg n. simpl.
    pose proof (see_live_tablets_dom now (ready_tables response)
                  (QueryResponse.tabletmeta_list response) (live_tablet_files_ st)) as Hdom.
    split; intros (lf & Hin & Hc); exists lf; (split; [exact Hin|]).
    + apply (proj2 (claims_dom _ _ lf table tablet lg n Hdom)). exact Hc.
    + apply (proj1 (claims_dom _ _ lf table tablet lg n Hdom)). exact Hc.
  - intros table. apply see_live_tablets_dom.
Qed.

Lemma callback_None response now st :
  ProcessQueryCallbackForGc FLAGS_tera_master_meta_table_name GetTabletNumFromPath
    ParseFullFileNumber response now st = None <->
  exists live_files, live_files ∈ QueryResponse.inh_live_files response /\
    unchecked FLAGS_tera_master_meta_table_name ParseFullFileNumber
      (live_tablet_files_ st) (dead_tablet_files_ st) live_files.
Proof.
  unfold ProcessQueryCallbackForGc.
  set (live := foldl _ (live_tablet_files_ st) _).
  assert (Hdom : forall table, is_Some (live !! table) <-> is_Some (live_tablet_files_ st !! table))
    by (intros table; apply see_live_tablets_dom).
  pose proof (insert_all_live_files_None live (QueryResponse.inh_live_files response)
                (dead_tablet_files_ st)) as Hn.
  assert (Hiff : (exists lf, lf ∈ QueryResponse.inh_live_files response /\
                    unchecked FLAGS_tera_master_meta_table_name ParseFullFileNumber
                      live (dead_tablet_files_ st) lf) <->
                 (exists lf, lf ∈ QueryResponse.inh_live_files response /\
                    unchecked FLAGS_tera_master_meta_table_name ParseFullFileNumber
                      (live_tablet_files_ st) (dead_tablet_files_ st) lf)).
  { split; intros (lf & Hin & Hbad); exists lf; (split; [exact Hin|]).
    - eapply (unchecked_gains (fun _ _ _ _ => False)); [| |exact Hbad].
      + intros t0. symmetry. apply Hdom.
      + apply gains_refl. auto.
    - eapply (unchecked_gains (fun _ _ _ _ => False)); [| |exact Hbad].
      + exact Hdom.
      + apply gains_refl. auto. }
  rewrite <- Hiff, <- Hn. destruct (try_foldl _ _ _); split; congruence.
Qed.

Lemma callbacks_gains responses : forall st st',
  ProcessQueryCallbacks FLAGS_tera_master_meta_table_name GetTabletNumFromPath
    ParseFullFileNumber responses st = Some st' ->
  gains (fun table tablet lg n =>
           exists r live_files, r ∈ responses /\
             live_files ∈ QueryResponse.inh_live_files (fst r) /\
             claims FLAGS_tera_master_meta_table_name ParseFullFileNumber
                    (live_tablet_files_ st) live_files table tablet lg n)
        (dead_tablet_files_ st) (dead_tablet_files_ st') /\
  (forall table, is_Some (live_tablet_files_ st' !! table) <->
                 is_Some (live_tablet_files_ st !! table)) /\
  max_ts_ st' = max_ts_ st.
Proof.
  induction responses as [|[r now] rs IH]; intros st st'; simpl.
  - intros [= <-]. split; [|split; reflexivity].
    apply gains_refl. intros table tablet lg n (r & lf & Hin & _). inversion Hin.
  - destruct (ProcessQueryCallbackForGc _ _ _ r now st) as [st1|] eqn:E; [|discriminate].
    intros H. apply callback_gains in E as (Hg1 & Hd1 & Hm1).
    apply IH in H as (Hg2 & Hd2 & Hm2). split; [|split].
    + eapply gains_trans; [|exact Hg1|exact Hg2].
      intros table tablet lg n. simpl. split.
      * intros (r0 & lf & Hin & Hlf & Hc). apply elem_of_cons in Hin as [->|Hin].
        -- left. simpl in Hlf. eauto.
        -- right. exists r0, lf. split; [exact Hin|]. split; [exact Hlf|].
           eapply claims_dom; [|exact Hc]. exact Hd1.
      * intros [(lf & Hlf & Hc)|(r0 & lf & Hin & Hlf & Hc)].
        -- exists (r, now), lf. split; [left|]. auto.
        -- exists r0, lf. split; [right; exact Hin|]. split; [exact Hlf|].
           eapply claims_dom; [|exact Hc]. intros t0. symmetry. apply Hd1.
    + intros table. rewrite Hd2. apply Hd1.
    + congruence.
Qed.

Lemma see_live_tablet_stamped now ready live meta table tablet :
  option_Forall2
    (stamped now (TabletMeta.table_name meta = table /\
                  table <> FLAGS_tera_master_meta_table_name /\ table ∈ ready /\
                  GetTabletNumFromPath (TabletMeta.path meta) = tablet))
    (tablet_files live table tablet)
    (tablet_files (see_live_tablet FLAGS_tera_master_meta_table_name GetTabletNumFromPath
                     now ready live meta) table tablet).
Proof.
  assert (Hsame : forall A : Prop, ~ A ->
            option_Forall2 (stamped now A) (tablet_files live table tablet)
                           (tablet_files live table tablet)).
  { intros A HA. destruct (tablet_files live table tablet); constructor.
    split; [reflexivity|]. split; [reflexivity|]. split; [tauto|left; reflexivity]. }
  unfold see_live_tablet.
  destruct (String.eqb_spec (TabletMeta.table_name meta) FLAGS_tera_master_meta_table_name)
    as [Heq|Hne].
  { apply Hsame. intros (H1 & H2 & _). congruence. }
  destruct (live !! TabletMeta.table_name meta) as [live_tablets|] eqn:E.
  2:{ destruct (decide (TabletMeta.table_name meta = table)) as [<-|Hne'].
      - unfold tablet_files. rewrite E. constructor.
      - apply Hsame. tauto. }
  destruct (bool_decide _) eqn:Hbd.
  2:{ apply bool_decide_eq_false in Hbd. apply Hsame. intros (<- & _ & H & _). contradiction. }
  apply bool_decide_eq_true in Hbd.
  destruct (live_tablets !! GetTabletNumFromPath (TabletMeta.path meta)) as [tf|] eqn:Etf.
  2:{ destruct (decide (TabletMeta.table_name meta = table
                        /\ GetTabletNumFromPath (TabletMeta.path meta) = tablet))
        as [[<- <-]|Hno].
      - unfold tablet_files. rewrite E. simpl. rewrite Etf. constructor.
      - apply Hsame. tauto. }
  rewrite tablet_files_insert.
  destruct (decide (TabletMeta.table_name meta = table)) as [<-|Hne'].
  - assert (Hl : tablet_files live (TabletMeta.table_name meta) tablet = live_tablets !! tablet)
      by (unfold tablet_files; rewrite E; reflexivity).
    rewrite Hl.
    destruct (decide (GetTabletNumFromPath (TabletMeta.path meta) = tablet)) as [<-|Hne'].
    + rewrite lookup_insert_eq, Etf. constructor.
      split; [reflexivity|]. split; [reflexivity|]. simpl. split; [reflexivity|].
      right. auto.
    + rewrite lookup_insert_ne by done.
      destruct (live_tablets !! tablet); constructor.
      split; [reflexivity|]. split; [reflexivity|]. split; [tauto|left; reflexivity].
  - apply Hsame. tauto.
Qed.

Lemma stamped_trans now (A B C : Prop) tf1 tf2 tf3 :
  (C <-> A \/ B) -> stamped now A tf1 tf2 -> stamped now B tf2 tf3 -> stamped now C tf1 tf3.
Proof.
  intros HC (H1 & H2 & H3 & H4) (H5 & H6 & H7 & H8).
  split; [congruence|]. split; [congruence|]. split.
  - intros Hc. apply HC in Hc as [Ha|Hb]; [|auto].
    destruct H8 as [H8|[_ H8]]; [|exact H8]. rewrite H8. auto.
  - destruct H8 as [H8|[Hb H8]]; [|right; split; [tauto|exact H8]].
    destruct H4 as [H4|[Ha H4]]; [left; congruence|].
    right. split; [tauto|congruence].
Qed.

Lemma see_live_tablets_stamped now ready metas table tablet : forall live,
  option_Forall2
    (stamped now (table <> FLAGS_tera_master_meta_table_name /\ table ∈ ready /\
                  exists meta, meta ∈ metas /\ TabletMeta.table_name meta = table /\
                    GetTabletNumFromPath (TabletMeta.path meta) = tablet))
    (tablet_files live table tablet)
    (tablet_files (foldl (see_live_tablet FLAGS_tera_master_meta_table_name
                            GetTabletNumFromPath now ready) live metas) table tablet).
Proof.
  induction metas as [|meta metas IH]; intros live; simpl.
  - destruct (tablet_files live table tablet); constructor.
    split; [reflexivity|]. split; [reflexivity|]. split; [|left; reflexivity].
    intros (_ & _ & m & Hin & _). inversion Hin.
  - pose proof (see_live_tablet_stamped now ready live meta table tablet) as H1.
    specialize (IH (see_live_tablet FLAGS_tera_master_meta_table_name
                      GetTabletNumFromPath now ready live meta)).
    destruct H1 as [tf1 tf2 H1|]; inversion IH as [tf2' tf3 H2 Heq2 Heq3|]; subst;
      constructor.
    eapply stamped_trans; [|exact H1|exact H2]. split.
    + intros (Hm & Hr & m & Hin & Ht & Hp). apply elem_of_cons in Hin as [->|Hin].
      * left. auto.
      * right. split; [exact Hm|]. split; [exact Hr|]. eauto.
    + intros [(Ht & Hm & Hr & Hp)|(Hm & Hr & m & Hin & Hrest)].
      * split; [exact Hm|]. split; [exact Hr|]. exists meta. split; [left|]. auto.
      * split; [exact Hm|]. split; [exact Hr|]. exists m. split; [right; exact Hin|exact Hrest].
Qed.

Lemma callback_stamped response now st st' table tablet :
  ProcessQueryCallbackForGc FLAGS_tera_master_meta_table_name GetTabletNumFromPath
    ParseFullFileNumber response now st = Some st' ->
  option_Forall2
    (stamped now (answered FLAGS_tera_master_meta_table_name GetTabletNumFromPath
                    response table tablet))
    (tablet_files (live_tablet_files_ st) table tablet)
    (tablet_files (live_tablet_files_ st') table tablet).
Proof.
  unfold ProcessQueryCallbackForGc.
  destruct (try_foldl _ _ _) as [dead|]; [|discriminate]. intros [= <-]. simpl.
  pose proof (see_live_tablets_stamped now (ready_tables response)
                (QueryResponse.tabletmeta_list response) table tablet
                (live_tablet_files_ st)) as H.
  destruct H as [tf tf' H|]; constructor.
  eapply stamped_trans; [|exact H|].
  2:{ instantiate (1 := False). split; [reflexivity|]. split; [reflexivity|].
      split; [tauto|left; reflexivity]. }
  unfold answered, ready_tables. rewrite elem_of_list_to_set, list_elem_of_fmap.
  split.
  - intros (H1 & (lf & Hlf & Ht) & H3). left. split; [exact H1|]. split; [eauto|exact H3].
  - intros [(H1 & (lf & Ht & Hlf) & H3)|[]]. split; [exact H1|]. split; [eauto|exact H3].
Qed.

End IncrementalCallback.

Section IncrementalSweep.
Import IncrementalGcStrategy IncrementalGcRound.
Variable assert_enabled : bool.

Lemma earliest_ready_time_le (max_ts : Z) (live_tablets : gmap Z TabletFileSet) :
  earliest_ready_time max_ts live_tablets <= max_ts /\
  forall tablet tf, live_tablets !! tablet = Some tf ->
    earliest_ready_time max_ts live_tablets <= ready_time_ tf.
Proof.
  unfold earliest_ready_time.
  assert (Hgen : forall ks e,
            let r := foldl (fun e k => match live_tablets !! k with
                                       | Some tf => if ready_time_ tf <? e
                                                    then ready_time_ tf else e
                                       | None => e
                                       end) e ks in
            r <= e /\
            forall k tf, k ∈ ks -> live_tablets !! k = Some tf -> r <= ready_time_ tf).
  { induction ks as [|k ks IH]; intros e; simpl.
    - split; [lia|]. intros k tf Hin. inversion Hin.
    - destruct (IH (match live_tablets !! k with
                    | Some tf => if ready_time_ tf <? e then ready_time_ tf else e
                    | None => e
                    end)) as [H1 H2].
      split.
      + revert H1. destruct (live_tablets !! k) as [tf|]; [|auto].
        destruct (Z.ltb_spec (ready_time_ tf) e); lia.
      + intros k' tf' Hin Hk'. apply elem_of_cons in Hin as [->|Hin]; [|eauto].
        revert H1. rewrite Hk'. destruct (Z.ltb_spec (ready_time_ tf') e); lia. }
  destruct (Hgen (ascending (elements (dom live_tablets))) max_ts) as [H1 H2].
  split; [exact H1|]. intros tablet tf Htf. apply (H2 tablet tf); [|exact Htf].
  apply elem_of_ascending, elem_of_elements, elem_of_dom. eauto.
Qed.

Lemma gc_lg_tables table tablet lg_files lg_no op :
  op ∈ run_ops (gc_lg assert_enabled table tablet lg_files lg_no) -> op_table op = table.
Proof.
  unfold gc_lg. destruct (lg_files !! lg_no) as [l|]; [|intros H; inversion H].
  assert (Hdel : forall op, op ∈ ((fun f => DeleteFile (table, lg_no, f)) <$> obsolete l) ->
                 op_table op = table).
  { intros op' H. apply list_elem_of_fmap in H as (n & -> & _). reflexivity. }
  destruct (bool_decide _); [destruct (negb _ && assert_enabled)|]; simpl; intros H; auto.
  apply elem_of_app in H as [H|H]; [auto|].
  apply list_elem_of_singleton in H. subst op. reflexivity.
Qed.

Lemma run_foldl_ops_all {A K} (step : A -> K -> Run A) (Q : EnvOp -> Prop) :
  (forall a k op, op ∈ run_ops (step a k) -> Q op) ->
  forall ks a op, op ∈ run_ops (run_foldl step ks a) -> Q op.
Proof.
  intros Hstep. induction ks as [|k ks IH]; intros a op Hop.
  - inversion Hop.
  - rewrite run_foldl_cons_ops in Hop. apply elem_of_app in Hop as [Hop|Hop]; [eauto|].
    destruct (run_aborted (step a k)); [inversion Hop|eauto].
Qed.

Lemma gc_tablet_tables table now dead tablet op :
  op ∈ run_ops (gc_tablet assert_enabled table now dead tablet) -> op_table op = table.
Proof.
  unfold gc_tablet, run_bind.
  set (r := run_foldl _ _ _).
  assert (Hr : forall op, op ∈ run_ops r -> op_table op = table).
  { intros op'. apply (run_foldl_ops_all _ (fun op => op_table op = table)).
    intros a k op0. apply gc_lg_tables. }
  destruct (run_aborted r); simpl; [auto|].
  intros H. apply elem_of_app in H as [H|H]; [auto|].
  destruct (bool_decide _); simpl in H.
  - apply list_elem_of_singleton in H. subst op. reflexivity.
  - inversion H.
Qed.

Lemma DeleteTableFiles_swept table now st op :
  op ∈ run_ops (DeleteTableFiles assert_enabled table now st) ->
  swept (table_view st table) table op.
Proof.
  intros Hop. split.
  - revert Hop. unfold DeleteTableFiles. simpl.
    apply (run_foldl_ops_all _ (fun op => op_table op = table)).
    intros a k op0. apply gc_tablet_tables.
  - unfold table_view. simpl.
    destruct (dead_tablet_files_ st !! table) as [dead|] eqn:Ed.
    + exists dead. split; [reflexivity|]. destruct op as [f| |]; try exact I.
      apply DeleteTableFiles_deletes in Hop
        as (dead' & tablet & tf & l & H1 & H2 & H3 & H4 & H5 & H6 & H7).
      rewrite Ed in H1. injection H1 as <-. exists tablet, tf, l. auto.
    + exfalso. revert Hop. unfold DeleteTableFiles. rewrite Ed. simpl.
      unfold gc_tablets. rewrite map_filter_empty, dom_empty_L, elements_empty.
      intros H. inversion H.
Qed.

Lemma DeleteTableFiles_view table now st table' :
  table' <> table ->
  table_view (run_state (DeleteTableFiles assert_enabled table now st)) table'
  = table_view st table'.
Proof.
  intros Hne. unfold DeleteTableFiles, table_view. simpl.
  rewrite !lookup_insert_ne by done. reflexivity.
Qed.

(** Every call of [PostQuery] is a call of the sweep of its table, which
    saw the table as it was when [PostQuery] began. *)
Lemma PostQuery_swept now st op :
  op ∈ run_ops (PostQuery assert_enabled now st) ->
  swept (table_view st (op_table op)) (op_table op) op.
Proof.
  unfold PostQuery. intros Hop.
  apply (run_foldl_ops_frame (fun st table => Some (table_view st table))
           (fun st table => DeleteTableFiles assert_enabled table now st)
           (fun v table op => exists v', v = Some v' /\ swept v' table op)) in Hop.
  - destruct Hop as (table & _ & v & [= <-] & Hs). pose proof Hs as [<- _]. exact Hs.
  - intros a k k' Hne. simpl. f_equal. apply (DeleteTableFiles_view k now a k'). exact Hne.
  - intros a k op0 Hop0. eexists. split; [reflexivity|].
    exact (DeleteTableFiles_swept k now a op0 Hop0).
  - apply NoDup_sorted_keys.
Qed.

End IncrementalSweep.

Section IncrementalRound.
Import IncrementalGcStrategy IncrementalGcRound.
Variable FLAGS_tera_master_meta_table_name : string.
Variable GetTabletNumFromPath : string -> Z.
Variable ParseFullFileNumber : Z -> Z * Z.
Variable assert_enabled : bool.

(** What a round deletes, in terms of the strategy before the callbacks. *)
Lemma round_deletes responses st st' now (f : SstFile) :
  ProcessQueryCallbacks FLAGS_tera_master_meta_table_name GetTabletNumFromPath
    ParseFullFileNumber responses st = Some st' ->
  DeleteFile f ∈ run_ops (PostQuery assert_enabled now st') ->
  exists tablet tf l,
    tablet_files (dead_tablet_files_ st) (fst (fst f)) tablet = Some tf /\
    files_ tf !! snd (fst f) = Some l /\
    snd f ∈ storage_files_ l /\ (snd f ∉ live_files_ l) /\
    (forall r live_files,
       r ∈ responses -> live_files ∈ QueryResponse.inh_live_files (fst r) ->
       ~ claims FLAGS_tera_master_meta_table_name ParseFullFileNumber
           (live_tablet_files_ st) live_files (fst (fst f)) tablet (snd (fst f)) (snd f)) /\
    dead_time_ tf < max_ts_ st /\
    (forall live_tablet lf,
       tablet_files (live_tablet_files_ st') (fst (fst f)) live_tablet = Some lf ->
       dead_time_ tf < ready_time_ lf).
Proof.
  intros Hrun Hop. apply callbacks_gains in Hrun as (Hg & _ & Hmax).
  apply PostQuery_swept in Hop as (_ & dead' & Hdead' & tablet & tf' & l' & H1 & H2 & H3 & H4 & H5).
  simpl in *. specialize (Hg (fst (fst f)) tablet).
  assert (Htf' : tablet_files (dead_tablet_files_ st') f.1.1 tablet = Some tf')
    by (unfold tablet_files; rewrite Hdead'; exact H1).
  rewrite Htf' in Hg. inversion Hg as [tf tf0 (Hr & Hd & Hlg) Heq1 Heq2|]. subst tf0.
  specialize (Hlg (snd (fst f))). rewrite H3 in Hlg.
  inversion Hlg as [l l0 (Hs & Hl) Heq3 Heq4|]. subst l0.
  exists tablet, tf, l. split; [symmetry; assumption|]. split; [symmetry; assumption|].
  split; [congruence|]. split; [|split; [|split]].
  - intros Hin. apply H5, Hl. auto.
  - intros r lf Hr0 Hlf Hc. apply H5, Hl. right. eauto.
  - destruct (earliest_ready_time_le (max_ts_ st')
                (default ∅ (live_tablet_files_ st' !! f.1.1))) as [Hle _]. lia.
  - intros live_tablet lf Hlf.
    destruct (earliest_ready_time_le (max_ts_ st')
                (default ∅ (live_tablet_files_ st' !! f.1.1))) as [_ Hle].
    specialize (Hle live_tablet lf). rewrite tablet_files_default in Hle.
    specialize (Hle Hlf). lia.
Qed.

End IncrementalRound.

(** X4. What a query callback of the incremental strategy notes.  After
    the callbacks of a round (none stopped by the [CHECK]) the dead
    tablets are the same, with the same stored files, ready and dead
    times; the live files of a locality group of a dead tablet are those
    it had plus the numbers the responses claim for it, where a claim is
    a number named for the locality group by an [InheritedLiveFiles] of a
    table that is not the meta table and has an entry in
    [live_tablet_files_], and that parses to the tablet.  The tables with
    an entry in [live_tablet_files_] and [max_ts_] do not change. *)
Theorem incremental_callbacks_note_claims :
  forall (FLAGS_tera_master_meta_table_name : string)
         (GetTabletNumFromPath : string -> Z) (ParseFullFileNumber : Z -> Z * Z)
         (responses : list (QueryResponse.t * Z)) (st st' : IncrementalGcStrategy.t),
    IncrementalGcRound.ProcessQueryCallbacks FLAGS_tera_master_meta_table_name
      GetTabletNumFromPath ParseFullFileNumber responses st = Some st' ->
    gains (fun table tablet lg n =>
             exists r live_files, r ∈ responses /\
               live_files ∈ QueryResponse.inh_live_files (fst r) /\
               claims FLAGS_tera_master_meta_table_name ParseFullFileNumber
                      (IncrementalGcStrategy.live_tablet_files_ st)
                      live_files table tablet lg n)
          (IncrementalGcStrategy.dead_tablet_files_ st)
          (IncrementalGcStrategy.dead_tablet_files_ st') /\
    (forall table,
       is_Some (IncrementalGcStrategy.live_tablet_files_ st' !! table) <->
       is_Some (IncrementalGcStrategy.live_tablet_files_ st !! table)) /\
    IncrementalGcStrategy.max_ts_ st' = IncrementalGcStrategy.max_ts_ st.
Proof. intros. eapply callbacks_gains. eassumption. Qed.

Lemma incremental_callbacks_note_claims_witness :
  exists tf l,
    tablet_files (IncrementalGcStrategy.dead_tablet_files_ gc_example_round_answered) "t" 7
      = Some tf /\
    IncrementalGcStrategy.files_ tf !! 0 = Some l /\
    IncrementalGcStrategy.storage_files_ l = {[ 1; 2 ]} /\
    1 ∈ IncrementalGcStrategy.live_files_ l.
Proof.
  destruct (incremental_callbacks_note_claims "meta" (fun _ => 3) (fun n => (7, n))
              [(gc_example_answer, 9)] gc_example_round gc_example_round_answered
              ltac:(vm_compute; reflexivity)) as (Hg & _ & _).
  specialize (Hg "t" 7). revert Hg.
  destruct (tablet_files (IncrementalGcStrategy.dead_tablet_files_ gc_example_round_answered)
              "t" 7) as [tf'|] eqn:E'; [|vm_compute in E'; discriminate].
  destruct (tablet_files (IncrementalGcStrategy.dead_tablet_files_ gc_example_round)
              "t" 7) as [tf|] eqn:E0; [|vm_compute in E0; discriminate].
  intros Hg. inversion Hg as [? ? (_ & _ & Hlg)|]. subst.
  specialize (Hlg 0). revert Hlg.
  destruct (IncrementalGcStrategy.files_ tf' !! 0) as [l'|] eqn:El';
    [|vm_compute in E0; injection E0 as <-; intros Hlg; vm_compute in Hlg; inversion Hlg].
  destruct (IncrementalGcStrategy.files_ tf !! 0) as [l|] eqn:El;
    [|intros Hlg; inversion Hlg].
  intros Hlg. inversion Hlg as [? ? (Hs & Hl)|]. subst.
  vm_compute in E0. injection E0 as <-. vm_compute in El. injection El as <-.
  exists tf', l'. split; [reflexivity|]. split; [exact El'|].
  split; [rewrite Hs; vm_compute; reflexivity|]. apply Hl. right.
  exists (gc_example_answer, 9), {| InheritedLiveFiles.table_name := "t";
            InheritedLiveFiles.lg_live_files :=
              [ {| LgInheritedLiveFiles.lg_no := 0;
                   LgInheritedLiveFiles.file_number := [1] |} ] |}.
  split; [left|]. split; [left|].
  split; [reflexivity|]. split; [discriminate|].
  split; [vm_compute; eauto|]. split; [|reflexivity].
  eexists. split; [left|]. split; [reflexivity|]. left.
Defined.

(** X5. The [CHECK] of the incremental callback.
    [ProcessQueryCallbackForGc] stops the master exactly when an
    [InheritedLiveFiles] of the response claims, for a dead tablet, a
    number that is not among the stored files noted for the locality
    group of that tablet.  Claims for the meta table, for a table without
    an entry in [live_tablet_files_] and for tablets that are not dead are
    skipped and never fail. *)
Theorem incremental_check_fails_iff :
  forall (FLAGS_tera_master_meta_table_name : string)
         (GetTabletNumFromPath : string -> Z) (ParseFullFileNumber : Z -> Z * Z)
         (response : QueryResponse.t) (now : Z) (st : IncrementalGcStrategy.t),
    IncrementalGcRound.ProcessQueryCallbackForGc FLAGS_tera_master_meta_table_name
      GetTabletNumFromPath ParseFullFileNumber response now st = None <->
    exists live_files,
      live_files ∈ QueryResponse.inh_live_files response /\
      unchecked FLAGS_tera_master_meta_table_name ParseFullFileNumber
        (IncrementalGcStrategy.live_tablet_files_ st)
        (IncrementalGcStrategy.dead_tablet_files_ st) live_files.
Proof. intros. apply callback_None. Qed.

(** X6. The ready time of the live tablets.  A query callback of the
    incremental strategy that is not stopped by the [CHECK] keeps the live
    tablets, their dead times and files; it sets [ready_time_] to the
    time of the call for the live tablets the response answers for (the
    table is not the meta table, the response carries inherited files of
    the table and lists a tablet of it whose path gives the number) and
    leaves the ready time of every other live tablet as it was. *)
Theorem incremental_callback_stamps_ready_time :
  forall (FLAGS_tera_master_meta_table_name : string)
         (GetTabletNumFromPath : string -> Z) (ParseFullFileNumber : Z -> Z * Z)
         (response : QueryResponse.t) (now : Z) (st st' : IncrementalGcStrategy.t)
         (table : string) (tablet : Z),
    IncrementalGcRound.ProcessQueryCallbackForGc FLAGS_tera_master_meta_table_name
      GetTabletNumFromPath ParseFullFileNumber response now st = Some st' ->
    option_Forall2
      (stamped now (answered FLAGS_tera_master_meta_table_name GetTabletNumFromPath
                      response table tablet))
      (tablet_files (IncrementalGcStrategy.live_tablet_files_ st) table tablet)
      (tablet_files (IncrementalGcStrategy.live_tablet_files_ st') table tablet).
Proof. intros. eapply callback_stamped. eassumption. Qed.

Lemma incremental_callback_stamps_ready_time_witness :
  exists tf,
    tablet_files (IncrementalGcStrategy.live_tablet_files_ gc_example_round_answered) "t" 3
      = Some tf /\
    IncrementalGcStrategy.ready_time_ tf = 9.
Proof.
  pose proof (incremental_callback_stamps_ready_time "meta" (fun _ => 3) (fun n => (7, n))
                gc_example_answer 9 gc_example_round gc_example_round_answered "t" 3
                ltac:(vm_compute; reflexivity)) as H.
  revert H.
  destruct (tablet_files (IncrementalGcStrategy.live_tablet_files_ gc_example_round_answered)
              "t" 3) as [tf'|] eqn:E'; [|vm_compute in E'; discriminate].
  destruct (tablet_files (IncrementalGcStrategy.live_tablet_files_ gc_example_round)
              "t" 3) as [tf|] eqn:E0; [|vm_compute in E0; discriminate].
  intros H. inversion H as [? ? (_ & _ & Hyes & _)|]. subst.
  exists tf'. split; [reflexivity|]. apply Hyes.
  split; [discriminate|]. split; eexists; (split; [left|]); simpl; auto.
Defined.

(** X7. What a round of the incremental strategy deletes.  A file that
    [PostQuery] deletes after the query callbacks of the round was,
    before the callbacks, a stored file of a dead tablet of its table,
    was not among the live files of its locality group, was claimed for
    that tablet and locality group by no response of the round, and the
    tablet died before [max_ts_] and before the ready time of every live
    tablet of the table. *)
Theorem incremental_round_deletes_only_unclaimed :
  forall (FLAGS_tera_master_meta_table_name : string)
         (GetTabletNumFromPath : string -> Z) (ParseFullFileNumber : Z -> Z * Z)
         (assert_enabled : bool)
         (responses : list (QueryResponse.t * Z)) (st st' : IncrementalGcStrategy.t)
         (now : Z) (f : SstFile),
    IncrementalGcRound.ProcessQueryCallbacks FLAGS_tera_master_meta_table_name
      GetTabletNumFromPath ParseFullFileNumber responses st = Some st' ->
    DeleteFile f ∈ run_ops (IncrementalGcRound.PostQuery assert_enabled now st') ->
    exists tablet tf l,
      tablet_files (IncrementalGcStrategy.dead_tablet_files_ st) (fst (fst f)) tablet
        = Some tf /\
      IncrementalGcStrategy.files_ tf !! snd (fst f) = Some l /\
      snd f ∈ IncrementalGcStrategy.storage_files_ l /\
      (snd f ∉ IncrementalGcStrategy.live_files_ l) /\
      (forall r live_files,
         r ∈ responses -> live_files ∈ QueryResponse.inh_live_files (fst r) ->
         ~ claims FLAGS_tera_master_meta_table_name ParseFullFileNumber
             (IncrementalGcStrategy.live_tablet_files_ st) live_files
             (fst (fst f)) tablet (snd (fst f)) (snd f)) /\
      IncrementalGcStrategy.dead_time_ tf < IncrementalGcStrategy.max_ts_ st /\
      (forall live_tablet lf,
         tablet_files (IncrementalGcStrategy.live_tablet_files_ st') (fst (fst f)) live_tablet
           = Some lf ->
         IncrementalGcStrategy.dead_time_ tf < IncrementalGcStrategy.ready_time_ lf).
Proof. intros. eapply round_deletes; eassumption. Qed.

Lemma incremental_round_deletes_only_unclaimed_witness :
  exists tablet tf l,
    tablet_files (IncrementalGcStrategy.dead_tablet_files_ gc_example_round) "t" tablet
      = Some tf /\
    IncrementalGcStrategy.files_ tf !! 0 = Some l /\
    2 ∈ IncrementalGcStrategy.storage_files_ l /\
    IncrementalGcStrategy.dead_time_ tf < 100.
Proof.
  destruct (incremental_round_deletes_only_unclaimed "meta" (fun _ => 3) (fun n => (7, n))
              true [(gc_example_answer, 9)] gc_example_round gc_example_round_answered
              10 ("t", 0, 2) ltac:(vm_compute; reflexivity))
    as (tablet & tf & l & H1 & H2 & H3 & _ & _ & H6 & _).
  - vm_compute. apply list_elem_of_here.
  - exists tablet, tf, l. auto.
Defined.

(** X8. The incremental strategy keeps what is reported.  If every stored
    file number noted for the dead tablets of a table parses to the
    tablet it is noted for, then a number that some response of the round
    names for a locality group of the table (the table is not the meta
    table and has an entry in [live_tablet_files_]) is not deleted by the
    [PostQuery] of the round. *)
Theorem incremental_round_keeps_reported :
  forall (FLAGS_tera_master_meta_table_name : string)
         (GetTabletNumFromPath : string -> Z) (ParseFullFileNumber : Z -> Z * Z)
         (assert_enabled : bool)
         (responses : list (QueryResponse.t * Z)) (st st' : IncrementalGcStrategy.t)
         (now : Z) (r : QueryResponse.t * Z) (live_files : InheritedLiveFiles.t)
         (lg n : Z),
    IncrementalGcRound.ProcessQueryCallbacks FLAGS_tera_master_meta_table_name
      GetTabletNumFromPath ParseFullFileNumber responses st = Some st' ->
    (forall tablet tf l,
       tablet_files (IncrementalGcStrategy.dead_tablet_files_ st)
         (InheritedLiveFiles.table_name live_files) tablet = Some tf ->
       IncrementalGcStrategy.files_ tf !! lg = Some l ->
       n ∈ IncrementalGcStrategy.storage_files_ l ->
       fst (ParseFullFileNumber n) = tablet) ->
    r ∈ responses ->
    live_files ∈ QueryResponse.inh_live_files (fst r) ->
    InheritedLiveFiles.table_name live_files <> FLAGS_tera_master_meta_table_name ->
    is_Some (IncrementalGcStrategy.live_tablet_files_ st
               !! InheritedLiveFiles.table_name live_files) ->
    named_in (InheritedLiveFiles.lg_live_files live_files) lg n ->
    DeleteFile (InheritedLiveFiles.table_name live_files, lg, n)
      ∉ run_ops (IncrementalGcRound.PostQuery assert_enabled now st').
Proof.
  intros meta G Parse ae responses st st' now r lf lg n Hrun Hown Hr Hlf Hmeta Hlive Hnamed Hop.
  destruct (round_deletes meta G Parse ae responses st st' now _ Hrun Hop)
    as (tablet & tf & l & H1 & H2 & H3 & _ & H5 & _).
  simpl in *. apply (H5 r lf Hr Hlf). unfold claims. repeat split; auto.
  eapply Hown; eauto.
Qed.

Lemma incremental_round_keeps_reported_witness :
  DeleteFile ("t", 0, 1)
    ∉ run_ops (IncrementalGcRound.PostQuery true 10 gc_example_round_answered).
Proof.
  apply (incremental_round_keeps_reported "meta" (fun _ => 3) (fun n => (7, n)) true
           [(gc_example_answer, 9)] gc_example_round gc_example_round_answered 10
           (gc_example_answer, 9)
           {| InheritedLiveFiles.table_name := "t";
              InheritedLiveFiles.lg_live_files :=
                [ {| LgInheritedLiveFiles.lg_no := 0;
                     LgInheritedLiveFiles.file_number := [1] |} ] |} 0 1).
  - vm_compute. reflexivity.
  - intros tablet tf l Htf _ _. simpl in *.
    destruct (decide (tablet = 7)) as [->|Hne]; [reflexivity|].
    unfold tablet_files, gc_example_round in Htf. simpl in Htf.
    rewrite lookup_singleton_eq in Htf. simpl in Htf.
    rewrite lookup_singleton_ne in Htf by done. discriminate.
  - left.
  - left.
  - discriminate.
  - vm_compute. eauto.
  - eexists. split; [left|]. split; [reflexivity|]. left.
Defined.


(** ** The sweep of the incremental strategy is complete *)

Lemma run_foldl_cons_aborted {A K} (step : A -> K -> Run A) (k : K) (ks : list K) (a : A) :
  run_aborted (run_foldl step (k :: ks) a)
  = run_aborted (step a k) || run_aborted (run_foldl step ks (run_state (step a k))).
Proof.
  unfold run_foldl at 1. simpl.
  destruct (run_aborted (step a k)) eqn:E.
  - rewrite run_foldl_aborted by (unfold run_bind; simpl; exact E).
    unfold run_bind. simpl. exact E.
  - rewrite run_foldl_from by (unfold run_bind; simpl; exact E).
    unfold run_bind. simpl. reflexivity.
Qed.

(** A loop that ran to its end made every round, each on the entry as it
    was when the loop began. *)
Lemma run_foldl_reach {A K X} `{EqDecision K}
    (view : A -> K -> option X) (step : A -> K -> Run A) :
  (forall a k k', k' <> k -> view (run_state (step a k)) k' = view a k') ->
  forall ks a k, NoDup ks -> k ∈ ks ->
    run_aborted (run_foldl step ks a) = false ->
    exists a', view a' k = view a k /\ run_aborted (step a' k) = false /\
      forall op, op ∈ run_ops (step a' k) -> op ∈ run_ops (run_foldl step ks a).
Proof.
  intros Hframe. induction ks as [|k0 ks IH]; intros a k Hnd Hin Hab.
  - inversion Hin.
  - rewrite run_foldl_cons_aborted in Hab. apply orb_false_iff in Hab as [Hab0 Hab].
    apply NoDup_cons in Hnd as [Hk0 Hnd].
    apply elem_of_cons in Hin as [->|Hin].
    + exists a. split; [reflexivity|]. split; [exact Hab0|].
      intros op Hop. rewrite run_foldl_cons_ops. apply elem_of_app. left. exact Hop.
    + destruct (IH _ k Hnd Hin Hab) as (a' & Hv & Hab' & Hops).
      exists a'. split; [|split; [exact Hab'|]].
      * rewrite Hv. apply Hframe. intros ->. contradiction.
      * intros op Hop. rewrite run_foldl_cons_ops, Hab0. apply elem_of_app. right. auto.
Qed.

Lemma run_foldl_not_aborted {A K} (step : A -> K -> Run A) :
  (forall a k, run_aborted (step a k) = false) ->
  forall ks a, run_aborted (run_foldl step ks a) = false.
Proof.
  intros Hstep. induction ks as [|k ks IH]; intros a; [reflexivity|].
  rewrite run_foldl_cons_aborted, Hstep, IH. reflexivity.
Qed.

Section IncrementalSweepComplete.
Import IncrementalGcStrategy.
Variable assert_enabled : bool.

Lemma obsolete_elem_of (l : LgFileSet) (n : Z) :
  n ∈ storage_files_ l -> n ∉ live_files_ l -> n ∈ obsolete l.
Proof.
  intros H1 H2. unfold obsolete. apply list_elem_of_filter. split; [exact H2|].
  apply elem_of_ascending, elem_of_elements. exact H1.
Qed.

Lemma gc_lg_deletes table tablet lg_files lg_no l n :
  lg_files !! lg_no = Some l -> n ∈ storage_files_ l -> n ∉ live_files_ l ->
  DeleteFile (table, lg_no, n) ∈ run_ops (gc_lg assert_enabled table tablet lg_files lg_no).
Proof.
  intros Hl H1 H2. unfold gc_lg. rewrite Hl.
  assert (Hdel : DeleteFile (table, lg_no, n)
                 ∈ (fun f => DeleteFile (table, lg_no, f)) <$> obsolete l).
  { apply list_elem_of_fmap. exists n. split; [reflexivity|].
    apply obsolete_elem_of; assumption. }
  destruct (bool_decide _); [destruct (negb _ && assert_enabled)|]; simpl; auto.
  apply elem_of_app. left. exact Hdel.
Qed.

Lemma gc_tablet_deletes table now dead tablet tf l lg_no n :
  dead !! tablet = Some tf -> files_ tf !! lg_no = Some l ->
  n ∈ storage_files_ l -> n ∉ live_files_ l ->
  run_aborted (gc_tablet assert_enabled table now dead tablet) = false ->
  DeleteFile (table, lg_no, n) ∈ run_ops (gc_tablet assert_enabled table now dead tablet).
Proof.
  intros Htf Hl H1 H2. unfold gc_tablet. rewrite Htf. simpl.
  set (r := run_foldl _ _ (files_ tf)). intros Hab.
  assert (Hr : run_aborted r = false).
  { unfold run_bind in Hab. destruct (run_aborted r); [discriminate|reflexivity]. }
  assert (Hop : DeleteFile (table, lg_no, n) ∈ run_ops r).
  { destruct (run_foldl_reach (fun (m : gmap Z LgFileSet) k => m !! k)
                (gc_lg assert_enabled table tablet)
                (fun a k k' Hne => gc_lg_frame assert_enabled table tablet a k k' Hne)
                (ascending (elements (dom (files_ tf)))) (files_ tf) lg_no)
      as (a' & Hv & _ & Hops).
    - apply NoDup_ascending, NoDup_elements.
    - apply elem_of_ascending, elem_of_elements, elem_of_dom. eauto.
    - exact Hr.
    - apply Hops. apply (gc_lg_deletes table tablet a' lg_no l n); [|assumption..].
      simpl in Hv. rewrite Hv. exact Hl. }
  unfold run_bind. rewrite Hr. simpl. apply elem_of_app. left. exact Hop.
Qed.

Lemma gc_tablets_elem_of earliest (dead : gmap Z TabletFileSet) tablet tf :
  dead !! tablet = Some tf -> dead_time_ tf < earliest ->
  tablet ∈ gc_tablets earliest dead.
Proof.
  intros Htf Hlt. unfold gc_tablets.
  apply elem_of_ascending, elem_of_elements, elem_of_dom.
  exists tf. apply map_lookup_filter_Some. auto.
Qed.

Lemma DeleteTableFiles_complete table now st dead tablet tf l (f : SstFile) :
  run_aborted (DeleteTableFiles assert_enabled table now st) = false ->
  dead_tablet_files_ st !! table = Some dead ->
  dead !! tablet = Some tf ->
  dead_time_ tf < earliest_ready_time (max_ts_ st)
                    (default ∅ (live_tablet_files_ st !! table)) ->
  fst (fst f) = table ->
  files_ tf !! snd (fst f) = Some l ->
  snd f ∈ storage_files_ l -> snd f ∉ live_files_ l ->
  DeleteFile f ∈ run_ops (DeleteTableFiles assert_enabled table now st).
Proof.
  destruct f as [[table' lg_no] n]. simpl.
  intros Hab Hdead Htf Hlt -> Hl H1 H2. revert Hab.
  unfold DeleteTableFiles. simpl. rewrite Hdead. simpl. intros Hab.
  destruct (run_foldl_reach (fun (m : gmap Z TabletFileSet) k => m !! k)
              (gc_tablet assert_enabled table now)
              (fun a k k' Hne => gc_tablet_frame assert_enabled table now a k k' Hne)
              (gc_tablets (earliest_ready_time (max_ts_ st)
                             (default ∅ (live_tablet_files_ st !! table))) dead)
              dead tablet)
    as (a' & Hv & Hab' & Hops).
  - apply NoDup_ascending, NoDup_elements.
  - eapply gc_tablets_elem_of; eauto.
  - exact Hab.
  - apply Hops. apply (gc_tablet_deletes table now a' tablet tf l); auto.
    simpl in Hv. rewrite Hv. exact Htf.
Qed.

Lemma gc_lg_no_assert table tablet lg_files lg_no :
  assert_enabled = false ->
  run_aborted (gc_lg assert_enabled table tablet lg_files lg_no) = false.
Proof.
  intros ->. unfold gc_lg. destruct (lg_files !! lg_no); [|reflexivity].
  destruct (bool_decide _); [|reflexivity].
  rewrite andb_false_r. reflexivity.
Qed.

Lemma gc_tablet_no_assert table now dead tablet :
  assert_enabled = false ->
  run_aborted (gc_tablet assert_enabled table now dead tablet) = false.
Proof.
  intros Hae. unfold gc_tablet, run_bind.
  rewrite run_foldl_not_aborted by (intros; apply gc_lg_no_assert; exact Hae).
  simpl. destruct (bool_decide _); reflexivity.
Qed.

Lemma DeleteTableFiles_no_assert table now st :
  assert_enabled = false ->
  run_aborted (DeleteTableFiles assert_enabled table now st) = false.
Proof.
  intros Hae. unfold DeleteTableFiles. simpl.
  apply run_foldl_not_aborted. intros. apply gc_tablet_no_assert. exact Hae.
Qed.

End IncrementalSweepComplete.

(** X10. What [DeleteTableFiles] deletes, exactly.  Unless the assertion
    on a locality group with live files but no stored file stops it,
    which cannot happen when [assert] is compiled out, the sweep of a
    table deletes exactly the stored files that are not live of the dead
    tablets of the table whose [dead_time_] is before the earliest ready
    time of its live tablets. *)
Theorem incremental_sweep_deletes_exactly :
  forall (assert_enabled : bool) (table : string) (now : Z)
         (st : IncrementalGcStrategy.t),
    (assert_enabled = false ->
     run_aborted (IncrementalGcStrategy.DeleteTableFiles assert_enabled table now st)
       = false) /\
    (run_aborted (IncrementalGcStrategy.DeleteTableFiles assert_enabled table now st)
       = false ->
     forall f : SstFile,
       DeleteFile f ∈ run_ops (IncrementalGcStrategy.DeleteTableFiles
                                 assert_enabled table now st) <->
       exists dead tablet tf l,
         IncrementalGcStrategy.dead_tablet_files_ st !! table = Some dead /\
         dead !! tablet = Some tf /\
         IncrementalGcStrategy.dead_time_ tf
           < IncrementalGcStrategy.earliest_ready_time
               (IncrementalGcStrategy.max_ts_ st)
               (default ∅ (IncrementalGcStrategy.live_tablet_files_ st !! table)) /\
         fst (fst f) = table /\
         IncrementalGcStrategy.files_ tf !! snd (fst f) = Some l /\
         snd f ∈ IncrementalGcStrategy.storage_files_ l /\
         snd f ∉ IncrementalGcStrategy.live_files_ l).
Proof.
  intros ae table now st. split.
  - apply DeleteTableFiles_no_assert.
  - intros Hab f. split.
    + apply DeleteTableFiles_deletes.
    + intros (dead & tablet & tf & l & H1 & H2 & H3 & H4 & H5 & H6 & H7).
      eapply DeleteTableFiles_complete; eauto.
Qed.

Lemma incremental_sweep_deletes_exactly_witness :
  DeleteFile ("t", 0, 2)
    ∈ run_ops (IncrementalGcStrategy.DeleteTableFiles true "t" 9 gc_example_incremental).
Proof.
  apply (proj2 (incremental_sweep_deletes_exactly true "t" 9 gc_example_incremental)
           ltac:(vm_compute; reflexivity) ("t", 0, 2)).
  eexists _, 7, _, _. split; [reflexivity|]. split; [reflexivity|].
  split; [vm_compute; reflexivity|]. split; [reflexivity|]. split; [reflexivity|].
  simpl. split; set_solver.
Defined.

(** ** Looking rows up after the cache has changed *)

Lemma GetTabletMetaNodeForKey_found (m : gmap string TabletMetaNode) row k n :
  well_formed m -> GetTabletMetaNodeForKey m row = Some (k, n) ->
  m !! k = Some n /\ covers n row.
Proof.
  intros Hwf H. apply GetTabletMetaNodeForKey_Some in H as (Hp & Hk & Hacc).
  split; [exact Hk|]. split; [|exact Hacc].
  rewrite (well_formed_start _ _ _ Hwf Hk).
  apply prev_upper_bound_Some in Hp as (_ & Hle & _). exact Hle.
Qed.

Lemma GetTabletMetaNodeForKey_uncovered (m : gmap string TabletMetaNode) row :
  well_formed m ->
  (GetTabletMetaNodeForKey m row = None <->
   forall k n, m !! k = Some n -> ~ covers n row).
Proof.
  intros Hwf. split.
  - intros Hnone k n Hk Hc.
    rewrite (GetTabletMetaNodeForKey_covers m row k n Hwf Hk Hc) in Hnone. discriminate.
  - intros Hno. destruct (GetTabletMetaNodeForKey m row) as [[k n]|] eqn:E; [|reflexivity].
    destruct (GetTabletMetaNodeForKey_found m row k n Hwf E) as [Hk Hc].
    exfalso. exact (Hno k n Hk Hc).
Qed.

Lemma covers_set_node_end (o : TabletMetaNode) (k row : string) :
  covers (set_node_end k o) row <-> sle (node_start o) row /\ (k = "" \/ slt row k).
Proof. unfold covers, in_range. destruct o as [[? ? [? ?] ?] ? ?]. reflexivity. Qed.

Lemma covers_set_node_start (o : TabletMetaNode) (k row : string) :
  covers (set_node_start k o) row <->
  sle k row /\ (node_end o = "" \/ slt row (node_end o)).
Proof. unfold covers, in_range. destruct o as [[? ? [? ?] ?] ? ?]. reflexivity. Qed.

Section LookupAfterUpdate.
Variable m m' : gmap string TabletMetaNode.
Variable new_node : TabletMetaNode.
Hypothesis Hwf : well_formed m.
Hypothesis Hwf' : well_formed m'.
Hypothesis Hrep : replaced new_node m m'.

Lemma replaced_lookup_new row :
  covers new_node row ->
  GetTabletMetaNodeForKey m' row = Some (node_start new_node, new_node).
Proof.
  intros Hc. apply GetTabletMetaNodeForKey_covers; [exact Hwf'| |exact Hc].
  apply Hrep. left. auto.
Qed.

Lemma replaced_lookup_old row k o :
  ~ covers new_node row ->
  m !! k = Some o -> covers o row ->
  exists k' n', m' !! k' = Some n' /\ covers n' row /\
    cut_of (node_start new_node) (node_end new_node) o n'.
Proof.
  intros Hout Hk [Hs He].
  destruct (decide (apart (node_start new_node) (node_end new_node) o)) as [Hap|Hnap].
  - exists k, o. split; [apply Hrep; right; left; eauto|].
    split; [split; assumption|]. left. reflexivity.
  - assert (Hside : slt row (node_start new_node) \/
                    (node_end new_node <> "" /\ sle (node_end new_node) row)).
    { unfold covers, in_range in Hout.
      destruct (decide (slt row (node_start new_node))) as [H|H]; [auto|].
      right. destruct (decide (node_end new_node = "")) as [E|E].
      - exfalso. apply Hout. split; [sorder|auto].
      - split; [exact E|].
        destruct (decide (sle (node_end new_node) row)) as [H'|H']; [exact H'|].
        exfalso. apply Hout. split; [sorder|right; sorder]. }
    destruct Hside as [Hlt|[Hne Hge]].
    + exists k, (set_node_end (node_start new_node) o).
      split; [|split; [|right; left; reflexivity]].
      * apply Hrep. right. right. left. exists o.
        split; [exact Hk|]. split; [exact Hnap|]. split; [sorder|reflexivity].
      * apply (covers_set_node_end o (node_start new_node) row). split; [exact Hs|]. right. exact Hlt.
    + exists (node_end new_node), (set_node_start (node_end new_node) o).
      split; [|split; [|right; right; reflexivity]].
      * apply Hrep. right. right. right. split; [reflexivity|].
        exists k, o. split; [exact Hk|]. split; [exact Hnap|].
        split; [|reflexivity]. split; [exact Hne|].
        destruct He as [He|He]; [left; exact He|right; sorder].
      * apply (covers_set_node_start o (node_end new_node) row). split; [exact Hge|exact He].
Qed.

Lemma replaced_origin_covers row k' n' :
  ~ covers new_node row ->
  m' !! k' = Some n' -> covers n' row ->
  exists k o, m !! k = Some o /\ covers o row.
Proof.
  intros Hout Hk' Hc.
  apply Hrep in Hk'
    as [[_ ->]|[(o & Hk & _ & ->)|[(o & Hk & Hnap & Hlt & ->)|(_ & k0 & o & Hk & Hnap & Hst & ->)]]].
  - contradiction.
  - eauto.
  - destruct (proj1 (covers_set_node_end o (node_start new_node) row) Hc) as [Hs He].
    exists k', o. split; [exact Hk|].
    split; [exact Hs|].
    destruct He as [He|He]; [rewrite He in Hlt; exfalso; exact (not_slt_empty_r _ Hlt)|].
    destruct (decide (node_end o = "")) as [E|E]; [left; exact E|]. right.
    destruct (decide (slt row (node_end o))) as [H|H]; [exact H|]. exfalso.
    apply Hnap. left. split; [exact E|]. sorder.
  - destruct (proj1 (covers_set_node_start o (node_end new_node) row) Hc) as [Hs He].
    exists k0, o. split; [exact Hk|].
    split; [|exact He]. destruct Hst as [Hne _].
    destruct (decide (sle (node_start o) row)) as [H|H]; [exact H|]. exfalso.
    apply Hnap. right. split; [exact Hne|]. sorder.
Qed.

(** A row outside the new range is served by the node that served it, or
    by what is left of it, and by none if none served it. *)
Lemma replaced_lookup_outside row :
  ~ covers new_node row ->
  option_Forall2
    (fun kn kn' => cut_of (node_start new_node) (node_end new_node) (snd kn) (snd kn'))
    (GetTabletMetaNodeForKey m row) (GetTabletMetaNodeForKey m' row).
Proof.
  intros Hout. destruct (GetTabletMetaNodeForKey m row) as [[k o]|] eqn:E.
  - destruct (GetTabletMetaNodeForKey_found m row k o Hwf E) as [Hk Hc].
    destruct (replaced_lookup_old row k o Hout Hk Hc) as (k' & n' & Hk' & Hc' & Hcut).
    rewrite (GetTabletMetaNodeForKey_covers m' row k' n' Hwf' Hk' Hc').
    constructor. exact Hcut.
  - assert (GetTabletMetaNodeForKey m' row = None) as ->; [|constructor].
    apply GetTabletMetaNodeForKey_uncovered; [exact Hwf'|].
    intros k' n' Hk' Hc'.
    destruct (replaced_origin_covers row k' n' Hout Hk' Hc') as (k & o & Hk & Hc).
    apply (proj1 (GetTabletMetaNodeForKey_uncovered m row Hwf) E k o Hk Hc).
Qed.

End LookupAfterUpdate.

Lemma UpdateTabletMetaList_replaced new_meta now st :
  well_formed (tablet_meta_list_ st) -> valid_range new_meta ->
  well_formed (tablet_meta_list_ (UpdateTabletMetaList new_meta now st)) /\
  replaced {| meta := new_meta; update_time := now; status := NORMAL |}
    (tablet_meta_list_ st)
    (tablet_meta_list_ (UpdateTabletMetaList new_meta now st)).
Proof.
  intros Hwf Hvalid.
  set (new_node := {| meta := new_meta; update_time := now; status := NORMAL |}).
  destruct (insert_meta_node_replaced (tablet_meta_list_ st) (node_start new_node)
              (node_end new_node) Hwf Hvalid new_meta now eq_refl eq_refl)
    as (m' & Hins & Hrep).
  fold new_node in Hrep.
  assert (Hcache : tablet_meta_list_ (UpdateTabletMetaList new_meta now st) = m').
  { unfold UpdateTabletMetaList. rewrite Hins. rewrite WakeUpPendingRequest_cache.
    reflexivity. }
  rewrite Hcache. split; [|exact Hrep].
  exact (replaced_well_formed _ _ new_node Hwf Hvalid Hrep).
Qed.

(** X11. Looking a row up after the cache was updated.  Let the cache be
    well formed and the range of the new record not be empty.  After
    [UpdateTabletMetaList] the lookup of every row of the new range finds
    the new record, with status [NORMAL] and the time of the update; the
    lookup of any other row finds the node it found before, whole or cut
    at the start or the end of the new range, so with the same server,
    update time and status, and finds none if it found none before. *)
Theorem lookup_after_UpdateTabletMetaList (new_meta : TabletMeta.t) (now : Z) (st : t) :
  let new_node := {| meta := new_meta; update_time := now; status := NORMAL |} in
  let st' := UpdateTabletMetaList new_meta now st in
  well_formed (tablet_meta_list_ st) ->
  valid_range new_meta ->
  (forall row, covers new_node row ->
     GetTabletMetaNodeForKey (tablet_meta_list_ st') row
     = Some (node_start new_node, new_node) /\
     GetTabletMetaForKey row st' = Some new_meta) /\
  (forall row, ~ covers new_node row ->
     option_Forall2
       (fun kn kn' => cut_of (node_start new_node) (node_end new_node) (snd kn) (snd kn'))
       (GetTabletMetaNodeForKey (tablet_meta_list_ st) row)
       (GetTabletMetaNodeForKey (tablet_meta_list_ st') row)).
Proof.
  intros new_node st' Hwf Hvalid.
  destruct (UpdateTabletMetaList_replaced new_meta now st Hwf Hvalid) as [Hwf' Hrep].
  fold new_node st' in Hwf', Hrep. split.
  - intros row Hc.
    pose proof (replaced_lookup_new _ _ _ Hwf' Hrep row Hc) as H.
    split; [exact H|]. unfold GetTabletMetaForKey. rewrite H. reflexivity.
  - intros row Hout. exact (replaced_lookup_outside _ _ _ Hwf Hwf' Hrep row Hout).
Qed.

Lemma lookup_after_UpdateTabletMetaList_witness :
  GetTabletMetaForKey "c" (UpdateTabletMetaList example_new_meta 200
                             (example_cached NORMAL)) = Some example_new_meta.
Proof.
  apply (lookup_after_UpdateTabletMetaList example_new_meta 200 (example_cached NORMAL)).
  - apply well_formed_singleton; [reflexivity|left; reflexivity].
  - right. reflexivity.
  - split; [reflexivity|right; reflexivity].
Defined.

Lemma serves_cut_of r now new_start new_end o n' :
  serves r now o -> cut_of new_start new_end o n' -> serves r now n'.
Proof.
  intros Hs [->|[->| ->]]; [exact Hs| |];
    destruct o as [[? ? [? ?] ?] ? ?]; exact Hs.
Qed.

Lemma served_after_updates r now row metas : forall st k o,
  well_formed (tablet_meta_list_ st) -> Forall valid_range metas ->
  GetTabletMetaNodeForKey (tablet_meta_list_ st) row = Some (k, o) ->
  serves r now o ->
  (forall r', r' ∈ metas -> ~ in_record r' row) ->
  exists k' n',
    GetTabletMetaNodeForKey
      (tablet_meta_list_ (foldl (fun s m => UpdateTabletMetaList m now s) st metas)) row
    = Some (k', n') /\ serves r now n'.
Proof.
  induction metas as [|r0 metas IH]; intros st k o Hwf Hvalid Hget Hs Hout; simpl.
  - eauto.
  - apply Forall_cons in Hvalid as [Hv0 Hvalid].
    destruct (UpdateTabletMetaList_replaced r0 now st Hwf Hv0) as [Hwf' Hrep].
    pose proof (replaced_lookup_outside _ _ _ Hwf Hwf' Hrep row) as Hl.
    rewrite Hget in Hl.
    assert (Hno : ~ covers {| meta := r0; update_time := now; status := NORMAL |} row)
      by (apply (Hout r0); left).
    specialize (Hl Hno). inversion Hl as [kn kn' Hcut Heq1 Heq2|]. subst kn.
    destruct kn' as [k' n']. simpl in Hcut.
    apply (IH _ k' n' Hwf' Hvalid); [congruence| |].
    + eapply serves_cut_of; eauto.
    + intros r' Hr'. apply Hout. right. exact Hr'.
Qed.

Lemma lookup_upgraded (m m' : gmap string TabletMetaNode) row k n :
  well_formed m -> same_ranges m m' -> upgraded m m' ->
  GetTabletMetaNodeForKey m row = Some (k, n) -> status n = NORMAL ->
  GetTabletMetaNodeForKey m' row = Some (k, n).
Proof.
  intros Hwf Hsame Hup Hget Hst.
  destruct (GetTabletMetaNodeForKey_found m row k n Hwf Hget) as [Hk Hc].
  destruct (Hup k n Hk) as (n' & Hk' & [->|[Hw _]]); [|congruence].
  apply GetTabletMetaNodeForKey_covers; [|exact Hk'|exact Hc].
  eapply same_ranges_well_formed; eauto.
Qed.

Lemma well_formed_after_updates now metas : forall st,
  well_formed (tablet_meta_list_ st) -> Forall valid_range metas ->
  well_formed (tablet_meta_list_ (foldl (fun s m => UpdateTabletMetaList m now s) st metas)).
Proof.
  induction metas as [|r0 metas IH]; intros st Hwf Hvalid; simpl; [exact Hwf|].
  apply Forall_cons in Hvalid as [Hv0 Hvalid].
  apply IH; [|exact Hvalid]. apply UpdateTabletMetaList_well_formed; assumption.
Qed.

Lemma foldl_app_cons {A B} (f : A -> B -> A) (a : A) (l1 : list B) (x : B) (l2 : list B) :
  foldl f a (l1 ++ x :: l2) = foldl f (f (foldl f a l1) x) l2.
Proof. rewrite foldl_app. reflexivity. Qed.

(** X12. What a scan of the meta table leaves in the cache.  Let the
    cache be well formed, the RPC have succeeded with status
    [kTabletNodeOk], and the records returned have ranges that are not
    empty.  After [ScanMetaTableCallBack] every row of the range of a
    returned record that no later record of the response covers is looked
    up to a node with the server, table and path of that record, the time
    of the callback and status [NORMAL]. *)
Theorem scan_callback_serves_records
    (key_start key_end expand_key_end : string) (response : ScanTabletResponse)
    (error_code : RpcErrorCode) (now : Z) (st : t)
    (pre post : list TabletMeta.t) (r : TabletMeta.t) (row : string) :
  well_formed (tablet_meta_list_ st) ->
  response_status response = kTabletNodeOk ->
  Forall valid_range (results response) ->
  results response = (pre ++ r :: post)%list ->
  in_record r row ->
  (forall r', r' ∈ post -> ~ in_record r' row) ->
  exists k n,
    GetTabletMetaNodeForKey
      (tablet_meta_list_
         (ScanMetaTableCallBack key_start key_end expand_key_end response false
            error_code now st)) row
    = Some (k, n) /\ serves r now n.
Proof.
  intros Hwf Hok Hvalid Hres Hin Hpost.
  unfold ScanMetaTableCallBack. rewrite Hok. simpl is_ok. simpl negb. cbv iota.
  set (st1 := foldl (fun s m => UpdateTabletMetaList m now s) st (results response)).
  assert (Hwf1 : well_formed (tablet_meta_list_ st1))
    by (apply well_formed_after_updates; assumption).
  assert (H1 : exists k n,
            GetTabletMetaNodeForKey (tablet_meta_list_ st1) row = Some (k, n) /\
            serves r now n).
  { subst st1. rewrite Hres in *. rewrite foldl_app_cons.
    apply Forall_app in Hvalid as [Hvpre Hvalid].
    apply Forall_cons in Hvalid as [Hvr Hvpost].
    set (st0 := foldl (fun s m => UpdateTabletMetaList m now s) st pre).
    assert (Hwf0 : well_formed (tablet_meta_list_ st0))
      by (apply well_formed_after_updates; assumption).
    destruct (UpdateTabletMetaList_replaced r now st0 Hwf0 Hvr) as [Hwfr Hrep].
    pose proof (replaced_lookup_new _ _ _ Hwfr Hrep row Hin) as Hget.
    apply (served_after_updates r now row post _ _ _ Hwfr Hvpost Hget); [|exact Hpost].
    repeat split. }
  destruct H1 as (k & n & Hget & Hs).
  exists k, n. split; [|exact Hs].
  destruct (_ || _); [rewrite ScanMetaTableAsync_cache; exact Hget|].
  destruct (_ && _).
  - destruct (complete response); [exact Hget|].
    rewrite ScanMetaTableAsync_cache. exact Hget.
  - set (st2 := set_meta_updating_count_ _ st1).
    apply (lookup_upgraded (tablet_meta_list_ st2)); auto.
    + apply UpdateMetaAsync_same_ranges.
    + apply UpdateMetaAsync_upgraded.
    + apply Hs.
Qed.

Lemma scan_callback_serves_records_witness :
  exists k n,
    GetTabletMetaNodeForKey
      (tablet_meta_list_
         (ScanMetaTableCallBack "b" "d" "d" example_scan_response false
            RPC_ERROR_OTHER 200 (example_cached NORMAL))) "c"
    = Some (k, n) /\ serves example_new_meta 200 n.
Proof.
  apply (scan_callback_serves_records "b" "d" "d" example_scan_response RPC_ERROR_OTHER
           200 (example_cached NORMAL) [] [] example_new_meta "c").
  - apply well_formed_singleton; [reflexivity|left; reflexivity].
  - reflexivity.
  - constructor; [right; reflexivity|constructor].
  - reflexivity.
  - split; [reflexivity|right; reflexivity].
  - intros r' Hr'. inversion Hr'.
Defined.

(** ** Requests for rows the cache cannot serve *)

Lemma ScanMetaTableAsync_pending a b c z st :
  pending_task_id_list_ (ScanMetaTableAsync a b c z st) = pending_task_id_list_ st /\
  task_pool_ (ScanMetaTableAsync a b c z st) = task_pool_ st.
Proof. unfold ScanMetaTableAsync. destruct (_ || _); split; reflexivity. Qed.

Lemma UpdateMetaAsync_pending st :
  pending_task_id_list_ (UpdateMetaAsync st) = pending_task_id_list_ st /\
  task_pool_ (UpdateMetaAsync st) = task_pool_ st.
Proof.
  unfold UpdateMetaAsync. destruct (_ <=? _); [split; reflexivity|].
  destruct (foldl _ _ _) as [m p].
  destruct (check_failed p); [split; reflexivity|].
  destruct (negb (need_update p)); [split; reflexivity|].
  destruct (ScanMetaTableAsync_pending (update_start_key p) (update_end_key p)
              (update_expand_end_key p) false
              (set_meta_updating_count_
                 (uint32 (meta_updating_count_ (set_tablet_meta_list_ m st) + 1))
                 (set_tablet_meta_list_ m st))) as [H1 H2].
  rewrite H1, H2. split; reflexivity.
Qed.

Lemma schedule_node_update_pending k node now st :
  pending_task_id_list_ (schedule_node_update k node now st) = pending_task_id_list_ st /\
  task_pool_ (schedule_node_update k node now st) = task_pool_ st.
Proof.
  unfold schedule_node_update. destruct (_ <=? 0).
  - destruct (UpdateMetaAsync_pending (set_status_at k WAIT_UPDATE st)) as [H1 H2].
    rewrite H1, H2. split; reflexivity.
  - split; reflexivity.
Qed.

(** A request that gets no address is queued under its row. *)
Lemma GetTabletAddrOrScheduleUpdateMeta_queued row task now st :
  snd (GetTabletAddrOrScheduleUpdateMeta row task now st) = None ->
  pending_task_id_list_ (fst (GetTabletAddrOrScheduleUpdateMeta row task now st)) !! row
  = Some (default [] (pending_task_id_list_ st !! row) ++ [task_id task])%list /\
  task_pool_ (fst (GetTabletAddrOrScheduleUpdateMeta row task now st)) = task_pool_ st.
Proof.
  unfold GetTabletAddrOrScheduleUpdateMeta.
  destruct (GetTabletMetaNodeForKey _ _) as [[k node]|]; simpl.
  - destruct (negb _); simpl.
    + intros _. rewrite lookup_insert_eq. split; reflexivity.
    + destruct (_ && _); simpl; [|discriminate]. intros _.
      destruct (schedule_node_update_pending k node now
                  (push_pending row (task_id task) st)) as [H1 H2].
      rewrite H1, H2. simpl. rewrite lookup_insert_eq. split; reflexivity.
  - intros _.
    destruct (UpdateMetaAsync_pending
                (add_wait_node row (push_pending row (task_id task) st))) as [H1 H2].
    rewrite H1, H2. simpl. rewrite lookup_insert_eq. split; reflexivity.
Qed.

Lemma UpdateTabletMetaList_dispatches new_meta now st row ids id task :
  well_formed (tablet_meta_list_ st) -> valid_range new_meta ->
  in_record new_meta row ->
  pending_task_id_list_ st !! row = Some ids -> id ∈ ids ->
  task_pool_ st !! id = Some task ->
  dispatched (TabletMeta.server_addr new_meta) task st (UpdateTabletMetaList new_meta now st).
Proof.
  intros Hwf Hvalid Hin Hrow Hid Htask.
  destruct (insert_meta_node_replaced (tablet_meta_list_ st) _ _ Hwf Hvalid
              new_meta now eq_refl eq_refl) as (m' & Hins & _).
  unfold UpdateTabletMetaList. rewrite Hins.
  exact (WakeUpPendingRequest_dispatched
           {| meta := new_meta; update_time := now; status := NORMAL |}
           (set_tablet_meta_list_ m' st) row ids id task Hrow Hin Hid Htask).
Qed.

(** X13. A row the cache cannot serve.  Let the cache be well formed and
    hold no node for [row].  [GetTabletAddrOrScheduleUpdateMeta] then
    returns no address, appends the task to the pending list of the row
    and puts a node for the range from [row] to [row + '\0'] in the cache,
    which stays well formed; the lookup of the row finds that node,
    waiting for a scan or being scanned, so that another request for the
    row is queued and does nothing else. *)
Theorem unknown_row_waits_for_meta (row : string) (task : SdkTask) (now : Z) (st : t) :
  let r := GetTabletAddrOrScheduleUpdateMeta row task now st in
  well_formed (tablet_meta_list_ st) ->
  GetTabletMetaNodeForKey (tablet_meta_list_ st) row = None ->
  snd r = None /\
  pending_task_id_list_ (fst r) !! row
  = Some (default [] (pending_task_id_list_ st !! row) ++ [task_id task])%list /\
  well_formed (tablet_meta_list_ (fst r)) /\
  (exists n,
     GetTabletMetaNodeForKey (tablet_meta_list_ (fst r)) row = Some (row, n) /\
     node_start n = row /\ node_end n = append0 row /\
     (status n = WAIT_UPDATE \/ status n = UPDATING)) /\
  (forall task' now',
     GetTabletAddrOrScheduleUpdateMeta row task' now' (fst r)
     = (push_pending row (task_id task') (fst r), None)).
Proof.
  intros r Hwf Hnone.
  assert (Hr : r = (UpdateMetaAsync (add_wait_node row (push_pending row (task_id task) st)),
                    None)).
  { subst r. unfold GetTabletAddrOrScheduleUpdateMeta. rewrite Hnone. reflexivity. }
  assert (Hsnd : snd r = None) by (rewrite Hr; reflexivity).
  destruct (GetTabletAddrOrScheduleUpdateMeta_queued row task now st Hsnd) as [Hpend _].
  pose proof (GetTabletAddrOrScheduleUpdateMeta_well_formed row task now st Hwf) as Hwf'.
  fold r in Hpend, Hwf'.
  assert (Hnode : exists n,
            GetTabletMetaNodeForKey (tablet_meta_list_ (fst r)) row = Some (row, n) /\
            node_start n = row /\ node_end n = append0 row /\
            (status n = WAIT_UPDATE \/ status n = UPDATING)).
  { set (st1 := add_wait_node row (push_pending row (task_id task) st)).
    set (n0 := set_node_status WAIT_UPDATE
                 (set_node_end (append0 row)
                    (set_node_start row
                       (default default_node (tablet_meta_list_ st !! row))))).
    assert (Hn0 : tablet_meta_list_ st1 !! row = Some n0)
      by (subst st1 n0; unfold add_wait_node; simpl; rewrite lookup_insert_eq; reflexivity).
    destruct (UpdateMetaAsync_upgraded st1 row n0 Hn0) as (n & Hn & Hcase).
    assert (Hshape : node_start n = row /\ node_end n = append0 row /\
                     (status n = WAIT_UPDATE \/ status n = UPDATING)).
    { destruct Hcase as [->|[_ ->]]; subst n0;
        destruct (default default_node (tablet_meta_list_ st !! row)) as [[? ? [? ?] ?] ? ?];
        simpl; auto. }
    exists n. split; [|exact Hshape]. rewrite Hr. simpl. fold st1.
    rewrite Hr in Hwf'. simpl in Hwf'. fold st1 in Hwf'.
    apply GetTabletMetaNodeForKey_covers; [exact Hwf'|exact Hn|].
    destruct Hshape as (Hs & He & _). split.
    - rewrite Hs. sorder.
    - right. rewrite He. apply slt_append0. }
  split; [exact Hsnd|]. split; [exact Hpend|]. split; [exact Hwf'|].
  split; [exact Hnode|].
  intros task' now'. destruct Hnode as (n & Hget & _ & _ & Hst).
  unfold GetTabletAddrOrScheduleUpdateMeta. rewrite Hget.
  assert (status_eqb (status n) NORMAL = false) as ->; [|reflexivity].
  apply status_eqb_neq. destruct Hst as [-> | ->]; discriminate.
Qed.

Lemma unknown_row_waits_for_meta_witness :
  snd (GetTabletAddrOrScheduleUpdateMeta "a" (example_task MUTATION 1 "a" true) 0
         (init example_config)) = None.
Proof.
  apply (unknown_row_waits_for_meta "a" (example_task MUTATION 1 "a" true) 0
           (init example_config)).
  - apply well_formed_empty.
  - reflexivity.
Defined.

(** X14. A queued request is served when the meta arrives.  When
    [GetTabletAddrOrScheduleUpdateMeta] returns no address for the row of
    a task, whatever the reason, the task is at the end of the pending
    list of the row and the pool is as it was; if the task is in the pool,
    the cache is well formed and a record with a range that is not empty
    and holds the row is put in by [UpdateTabletMetaList], the task is
    dispatched to the server of the record: a scan is handed to
    [CommitScan], a mutation or a read is in a batch of that server that
    is committed or stored. *)
Theorem queued_task_served_when_meta_arrives (row : string) (task task0 : SdkTask)
    (now now' : Z) (st : t) (new_meta : TabletMeta.t) :
  let r := GetTabletAddrOrScheduleUpdateMeta row task now st in
  well_formed (tablet_meta_list_ st) ->
  snd r = None ->
  task_pool_ st !! task_id task = Some task0 ->
  valid_range new_meta -> in_record new_meta row ->
  (exists ids, pending_task_id_list_ (fst r) !! row = Some (ids ++ [task_id task])%list) /\
  task_pool_ (fst r) = task_pool_ st /\
  dispatched (TabletMeta.server_addr new_meta) task0 (fst r)
    (UpdateTabletMetaList new_meta now' (fst r)).
Proof.
  intros r Hwf Hsnd Hpool Hvalid Hin.
  destruct (GetTabletAddrOrScheduleUpdateMeta_queued row task now st Hsnd) as [Hpend Hp].
  fold r in Hpend, Hp. split; [eauto|]. split; [exact Hp|].
  eapply (UpdateTabletMetaList_dispatches new_meta now' (fst r) row _ (task_id task) task0).
  - apply GetTabletAddrOrScheduleUpdateMeta_well_formed. exact Hwf.
  - exact Hvalid.
  - exact Hin.
  - exact Hpend.
  - apply elem_of_app. right. left.
  - rewrite Hp. exact Hpool.
Qed.

Lemma queued_task_served_when_meta_arrives_witness :
  let st1 := fst (GetTabletAddrOrScheduleUpdateMeta "c" (example_task MUTATION 1 "c" true) 0
                    example_registered) in
  dispatched "ts2" (example_task MUTATION 1 "c" true) st1
    (UpdateTabletMetaList example_new_meta 200 st1).
Proof.
  apply (queued_task_served_when_meta_arrives "c" (example_task MUTATION 1 "c" true)
           (example_task MUTATION 1 "c" true) 0 200 example_registered example_new_meta).
  - apply well_formed_empty.
  - reflexivity.
  - reflexivity.
  - right. reflexivity.
  - split; [reflexivity|right; reflexivity].
Defined.

(** ** Giving up on a scan of the meta table *)




(** ** UpdateMetaAsync: which scan is started *)

Lemma set_tablet_meta_list_same st : set_tablet_meta_list_ (tablet_meta_list_ st) st = st.
Proof. destruct st; reflexivity. Qed.

(** The rounds on nodes that do not wait, before any node was taken. *)
Lemma update_meta_steps_idle (ks : list string) (m : gmap string TabletMetaNode)
    (p : UpdatePlan) :
  need_update p = false -> stopped p = false ->
  (forall k n, k ∈ ks -> m !! k = Some n -> status n <> WAIT_UPDATE) ->
  foldl update_meta_step (m, p) ks = (m, p).
Proof.
  intros Hneed Hstop. induction ks as [|k ks IH]; intros Hidle; [reflexivity|].
  cbn [foldl]. assert (update_meta_step (m, p) k = (m, p)) as ->.
  { unfold update_meta_step. rewrite Hstop.
    destruct (m !! k) as [n|] eqn:E; [|reflexivity].
    assert (Hs : status_eqb (status n) WAIT_UPDATE = false).
    { apply status_eqb_neq. apply (Hidle k n); [left|exact E]. }
    rewrite Hs, Hneed. reflexivity. }
  apply IH. intros k' n' Hk'. apply Hidle. right. exact Hk'.
Qed.

(** The rounds after a node was taken keep it and the start of the scan. *)
Lemma update_meta_steps_started (k0 : string) (ks : list string) :
  k0 ∉ ks -> forall m p,
  need_update p = true ->
  let r := foldl update_meta_step (m, p) ks in
  need_update (snd r) = true /\ update_start_key (snd r) = update_start_key p /\
  fst r !! k0 = m !! k0.
Proof.
  induction ks as [|k ks IH]; intros Hnin m p Hneed; cbn [foldl]; [simpl; auto|].
  apply not_elem_of_cons in Hnin as [Hne Hnin].
  assert (Hstep : need_update (snd (update_meta_step (m, p) k)) = true /\
                  update_start_key (snd (update_meta_step (m, p) k)) = update_start_key p /\
                  fst (update_meta_step (m, p) k) !! k0 = m !! k0).
  { unfold update_meta_step. destruct (stopped p); [auto|].
    destruct (m !! k) as [n|]; [|auto]. rewrite Hneed.
    destruct (negb (status_eqb (status n) WAIT_UPDATE)); simpl; [auto|].
    destruct (String.eqb _ _); simpl; [|auto].
    rewrite lookup_alter_ne by done. auto. }
  destruct (update_meta_step (m, p) k) as [m1 p1]. simpl in Hstep.
  destruct Hstep as (H1 & H2 & H3).
  destruct (IH Hnin m1 p1 H1) as (H4 & H5 & H6).
  split; [exact H4|]. split; congruence.
Qed.

Lemma sorted_keys_split (m : gmap string TabletMetaNode) (k0 : string) :
  is_Some (m !! k0) ->
  exists l1 l2, sorted_keys m = (l1 ++ k0 :: l2)%list /\
    (forall k, k ∈ l1 -> slt k k0) /\ k0 ∉ l2.
Proof.
  intros Hk0. apply elem_of_sorted_keys in Hk0.
  apply list_elem_of_split in Hk0 as (l1 & l2 & Heq).
  exists l1, l2. split; [exact Heq|].
  pose proof (sorted_keys_sorted m) as Hs. pose proof (NoDup_sorted_keys m) as Hn.
  rewrite Heq in Hs, Hn.
  apply NoDup_app in Hn as (_ & Hd & Hn). apply NoDup_cons in Hn as [Hn _].
  split; [|exact Hn]. intros k Hk.
  assert (Hlek : sle k k0)
    by (apply (StronglySorted_app_1_elem_of sle l1 (k0 :: l2) k k0 Hs Hk); left).
  assert (Hnek : k <> k0) by (intros ->; apply (Hd k0 Hk); left).
  sorder.
Qed.

Section FirstWaiting.
Variable st : t.
Hypothesis Hcap : meta_updating_count_ st
                  < uint32 (FLAGS_tera_sdk_update_meta_concurrency (config st)).

Lemma UpdateMetaAsync_none_waiting :
  none_waiting (tablet_meta_list_ st) -> UpdateMetaAsync st = st.
Proof.
  intros Hnone. unfold UpdateMetaAsync.
  destruct (Z.leb_spec (uint32 (FLAGS_tera_sdk_update_meta_concurrency (config st)))
              (meta_updating_count_ st)); [reflexivity|].
  rewrite update_meta_steps_idle; [|reflexivity|reflexivity|].
  - simpl. apply set_tablet_meta_list_same.
  - intros k n _ Hk. exact (Hnone k n Hk).
Qed.

Lemma UpdateMetaAsync_first_waiting k0 n0 :
  first_waiting (tablet_meta_list_ st) k0 n0 ->
  tablet_meta_list_ (UpdateMetaAsync st) !! k0 = Some (set_node_status UPDATING n0) /\
  (aborted (UpdateMetaAsync st) = false ->
   meta_updating_count_ (UpdateMetaAsync st) = uint32 (meta_updating_count_ st + 1) /\
   exists end_key expand_end_key,
     log (UpdateMetaAsync st)
     = (log st ++ [EvScanMetaTableAsync (node_start n0) end_key expand_end_key false])%list).
Proof.
  intros (Hk0 & Hw & Hfirst). unfold UpdateMetaAsync.
  destruct (Z.leb_spec (uint32 (FLAGS_tera_sdk_update_meta_concurrency (config st)))
              (meta_updating_count_ st)); [lia|].
  destruct (sorted_keys_split (tablet_meta_list_ st) k0) as (l1 & l2 & Heq & Hl1 & Hl2);
    [eauto|].
  rewrite Heq, foldl_app. cbn [foldl].
  rewrite update_meta_steps_idle; [|reflexivity|reflexivity|].
  2:{ intros k n Hk Hn. apply (Hfirst k n Hn). apply Hl1. exact Hk. }
  assert (Hstep : update_meta_step
                    (tablet_meta_list_ st,
                     {| need_update := false; update_start_key := "";
                        update_end_key := ""; update_expand_end_key := "";
                        stopped := false; check_failed := false |}) k0
                  = (alter (set_node_status UPDATING) k0 (tablet_meta_list_ st),
                     {| need_update := true; update_start_key := node_start n0;
                        update_end_key := node_end n0; update_expand_end_key := "";
                        stopped := false; check_failed := false |})).
  { unfold update_meta_step. simpl. rewrite Hk0.
    assert (status_eqb (status n0) WAIT_UPDATE = true) as -> by (apply status_eqb_eq; exact Hw).
    reflexivity. }
  rewrite Hstep.
  destruct (update_meta_steps_started k0 l2 Hl2
              (alter (set_node_status UPDATING) k0 (tablet_meta_list_ st))
              {| need_update := true; update_start_key := node_start n0;
                 update_end_key := node_end n0; update_expand_end_key := "";
                 stopped := false; check_failed := false |} eq_refl)
    as (Hneed & Hstart & Hnode).
  destruct (foldl update_meta_step _ l2) as [m p]. simpl in Hneed, Hstart, Hnode.
  rewrite lookup_alter_eq, Hk0 in Hnode. simpl in Hnode.
  destruct (check_failed p).
  - simpl. split; [exact Hnode|]. discriminate.
  - rewrite Hneed. simpl. rewrite ScanMetaTableAsync_cache. simpl.
    split; [exact Hnode|].
    unfold ScanMetaTableAsync. destruct (_ || _); simpl; [|discriminate].
    intros _. split; [reflexivity|]. rewrite Hstart. eauto.
Qed.

End FirstWaiting.

(** X16. Which scan [UpdateMetaAsync] starts.  At the cap of concurrent
    scans, or when no node waits for a scan, the call changes nothing.
    Below the cap, the first node in the order of the keys that waits
    becomes [UPDATING]; unless a [CHECK] stops the client, the count of
    scans goes up by one and one scan of the meta table is started, from
    the start key of that node. *)
Theorem UpdateMetaAsync_scans_first_waiting (st : t) :
  (uint32 (FLAGS_tera_sdk_update_meta_concurrency (config st)) <= meta_updating_count_ st
   \/ none_waiting (tablet_meta_list_ st) ->
   UpdateMetaAsync st = st) /\
  (forall k0 n0,
     meta_updating_count_ st
       < uint32 (FLAGS_tera_sdk_update_meta_concurrency (config st)) ->
     first_waiting (tablet_meta_list_ st) k0 n0 ->
     tablet_meta_list_ (UpdateMetaAsync st) !! k0 = Some (set_node_status UPDATING n0) /\
     (aborted (UpdateMetaAsync st) = false ->
      meta_updating_count_ (UpdateMetaAsync st) = uint32 (meta_updating_count_ st + 1) /\
      exists end_key expand_end_key,
        log (UpdateMetaAsync st)
        = (log st ++ [EvScanMetaTableAsync (node_start n0) end_key expand_end_key false])%list)).
Proof.
  split.
  - intros [Hcap|Hnone].
    + unfold UpdateMetaAsync.
      destruct (Z.leb_spec (uint32 (FLAGS_tera_sdk_update_meta_concurrency (config st)))
                  (meta_updating_count_ st)); [reflexivity|lia].
    + destruct (Z.leb_spec (uint32 (FLAGS_tera_sdk_update_meta_concurrency (config st)))
                  (meta_updating_count_ st)) as [Hc|Hc].
      * unfold UpdateMetaAsync.
        destruct (Z.leb_spec (uint32 (FLAGS_tera_sdk_update_meta_concurrency (config st)))
                    (meta_updating_count_ st)); [reflexivity|lia].
      * apply UpdateMetaAsync_none_waiting; assumption.
  - intros k0 n0 Hcap Hfirst. apply UpdateMetaAsync_first_waiting; assumption.
Qed.

Lemma UpdateMetaAsync_scans_first_waiting_witness :
  exists n0,
    first_waiting (tablet_meta_list_ example_one_waiting) "c" n0 /\
    tablet_meta_list_ (UpdateMetaAsync example_one_waiting) !! "c"
    = Some (set_node_status UPDATING n0).
Proof.
  eexists. split.
  - split; [reflexivity|]. split; [reflexivity|].
    intros k' n' Hk' Hlt. unfold example_one_waiting, add_wait_node in Hk'. simpl in Hk'.
    apply lookup_insert_Some in Hk' as [[<- _]|[_ Hk']].
    + exfalso. exact (slt_irrefl _ Hlt).
    + rewrite lookup_empty in Hk'. discriminate.
  - apply (proj2 (UpdateMetaAsync_scans_first_waiting example_one_waiting) "c").
    + vm_compute. reflexivity.
    + split; [reflexivity|]. split; [reflexivity|].
      intros k' n' Hk' Hlt. unfold example_one_waiting, add_wait_node in Hk'. simpl in Hk'.
      apply lookup_insert_Some in Hk' as [[<- _]|[_ Hk']].
      * exfalso. exact (slt_irrefl _ Hlt).
      * rewrite lookup_empty in Hk'. discriminate.
Defined.

(** ** Batches: no row is lost *)

Lemma rows_committed_app server (l1 l2 : list Event) :
  rows_committed server (l1 ++ l2)
  = (rows_committed server l1 ++ rows_committed server l2)%list.
Proof. unfold rows_committed. rewrite mutation_commits_app. apply flat_map_app. Qed.

Lemma pack_mutation_conserves server flush last st mu :
  let st' := pack_mutation server flush last st mu in
  (rows_committed server (log st') ++ rows_stored server st')%list
  = (rows_committed server (log st) ++ rows_stored server st ++ [task_id mu])%list /\
  (forall s, s <> server ->
     rows_committed s (log st') = rows_committed s (log st) /\
     mutation_batch_map_ st' !! s = mutation_batch_map_ st !! s) /\
  (last = true -> flush = true -> rows_stored server st' = []).
Proof.
  pose proof (pack_mutation_spec server flush last st mu) as H. cbv zeta in H |- *.
  destruct H as (Hdue & Hnot & Hother).
  set (due := kMaxRpcSize (config st)
              <= uint64 (from_option byte_size 0 (mutation_batch_map_ st !! server)
                         + task_size mu) \/
              (last = true /\
               (flush = true \/
                commit_size_ (config st)
                <= Z.of_nat (length (from_option row_id_list []
                                       (mutation_batch_map_ st !! server) ++ [task_id mu]))))) in *.
  unfold rows_stored, rows_committed.
  destruct (decide due) as [Hd|Hd].
  - destruct (Hdue Hd) as [Hlog Hmap]. rewrite Hlog, Hmap. simpl.
    rewrite flat_map_app. simpl. rewrite String.eqb_refl, !app_nil_r.
    split; [reflexivity|]. split; [|reflexivity].
    intros s Hs. split; [|apply Hother; exact Hs].
    rewrite flat_map_app. simpl.
    destruct (String.eqb_spec server s) as [Heq|_]; [congruence|]. apply app_nil_r.
  - destruct (Hnot Hd) as (Hlog & b' & Hmap & Hids & _). rewrite Hlog, Hmap. simpl.
    rewrite Hids. split; [reflexivity|]. split.
    + intros s Hs. split; [reflexivity|apply Hother; exact Hs].
    + intros Hlast Hflush. exfalso. apply Hd. right. auto.
Qed.

(** X17. [PackMutations] loses no row.  The rows committed to the server
    during the call, followed by the rows left in the stored batch, are
    the rows that were stored before followed by the rows of the call, in
    the same order and each once; the batches and the commits of other
    servers are untouched, and a call that flushes a list that is not
    empty leaves no batch behind. *)
Theorem PackMutations_conserves_rows (server_addr : string) (mu_list : list SdkTask)
    (flush : bool) (st : t) :
  let st' := PackMutations server_addr mu_list flush st in
  (rows_committed server_addr (log st') ++ rows_stored server_addr st')%list
  = (rows_committed server_addr (log st) ++ rows_stored server_addr st
     ++ (task_id <$> mu_list))%list /\
  (forall s, s <> server_addr ->
     rows_committed s (log st') = rows_committed s (log st) /\
     mutation_batch_map_ st' !! s = mutation_batch_map_ st !! s) /\
  (flush = true -> mu_list <> [] -> mutation_batch_map_ st' !! server_addr = None).
Proof.
  revert st. induction mu_list as [|mu rest IH]; intros st; cbv zeta.
  - simpl. rewrite app_nil_r. split; [reflexivity|]. split; [auto|]. congruence.
  - change (PackMutations server_addr (mu :: rest) flush st)
      with (PackMutations server_addr rest flush
              (pack_mutation server_addr flush
                 (match rest with [] => true | _ => false end) st mu)).
    set (last := match rest with [] => true | _ => false end).
    pose proof (pack_mutation_conserves server_addr flush last st mu) as H1.
    cbv zeta in H1. destruct H1 as (Hrows & Hother & Hflush).
    pose proof (pack_mutation_spec server_addr flush last st mu) as Hspec.
    cbv zeta in Hspec. destruct Hspec as (Hdue & _ & _).
    set (st1 := pack_mutation server_addr flush last st mu) in *.
    specialize (IH st1). cbv zeta in IH. destruct IH as (IHrows & IHother & IHflush).
    split; [|split].
    + rewrite IHrows. rewrite app_assoc, Hrows. simpl.
      rewrite <- !app_assoc. reflexivity.
    + intros s Hs. destruct (IHother s Hs) as [H1 H2].
      destruct (Hother s Hs) as [H3 H4]. split; congruence.
    + intros Hf _. destruct rest as [|mu' rest'].
      * simpl. apply Hdue. right. auto.
      * apply IHflush; [exact Hf|discriminate].
Qed.

(** ** Batches of reads *)

Lemma reader_commits_app (l1 l2 : list Event) :
  reader_commits (l1 ++ l2) = (reader_commits l1 ++ reader_commits l2)%list.
Proof. apply omap_app. Qed.

Lemma find_or_create_reader_batch_spec (server_addr : string) (st : t) :
  let r := find_or_create_reader_batch server_addr st in
  reader_batch_map_ (fst r) !! server_addr = Some (snd r) /\
  config (fst r) = config st /\
  (forall s, s <> server_addr ->
     reader_batch_map_ (fst r) !! s = reader_batch_map_ st !! s) /\
  match reader_batch_map_ st !! server_addr with
  | Some b => r = (st, b)
  | None =>
      row_id_list (snd r) = [] /\
      log (fst r) = (log st ++
        [EvDelayTask (read_commit_timeout_ (config st)) (next_timer_id_ st)
           (ReaderBatchTimeoutTask server_addr (reader_batch_seq_ st))])%list
  end.
Proof.
  unfold find_or_create_reader_batch.
  destruct (reader_batch_map_ st !! server_addr) as [b|] eqn:E; simpl.
  - auto.
  - rewrite lookup_insert_eq. repeat split; try reflexivity.
    intros s Hs. rewrite lookup_insert_ne by done. reflexivity.
Qed.

(** X18. When a batch of reads is committed.  [PackReaders] adds the
    whole list to the batch of the server, a new one if none is stored,
    and commits the batch exactly when it then holds [commit_size_] rows
    or more, whatever their sizes; otherwise the batch is stored with the
    rows added.  A new batch has its own timer of [read_commit_timeout_]
    carrying its sequence number.  When a timer fires,
    [ReaderBatchTimeout] commits the batch of its server exactly when
    that batch has the sequence number the timer carries, and otherwise
    changes nothing.  Batches of other servers are not touched. *)
Theorem reader_batch_commit_iff (server_addr : string) (st : t) :
  (forall reader_list : list SdkTask,
     let old := reader_batch_map_ st !! server_addr in
     let ids := (from_option row_id_list [] old ++ (task_id <$> reader_list))%list in
     let st' := PackReaders server_addr reader_list st in
     (commit_size_ (config st) <= Z.of_nat (length ids) ->
      reader_commits (log st') = (reader_commits (log st) ++ [(server_addr, ids)])%list /\
      reader_batch_map_ st' !! server_addr = None) /\
     (Z.of_nat (length ids) < commit_size_ (config st) ->
      reader_commits (log st') = reader_commits (log st) /\
      exists b', reader_batch_map_ st' !! server_addr = Some b' /\
                 row_id_list b' = ids) /\
     (old = None ->
      exists post,
        log st' = (log st ++
                   EvDelayTask (read_commit_timeout_ (config st)) (next_timer_id_ st)
                     (ReaderBatchTimeoutTask server_addr (reader_batch_seq_ st))
                   :: post)%list) /\
     (forall s, s <> server_addr ->
        reader_batch_map_ st' !! s = reader_batch_map_ st !! s)) /\
  (forall batch_seq : Z,
     let st' := ReaderBatchTimeout server_addr batch_seq st in
     (forall b, reader_batch_map_ st !! server_addr = Some b ->
        sequence_num b = batch_seq ->
        reader_commits (log st')
        = (reader_commits (log st) ++ [(server_addr, row_id_list b)])%list /\
        reader_batch_map_ st' !! server_addr = None) /\
     (reader_batch_map_ st !! server_addr = None \/
      (exists b, reader_batch_map_ st !! server_addr = Some b /\
                 sequence_num b <> batch_seq) ->
      st' = st)).
Proof.
  split.
  - intros reader_list. cbv zeta. unfold PackReaders.
    pose proof (find_or_create_reader_batch_spec server_addr st) as Hf.
    cbv zeta in Hf.
    destruct (find_or_create_reader_batch server_addr st) as [st1 b] eqn:Ef.
    simpl in Hf. destruct Hf as (Hb & Hcfg & Hother & Hold).
    assert (Hids : from_option row_id_list [] (reader_batch_map_ st !! server_addr)
                   = row_id_list b).
    { destruct (reader_batch_map_ st !! server_addr) as [b0|].
      - injection Hold as _ <-. reflexivity.
      - simpl. symmetry. apply Hold. }
    assert (Hlog : reader_commits (log st1) = reader_commits (log st)).
    { destruct (reader_batch_map_ st !! server_addr) as [b0|].
      - injection Hold as <- _. reflexivity.
      - destruct Hold as (_ & ->). rewrite reader_commits_app. simpl. apply app_nil_r. }
    rewrite Hids, <- Hcfg. simpl.
    destruct (Z.leb_spec (commit_size_ (config st1))
                (Z.of_nat (length (row_id_list b ++ (task_id <$> reader_list)))))
      as [Hle|Hlt]; simpl.
    + split; [|split; [lia|split]].
      * intros _. rewrite lookup_delete_eq. split; [|reflexivity].
        rewrite !reader_commits_app, Hlog. simpl. rewrite app_nil_r. reflexivity.
      * intros Hnone. rewrite Hnone in Hold. destruct Hold as (_ & ->).
        eexists. rewrite <- !app_assoc. simpl. rewrite Hcfg. reflexivity.
      * intros s Hs. rewrite lookup_delete_ne by done. auto.
    + split; [lia|split; [|split]].
      * intros _. rewrite lookup_insert_eq. split; [exact Hlog|]. eauto.
      * intros Hnone. rewrite Hnone in Hold. destruct Hold as (_ & ->).
        exists []. rewrite Hcfg. reflexivity.
      * intros s Hs. rewrite lookup_insert_ne by done. auto.
  - intros batch_seq. cbv zeta. split.
    + intros b Hb Hseq. unfold ReaderBatchTimeout. rewrite Hb.
      destruct (Z.eqb_spec (sequence_num b) batch_seq); [|contradiction]. simpl.
      rewrite lookup_delete_eq, reader_commits_app. auto.
    + apply ReaderBatchTimeout_stale.
Qed.

(** ** DistributeMutations: every row is placed *)

Lemma pending_at_push row id st row' id' :
  pending_at st row' id' -> pending_at (push_pending row id st) row' id'.
Proof.
  unfold pending_at, push_pending. simpl. intros H.
  destruct (decide (row' = row)) as [->|Hne].
  - rewrite lookup_insert_eq. simpl. apply elem_of_app. left. exact H.
  - rewrite lookup_insert_ne by done. exact H.
Qed.

Lemma pending_at_pushed row id st : pending_at (push_pending row id st) row id.
Proof.
  unfold pending_at, push_pending. simpl. rewrite lookup_insert_eq. simpl.
  apply elem_of_app. right. left.
Qed.

Lemma pending_at_eq st st' row id :
  pending_task_id_list_ st' = pending_task_id_list_ st ->
  pending_at st row id -> pending_at st' row id.
Proof. unfold pending_at. intros ->. auto. Qed.

Lemma GetTabletAddrOrScheduleUpdateMeta_pending row task now st :
  let r := GetTabletAddrOrScheduleUpdateMeta row task now st in
  (forall row' id', pending_at st row' id' -> pending_at (fst r) row' id') /\
  (snd r = None -> pending_at (fst r) row (task_id task)).
Proof.
  cbv zeta. unfold GetTabletAddrOrScheduleUpdateMeta.
  destruct (GetTabletMetaNodeForKey _ _) as [[k node]|]; simpl.
  - destruct (negb _); simpl.
    + split; [intros; apply pending_at_push; assumption|].
      intros _. apply pending_at_pushed.
    + destruct (_ && _); simpl.
      * destruct (schedule_node_update_pending k node now
                    (push_pending row (task_id task) st)) as [H1 _].
        split.
        -- intros row' id' H. apply (pending_at_eq _ _ _ _ H1).
           apply pending_at_push. exact H.
        -- intros _. apply (pending_at_eq _ _ _ _ H1). apply pending_at_pushed.
      * split; [auto|discriminate].
  - destruct (UpdateMetaAsync_pending
                (add_wait_node row (push_pending row (task_id task) st))) as [H1 _].
    split.
    + intros row' id' H. apply (pending_at_eq _ _ _ _ H1).
      apply (pending_at_push row (task_id task) st). exact H.
    + intros _. apply (pending_at_eq _ _ _ _ H1).
      apply (pending_at_pushed row (task_id task) st).
Qed.

Lemma GetTabletAddrOrScheduleUpdateMeta_consistent row task now st :
  pool_consistent st ->
  pool_consistent (fst (GetTabletAddrOrScheduleUpdateMeta row task now st)).
Proof.
  intros Hc. unfold GetTabletAddrOrScheduleUpdateMeta.
  destruct (GetTabletMetaNodeForKey _ _) as [[k node]|]; simpl.
  - destruct (negb _); simpl; [exact Hc|].
    destruct (_ && _); simpl.
    + intros id t. rewrite (proj2 (schedule_node_update_pending k node now _)). apply Hc.
    + intros id t. simpl. rewrite lookup_alter.
      destruct (decide (task_id task = id)) as [Heq|Hne].
      * rewrite Heq. destruct (task_pool_ st !! id) as [t0|] eqn:E; simpl; [|intros [=]].
        intros [= Ht]. subst t. simpl. exact (Hc id t0 E).
      * apply Hc.
  - intros id t. rewrite (proj2 (UpdateMetaAsync_pending _)). apply Hc.
Qed.

Lemma task_id_current_task task st :
  pool_consistent st -> task_id (current_task task st) = task_id task.
Proof.
  intros Hc. unfold current_task.
  destruct (task_pool_ st !! task_id task) as [t|] eqn:E; simpl; [|reflexivity].
  exact (Hc _ _ E).
Qed.

Lemma gathers_refl d : gathers d d.
Proof.
  split; [auto|]. split; [auto|]. split; [|reflexivity].
  exists []. symmetry. apply app_nil_r.
Qed.

Lemma gathers_trans d1 d2 d3 : gathers d1 d2 -> gathers d2 d3 -> gathers d1 d3.
Proof.
  intros (A1 & B1 & [n1 C1] & D1) (A2 & B2 & [n2 C2] & D2).
  split; [auto|]. split; [auto|]. split; [|congruence].
  exists (n1 ++ n2)%list. rewrite C2, C1. symmetry. apply app_assoc.
Qed.

(** The row is queued under its key or gathered for a server. *)
Lemma route_mutation_places task now d :
  pool_consistent (d_state d) ->
  let d' := route_mutation task now d in
  pool_consistent (d_state d') /\
  next_task_id_ (d_state d') = next_task_id_ (d_state d) /\
  gathers d d' /\
  (pending_at (d_state d') (row_key task) (task_id task) \/
   exists server, listed (d_ts_list d') server (task_id task)).
Proof.
  intros Hc. cbv zeta.
  pose proof (GetTabletAddrOrScheduleUpdateMeta_pending (row_key task) task now (d_state d))
    as [Hmono Hq].
  pose proof (GetTabletAddrOrScheduleUpdateMeta_consistent (row_key task) task now
                (d_state d) Hc) as Hc'.
  pose proof (same_flow_GetTabletAddr (row_key task) task now (d_state d))
    as (_ & _ & _ & Hnext & Hmap & _ & _ & _ & new & Hlog & _).
  unfold route_mutation.
  destruct (GetTabletAddrOrScheduleUpdateMeta (row_key task) task now (d_state d))
    as [st1 [server|]]; simpl in *.
  - split; [exact Hc'|]. split; [exact Hnext|]. split.
    + split; [exact Hmono|]. split; [|split; [eauto|exact Hmap]].
      intros s id (pr & Hpr & Hid). unfold listed. simpl.
      destruct (decide (s = server)) as [->|Hne].
      * rewrite lookup_insert_eq. eexists. split; [reflexivity|]. simpl.
        rewrite Hpr. simpl. rewrite fmap_app. apply elem_of_app. left. exact Hid.
      * exists pr. rewrite lookup_insert_ne by done. auto.
    + right. exists server. unfold listed. simpl. rewrite lookup_insert_eq. eexists.
      split; [reflexivity|]. simpl. rewrite fmap_app. apply elem_of_app. right.
      simpl. rewrite (task_id_current_task task st1 Hc'). left.
  - split; [exact Hc'|]. split; [exact Hnext|]. split.
    + split; [exact Hmono|]. split; [auto|]. split; [eauto|exact Hmap].
    + left. apply Hq. reflexivity.
Qed.

Lemma gathers_state d st2 sync reads :
  pending_task_id_list_ st2 = pending_task_id_list_ (d_state d) ->
  (exists new, log st2 = (log (d_state d) ++ new)%list) ->
  mutation_batch_map_ st2 = mutation_batch_map_ (d_state d) ->
  gathers d {| d_state := st2; d_ts_list := d_ts_list d;
               d_sync_ids := sync; d_reads := reads |}.
Proof.
  intros Hp Hl Hm. split; [|split; [auto|split; [exact Hl|exact Hm]]].
  intros row id. simpl. apply pending_at_eq. exact Hp.
Qed.

Lemma pool_consistent_register st id task :
  pool_consistent st ->
  pool_consistent (set_task_pool_ (<[ id := SetId id task ]> (task_pool_ st)) st).
Proof.
  intros Hc id' t. simpl. destruct (decide (id' = id)) as [->|Hne].
  - rewrite lookup_insert_eq. intros [= <-]. reflexivity.
  - rewrite lookup_insert_ne by done. apply Hc.
Qed.

Lemma pool_consistent_alter_error (id : Z) (e : ErrorCode) (pool : gmap Z SdkTask) :
  (forall id' t, pool !! id' = Some t -> task_id t = id') ->
  forall id' t, alter (SetError e) id pool !! id' = Some t -> task_id t = id'.
Proof.
  intros Hc id' t. rewrite lookup_alter.
  destruct (decide (id = id')) as [->|Hne]; [|apply Hc].
  destruct (pool !! id') as [t0|] eqn:E; simpl; [|intros [=]].
  intros [= Ht]. subst t. simpl. exact (Hc id' t0 E).
Qed.

(** One round of the main loop places its row. *)
Lemma distribute_mutation_places cbu smt now d mu d' :
  pool_consistent (d_state d) ->
  distribute_mutation cbu smt now d mu = Some d' ->
  let id := if cbu then next_task_id_ (d_state d) + 1 else task_id mu in
  pool_consistent (d_state d') /\
  next_task_id_ (d_state d')
  = (if cbu then next_task_id_ (d_state d) + 1 else next_task_id_ (d_state d)) /\
  gathers d d' /\
  (pending_at (d_state d') (row_key mu) id \/
   (exists server, listed (d_ts_list d') server id) \/
   (cbu = true /\ is_async mu = true /\ refused id (d_state d) (d_state d'))).
Proof.
  intros Hc. unfold distribute_mutation, register_task. destruct cbu; cbv zeta.
  - set (id := next_task_id_ (d_state d) + 1).
    set (st1 := emit _ (set_task_pool_ _ (set_next_task_id_ id (d_state d)))).
    set (task := SetId id mu).
    set (c := cur_commit_pending_counter_ st1 + mutation_num task).
    set (st2 := set_cur_commit_pending_counter_ c st1).
    set (sync := if true && negb (is_async task) then _ else _).
    assert (Hc2 : forall cc, pool_consistent (set_cur_commit_pending_counter_ cc st2)).
    { intros cc. apply (pool_consistent_register (d_state d) id mu Hc). }
    assert (Hg2 : forall cc reads,
              gathers d {| d_state := set_cur_commit_pending_counter_ cc st2;
                           d_ts_list := d_ts_list d; d_sync_ids := sync;
                           d_reads := reads |}).
    { intros cc reads. apply gathers_state; [reflexivity| |reflexivity].
      eexists. reflexivity. }
    assert (Hroute : forall cc reads,
              let d2 := {| d_state := set_cur_commit_pending_counter_ cc st2;
                           d_ts_list := d_ts_list d; d_sync_ids := sync;
                           d_reads := reads |} in
              pool_consistent (d_state (route_mutation task now d2)) /\
              next_task_id_ (d_state (route_mutation task now d2))
              = next_task_id_ (d_state d) + 1 /\
              gathers d (route_mutation task now d2) /\
              (pending_at (d_state (route_mutation task now d2)) (row_key mu) id \/
               (exists server, listed (d_ts_list (route_mutation task now d2)) server id) \/
               (true = true /\ is_async mu = true /\
                refused id (d_state d) (d_state (route_mutation task now d2))))).
    { intros cc reads d2.
      destruct (route_mutation_places task now d2 (Hc2 cc)) as (H1 & H2 & H3 & H4).
      split; [exact H1|]. split; [rewrite H2; reflexivity|].
      split; [eapply gathers_trans; [apply Hg2|exact H3]|].
      destruct H4 as [H4|H4]; [left; exact H4|right; left; exact H4]. }
    destruct (_ && is_async task) eqn:Hb.
    + apply andb_true_iff in Hb as [_ Hasync].
      destruct (FLAGS_tera_sdk_async_blocking_enabled _).
      * destruct (wait_below _ _ _) as [[c' reads']|]; [|discriminate].
        intros [= <-]. apply (Hroute c' reads').
      * intros [= <-]. simpl. split.
        { intros id' t. apply pool_consistent_alter_error.
          exact (pool_consistent_register (d_state d) id mu Hc). }
        split; [reflexivity|]. split.
        { apply gathers_state; [reflexivity| |reflexivity].
          eexists. unfold emit. simpl. rewrite <- app_assoc. reflexivity. }
        right. right. split; [reflexivity|]. split; [exact Hasync|].
        eexists. split; [unfold emit; simpl; rewrite <- app_assoc; reflexivity|].
        right. left.
    + intros [= <-].
      replace st2 with (set_cur_commit_pending_counter_ c st2) by reflexivity.
      apply (Hroute c (d_reads d)).
  - intros [= <-].
    destruct (route_mutation_places mu now
                {| d_state := d_state d; d_ts_list := d_ts_list d;
                   d_sync_ids := d_sync_ids d; d_reads := d_reads d |} Hc)
      as (H1 & H2 & H3 & H4).
    split; [exact H1|]. split; [exact H2|]. split.
    + eapply gathers_trans; [|exact H3].
      apply gathers_state; [reflexivity| |reflexivity]. exists []. symmetry. apply app_nil_r.
    + destruct H4 as [H4|H4]; [left; exact H4|right; left; exact H4].
Qed.

Lemma refused_gathers id d0 d d' :
  (exists new, log (d_state d) = (log (d_state d0) ++ new)%list) ->
  gathers d d' ->
  (refused id (d_state d0) (d_state d) -> refused id (d_state d0) (d_state d')) /\
  (refused id (d_state d) (d_state d') -> refused id (d_state d0) (d_state d')).
Proof.
  intros [pre Hpre] (_ & _ & [new Hnew] & _). split.
  - intros (n & Hn & Hin). exists (n ++ new)%list.
    split; [rewrite Hnew, Hn; symmetry; apply app_assoc|]. apply elem_of_app. auto.
  - intros (n & Hn & Hin). exists (pre ++ n)%list.
    split; [rewrite Hn, Hpre; symmetry; apply app_assoc|]. apply elem_of_app. auto.
Qed.

Lemma distribute_mutations_places cbu smt now tasks : forall d d',
  pool_consistent (d_state d) ->
  distribute_mutations cbu smt now tasks d = Some d' ->
  pool_consistent (d_state d') /\ gathers d d' /\
  forall (i : nat) mu, tasks !! i = Some mu ->
    let id := if cbu then next_task_id_ (d_state d) + Z.of_nat i + 1 else task_id mu in
    pending_at (d_state d') (row_key mu) id \/
    (exists server, listed (d_ts_list d') server id) \/
    (cbu = true /\ is_async mu = true /\ refused id (d_state d) (d_state d')).
Proof.
  induction tasks as [|mu0 rest IH]; intros d d' Hc; simpl.
  - intros [= <-]. split; [exact Hc|]. split; [apply gathers_refl|].
    intros i mu Hi. discriminate.
  - destruct (distribute_mutation cbu smt now d mu0) as [d1|] eqn:E; [|discriminate].
    intros Hrest.
    destruct (distribute_mutation_places cbu smt now d mu0 d1 Hc E)
      as (Hc1 & Hnext & Hg1 & Hplace).
    destruct (IH d1 d' Hc1 Hrest) as (Hc' & Hg & Hall).
    split; [exact Hc'|]. split; [eapply gathers_trans; eauto|].
    pose proof Hg1 as (_ & _ & Hlog1 & _).
    intros [|i] mu Hi; simpl in Hi.
    + injection Hi as <-. cbv zeta in Hplace |- *.
      replace (next_task_id_ (d_state d) + Z.of_nat 0 + 1)
        with (next_task_id_ (d_state d) + 1) by lia.
      destruct Hg as (Hp & Hl & Hlog & Hm).
      destruct Hplace as [H|[[server H]|(H1 & H2 & H3)]].
      * left. apply Hp. exact H.
      * right. left. exists server. apply Hl. exact H.
      * right. right. split; [exact H1|]. split; [exact H2|].
        apply (proj1 (refused_gathers _ d d1 d' Hlog1
                        (conj Hp (conj Hl (conj Hlog Hm))))).
        exact H3.
    + specialize (Hall i mu Hi). cbv zeta in Hall |- *.
      assert (Hid : (if cbu then next_task_id_ (d_state d1) + Z.of_nat i + 1 else task_id mu)
                    = (if cbu then next_task_id_ (d_state d) + Z.of_nat (S i) + 1
                       else task_id mu)).
      { destruct cbu; [rewrite Hnext; lia|reflexivity]. }
      rewrite Hid in Hall.
      destruct Hall as [H|[H|(H1 & H2 & H3)]]; [left; exact H|right; left; exact H|].
      right. right. split; [exact H1|]. split; [exact H2|].
      apply (proj2 (refused_gathers _ d d1 d' Hlog1 Hg)). exact H3.
Qed.

Lemma PackMutations_other_batch server mu_list flush s : forall st,
  s <> server ->
  mutation_batch_map_ (PackMutations server mu_list flush st) !! s
  = mutation_batch_map_ st !! s.
Proof.
  induction mu_list as [|mu rest IH]; intros st Hs; [reflexivity|].
  change (PackMutations server (mu :: rest) flush st)
    with (PackMutations server rest flush
            (pack_mutation server flush
               (match rest with [] => true | _ => false end) st mu)).
  rewrite IH by exact Hs.
  pose proof (pack_mutation_spec server flush
                (match rest with [] => true | _ => false end) st mu) as H.
  cbv zeta in H. destruct H as (_ & _ & Hother). apply Hother. exact Hs.
Qed.

Lemma mutation_batched_other server id st0 st s mu_list flush :
  s <> server ->
  mutation_batched server id st0 st ->
  mutation_batched server id st0 (PackMutations s mu_list flush st).
Proof.
  intros Hne (new & Hl & H).
  destruct (quiet_log _ _ (quiet_PackMutations s mu_list flush st)) as [new' Hl'].
  exists (new ++ new')%list. split; [rewrite Hl', Hl; symmetry; apply app_assoc|].
  destruct H as [(b & ids & Hev & Hid)|(b & Hb & Hid)].
  - left. exists b, ids. split; [apply elem_of_app; auto|exact Hid].
  - right. exists b. split; [|exact Hid].
    rewrite (PackMutations_other_batch s mu_list flush server st (not_eq_sym Hne)).
    exact Hb.
Qed.

Lemma pack_all_mutations_batched ts_list st server id :
  listed ts_list server id ->
  mutation_batched server id st (pack_all_mutations ts_list st).
Proof.
  intros (pr & Hpr & Hid). unfold pack_all_mutations.
  assert (Hin : server ∈ sorted_keys ts_list) by (apply elem_of_sorted_keys; eauto).
  pose proof (NoDup_sorted_keys ts_list) as Hnd.
  set (step := fun s server_addr =>
                 match ts_list !! server_addr with
                 | Some pr => PackMutations server_addr (mu_list pr) (flush pr) s
                 | None => s
                 end).
  assert (Hkeep : forall ks st0 st1, server ∉ ks ->
            mutation_batched server id st0 st1 ->
            mutation_batched server id st0 (foldl step st1 ks)).
  { induction ks as [|k ks IH]; intros st0 st1 Hnin H; [exact H|].
    apply not_elem_of_cons in Hnin as [Hne Hnin]. simpl. apply IH; [exact Hnin|].
    unfold step. destruct (ts_list !! k); [|exact H].
    apply mutation_batched_other; [congruence|exact H]. }
  revert st Hin Hnd. generalize (sorted_keys ts_list).
  induction l as [|k ks IH]; intros st Hin Hnd; [inversion Hin|].
  apply NoDup_cons in Hnd as [Hk Hnd]. simpl.
  apply elem_of_cons in Hin as [<-|Hin].
  - apply Hkeep; [exact Hk|]. unfold step. rewrite Hpr.
    apply list_elem_of_fmap in Hid as (mu & -> & Hmu).
    apply PackMutations_batched. exact Hmu.
  - assert (Hpre : exists pre, log (step st k) = (log st ++ pre)%list).
    { unfold step. destruct (ts_list !! k) as [pr0|].
      - apply quiet_log, quiet_PackMutations.
      - exists []. symmetry. apply app_nil_r. }
    destruct Hpre as [pre Hpre].
    apply (mutation_batched_earlier server id st (step st k) _ pre Hpre).
    apply IH; assumption.
Qed.

Lemma pack_all_mutations_pending ts_list st :
  pending_task_id_list_ (pack_all_mutations ts_list st) = pending_task_id_list_ st /\
  exists new, log (pack_all_mutations ts_list st) = (log st ++ new)%list.
Proof.
  unfold pack_all_mutations. generalize (sorted_keys ts_list). intros l. revert st.
  induction l as [|k ks IH]; intros st; simpl.
  - split; [reflexivity|]. exists []. symmetry. apply app_nil_r.
  - destruct (IH (match ts_list !! k with
                  | Some pr => PackMutations k (mu_list pr) (flush pr) st
                  | None => st
                  end)) as [H1 [new H2]].
    rewrite H1, H2. destruct (ts_list !! k) as [pr|].
    + split; [apply PackMutations_pending|].
      destruct (quiet_log _ _ (quiet_PackMutations k (mu_list pr) (flush pr) st))
        as [pre Hpre].
      exists (pre ++ new)%list. rewrite Hpre. symmetry. apply app_assoc.
    + split; [reflexivity|]. eauto.
Qed.

Lemma wait_sync_commit_keeps max ids : forall reads st st' reads',
  wait_sync cur_commit_pending_counter_ set_cur_commit_pending_counter_ max ids reads st
  = Some (st', reads') ->
  pending_task_id_list_ st' = pending_task_id_list_ st /\
  mutation_batch_map_ st' = mutation_batch_map_ st /\
  exists new, log st' = (log st ++ new)%list.
Proof.
  induction ids as [|id ids IH]; intros reads st st' reads'; simpl.
  - intros [= <- <-]. split; [reflexivity|]. split; [reflexivity|].
    exists []. symmetry. apply app_nil_r.
  - destruct (wait_below _ _ _) as [[c' r']|]; [|discriminate]. intros H.
    apply IH in H as (H1 & H2 & new & H3). simpl in *.
    split; [exact H1|]. split; [exact H2|].
    eexists. rewrite H3. rewrite <- app_assoc. reflexivity.
Qed.

Lemma mutation_batched_later server id st0 st st' :
  mutation_batched server id st0 st ->
  mutation_batch_map_ st' = mutation_batch_map_ st ->
  (exists new, log st' = (log st ++ new)%list) ->
  mutation_batched server id st0 st'.
Proof.
  intros (new & Hl & H) Hm [new' Hl'].
  exists (new ++ new')%list. split; [rewrite Hl', Hl; symmetry; apply app_assoc|].
  rewrite Hm. destruct H as [(b & ids & Hev & Hid)|H]; [|right; exact H].
  left. exists b, ids. split; [apply elem_of_app; auto|exact Hid].
Qed.

(** X19. [DistributeMutations] places every row.  Let every task of the
    pool be the entry of its own id.  When the call returns, each row of
    the list, under the id it was given (the next ids in the order of the
    list for a call by the user, its own id for a retry), waits for the
    meta of its row key in [pending_task_id_list_], or is in a batch of a
    server that was committed during the call or is stored, or, for an
    asynchronous row of a call by the user, was refused by flow control
    with its [BreakRequest] scheduled. *)
Theorem DistributeMutations_places_every_row (tasks : list SdkTask)
    (called_by_user : bool) (now : Z) (reads reads' : list Z) (st st' : t) :
  pool_consistent st ->
  DistributeMutations tasks called_by_user now reads st = Some (st', reads') ->
  forall (i : nat) (mu : SdkTask), tasks !! i = Some mu ->
    let id := if called_by_user then next_task_id_ st + Z.of_nat i + 1 else task_id mu in
    pending_at st' (row_key mu) id \/
    (exists server, mutation_batched server id st st') \/
    (called_by_user = true /\ is_async mu = true /\ refused id st st').
Proof.
  intros Hc Hrun i mu Hi. unfold DistributeMutations in Hrun.
  set (smt := if called_by_user then _ else _) in Hrun.
  set (d0 := {| d_state := st; d_ts_list := ∅; d_sync_ids := []; d_reads := reads |}) in Hrun.
  destruct (distribute_mutations called_by_user smt now tasks d0) as [d|] eqn:E;
    [|discriminate].
  destruct (distribute_mutations_places called_by_user smt now tasks d0 d Hc E)
    as (_ & Hg & Hall).
  specialize (Hall i mu Hi). cbv zeta in Hall |- *. simpl in Hall.
  set (id := if called_by_user then next_task_id_ st + Z.of_nat i + 1 else task_id mu) in *.
  destruct (pack_all_mutations_pending (d_ts_list d) (d_state d)) as [Hp1 Hl1].
  destruct Hg as (_ & _ & Hl0 & _). simpl in Hl0.
  assert (Hfinal : pending_task_id_list_ st'
                   = pending_task_id_list_ (pack_all_mutations (d_ts_list d) (d_state d)) /\
                   mutation_batch_map_ st'
                   = mutation_batch_map_ (pack_all_mutations (d_ts_list d) (d_state d)) /\
                   exists new, log st'
                     = (log (pack_all_mutations (d_ts_list d) (d_state d)) ++ new)%list).
  { destruct (negb called_by_user).
    - injection Hrun as <- _. split; [reflexivity|]. split; [reflexivity|].
      exists []. symmetry. apply app_nil_r.
    - apply wait_sync_commit_keeps in Hrun. exact Hrun. }
  destruct Hfinal as (Hp2 & Hm2 & Hl2).
  destruct Hall as [H|[[server H]|(H1 & H2 & H3)]].
  - left. unfold pending_at in *. rewrite Hp2, Hp1. exact H.
  - right. left. exists server.
    destruct Hl0 as [pre Hpre].
    apply (mutation_batched_later server id st
             (pack_all_mutations (d_ts_list d) (d_state d)) st'); [|exact Hm2|exact Hl2].
    apply (mutation_batched_earlier server id st (d_state d) _ pre Hpre).
    apply pack_all_mutations_batched. exact H.
  - right. right. split; [exact H1|]. split; [exact H2|].
    destruct H3 as (n & Hn & Hin). destruct Hl1 as [n1 Hn1]. destruct Hl2 as [n2 Hn2].
    exists (n ++ n1 ++ n2)%list. split.
    + rewrite Hn2, Hn1, Hn. rewrite <- !app_assoc. reflexivity.
    + apply elem_of_app. left. exact Hin.
Qed.

Lemma DistributeMutations_places_every_row_witness :
  let tasks := [example_task MUTATION 0 "a" true; example_task MUTATION 0 "b" false] in
  let st := example_cached NORMAL in
  let st' := fst (default (st, []) (DistributeMutations tasks true 200 [0] st)) in
  pending_at st' "b" 2 \/
  (exists server, mutation_batched server 2 st st') \/
  (true = true /\ is_async (example_task MUTATION 0 "b" false) = true /\ refused 2 st st').
Proof.
  cbv zeta.
  assert (Hc : pool_consistent (example_cached NORMAL)).
  { intros id task H. unfold example_cached in H. simpl in H.
    rewrite lookup_empty in H. discriminate. }
  exact (DistributeMutations_places_every_row
           [example_task MUTATION 0 "a" true; example_task MUTATION 0 "b" false]
           true 200 [0] _ (example_cached NORMAL) _ Hc
           ltac:(vm_compute; reflexivity) 1%nat _ eq_refl).
Defined.

(** ** The cache of a running client *)



(** ** Retries and flow control *)

Lemma retried_refl st : retried st st.
Proof.
  repeat split. exists []. split; [symmetry; apply app_nil_r|constructor].
Qed.

Lemma retried_trans st1 st2 st3 : retried st1 st2 -> retried st2 st3 -> retried st1 st3.
Proof.
  intros (A1 & A2 & A3 & A4 & n1 & A5 & A6) (B1 & B2 & B3 & B4 & n2 & B5 & B6).
  split; [congruence|]. split; [congruence|]. split; [congruence|].
  split; [intros id; rewrite B4; apply A4|].
  exists (n1 ++ n2)%list. split; [rewrite B5, A5, app_assoc; reflexivity|].
  apply Forall_app. auto.
Qed.

Lemma retried_same_flow st st' : same_flow st st' -> retried st st'.
Proof.
  intros (_ & A2 & A3 & A4 & _ & _ & A7 & _ & new & A9 & A10).
  split; [exact A2|]. split; [exact A3|]. split; [exact A4|]. split; [exact A7|].
  exists new. split; [exact A9|].
  eapply Forall_impl; [exact A10|]. intros e He Hu.
  destruct e as [? ? []| | | | | | | | |]; simpl in *; tauto.
Qed.

Lemma retried_pack_mutation server flush last st mu :
  retried st (pack_mutation server flush last st mu).
Proof.
  unfold pack_mutation, find_or_create_mutation_batch.
  destruct (mutation_batch_map_ st !! server); simpl;
    destruct (mutation_commit_due _ _ _ _); simpl;
    (split; [reflexivity|]; split; [reflexivity|]; split; [reflexivity|];
     split; [reflexivity|]); unfold emit; simpl.
  - eexists. rewrite <- app_assoc. split; [reflexivity|].
    repeat constructor; simpl; tauto.
  - exists []. split; [symmetry; apply app_nil_r|constructor].
  - eexists. rewrite <- !app_assoc. split; [reflexivity|].
    repeat constructor; simpl; tauto.
  - eexists. split; [reflexivity|]. repeat constructor; simpl; tauto.
Qed.

Lemma retried_PackMutations server mu_list flush : forall st,
  retried st (PackMutations server mu_list flush st).
Proof.
  induction mu_list as [|mu rest IH]; intros st; [apply retried_refl|].
  simpl. eapply retried_trans; [apply retried_pack_mutation|apply IH].
Qed.

Lemma retried_PackReaders server reader_list st :
  retried st (PackReaders server reader_list st).
Proof.
  unfold PackReaders, find_or_create_reader_batch.
  destruct (reader_batch_map_ st !! server); simpl;
    destruct (_ <=? _); simpl;
    (split; [reflexivity|]; split; [reflexivity|]; split; [reflexivity|];
     split; [reflexivity|]); unfold emit; simpl.
  - eexists. rewrite <- app_assoc. split; [reflexivity|].
    repeat constructor; simpl; tauto.
  - exists []. split; [symmetry; apply app_nil_r|constructor].
  - eexists. rewrite <- !app_assoc. split; [reflexivity|].
    repeat constructor; simpl; tauto.
  - eexists. split; [reflexivity|]. repeat constructor; simpl; tauto.
Qed.

Lemma retried_foldl {K} (f : t -> K -> t) (l : list K) :
  (forall st k, retried st (f st k)) -> forall st, retried st (foldl f st l).
Proof.
  intros Hf. induction l as [|k l IH]; intros st; [apply retried_refl|].
  simpl. eapply retried_trans; [apply Hf|apply IH].
Qed.

Lemma distribute_mutations_retry smt now tasks : forall d,
  exists d', distribute_mutations false smt now tasks d = Some d' /\
             retried (d_state d) (d_state d') /\ d_reads d' = d_reads d.
Proof.
  induction tasks as [|mu rest IH]; intros d; simpl.
  - exists d. split; [reflexivity|]. split; [apply retried_refl|reflexivity].
  - unfold distribute_mutation. simpl.
    set (d1 := route_mutation mu now _).
    destruct (IH d1) as (d' & Hrun & Hret & Hreads).
    exists d'. split; [exact Hrun|].
    assert (H1 : retried (d_state d) (d_state d1) /\ d_reads d1 = d_reads d).
    { unfold d1, route_mutation. simpl.
      pose proof (same_flow_GetTabletAddr (row_key mu) mu now (d_state d)) as Hf.
      destruct (GetTabletAddrOrScheduleUpdateMeta _ _ _ _) as [st1 [addr|]]; simpl in *;
        (split; [apply retried_same_flow; exact Hf|reflexivity]). }
    destruct H1 as [H1 H2].
    split; [eapply retried_trans; eassumption|congruence].
Qed.

Lemma distribute_readers_retry smt now tasks : forall d,
  exists d', distribute_readers false smt now tasks d = Some d' /\
             retried (r_state d) (r_state d') /\ r_reads d' = r_reads d.
Proof.
  induction tasks as [|mu rest IH]; intros d; simpl.
  - exists d. split; [reflexivity|]. split; [apply retried_refl|reflexivity].
  - unfold distribute_reader. simpl.
    set (d1 := route_reader mu now _).
    destruct (IH d1) as (d' & Hrun & Hret & Hreads).
    exists d'. split; [exact Hrun|].
    assert (H1 : retried (r_state d) (r_state d1) /\ r_reads d1 = r_reads d).
    { unfold d1, route_reader. simpl.
      pose proof (same_flow_GetTabletAddr (row_key mu) mu now (r_state d)) as Hf.
      destruct (GetTabletAddrOrScheduleUpdateMeta _ _ _ _) as [st1 [addr|]]; simpl in *;
        (split; [apply retried_same_flow; exact Hf|reflexivity]). }
    destruct H1 as [H1 H2].
    split; [eapply retried_trans; eassumption|congruence].
Qed.

(** X21. A retry is not counted twice.  [DistributeMutations] and
    [DistributeReaders] called with [called_by_user] false (by a callback,
    for the rows a server did not take) return without waiting for the
    pending counter, whatever it holds; they leave both pending counters,
    the supply of task ids and the errors of the tasks of the pool as
    they were, and they neither register a task, nor run a callback, nor
    schedule a [BreakRequest]. *)
Theorem retry_keeps_flow_control (tasks : list SdkTask) (now : Z) (reads : list Z)
    (st : t) :
  (exists st', DistributeMutations tasks false now reads st = Some (st', reads) /\
               retried st st') /\
  (exists st', DistributeReaders tasks false now reads st = Some (st', reads) /\
               retried st st').
Proof.
  split.
  - unfold DistributeMutations. simpl.
    destruct (distribute_mutations_retry (-1) now tasks
                {| d_state := st; d_ts_list := ∅; d_sync_ids := []; d_reads := reads |})
      as (d & -> & Hret & Hreads). simpl in *.
    eexists. split; [rewrite Hreads; reflexivity|].
    eapply retried_trans; [exact Hret|]. unfold pack_all_mutations.
    apply retried_foldl. intros s k. destruct (d_ts_list d !! k).
    + apply retried_PackMutations.
    + apply retried_refl.
  - unfold DistributeReaders. simpl.
    destruct (distribute_readers_retry (-1) now tasks
                {| r_state := st; r_ts_list := ∅; r_sync_ids := []; r_reads := reads |})
      as (d & -> & Hret & Hreads). simpl in *.
    eexists. split; [rewrite Hreads; reflexivity|].
    eapply retried_trans; [exact Hret|]. unfold pack_all_readers.
    apply retried_foldl. intros s k. destruct (r_ts_list d !! k).
    + apply retried_PackReaders.
    + apply retried_refl.
Qed.

(** ** DistributeReaders: every row is placed *)

Lemma reader_gathers_refl d : reader_gathers d d.
Proof.
  split; [auto|]. split; [auto|]. split; [|reflexivity].
  exists []. symmetry. apply app_nil_r.
Qed.

Lemma reader_gathers_trans d1 d2 d3 :
  reader_gathers d1 d2 -> reader_gathers d2 d3 -> reader_gathers d1 d3.
Proof.
  intros (A1 & B1 & [n1 C1] & D1) (A2 & B2 & [n2 C2] & D2).
  split; [auto|]. split; [auto|]. split; [|congruence].
  exists (n1 ++ n2)%list. rewrite C2, C1. symmetry. apply app_assoc.
Qed.

Lemma route_reader_places task now d :
  pool_consistent (r_state d) ->
  let d' := route_reader task now d in
  pool_consistent (r_state d') /\
  next_task_id_ (r_state d') = next_task_id_ (r_state d) /\
  reader_gathers d d' /\
  (pending_at (r_state d') (row_key task) (task_id task) \/
   exists server, reader_listed (r_ts_list d') server (task_id task)).
Proof.
  intros Hc. cbv zeta.
  pose proof (GetTabletAddrOrScheduleUpdateMeta_pending (row_key task) task now (r_state d))
    as [Hmono Hq].
  pose proof (GetTabletAddrOrScheduleUpdateMeta_consistent (row_key task) task now
                (r_state d) Hc) as Hc'.
  pose proof (same_flow_GetTabletAddr (row_key task) task now (r_state d))
    as (_ & _ & _ & Hnext & _ & Hmap & _ & _ & new & Hlog & _).
  unfold route_reader.
  destruct (GetTabletAddrOrScheduleUpdateMeta (row_key task) task now (r_state d))
    as [st1 [server|]]; simpl in *.
  - split; [exact Hc'|]. split; [exact Hnext|]. split.
    + split; [exact Hmono|]. split; [|split; [eauto|exact Hmap]].
      intros s id (l & Hl & Hid). unfold reader_listed. simpl.
      destruct (decide (s = server)) as [->|Hne].
      * rewrite lookup_insert_eq. eexists. split; [reflexivity|].
        rewrite Hl. simpl. rewrite fmap_app. apply elem_of_app. left. exact Hid.
      * exists l. rewrite lookup_insert_ne by done. auto.
    + right. exists server. unfold reader_listed. simpl. rewrite lookup_insert_eq. eexists.
      split; [reflexivity|]. rewrite fmap_app. apply elem_of_app. right.
      simpl. rewrite (task_id_current_task task st1 Hc'). left.
  - split; [exact Hc'|]. split; [exact Hnext|]. split.
    + split; [exact Hmono|]. split; [auto|]. split; [eauto|exact Hmap].
    + left. apply Hq. reflexivity.
Qed.

Lemma reader_gathers_state d st2 sync reads :
  pending_task_id_list_ st2 = pending_task_id_list_ (r_state d) ->
  (exists new, log st2 = (log (r_state d) ++ new)%list) ->
  reader_batch_map_ st2 = reader_batch_map_ (r_state d) ->
  reader_gathers d {| r_state := st2; r_ts_list := r_ts_list d;
                      r_sync_ids := sync; r_reads := reads |}.
Proof.
  intros Hp Hl Hm. split; [|split; [auto|split; [exact Hl|exact Hm]]].
  intros row id. simpl. apply pending_at_eq. exact Hp.
Qed.

(** One round of the main loop places its row. *)
Lemma distribute_reader_places cbu smt now d mu d' :
  pool_consistent (r_state d) ->
  distribute_reader cbu smt now d mu = Some d' ->
  let id := if cbu then next_task_id_ (r_state d) + 1 else task_id mu in
  pool_consistent (r_state d') /\
  next_task_id_ (r_state d')
  = (if cbu then next_task_id_ (r_state d) + 1 else next_task_id_ (r_state d)) /\
  reader_gathers d d' /\
  (pending_at (r_state d') (row_key mu) id \/
   (exists server, reader_listed (r_ts_list d') server id) \/
   (cbu = true /\ is_async mu = true /\ refused id (r_state d) (r_state d'))).
Proof.
  intros Hc. unfold distribute_reader, register_task. destruct cbu; cbv zeta.
  - set (id := next_task_id_ (r_state d) + 1).
    set (st1 := emit _ (set_task_pool_ _ (set_next_task_id_ id (r_state d)))).
    set (task := SetId id mu).
    set (c := cur_reader_pending_counter_ st1 + 1).
    set (st2 := set_cur_reader_pending_counter_ c st1).
    set (sync := if true && negb (is_async task) then _ else _).
    assert (Hc2 : forall cc, pool_consistent (set_cur_reader_pending_counter_ cc st2)).
    { intros cc. apply (pool_consistent_register (r_state d) id mu Hc). }
    assert (Hg2 : forall cc reads,
              reader_gathers d {| r_state := set_cur_reader_pending_counter_ cc st2;
                                  r_ts_list := r_ts_list d; r_sync_ids := sync;
                                  r_reads := reads |}).
    { intros cc reads. apply reader_gathers_state; [reflexivity| |reflexivity].
      eexists. reflexivity. }
    assert (Hroute : forall cc reads,
              let d2 := {| r_state := set_cur_reader_pending_counter_ cc st2;
                           r_ts_list := r_ts_list d; r_sync_ids := sync;
                           r_reads := reads |} in
              pool_consistent (r_state (route_reader task now d2)) /\
              next_task_id_ (r_state (route_reader task now d2))
              = next_task_id_ (r_state d) + 1 /\
              reader_gathers d (route_reader task now d2) /\
              (pending_at (r_state (route_reader task now d2)) (row_key mu) id \/
               (exists server,
                  reader_listed (r_ts_list (route_reader task now d2)) server id) \/
               (true = true /\ is_async mu = true /\
                refused id (r_state d) (r_state (route_reader task now d2))))).
    { intros cc reads d2.
      destruct (route_reader_places task now d2 (Hc2 cc)) as (H1 & H2 & H3 & H4).
      split; [exact H1|]. split; [rewrite H2; reflexivity|].
      split; [eapply reader_gathers_trans; [apply Hg2|exact H3]|].
      destruct H4 as [H4|H4]; [left; exact H4|right; left; exact H4]. }
    destruct (_ && is_async task) eqn:Hb.
    + apply andb_true_iff in Hb as [_ Hasync].
      destruct (FLAGS_tera_sdk_async_blocking_enabled _).
      * destruct (wait_below _ _ _) as [[c' reads']|]; [|discriminate].
        intros [= <-]. apply (Hroute c' reads').
      * intros [= <-]. simpl. split.
        { intros id' t. apply pool_consistent_alter_error.
          exact (pool_consistent_register (r_state d) id mu Hc). }
        split; [reflexivity|]. split.
        { apply reader_gathers_state; [reflexivity| |reflexivity].
          eexists. unfold emit. simpl. rewrite <- app_assoc. reflexivity. }
        right. right. split; [reflexivity|]. split; [exact Hasync|].
        eexists. split; [unfold emit; simpl; rewrite <- app_assoc; reflexivity|].
        right. left.
    + intros [= <-].
      replace st2 with (set_cur_reader_pending_counter_ c st2) by reflexivity.
      apply (Hroute c (r_reads d)).
  - intros [= <-].
    destruct (route_reader_places mu now
                {| r_state := r_state d; r_ts_list := r_ts_list d;
                   r_sync_ids := r_sync_ids d; r_reads := r_reads d |} Hc)
      as (H1 & H2 & H3 & H4).
    split; [exact H1|]. split; [exact H2|]. split.
    + eapply reader_gathers_trans; [|exact H3].
      apply reader_gathers_state; [reflexivity| |reflexivity].
      exists []. symmetry. apply app_nil_r.
    + destruct H4 as [H4|H4]; [left; exact H4|right; left; exact H4].
Qed.

Lemma refused_reader_gathers id d0 d d' :
  (exists new, log (r_state d) = (log (r_state d0) ++ new)%list) ->
  reader_gathers d d' ->
  (refused id (r_state d0) (r_state d) -> refused id (r_state d0) (r_state d')) /\
  (refused id (r_state d) (r_state d') -> refused id (r_state d0) (r_state d')).
Proof.
  intros [pre Hpre] (_ & _ & [new Hnew] & _). split.
  - intros (n & Hn & Hin). exists (n ++ new)%list.
    split; [rewrite Hnew, Hn; symmetry; apply app_assoc|]. apply elem_of_app. auto.
  - intros (n & Hn & Hin). exists (pre ++ n)%list.
    split; [rewrite Hn, Hpre; symmetry; apply app_assoc|]. apply elem_of_app. auto.
Qed.

Lemma distribute_readers_places cbu smt now tasks : forall d d',
  pool_consistent (r_state d) ->
  distribute_readers cbu smt now tasks d = Some d' ->
  pool_consistent (r_state d') /\ reader_gathers d d' /\
  forall (i : nat) mu, tasks !! i = Some mu ->
    let id := if cbu then next_task_id_ (r_state d) + Z.of_nat i + 1 else task_id mu in
    pending_at (r_state d') (row_key mu) id \/
    (exists server, reader_listed (r_ts_list d') server id) \/
    (cbu = true /\ is_async mu = true /\ refused id (r_state d) (r_state d')).
Proof.
  induction tasks as [|mu0 rest IH]; intros d d' Hc; simpl.
  - intros [= <-]. split; [exact Hc|]. split; [apply reader_gathers_refl|].
    intros i mu Hi. discriminate.
  - destruct (distribute_reader cbu smt now d mu0) as [d1|] eqn:E; [|discriminate].
    intros Hrest.
    destruct (distribute_reader_places cbu smt now d mu0 d1 Hc E)
      as (Hc1 & Hnext & Hg1 & Hplace).
    destruct (IH d1 d' Hc1 Hrest) as (Hc' & Hg & Hall).
    split; [exact Hc'|]. split; [eapply reader_gathers_trans; eauto|].
    pose proof Hg1 as (_ & _ & Hlog1 & _).
    intros [|i] mu Hi; simpl in Hi.
    + injection Hi as <-. cbv zeta in Hplace |- *.
      replace (next_task_id_ (r_state d) + Z.of_nat 0 + 1)
        with (next_task_id_ (r_state d) + 1) by lia.
      destruct Hg as (Hp & Hl & Hlog & Hm).
      destruct Hplace as [H|[[server H]|(H1 & H2 & H3)]].
      * left. apply Hp. exact H.
      * right. left. exists server. apply Hl. exact H.
      * right. right. split; [exact H1|]. split; [exact H2|].
        apply (proj1 (refused_reader_gathers _ d d1 d' Hlog1
                        (conj Hp (conj Hl (conj Hlog Hm))))).
        exact H3.
    + specialize (Hall i mu Hi). cbv zeta in Hall |- *.
      assert (Hid : (if cbu then next_task_id_ (r_state d1) + Z.of_nat i + 1 else task_id mu)
                    = (if cbu then next_task_id_ (r_state d) + Z.of_nat (S i) + 1
                       else task_id mu)).
      { destruct cbu; [rewrite Hnext; lia|reflexivity]. }
      rewrite Hid in Hall.
      destruct Hall as [H|[H|(H1 & H2 & H3)]]; [left; exact H|right; left; exact H|].
      right. right. split; [exact H1|]. split; [exact H2|].
      apply (proj2 (refused_reader_gathers _ d d1 d' Hlog1 Hg)). exact H3.
Qed.

Lemma PackReaders_other_batch server reader_list s st :
  s <> server ->
  reader_batch_map_ (PackReaders server reader_list st) !! s = reader_batch_map_ st !! s.
Proof.
  intros Hs. unfold PackReaders, find_or_create_reader_batch.
  destruct (reader_batch_map_ st !! server); simpl; destruct (_ <=? _); simpl;
    rewrite ?lookup_delete_ne, ?lookup_insert_ne by congruence; reflexivity.
Qed.

Lemma reader_batched_other server id st0 st s rl :
  s <> server ->
  reader_batched server id st0 st ->
  reader_batched server id st0 (PackReaders s rl st).
Proof.
  intros Hne (new & Hl & H).
  destruct (quiet_log _ _ (quiet_PackReaders s rl st)) as [new' Hl'].
  exists (new ++ new')%list. split; [rewrite Hl', Hl; symmetry; apply app_assoc|].
  destruct H as [(b & ids & Hev & Hid)|(b & Hb & Hid)].
  - left. exists b, ids. split; [apply elem_of_app; auto|exact Hid].
  - right. exists b. split; [|exact Hid].
    rewrite (PackReaders_other_batch s rl server st (not_eq_sym Hne)). exact Hb.
Qed.

Lemma pack_all_readers_batched ts_list st server id :
  reader_listed ts_list server id ->
  reader_batched server id st (pack_all_readers ts_list st).
Proof.
  intros (rl & Hrl & Hid). unfold pack_all_readers.
  assert (Hin : server ∈ sorted_keys ts_list) by (apply elem_of_sorted_keys; eauto).
  pose proof (NoDup_sorted_keys ts_list) as Hnd.
  set (step := fun s server_addr =>
                 match ts_list !! server_addr with
                 | Some l => PackReaders server_addr l s
                 | None => s
                 end).
  assert (Hkeep : forall ks st0 st1, server ∉ ks ->
            reader_batched server id st0 st1 ->
            reader_batched server id st0 (foldl step st1 ks)).
  { induction ks as [|k ks IH]; intros st0 st1 Hnin H; [exact H|].
    apply not_elem_of_cons in Hnin as [Hne Hnin]. simpl. apply IH; [exact Hnin|].
    unfold step. destruct (ts_list !! k); [|exact H].
    apply reader_batched_other; [congruence|exact H]. }
  revert st Hin Hnd. generalize (sorted_keys ts_list).
  induction l as [|k ks IH]; intros st Hin Hnd; [inversion Hin|].
  apply NoDup_cons in Hnd as [Hk Hnd]. simpl.
  apply elem_of_cons in Hin as [<-|Hin].
  - apply Hkeep; [exact Hk|]. unfold step. rewrite Hrl.
    apply PackReaders_batched. exact Hid.
  - assert (Hpre : exists pre, log (step st k) = (log st ++ pre)%list).
    { unfold step. destruct (ts_list !! k) as [l0|].
      - apply quiet_log, quiet_PackReaders.
      - exists []. symmetry. apply app_nil_r. }
    destruct Hpre as [pre Hpre].
    apply (reader_batched_earlier server id st (step st k) _ pre Hpre).
    apply IH; assumption.
Qed.

Lemma pack_all_readers_pending ts_list st :
  pending_task_id_list_ (pack_all_readers ts_list st) = pending_task_id_list_ st /\
  exists new, log (pack_all_readers ts_list st) = (log st ++ new)%list.
Proof.
  unfold pack_all_readers. generalize (sorted_keys ts_list). intros l. revert st.
  induction l as [|k ks IH]; intros st; simpl.
  - split; [reflexivity|]. exists []. symmetry. apply app_nil_r.
  - destruct (IH (match ts_list !! k with
                  | Some l => PackReaders k l st
                  | None => st
                  end)) as [H1 [new H2]].
    rewrite H1, H2. destruct (ts_list !! k) as [l|].
    + split; [apply PackReaders_pending|].
      destruct (quiet_log _ _ (quiet_PackReaders k l st)) as [pre Hpre].
      exists (pre ++ new)%list. rewrite Hpre. symmetry. apply app_assoc.
    + split; [reflexivity|]. eauto.
Qed.

Lemma wait_sync_reader_keeps max ids : forall reads st st' reads',
  wait_sync cur_reader_pending_counter_ set_cur_reader_pending_counter_ max ids reads st
  = Some (st', reads') ->
  pending_task_id_list_ st' = pending_task_id_list_ st /\
  reader_batch_map_ st' = reader_batch_map_ st /\
  exists new, log st' = (log st ++ new)%list.
Proof.
  induction ids as [|id ids IH]; intros reads st st' reads'; simpl.
  - intros [= <- <-]. split; [reflexivity|]. split; [reflexivity|].
    exists []. symmetry. apply app_nil_r.
  - destruct (wait_below _ _ _) as [[c' r']|]; [|discriminate]. intros H.
    apply IH in H as (H1 & H2 & new & H3). simpl in *.
    split; [exact H1|]. split; [exact H2|].
    eexists. rewrite H3. rewrite <- app_assoc. reflexivity.
Qed.

Lemma reader_batched_later server id st0 st st' :
  reader_batched server id st0 st ->
  reader_batch_map_ st' = reader_batch_map_ st ->
  (exists new, log st' = (log st ++ new)%list) ->
  reader_batched server id st0 st'.
Proof.
  intros (new & Hl & H) Hm [new' Hl'].
  exists (new ++ new')%list. split; [rewrite Hl', Hl; symmetry; apply app_assoc|].
  rewrite Hm. destruct H as [(b & ids & Hev & Hid)|H]; [|right; exact H].
  left. exists b, ids. split; [apply elem_of_app; auto|exact Hid].
Qed.

(** X22. [DistributeReaders] places every row.  Let every task of the
    pool be the entry of its own id.  When the call returns, each reader
    of the list, under the id it was given (the next ids in the order of
    the list for a call by the user, its own id for a retry), waits for
    the meta of its row key in [pending_task_id_list_], or is in a batch
    of reads of a server that was committed during the call or is stored,
    or, for an asynchronous reader of a call by the user, was refused by
    flow control with its [BreakRequest] scheduled. *)
Theorem DistributeReaders_places_every_row (tasks : list SdkTask)
    (called_by_user : bool) (now : Z) (reads reads' : list Z) (st st' : t) :
  pool_consistent st ->
  DistributeReaders tasks called_by_user now reads st = Some (st', reads') ->
  forall (i : nat) (reader : SdkTask), tasks !! i = Some reader ->
    let id := if called_by_user then next_task_id_ st + Z.of_nat i + 1
              else task_id reader in
    pending_at st' (row_key reader) id \/
    (exists server, reader_batched server id st st') \/
    (called_by_user = true /\ is_async reader = true /\ refused id st st').
Proof.
  intros Hc Hrun i mu Hi. unfold DistributeReaders in Hrun.
  set (smt := if called_by_user then _ else _) in Hrun.
  set (d0 := {| r_state := st; r_ts_list := ∅; r_sync_ids := []; r_reads := reads |}) in Hrun.
  destruct (distribute_readers called_by_user smt now tasks d0) as [d|] eqn:E;
    [|discriminate].
  destruct (distribute_readers_places called_by_user smt now tasks d0 d Hc E)
    as (_ & Hg & Hall).
  specialize (Hall i mu Hi). cbv zeta in Hall |- *. simpl in Hall.
  set (id := if called_by_user then next_task_id_ st + Z.of_nat i + 1 else task_id mu) in *.
  destruct (pack_all_readers_pending (r_ts_list d) (r_state d)) as [Hp1 Hl1].
  destruct Hg as (_ & _ & Hl0 & _). simpl in Hl0.
  assert (Hfinal : pending_task_id_list_ st'
                   = pending_task_id_list_ (pack_all_readers (r_ts_list d) (r_state d)) /\
                   reader_batch_map_ st'
                   = reader_batch_map_ (pack_all_readers (r_ts_list d) (r_state d)) /\
                   exists new, log st'
                     = (log (pack_all_readers (r_ts_list d) (r_state d)) ++ new)%list).
  { destruct (negb called_by_user).
    - injection Hrun as <- _. split; [reflexivity|]. split; [reflexivity|].
      exists []. symmetry. apply app_nil_r.
    - apply wait_sync_reader_keeps in Hrun. exact Hrun. }
  destruct Hfinal as (Hp2 & Hm2 & Hl2).
  destruct Hall as [H|[[server H]|(H1 & H2 & H3)]].
  - left. unfold pending_at in *. rewrite Hp2, Hp1. exact H.
  - right. left. exists server.
    destruct Hl0 as [pre Hpre].
    apply (reader_batched_later server id st
             (pack_all_readers (r_ts_list d) (r_state d)) st'); [|exact Hm2|exact Hl2].
    apply (reader_batched_earlier server id st (r_state d) _ pre Hpre).
    apply pack_all_readers_batched. exact H.
  - right. right. split; [exact H1|]. split; [exact H2|].
    destruct H3 as (n & Hn & Hin). destruct Hl1 as [n1 Hn1]. destruct Hl2 as [n2 Hn2].
    exists (n ++ n1 ++ n2)%list. split.
    + rewrite Hn2, Hn1, Hn. rewrite <- !app_assoc. reflexivity.
    + apply elem_of_app. left. exact Hin.
Qed.

Lemma DistributeReaders_places_every_row_witness :
  let tasks := [example_task READ 0 "a" true; example_task READ 0 "b" true;
                example_task READ 0 "c" true; example_task READ 0 "d" true] in
  let st := example_cached NORMAL in
  let st' := fst (default (st, []) (DistributeReaders tasks true 200 [] st)) in
  pending_at st' "d" 4 \/
  (exists server, reader_batched server 4 st st') \/
  (true = true /\ is_async (example_task READ 0 "d" true) = true /\ refused 4 st st').
Proof.
  cbv zeta.
  assert (Hc : pool_consistent (example_cached NORMAL)).
  { intros id task H. unfold example_cached in H. simpl in H.
    rewrite lookup_empty in H. discriminate. }
  exact (DistributeReaders_places_every_row
           [example_task READ 0 "a" true; example_task READ 0 "b" true;
            example_task READ 0 "c" true; example_task READ 0 "d" true]
           true 200 [] _ (example_cached NORMAL) _ Hc
           ltac:(vm_compute; reflexivity) 3%nat _ eq_refl).
Defined.

(** ** The timeout of the synchronous rows *)

Lemma sync_min_timeout_fold cfg tasks : forall acc,
  acc = -1 \/ 0 < acc ->
  let r := foldl (fun acc task =>
                    if is_async task then acc
                    else
                      let row_timeout := row_timeout_of cfg task in
                      if (0 <? row_timeout) && ((acc <=? 0) || (row_timeout <? acc))
                      then row_timeout else acc)
                 acc tasks in
  (r = acc \/ r ∈ sync_timeouts cfg tasks) /\
  (r = -1 \/ 0 < r) /\
  (0 < acc -> r <= acc) /\
  (forall x, x ∈ sync_timeouts cfg tasks -> 0 < r <= x).
Proof.
  unfold sync_timeouts.
  induction tasks as [|task rest IH]; intros acc Hacc; cbv zeta.
  - simpl. split; [auto|]. split; [exact Hacc|]. split; [lia|].
    intros x Hx. inversion Hx.
  - cbn [foldl]. rewrite filter_cons.
    destruct (is_async task) eqn:Ha.
    + destruct (decide (true = false)) as [?|_]; [discriminate|].
      apply IH. exact Hacc.
    + destruct (decide (false = false)) as [_|?]; [|congruence].
      cbn [fmap list_fmap]. rewrite filter_cons.
      set (rt := row_timeout_of cfg task).
      destruct (decide (0 < rt)) as [Hpos|Hneg].
      * destruct (Z.ltb_spec 0 rt) as [_|?]; [|lia]. cbn [andb].
        destruct ((acc <=? 0) || (rt <? acc)) eqn:Hb.
        -- assert (Hle : 0 < acc -> rt <= acc).
           { intros Hp. apply orb_true_iff in Hb as [Hb|Hb];
               [apply Z.leb_le in Hb|apply Z.ltb_lt in Hb]; lia. }
           specialize (IH rt (or_intror Hpos)). cbv zeta in IH.
           destruct IH as (H1 & H2 & H3 & H4).
           match type of H1 with
           | ?r = _ \/ _ =>
               assert (Hr : 0 < r)
                 by (destruct H1 as [H1|H1];
                     [rewrite H1; exact Hpos
                     |apply list_elem_of_filter in H1 as [H1 _]; exact H1])
           end.
           split.
           { right. destruct H1 as [->|H1]; [left|right; exact H1]. }
           split; [exact H2|]. split; [specialize (H3 Hpos); lia|].
           intros x Hx. apply elem_of_cons in Hx as [->|Hx]; [|apply H4; exact Hx].
           specialize (H3 Hpos). lia.
        -- apply orb_false_iff in Hb as [Hb1 Hb2].
           apply Z.leb_gt in Hb1. apply Z.ltb_ge in Hb2.
           assert (Hp : 0 < acc) by lia. assert (Hle : acc <= rt) by lia.
           specialize (IH acc Hacc). cbv zeta in IH.
           destruct IH as (H1 & H2 & H3 & H4).
           match type of H1 with
           | ?r = _ \/ _ =>
               assert (Hr : 0 < r)
                 by (destruct H1 as [H1|H1];
                     [rewrite H1; exact Hp
                     |apply list_elem_of_filter in H1 as [H1 _]; exact H1])
           end.
           split.
           { destruct H1 as [H1|H1]; [left; exact H1|right; right; exact H1]. }
           split; [exact H2|]. split; [exact H3|].
           intros x Hx. apply elem_of_cons in Hx as [->|Hx]; [|apply H4; exact Hx].
           specialize (H3 Hp). lia.
      * destruct (Z.ltb_spec 0 rt) as [?|_]; [lia|]. cbn [andb].
        apply IH. exact Hacc.
Qed.

(** X23. The timeout given to the synchronous rows of a call.  The first
    loop of [DistributeMutations] (and of [DistributeReaders]) leaves in
    [sync_min_timeout] the least of the positive timeouts of the
    synchronous rows, a row's timeout being its own if that is positive
    and [timeout_] otherwise; it leaves -1 exactly when no synchronous row
    has a positive timeout. *)
Theorem sync_min_timeout_of_least (cfg : Config) (tasks : list SdkTask) :
  let r := sync_min_timeout_of cfg tasks in
  (sync_timeouts cfg tasks = [] -> r = -1) /\
  (sync_timeouts cfg tasks <> [] ->
   r ∈ sync_timeouts cfg tasks /\ forall x, x ∈ sync_timeouts cfg tasks -> r <= x).
Proof.
  cbv zeta. unfold sync_min_timeout_of.
  pose proof (sync_min_timeout_fold cfg tasks (-1) (or_introl eq_refl)) as H.
  cbv zeta in H. destruct H as (H1 & H2 & _ & H4). split.
  - intros He. rewrite He in H1. destruct H1 as [H1|H1]; [exact H1|inversion H1].
  - intros Hne. destruct (sync_timeouts cfg tasks) as [|x l] eqn:E; [congruence|].
    assert (Hx : x ∈ x :: l) by left.
    pose proof (H4 x Hx) as Hr.
    split.
    + destruct H1 as [H1|H1]; [lia|exact H1].
    + intros y Hy. specialize (H4 y Hy). lia.
Qed.
